(** * GodModeEngine: the autonomous optimisation engine of
      src/lib/sota/GodModeEngine.ts, as a shallow embedding.

    The class [GodModeEngine] keeps a queue of URLs to optimise, and drives it
    through four phases (scan, score, generate, publish) from one main loop.
    The embedding follows the TypeScript source method by method:

    - the private fields of the class are the fields of the record [Engine];
    - a method is a computation in the monad [M]: it threads the engine and
      either returns a value or throws (a JavaScript exception);
    - the two callbacks of the options ([onStateUpdate], [onActivity]), the
      sleeps and the calls to the collaborators (page analyser, content
      generator, WordPress endpoint) are recorded, most recent first, in the
      field [emitted];
    - what the platform or a collaborator answers (URL parsing, local time,
      [Math.random], the analyser, the generator, the publisher, the
      application configuration, calls of [pause]/[resume]/[stop] arriving
      while the loop is waiting) is read from an [Environment].

    Numbers: scores and millisecond times are integers ([Z]), counters are
    natural numbers; the jitter of [calculateBackoffDelay] is computed in
    doubles, each operation rounded to the nearest double (module [Double]).

    Left out: the [details] argument of [log] and the pictographs of the
    messages; the progress callback handed to the generator; the early end
    of a sleep when [stop] aborts it (a sleep lasts its full time, and the
    calls of [pause], [resume] and [stop] take effect at the head of the
    loops, see [deliver]); what the callbacks of the options do, which is
    the host's business. *)

From Stdlib Require Import List String Ascii ZArith QArith Qround Qpower Lia Bool.
From Stdlib Require Import Sorted Permutation DecimalString Lqa.
Import ListNotations.

Local Open Scope Z_scope.

Infix "+++" := String.append (right associativity, at level 60).

(** Template literals print a number in decimal. *)
Definition show (z : Z) : string := NilZero.string_of_int (Z.to_int z).

(* ================================================================== *)
(** ** Data model (GodModeTypes, as the engine uses it) *)

Inductive Priority := critical | high | medium | low.

Inductive Source := scan | manual.

Record GodModeQueueItem := mkQueueItem {
  id : nat;                       (* crypto.randomUUID() *)
  url : string;
  priority : Priority;
  healthScore : Z;
  addedAt : Z;
  source : Source;
  retryCount : nat;
  lastError : option string
}.

Definition Priority_eqb (p q : Priority) : bool :=
  match p, q with
  | critical, critical | high, high | medium, medium | low, low => true
  | _, _ => false
  end.

(* ================================================================== *)
(** ** Array.prototype.sort and [sortQueue]

    ECMAScript requires [sort] to be stable, and for a consistent comparator
    the result is the one stable ordering of the input; it is computed here
    by insertion, each element going before the first element it does not
    compare greater than. *)

Section ArraySort.
Context {A : Type} (compareFn : A -> A -> Z).

Fixpoint Array_insert (x : A) (l : list A) : list A :=
  match l with
  | [] => [x]
  | y :: l' => if compareFn x y <=? 0 then x :: l else y :: Array_insert x l'
  end.

Fixpoint Array_sort (l : list A) : list A :=
  match l with
  | [] => []
  | x :: l' => Array_insert x (Array_sort l')
  end.

End ArraySort.

(** [const priorityOrder = { critical: 0, high: 1, medium: 2, low: 3 }] *)
Definition priorityOrder (p : Priority) : Z :=
  match p with critical => 0 | high => 1 | medium => 2 | low => 3 end.

(** The comparator handed to [this.queue.sort]. *)
Definition compareItems (a b : GodModeQueueItem) : Z :=
  let priorityDiff := priorityOrder (priority a) - priorityOrder (priority b) in
  if negb (priorityDiff =? 0) then priorityDiff
  else healthScore a - healthScore b.

Definition sortItems (q : list GodModeQueueItem) : list GodModeQueueItem :=
  Array_sort compareItems q.

(** The order the queue is kept in: every item compares at most equal to every
    item behind it. *)
Definition comesFirst (a b : GodModeQueueItem) : Prop := compareItems a b <= 0.

Definition QueueOrdered (q : list GodModeQueueItem) : Prop :=
  StronglySorted comesFirst q.

(* ================================================================== *)
(** ** Observable state, history and activity (GodModeTypes)

    Three of the source's enumerations have a member called [error]; the
    status and the history action are written [status_error] and
    [action_error] here. *)

Inductive ActivityType := info | success | warning | error.

Inductive GodModeStatus := idle | running | paused | status_error.

Inductive GodModePhase := scanning | scoring | generating | publishing.

Inductive HistoryAction := generated | published | skipped | action_error.

(** What [generateContent] resolves to, as far as the engine reads it. *)
Record GeneratedContent := mkContent {
  title : option string;
  content : option string;
  seoTitle : option string;
  metaDescription : option string;
  qualityScore_overall : option Z;     (* content.qualityScore?.overall *)
  metrics_wordCount : option Z         (* content.metrics?.wordCount *)
}.

(** The [generatedContent] object stored with a history entry. *)
Record ContentSnapshot := mkSnapshot {
  snap_title : string;
  snap_content : string;
  snap_seoTitle : string;
  snap_metaDescription : string;
  snap_slug : string
}.

Record GodModeHistoryItem := mkHistory {
  h_id : nat;
  h_timestamp : Z;
  h_url : string;
  action : HistoryAction;
  h_qualityScore : option Z;
  h_wordCount : option Z;
  h_processingTimeMs : option Z;
  wordPressUrl : option string;
  h_error : option string;
  generatedContent : option ContentSnapshot
}.

Record GodModeStats := mkStats {
  totalProcessed : Z;
  successCount : Z;
  errorCount : Z;
  avgQualityScore : Z;
  lastScanAt : option Z;
  nextScanAt : option Z;
  totalWordsGenerated : Z;
  sessionStartedAt : Z;
  st_cycleCount : nat
}.

(** [updateStats] sends a delta under the key [stats] (cast to [any]). *)
Inductive StatsPayload :=
| FullStats (s : GodModeStats)
| StatsDelta (processed succeeded failed quality words : Z).

(** [Partial<GodModeState>]: a key that is absent is [None]. The queue is
    passed by reference in the source; the record holds its value at the
    time of the call. *)
Record StateUpdates := mkUpdates {
  u_status : option GodModeStatus;
  u_currentPhase : option (option GodModePhase);
  u_currentUrl : option (option string);
  u_queue : option (list GodModeQueueItem);
  u_stats : option StatsPayload;
  u_history : option (list GodModeHistoryItem);
  u_lastError : option string
}.

Definition noUpdates : StateUpdates := mkUpdates None None None None None None None.

(** The body of the POST to /api/wordpress-publish. *)
Record PublishRequest := mkRequest {
  rq_wpUrl : option string;
  rq_wpUsername : option string;
  rq_wpPassword : option string;
  rq_title : option string;
  rq_content : option string;
  rq_status : string;
  rq_seoTitle : option string;
  rq_metaDescription : option string;
  rq_sourceUrl : string
}.

Inductive Method := m_runScanPhase | m_runScoringPhase | m_runGenerationPhase | m_runPublishPhase.

(** What the engine does to the world around it. [entered] marks the call of
    a phase method; it has no counterpart in the source and no effect. *)
Inductive Event :=
| onActivity (type : ActivityType) (message : string)
| onStateUpdate (updates : StateUpdates)
| slept (ms : Z)
| analyzePage_called (target : string)
| generateContent_called (keyword : string)
| wordpressPublish_called (request : PublishRequest)
| entered (m : Method).

(* ================================================================== *)
(** ** Options and environment *)

Record GodModeConfig := mkConfig {
  qualityThreshold : Z;
  retryAttempts : Z;
  minHealthScore : Z;
  autoPublish : bool;
  maxPerDay : Z;
  processingIntervalMinutes : Z;
  scanIntervalHours : Z;
  activeHoursStart : Z;
  activeHoursEnd : Z;
  enableWeekends : bool;
  defaultStatus : string
}.

Record PriorityUrl := mkPriorityUrl { p_url : string; p_priority : Priority }.

(** What [getAppConfig()] returns, as far as the engine reads it (the API keys
    and the model name are only handed on to the orchestrator). *)
Record AppConfig := mkAppConfig {
  wpUrl : option string;
  wpUsername : option string;
  wpAppPassword : option string;
  neuronWriterApiKey : option string;
  neuronWriterProjectId : option string
}.

Record GodModeEngineOptions := mkOptions {
  config : GodModeConfig;
  sitemapUrls : list string;
  priorityUrls : list PriorityUrl;
  excludedUrls : list string;
  excludedCategories : list string;
  priorityOnlyMode : bool
}.

(** How a promise settles. *)
Inductive Settled (A : Type) :=
| Resolved (value : A)
| Rejected (message : string).
Arguments Resolved {A} value.
Arguments Rejected {A} message.

(** An awaited call: the time it takes and how it settles. *)
Record Call (A : Type) := mkCall { took : Z; settled : Settled A }.
Arguments mkCall {A} took settled.
Arguments took {A} c.
Arguments settled {A} c.

Record HttpResponse := mkResponse {
  ok : bool;
  status : Z;
  json_link : option string          (* (await response.json()).link *)
}.

(** The public methods somebody else may call while the loop is waiting. *)
Inductive Command := call_pause | call_resume | call_stop.

Record Environment := mkEnvironment {
  (* platform *)
  URL_pathname : string -> option string;   (* new URL(u).pathname; None: it throws *)
  toLowerCase : string -> string;
  includes : string -> string -> bool;      (* s.includes(t) *)
  split_slash : string -> list string;      (* s.split('/') *)
  titleCase : string -> string;  (* s.replace(/-/g, ' ').replace(/\b\w/g, l => l.toUpperCase()) *)
  getHours : Z -> Z;                        (* local hour of a time *)
  getDay : Z -> Z;                          (* local day of the week of a time *)
  random : nat -> Q;                        (* the n-th Math.random() *)
  (* collaborators *)
  getAppConfig : Z -> AppConfig;            (* the configuration at a time *)
  analyzePage : nat -> string -> Call Z;    (* n-th call: the score *)
  generateContent : nat -> string -> Call GeneratedContent;
  wordpressPublish : nat -> PublishRequest -> Call HttpResponse;
  (* callers of the engine *)
  commands : nat -> list Command
}.

(* ================================================================== *)
(** ** The engine object *)

Record Engine := mkEngine {
  isRunning : bool;
  isPaused : bool;
  abortController : option bool;     (* None: null; Some b: signal.aborted = b *)
  orchestrator : option AppConfig;   (* None: null *)
  queue : list GodModeQueueItem;
  processedToday : nat;
  lastScanTime : option Z;
  cycleCount : nat;
  consecutiveFailures : nat;
  circuitBrokenUntil : option Z;
  qualityScoreHistory : list Z;
  processingTimeHistory : list Z;
  (* the world around the object *)
  clock : Z;                         (* Date.now() *)
  uuids : nat;                       (* identifiers drawn so far *)
  analyzerCalls : nat;
  generatorCalls : nat;
  publisherCalls : nat;
  randomDraws : nat;
  deliveries : nat;                  (* points at which commands were let in *)
  emitted : list Event               (* most recent first *)
}.

Definition set_isRunning (v : bool) (e : Engine) : Engine :=
  mkEngine v (isPaused e) (abortController e) (orchestrator e) (queue e) (processedToday e) (lastScanTime e) (cycleCount e) (consecutiveFailures e) (circuitBrokenUntil e) (qualityScoreHistory e) (processingTimeHistory e) (clock e) (uuids e) (analyzerCalls e) (generatorCalls e) (publisherCalls e) (randomDraws e) (deliveries e) (emitted e).

Definition set_isPaused (v : bool) (e : Engine) : Engine :=
  mkEngine (isRunning e) v (abortController e) (orchestrator e) (queue e) (processedToday e) (lastScanTime e) (cycleCount e) (consecutiveFailures e) (circuitBrokenUntil e) (qualityScoreHistory e) (processingTimeHistory e) (clock e) (uuids e) (analyzerCalls e) (generatorCalls e) (publisherCalls e) (randomDraws e) (deliveries e) (emitted e).

Definition set_abortController (v : option bool) (e : Engine) : Engine :=
  mkEngine (isRunning e) (isPaused e) v (orchestrator e) (queue e) (processedToday e) (lastScanTime e) (cycleCount e) (consecutiveFailures e) (circuitBrokenUntil e) (qualityScoreHistory e) (processingTimeHistory e) (clock e) (uuids e) (analyzerCalls e) (generatorCalls e) (publisherCalls e) (randomDraws e) (deliveries e) (emitted e).

Definition set_orchestrator (v : option AppConfig) (e : Engine) : Engine :=
  mkEngine (isRunning e) (isPaused e) (abortController e) v (queue e) (processedToday e) (lastScanTime e) (cycleCount e) (consecutiveFailures e) (circuitBrokenUntil e) (qualityScoreHistory e) (processingTimeHistory e) (clock e) (uuids e) (analyzerCalls e) (generatorCalls e) (publisherCalls e) (randomDraws e) (deliveries e) (emitted e).

Definition set_queue (v : list GodModeQueueItem) (e : Engine) : Engine :=
  mkEngine (isRunning e) (isPaused e) (abortController e) (orchestrator e) v (processedToday e) (lastScanTime e) (cycleCount e) (consecutiveFailures e) (circuitBrokenUntil e) (qualityScoreHistory e) (processingTimeHistory e) (clock e) (uuids e) (analyzerCalls e) (generatorCalls e) (publisherCalls e) (randomDraws e) (deliveries e) (emitted e).

Definition set_processedToday (v : nat) (e : Engine) : Engine :=
  mkEngine (isRunning e) (isPaused e) (abortController e) (orchestrator e) (queue e) v (lastScanTime e) (cycleCount e) (consecutiveFailures e) (circuitBrokenUntil e) (qualityScoreHistory e) (processingTimeHistory e) (clock e) (uuids e) (analyzerCalls e) (generatorCalls e) (publisherCalls e) (randomDraws e) (deliveries e) (emitted e).

Definition set_lastScanTime (v : option Z) (e : Engine) : Engine :=
  mkEngine (isRunning e) (isPaused e) (abortController e) (orchestrator e) (queue e) (processedToday e) v (cycleCount e) (consecutiveFailures e) (circuitBrokenUntil e) (qualityScoreHistory e) (processingTimeHistory e) (clock e) (uuids e) (analyzerCalls e) (generatorCalls e) (publisherCalls e) (randomDraws e) (deliveries e) (emitted e).

Definition set_cycleCount (v : nat) (e : Engine) : Engine :=
  mkEngine (isRunning e) (isPaused e) (abortController e) (orchestrator e) (queue e) (processedToday e) (lastScanTime e) v (consecutiveFailures e) (circuitBrokenUntil e) (qualityScoreHistory e) (processingTimeHistory e) (clock e) (uuids e) (analyzerCalls e) (generatorCalls e) (publisherCalls e) (randomDraws e) (deliveries e) (emitted e).

Definition set_consecutiveFailures (v : nat) (e : Engine) : Engine :=
  mkEngine (isRunning e) (isPaused e) (abortController e) (orchestrator e) (queue e) (processedToday e) (lastScanTime e) (cycleCount e) v (circuitBrokenUntil e) (qualityScoreHistory e) (processingTimeHistory e) (clock e) (uuids e) (analyzerCalls e) (generatorCalls e) (publisherCalls e) (randomDraws e) (deliveries e) (emitted e).

Definition set_circuitBrokenUntil (v : option Z) (e : Engine) : Engine :=
  mkEngine (isRunning e) (isPaused e) (abortController e) (orchestrator e) (queue e) (processedToday e) (lastScanTime e) (cycleCount e) (consecutiveFailures e) v (qualityScoreHistory e) (processingTimeHistory e) (clock e) (uuids e) (analyzerCalls e) (generatorCalls e) (publisherCalls e) (randomDraws e) (deliveries e) (emitted e).

Definition set_qualityScoreHistory (v : list Z) (e : Engine) : Engine :=
  mkEngine (isRunning e) (isPaused e) (abortController e) (orchestrator e) (queue e) (processedToday e) (lastScanTime e) (cycleCount e) (consecutiveFailures e) (circuitBrokenUntil e) v (processingTimeHistory e) (clock e) (uuids e) (analyzerCalls e) (generatorCalls e) (publisherCalls e) (randomDraws e) (deliveries e) (emitted e).

Definition set_processingTimeHistory (v : list Z) (e : Engine) : Engine :=
  mkEngine (isRunning e) (isPaused e) (abortController e) (orchestrator e) (queue e) (processedToday e) (lastScanTime e) (cycleCount e) (consecutiveFailures e) (circuitBrokenUntil e) (qualityScoreHistory e) v (clock e) (uuids e) (analyzerCalls e) (generatorCalls e) (publisherCalls e) (randomDraws e) (deliveries e) (emitted e).

Definition set_clock (v : Z) (e : Engine) : Engine :=
  mkEngine (isRunning e) (isPaused e) (abortController e) (orchestrator e) (queue e) (processedToday e) (lastScanTime e) (cycleCount e) (consecutiveFailures e) (circuitBrokenUntil e) (qualityScoreHistory e) (processingTimeHistory e) v (uuids e) (analyzerCalls e) (generatorCalls e) (publisherCalls e) (randomDraws e) (deliveries e) (emitted e).

Definition set_uuids (v : nat) (e : Engine) : Engine :=
  mkEngine (isRunning e) (isPaused e) (abortController e) (orchestrator e) (queue e) (processedToday e) (lastScanTime e) (cycleCount e) (consecutiveFailures e) (circuitBrokenUntil e) (qualityScoreHistory e) (processingTimeHistory e) (clock e) v (analyzerCalls e) (generatorCalls e) (publisherCalls e) (randomDraws e) (deliveries e) (emitted e).

Definition set_analyzerCalls (v : nat) (e : Engine) : Engine :=
  mkEngine (isRunning e) (isPaused e) (abortController e) (orchestrator e) (queue e) (processedToday e) (lastScanTime e) (cycleCount e) (consecutiveFailures e) (circuitBrokenUntil e) (qualityScoreHistory e) (processingTimeHistory e) (clock e) (uuids e) v (generatorCalls e) (publisherCalls e) (randomDraws e) (deliveries e) (emitted e).

Definition set_generatorCalls (v : nat) (e : Engine) : Engine :=
  mkEngine (isRunning e) (isPaused e) (abortController e) (orchestrator e) (queue e) (processedToday e) (lastScanTime e) (cycleCount e) (consecutiveFailures e) (circuitBrokenUntil e) (qualityScoreHistory e) (processingTimeHistory e) (clock e) (uuids e) (analyzerCalls e) v (publisherCalls e) (randomDraws e) (deliveries e) (emitted e).

Definition set_publisherCalls (v : nat) (e : Engine) : Engine :=
  mkEngine (isRunning e) (isPaused e) (abortController e) (orchestrator e) (queue e) (processedToday e) (lastScanTime e) (cycleCount e) (consecutiveFailures e) (circuitBrokenUntil e) (qualityScoreHistory e) (processingTimeHistory e) (clock e) (uuids e) (analyzerCalls e) (generatorCalls e) v (randomDraws e) (deliveries e) (emitted e).

Definition set_randomDraws (v : nat) (e : Engine) : Engine :=
  mkEngine (isRunning e) (isPaused e) (abortController e) (orchestrator e) (queue e) (processedToday e) (lastScanTime e) (cycleCount e) (consecutiveFailures e) (circuitBrokenUntil e) (qualityScoreHistory e) (processingTimeHistory e) (clock e) (uuids e) (analyzerCalls e) (generatorCalls e) (publisherCalls e) v (deliveries e) (emitted e).

Definition set_deliveries (v : nat) (e : Engine) : Engine :=
  mkEngine (isRunning e) (isPaused e) (abortController e) (orchestrator e) (queue e) (processedToday e) (lastScanTime e) (cycleCount e) (consecutiveFailures e) (circuitBrokenUntil e) (qualityScoreHistory e) (processingTimeHistory e) (clock e) (uuids e) (analyzerCalls e) (generatorCalls e) (publisherCalls e) (randomDraws e) v (emitted e).

Definition set_emitted (v : list Event) (e : Engine) : Engine :=
  mkEngine (isRunning e) (isPaused e) (abortController e) (orchestrator e) (queue e) (processedToday e) (lastScanTime e) (cycleCount e) (consecutiveFailures e) (circuitBrokenUntil e) (qualityScoreHistory e) (processingTimeHistory e) (clock e) (uuids e) (analyzerCalls e) (generatorCalls e) (publisherCalls e) (randomDraws e) (deliveries e) v.

(* ================================================================== *)
(** ** Methods as computations

    A method runs on the engine and either returns or throws; what it did to
    the engine before throwing stays done. *)

Inductive Completion (A : Type) :=
| Returned (value : A)
| Thrown (message : string).
Arguments Returned {A} value.
Arguments Thrown {A} message.

Definition M (A : Type) : Type := Engine -> Completion A * Engine.

Definition ret {A} (a : A) : M A := fun e => (Returned a, e).

Definition throw {A} (message : string) : M A := fun e => (Thrown message, e).

Definition bind {A B} (m : M A) (k : A -> M B) : M B :=
  fun e =>
    match m e with
    | (Returned a, e') => k a e'
    | (Thrown message, e') => (Thrown message, e')
    end.

(** [try { body } catch (error) { handler(error.message) }] *)
Definition tryCatch {A} (body : M A) (handler : string -> M A) : M A :=
  fun e =>
    match body e with
    | (Returned a, e') => (Returned a, e')
    | (Thrown message, e') => handler message e'
    end.

Definition this : M Engine := fun e => (Returned e, e).

Definition assign (f : Engine -> Engine) : M unit := fun e => (Returned tt, f e).

Definition when (b : bool) (m : M unit) : M unit := if b then m else ret tt.

Declare Scope method_scope.
Delimit Scope method_scope with method.
Notation "x <- m ;; k" := (bind m (fun x => k))
  (at level 61, m at next level, right associativity) : method_scope.
Notation "m ;; k" := (bind m (fun _ => k))
  (at level 61, right associativity) : method_scope.
Local Open Scope method_scope.

(** The state of the engine after a method, and how the method completed. *)
Definition after {A} (m : M A) (e : Engine) : Engine := snd (m e).
Definition completion {A} (m : M A) (e : Engine) : Completion A := fst (m e).

(* ------------------------------------------------------------------ *)
(** *** Effects *)

Definition emit (ev : Event) : M unit :=
  assign (fun e => set_emitted (ev :: emitted e) e).

(** [this.log(type, message, details)]; the details and the pictographs of
    the messages are left out. *)
Definition log (type : ActivityType) (message : string) : M unit :=
  emit (onActivity type message).

Definition updateState (updates : StateUpdates) : M unit :=
  emit (onStateUpdate updates).

(** [await this.sleep(ms)]: a sleep is taken to last its full time. *)
Definition sleep (ms : Z) : M unit :=
  emit (slept ms) ;;
  assign (fun e => set_clock (clock e + Z.max 0 ms) e).

Definition randomUUID : M nat :=
  e <- this ;;
  assign (set_uuids (S (uuids e))) ;;
  ret (uuids e).

(** [await call]: time passes, then the promise settles. *)
Definition await {A} (c : Call A) : M A :=
  assign (fun e => set_clock (clock e + Z.max 0 (took c)) e) ;;
  match settled c with
  | Resolved v => ret v
  | Rejected message => throw message
  end.

(** JavaScript's [x || fallback] on an optional number or string, and the
    truth of an optional string. *)
Definition orZero (x : option Z) : Z :=
  match x with Some z => z | None => 0 end.

Definition orEmpty (x : option string) : string :=
  match x with Some s => s | None => EmptyString end.

Definition truthy (x : option string) : bool :=
  match x with Some s => negb (String.eqb s EmptyString) | None => false end.

(** [ENTERPRISE_CONSTANTS] *)
Definition MIN_QUALITY_SCORE : Z := 90.
Definition MAX_QUALITY_IMPROVEMENT_PASSES : nat := 3.
Definition EXPONENTIAL_BACKOFF_BASE_MS : Z := 5000.
Definition EXPONENTIAL_BACKOFF_MAX_MS : Z := 300000.
Definition CIRCUIT_BREAKER_THRESHOLD : nat := 5.
Definition CIRCUIT_BREAKER_RESET_MS : Z := 600000.

(** Doubles (IEEE 754 binary64), as the rationals they stand for. An
    operation of JavaScript on numbers is the exact operation followed by
    [round], the rounding to the nearest double, to the even one of two that
    are as near. Overflow to an infinity, beyond [2 ^ 1024], is not
    represented: the numbers of the engine stay far below. *)
Module Double.

(** The integer nearest to [q], the even one of two that are as near. *)
Definition nearestEven (q : Q) : Z :=
  let below := Qfloor q in
  match (q - inject_Z below ?= 1 # 2)%Q with
  | Lt => below
  | Gt => below + 1
  | Eq => if Z.even below then below else below + 1
  end.

(** The exponent of [q], positive: the [e] with [2 ^ e <= q < 2 ^ (e + 1)]. *)
Definition exponent (q : Q) : Z :=
  let k := Z.log2 (Qnum q) - Z.log2 (Zpos (Qden q)) in
  if Qle_bool (2 ^ k) q then k else k - 1.

(** The double nearest to [q], positive: 53 binary digits from the exponent
    down, and none below [2 ^ -1074]. *)
Definition roundPositive (q : Q) : Q :=
  let unit := (2 ^ Z.max (exponent q - 52) (-1074))%Q in
  (inject_Z (nearestEven (q / unit)) * unit)%Q.

Definition round (q : Q) : Q :=
  match (q ?= 0)%Q with
  | Eq => 0%Q
  | Gt => roundPositive q
  | Lt => (- roundPositive (- q))%Q
  end.

Definition add (x y : Q) : Q := round (x + y).
Definition sub (x y : Q) : Q := round (x - y).
Definition mul (x y : Q) : Q := round (x * y).

End Double.

(** The [delay] of [calculateBackoffDelay], before any jitter:
    [Math.min(BASE_MS * Math.pow(2, retryCount), MAX_MS)]. The power and the
    product are exact in doubles, or infinite, and then the minimum is
    [MAX_MS]. *)
Definition unjitteredDelay (retryCount : nat) : Z :=
  Z.min (EXPONENTIAL_BACKOFF_BASE_MS * 2 ^ Z.of_nat retryCount)
        EXPONENTIAL_BACKOFF_MAX_MS.

(** [calculateBackoffDelay], given the double that [Math.random()] returns:
    [jitter = delay * 0.2 * (Math.random() - 0.5)], from left to right, where
    [0.2] is the double nearest to one fifth; and the result is
    [Math.floor(delay + jitter)]. *)
Definition backoffDelay (retryCount : nat) (rnd : Q) : Z :=
  let delay := inject_Z (unjitteredDelay retryCount) in
  let jitter :=
    Double.mul (Double.mul delay (Double.round (2 # 10))) (Double.sub rnd (1 # 2)) in
  Qfloor (Double.add delay jitter).

Section Methods.
Variable env : Environment.
Variable options : GodModeEngineOptions.

Definition aborted (e : Engine) : bool :=     (* this.abortController?.signal.aborted *)
  match abortController e with Some b => b | None => false end.

Definition pop (l : list string) : option string := last (map Some l) None.

Definition nonEmpty (s : string) : bool := negb (String.eqb s EmptyString).

Definition getSlug (u : string) : string :=
  match URL_pathname env u with
  | Some pathname =>
      match pop (filter nonEmpty (split_slash env pathname)) with
      | Some s => if nonEmpty s then s else u
      | None => u
      end
  | None => u
  end.

Definition extractKeyword (u : string) : string :=
  match URL_pathname env u with
  | Some pathname =>
      let slug := orEmpty (pop (filter nonEmpty (split_slash env pathname))) in
      titleCase env slug
  | None => u
  end.

Definition isExcluded (u : string) : bool :=
  let pathname :=
    match URL_pathname env u with
    | Some p => toLowerCase env p
    | None => toLowerCase env u
    end in
  if existsb (fun excl =>
       match URL_pathname env excl with
       | Some p => String.eqb (toLowerCase env p) pathname || String.eqb u excl
       | None => includes env u excl
       end) (excludedUrls options)
  then true
  else if existsb (fun cat =>
       let catLower := toLowerCase env cat in
       existsb (fun segment => String.eqb segment catLower) (split_slash env pathname))
       (excludedCategories options)
  then true
  else false.

Definition calculatePriority (score : Z) (u : string) : Priority :=
  match find (fun p => String.eqb (p_url p) u) (priorityUrls options) with
  | Some priorityUrl => p_priority priorityUrl
  | None =>
      if score <? 30 then critical
      else if score <? 50 then high
      else if score <? 70 then medium
      else low
  end.

Definition sortQueue : M unit :=
  assign (fun e => set_queue (sortItems (queue e)) e).

(** [next.setHours(next.getHours() + scanIntervalHours)], an hour being
    3600000 ms. *)
Definition calculateNextScan (e : Engine) : Z :=
  clock e + scanIntervalHours (config options) * 3600000.

(** [(Date.now() - lastScanTime) / 3600000 >= scanIntervalHours] *)
Definition shouldScan (e : Engine) : bool :=
  match lastScanTime e with
  | None => true
  | Some t => scanIntervalHours (config options) * 3600000 <=? clock e - t
  end.

Definition isWithinActiveHours (e : Engine) : bool :=
  let hour := getHours env (clock e) in
  let day := getDay env (clock e) in
  if negb (enableWeekends (config options)) && ((day =? 0) || (day =? 6)) then false
  else (activeHoursStart (config options) <=? hour) && (hour <? activeHoursEnd (config options)).

Definition getDefaultStats (e : Engine) : GodModeStats :=
  mkStats 0 0 0 0 (lastScanTime e) (Some (calculateNextScan e)) 0 (clock e) (cycleCount e).

Definition addToHistory (make : nat -> Z -> GodModeHistoryItem) : M unit :=
  i <- randomUUID ;;
  e <- this ;;
  updateState (mkUpdates None None None None None (Some [make i (clock e)]) None).

Definition updateStats (quality words : Z) (succeeded : bool) : M unit :=
  updateState (mkUpdates None None None None
    (Some (StatsDelta 1 (if succeeded then 1 else 0) (if succeeded then 0 else 1) quality words))
    None None).

(* ------------------------------------------------------------------ *)
(** *** Circuit breaker and failure tracking *)

Definition isCircuitBroken : M bool :=
  e <- this ;;
  match circuitBrokenUntil e with
  | None => ret false
  | Some until =>
      if until <=? clock e then
        assign (set_circuitBrokenUntil None) ;;
        assign (set_consecutiveFailures 0%nat) ;;
        log info "Circuit breaker reset" ;;
        ret false
      else ret true
  end.

Definition calculateBackoffDelay (retryCount : nat) : M Z :=
  e <- this ;;
  assign (set_randomDraws (S (randomDraws e))) ;;
  ret (backoffDelay retryCount (random env (randomDraws e))).

(** [push] then, past 50 entries, [shift]. *)
Definition pushCapped (x : Z) (l : list Z) : list Z :=
  let l' := l ++ [x] in
  if (50 <? List.length l')%nat then tl l' else l'.

Definition recordSuccess (quality processingTime : Z) : M unit :=
  assign (set_consecutiveFailures 0%nat) ;;
  assign (fun e => set_qualityScoreHistory (pushCapped quality (qualityScoreHistory e)) e) ;;
  assign (fun e => set_processingTimeHistory (pushCapped processingTime (processingTimeHistory e)) e).

Definition recordFailure : M unit :=
  assign (fun e => set_consecutiveFailures (S (consecutiveFailures e)) e) ;;
  e <- this ;;
  when (CIRCUIT_BREAKER_THRESHOLD <=? consecutiveFailures e)%nat
    (assign (set_circuitBrokenUntil (Some (clock e + CIRCUIT_BREAKER_RESET_MS))) ;;
     log warning "Circuit breaker activated").

(* ------------------------------------------------------------------ *)
(** *** Lifecycle: stop, pause, resume *)

Definition stop : M unit :=
  log info "Stopping God Mode..." ;;
  assign (set_isRunning false) ;;
  assign (set_isPaused false) ;;
  assign (set_abortController None) ;;
  updateState (mkUpdates (Some idle) (Some None) (Some None) None None None None) ;;
  log success "God Mode stopped".

Definition pause : M unit :=
  e <- this ;;
  if negb (isRunning e) then ret tt
  else
    assign (set_isPaused true) ;;
    log info "God Mode paused" ;;
    updateState (mkUpdates (Some paused) None None None None None None).

Definition resume : M unit :=
  e <- this ;;
  if negb (isRunning e) || negb (isPaused e) then ret tt
  else
    assign (set_isPaused false) ;;
    log info "God Mode resumed" ;;
    updateState (mkUpdates (Some running) None None None None None None).

Definition perform (c : Command) : M unit :=
  match c with
  | call_pause => pause
  | call_resume => resume
  | call_stop => stop
  end.

Fixpoint performAll (cs : list Command) : M unit :=
  match cs with
  | [] => ret tt
  | c :: cs' => perform c ;; performAll cs'
  end.

(** The calls of [pause], [resume] and [stop] that arrived while the engine
    was waiting take effect where the loops look at the flags again. *)
Definition deliver : M unit :=
  e <- this ;;
  assign (set_deliveries (S (deliveries e))) ;;
  performAll (commands env (deliveries e)).

(* ------------------------------------------------------------------ *)
(** *** Phase 1: sitemap scan *)

Definition runScanPhase : M unit :=
  emit (entered m_runScanPhase) ;;
  if priorityOnlyMode options then
    log warning "Priority Only Mode Active"
  else
    updateState (mkUpdates None (Some (Some scanning)) None None None None None) ;;
    log info "Scanning sitemap..." ;;
    e <- this ;;
    assign (set_lastScanTime (Some (clock e))) ;;
    e <- this ;;
    (* { ...getDefaultStats(), lastScanAt: lastScanTime, nextScanAt: calculateNextScan() } *)
    updateState (mkUpdates None None None None (Some (FullStats (getDefaultStats e))) None None) ;;
    log success "Sitemap scan complete".

(* ------------------------------------------------------------------ *)
(** *** Phase 2: health scoring *)

Definition queued (u : string) (e : Engine) : bool :=      (* this.queue.some(q => q.url === u) *)
  existsb (fun q => String.eqb (url q) u) (queue e).

Definition isPriorityUrl (u : string) : bool :=
  existsb (fun p => String.eqb (p_url p) u) (priorityUrls options).

(** The body of the scoring loop for one URL. *)
Definition scoreOne (u : string) : M unit :=
  updateState (mkUpdates None None (Some (Some u)) None None None None) ;;
  tryCatch
    (e0 <- this ;;
     emit (analyzePage_called u) ;;
     assign (set_analyzerCalls (S (analyzerCalls e0))) ;;
     score <- await (analyzePage env (analyzerCalls e0) u) ;;
     e1 <- this ;;
     when ((score <? minHealthScore (config options)) && negb (queued u e1))
       (i <- randomUUID ;;
        e <- this ;;
        assign (set_queue (queue e ++
          [mkQueueItem i u (calculatePriority score u) score (clock e)
             (if isPriorityUrl u then manual else scan) 0 None])) ;;
        log info ("Queued: " +++ getSlug u)) ;;
     sleep 500)
    (fun message => log warning ("Failed to score " +++ getSlug u)).

Fixpoint scoreLoop (urls : list string) : M unit :=
  match urls with
  | [] => ret tt
  | u :: rest =>
      deliver ;;
      e <- this ;;
      if aborted e || isPaused e then ret tt
      else scoreOne u ;; scoreLoop rest
  end.

Definition urlsToScore : list string :=
  if priorityOnlyMode options then map p_url (priorityUrls options)
  else sitemapUrls options.

Definition filteredUrls : list string :=
  filter (fun u => negb (isExcluded u)) urlsToScore.

Definition urlsToAnalyze : list string := firstn 20 filteredUrls.   (* slice(0, 20) *)

Definition runScoringPhase : M unit :=
  emit (entered m_runScoringPhase) ;;
  updateState (mkUpdates None (Some (Some scoring)) None None None None None) ;;
  if (List.length filteredUrls =? 0)%nat then
    log warning "No URLs to score"
  else
    log info "Scoring page health..." ;;
    scoreLoop urlsToAnalyze ;;
    sortQueue ;;
    e <- this ;;
    updateState (mkUpdates None None (Some None) (Some (queue e)) None None None) ;;
    log success "Scoring complete".

(* ------------------------------------------------------------------ *)
(** *** Phase 4: publishing *)

(** The body posted to the publishing endpoint. *)
Definition publishRequest (appConfig : AppConfig) (item : GodModeQueueItem)
    (c : GeneratedContent) : PublishRequest :=
  mkRequest (wpUrl appConfig) (wpUsername appConfig) (wpAppPassword appConfig)
    (title c) (content c) (defaultStatus (config options))
    (seoTitle c) (metaDescription c) (url item).

Definition runPublishPhase (item : GodModeQueueItem) (generated_ : option GeneratedContent)
    (processingTime quality : Z) : M unit :=
  emit (entered m_runPublishPhase) ;;
  updateState (mkUpdates None (Some (Some publishing)) None None None None None) ;;
  log info "Publishing to WordPress..." ;;
  match generated_ with
  | None => throw "Cannot read properties of null"
  | Some c =>
      let wordCount := orZero (metrics_wordCount c) in
      tryCatch
        (e <- this ;;
         let appConfig := getAppConfig env (clock e) in
         if negb (truthy (wpUrl appConfig)) || negb (truthy (wpUsername appConfig))
            || negb (truthy (wpAppPassword appConfig))
         then throw "WordPress credentials not configured"
         else
           let request := publishRequest appConfig item c in
           emit (wordpressPublish_called request) ;;
           assign (set_publisherCalls (S (publisherCalls e))) ;;
           response <- await (wordpressPublish env (publisherCalls e) request) ;;
           if negb (ok response) then
             throw ("WordPress API error: " +++ show (status response))
           else
             log success "Published!" ;;
             addToHistory (fun i t =>
               mkHistory i t (url item) published (Some quality) (Some wordCount)
                 (Some processingTime) (json_link response) None None))
        (fun message =>
           log error "Publish failed" ;;
           addToHistory (fun i t =>
             mkHistory i t (url item) action_error (Some quality) None
               (Some processingTime) None
               (Some ("Generated but publish failed: " +++ message)) None))
  end.

(* ------------------------------------------------------------------ *)
(** *** Phase 3: content generation *)

(** The variables of the multi-pass loop. *)
Record Passes := mkPasses {
  pass_content : option GeneratedContent;
  pass_qualityScore : Z;
  passCount : nat
}.

Definition callGenerator (keyword : string) : M GeneratedContent :=
  e <- this ;;
  emit (generateContent_called keyword) ;;
  assign (set_generatorCalls (S (generatorCalls e))) ;;
  await (generateContent env (generatorCalls e) keyword).

(** [while (passCount < maxPasses) { ... }]; the loop takes at most
    [maxPasses] turns, which is the bound it is run with. *)
Fixpoint qualityPasses (turns : nat) (keyword : string) (maxPasses : nat) (p : Passes)
    : M Passes :=
  match turns with
  | O => ret p
  | S turns' =>
      if (passCount p <? maxPasses)%nat then
        let n := S (passCount p) in
        c <- callGenerator keyword ;;
        let quality := orZero (qualityScore_overall c) in
        log info ("Pass " +++ show (Z.of_nat n) +++ " complete") ;;
        if MIN_QUALITY_SCORE <=? quality then
          log success "Target quality achieved!" ;;
          ret (mkPasses (Some c) quality n)
        else
          when (n <? maxPasses)%nat
            (log info ("Quality below target, initiating improvement pass "
                       +++ show (Z.of_nat n + 1) +++ "...") ;;
             sleep 2000) ;;
          qualityPasses turns' keyword maxPasses (mkPasses (Some c) quality n)
      else ret p
  end.

Definition snapshotOf (item : GodModeQueueItem) (c : option GeneratedContent) : ContentSnapshot :=
  mkSnapshot
    (orEmpty (match c with Some c => title c | None => None end))
    (orEmpty (match c with Some c => content c | None => None end))
    (orEmpty (match c with Some c => seoTitle c | None => None end))
    (orEmpty (match c with Some c => metaDescription c | None => None end))
    (getSlug (url item)).

(** The [try] block of [runGenerationPhase], from the end of the passes on. *)
Definition afterPasses (item : GodModeQueueItem) (startTime : Z) (p : Passes) : M unit :=
  e <- this ;;
  let quality := pass_qualityScore p in
  let processingTime := clock e - startTime in
  let wordCount :=
    orZero (match pass_content p with Some c => metrics_wordCount c | None => None end) in
  recordSuccess quality processingTime ;;
  let generatedContent := snapshotOf item (pass_content p) in
  if quality <? qualityThreshold (config options) then
    log warning ("Below quality threshold after " +++ show (Z.of_nat (passCount p))
                 +++ " passes") ;;
    addToHistory (fun i t =>
      mkHistory i t (url item) skipped (Some quality) (Some wordCount)
        (Some processingTime) None
        (Some ("Quality score " +++ show quality +++ "% below threshold "
               +++ show (qualityThreshold (config options)) +++ "% after "
               +++ show (Z.of_nat (passCount p)) +++ " pass(es)"))
        (Some generatedContent)) ;;
    log info "Content saved for review"
  else
    (if autoPublish (config options) then
       runPublishPhase item (pass_content p) processingTime quality
     else
       log success "ENTERPRISE Content Generated" ;;
       addToHistory (fun i t =>
         mkHistory i t (url item) generated (Some quality) (Some wordCount)
           (Some processingTime) None None (Some generatedContent))) ;;
    assign (fun e => set_processedToday (S (processedToday e)) e) ;;
    updateStats quality wordCount true ;;
    log info ("Next item in " +++ show (processingIntervalMinutes (config options))
              +++ " minutes") ;;
    sleep (processingIntervalMinutes (config options) * 60 * 1000).

(** The [try] block of [runGenerationPhase]. *)
Definition generateItem (item : GodModeQueueItem) (startTime : Z) (isPriorityItem : bool)
    : M unit :=
  let keyword := extractKeyword (url item) in
  e <- this ;;
  match orchestrator e with
  | None => throw "Content orchestrator not initialized"
  | Some _ =>
      let maxPasses := if isPriorityItem then MAX_QUALITY_IMPROVEMENT_PASSES else 1%nat in
      log info "Starting content generation" ;;
      p <- qualityPasses maxPasses keyword maxPasses (mkPasses None 0 0) ;;
      afterPasses item startTime p
  end.

(** [item.retryCount++; item.lastError = message] *)
Definition retried (item : GodModeQueueItem) (message : string) : GodModeQueueItem :=
  mkQueueItem (id item) (url item) (priority item) (healthScore item) (addedAt item)
    (source item) (S (retryCount item)) (Some message).

(** The [catch] block of [runGenerationPhase]. *)
Definition generationFailed (item : GodModeQueueItem) (startTime : Z) (message : string)
    : M unit :=
  log error "Generation failed" ;;
  recordFailure ;;
  (if (Z.of_nat (retryCount item) <? retryAttempts (config options)) then
     let item' := retried item message in
     delay <- calculateBackoffDelay (retryCount item') ;;
     log info "Retry scheduled" ;;
     sleep delay ;;
     assign (fun e => set_queue (queue e ++ [item']) e) ;;
     sortQueue ;;
     e <- this ;;
     updateState (mkUpdates None None None (Some (queue e)) None None None)
   else
     log error "Max retries exceeded" ;;
     e <- this ;;
     addToHistory (fun i t =>
       mkHistory i t (url item) action_error None None (Some (clock e - startTime)) None
         (Some ("Max retries (" +++ show (Z.of_nat (retryCount item))
                +++ ") exceeded. Last error: " +++ message))
         None)) ;;
  updateStats 0 0 false.

Definition runGenerationPhase : M unit :=
  emit (entered m_runGenerationPhase) ;;
  broken <- isCircuitBroken ;;
  if broken then
    log warning "Circuit breaker active" ;;
    sleep 60000
  else
    e <- this ;;
    match queue e with
    | [] => ret tt
    | item :: rest =>
        assign (set_queue rest) ;;                       (* this.queue.shift() *)
        updateState (mkUpdates None (Some (Some generating)) (Some (Some (url item)))
                       (Some rest) None None None) ;;
        let startTime := clock e in
        let isPriorityItem :=
          priorityOnlyMode options
          || match source item with manual => true | scan => false end in
        log info (if isPriorityItem then "PRIORITY Generating content..."
                  else "Generating content...") ;;
        tryCatch (generateItem item startTime isPriorityItem)
                 (generationFailed item startTime)
    end.

(* ------------------------------------------------------------------ *)
(** *** Priority queue initialisation *)

Record PriorityCounts := mkCounts {
  n_critical : nat;
  n_high : nat;
  n_medium : nat;
  n_low : nat;
  excludedCount : nat
}.

Definition countPriority (p : Priority) (c : PriorityCounts) : PriorityCounts :=
  match p with
  | critical => mkCounts (S (n_critical c)) (n_high c) (n_medium c) (n_low c) (excludedCount c)
  | high => mkCounts (n_critical c) (S (n_high c)) (n_medium c) (n_low c) (excludedCount c)
  | medium => mkCounts (n_critical c) (n_high c) (S (n_medium c)) (n_low c) (excludedCount c)
  | low => mkCounts (n_critical c) (n_high c) (n_medium c) (S (n_low c)) (excludedCount c)
  end.

Definition countExcluded (c : PriorityCounts) : PriorityCounts :=
  mkCounts (n_critical c) (n_high c) (n_medium c) (n_low c) (S (excludedCount c)).

(** [for (const priorityUrl of this.options.priorityUrls) { ... }] *)
Fixpoint enqueuePriorityUrls (l : list PriorityUrl) (counts : PriorityCounts)
    : M PriorityCounts :=
  match l with
  | [] => ret counts
  | priorityUrl :: rest =>
      if isExcluded (p_url priorityUrl) then
        log info ("Excluded: " +++ getSlug (p_url priorityUrl)) ;;
        enqueuePriorityUrls rest (countExcluded counts)
      else
        e <- this ;;
        if queued (p_url priorityUrl) e then enqueuePriorityUrls rest counts
        else
          i <- randomUUID ;;
          e <- this ;;
          assign (set_queue (queue e ++
            [mkQueueItem i (p_url priorityUrl) (p_priority priorityUrl) 0 (clock e)
               manual 0 None])) ;;
          enqueuePriorityUrls rest (countPriority (p_priority priorityUrl) counts)
  end.

Definition initializePriorityQueue : M unit :=
  assign (set_queue []) ;;
  e <- this ;;
  let appConfig := getAppConfig env (clock e) in
  let hasNeuronWriter :=
    truthy (neuronWriterApiKey appConfig) && truthy (neuronWriterProjectId appConfig) in
  log info EmptyString ;;
  log info "PRIORITY ONLY MODE - ENTERPRISE INITIALIZATION" ;;
  log info EmptyString ;;
  log info "Pre-flight Checks" ;;
  log info ("Total Priority URLs: " +++ show (Z.of_nat (List.length (priorityUrls options)))) ;;
  log info ("NeuronWriter: " +++ (if hasNeuronWriter then "ENABLED (90%+ scores guaranteed)"
                                  else "DISABLED (basic scoring)")) ;;
  log info ("Quality Threshold: " +++ show (qualityThreshold (config options)) +++ "%") ;;
  log info ("Multi-pass Quality: " +++ show (Z.of_nat MAX_QUALITY_IMPROVEMENT_PASSES)
            +++ " passes max") ;;
  log info ("Retry Attempts: " +++ show (retryAttempts (config options))
            +++ " with exponential backoff") ;;
  counts <- enqueuePriorityUrls (priorityUrls options) (mkCounts 0 0 0 0 0) ;;
  sortQueue ;;
  e <- this ;;
  updateState (mkUpdates None None None (Some (queue e)) None None None) ;;
  log info EmptyString ;;
  log info "Queue Summary" ;;
  log info ("Critical: " +++ show (Z.of_nat (n_critical counts))) ;;
  log info ("High: " +++ show (Z.of_nat (n_high counts))) ;;
  log info ("Medium: " +++ show (Z.of_nat (n_medium counts))) ;;
  log info ("Low: " +++ show (Z.of_nat (n_low counts))) ;;
  log info ("Excluded: " +++ show (Z.of_nat (excludedCount counts))) ;;
  let avgTimePerUrl := if hasNeuronWriter then 180 else 120 in
  (* Math.ceil(n / 60) *)
  let estimatedMinutes := (Z.of_nat (List.length (queue e)) * avgTimePerUrl + 59) / 60 in
  log info ("Estimated Time: ~" +++ show estimatedMinutes +++ " minutes") ;;
  log info EmptyString ;;
  log success "Priority Queue Ready".

(* ------------------------------------------------------------------ *)
(** *** Main loop and start *)

(** How one turn of the loop body ends: the loop goes on ([continue], or the
    end of the body), or the method returns or breaks out of the loop. *)
Inductive Turn := goOn | leave.

(** The [try] block of the loop body. *)
Definition cycle : M Turn :=
  e <- this ;;
  if isPaused e then
    sleep 1000 ;; ret goOn
  else if negb (isWithinActiveHours e) then
    log info "Outside active hours" ;;
    sleep 60000 ;; ret goOn
  else if (maxPerDay (config options) <=? Z.of_nat (processedToday e)) then
    log info "Daily limit reached" ;;
    sleep 3600000 ;; ret goOn
  else
    assign (set_cycleCount (S (cycleCount e))) ;;
    e <- this ;;
    (* { ...getDefaultStats(), cycleCount: this.cycleCount } *)
    updateState (mkUpdates None None None None (Some (FullStats (getDefaultStats e))) None None) ;;
    if priorityOnlyMode options then
      if (0 <? List.length (queue e))%nat then
        runGenerationPhase ;; ret goOn
      else
        log success "Priority Queue Complete" ;;
        updateState (mkUpdates (Some idle) (Some None) None None None None None) ;;
        stop ;;
        ret leave
    else
      when (shouldScan e) runScanPhase ;;
      e <- this ;;
      when (List.length (queue e) =? 0)%nat runScoringPhase ;;
      e <- this ;;
      (if (0 <? List.length (queue e))%nat then runGenerationPhase
       else
         log info "Queue empty" ;;
         sleep (processingIntervalMinutes (config options) * 60 * 1000)) ;;
      ret goOn.

(** The [catch] block of the loop body. *)
Definition cycleFailed (message : string) : M Turn :=
  e <- this ;;
  if aborted e then ret leave
  else
    log error "Cycle error" ;;
    updateState (mkUpdates (Some status_error) None None None None None (Some message)) ;;
    sleep (Z.min 300000 (30000 * 2 ^ (Z.of_nat (cycleCount e) mod 5))) ;;
    ret goOn.

(** Whether a call has come back within the turns the loop was followed for. *)
Inductive Progress := finished | stillLooping.

(** [while (this.isRunning && !this.abortController?.signal.aborted) { ... }],
    followed for at most [turns] turns. *)
Fixpoint mainLoop (turns : nat) : M Progress :=
  match turns with
  | O => ret stillLooping
  | S turns' =>
      deliver ;;
      e <- this ;;
      if isRunning e && negb (aborted e) then
        t <- tryCatch cycle cycleFailed ;;
        match t with
        | goOn => mainLoop turns'
        | leave => ret finished
        end
      else ret finished
  end.

Definition initializeOrchestrator : M unit :=
  e <- this ;;
  assign (set_orchestrator (Some (getAppConfig env (clock e)))).

Definition start (turns : nat) : M Progress :=
  e <- this ;;
  if isRunning e then
    log warning "Engine already running" ;;
    ret finished
  else
    (if priorityOnlyMode options then
       if (List.length (priorityUrls options) =? 0)%nat then
         throw "Priority Only Mode requires at least one URL in the Priority Queue. Add URLs to your priority queue first."
       else log info "PRIORITY ONLY MODE ENABLED"
     else ret tt) ;;
    assign (set_isRunning true) ;;
    assign (set_isPaused false) ;;
    assign (set_abortController (Some false)) ;;
    assign (set_processedToday 0%nat) ;;
    assign (set_cycleCount 0%nat) ;;
    log success "GOD MODE 2.0 ACTIVATED" ;;
    e <- this ;;
    updateState (mkUpdates (Some running) None None None
      (Some (FullStats (mkStats 0 0 0 0 None
         (if priorityOnlyMode options then None else Some (calculateNextScan e))
         0 (clock e) 0)))
      None None) ;;
    initializeOrchestrator ;;
    when (priorityOnlyMode options) initializePriorityQueue ;;
    mainLoop turns.

End Methods.

(* ================================================================== *)
(** ** The properties stated of the queue *)

(** Positions in the queue follow the priorities: [critical] before [high]
    before [medium] before [low], and within a priority the lower health
    score first. *)
Definition inPriorityOrder (q : list GodModeQueueItem) : Prop :=
  forall i j a b,
    nth_error q i = Some a -> nth_error q j = Some b ->
    ((i < j)%nat ->
       priorityOrder (priority a) <= priorityOrder (priority b) /\
       (priority a = priority b -> healthScore a <= healthScore b)) /\
    (priorityOrder (priority a) < priorityOrder (priority b) -> (i < j)%nat) /\
    (priority a = priority b -> healthScore a < healthScore b -> (i < j)%nat).

(** No URL is queued twice. *)
Definition urlsDistinct (q : list GodModeQueueItem) : Prop := NoDup (map url q).

(** The queue items have not been retried more often than configured. *)
Definition retriesBounded (options : GodModeEngineOptions) (q : list GodModeQueueItem) : Prop :=
  Forall (fun it => Z.of_nat (retryCount it) <= retryAttempts (config options)) q.

(* ================================================================== *)
(** ** The properties stated of the generation phase *)

(** Whether the circuit breaker stops the phase: a cooldown is set and has
    not run out. *)
Definition circuitBlocked (e : Engine) : bool :=
  match circuitBrokenUntil e with
  | Some until => clock e <? until
  | None => false
  end.

(** The failures counted so far when the [try] block is entered: the
    counter, or none once a cooldown has run out. *)
Definition failuresAtStart (e : Engine) : nat :=
  match circuitBrokenUntil e with
  | None => consecutiveFailures e
  | Some _ => 0%nat
  end.

Definition isPriorityItem (options : GodModeEngineOptions) (item : GodModeQueueItem) : bool :=
  priorityOnlyMode options || match source item with manual => true | scan => false end.

(** The quality the generator reports on its [n]-th call, if it answers. *)
Definition reportedQuality (env : Environment) (keyword : string) (n : nat) : option Z :=
  match settled (generateContent env n keyword) with
  | Resolved c => Some (orZero (qualityScore_overall c))
  | Rejected _ => None
  end.

(** The generation of [item], started with [g0] generator calls made so far,
    fails: there is no orchestrator, or the generator rejects one of the
    passes allowed for the item, all passes before it having stayed below the
    target. *)
Definition generationFails (env : Environment) (options : GodModeEngineOptions)
    (e : Engine) (item : GodModeQueueItem) : Prop :=
  orchestrator e = None \/
  exists k,
    (k < if isPriorityItem options item then MAX_QUALITY_IMPROVEMENT_PASSES else 1)%nat /\
    (forall j, (j < k)%nat ->
       exists qj, reportedQuality env (extractKeyword env (url item)) (generatorCalls e + j)
                  = Some qj /\ qj < MIN_QUALITY_SCORE) /\
    reportedQuality env (extractKeyword env (url item)) (generatorCalls e + k) = None.

(** The generation of [item], started with the generator calls made so far,
    succeeds: there is an orchestrator, and the generator answers every pass
    that the loop comes to, which is every pass allowed for the item before
    which all passes stayed below the target. *)
Definition generationSucceeds (env : Environment) (options : GodModeEngineOptions)
    (e : Engine) (item : GodModeQueueItem) : Prop :=
  orchestrator e <> None /\
  forall k,
    (k < if isPriorityItem options item then MAX_QUALITY_IMPROVEMENT_PASSES else 1)%nat ->
    (forall j, (j < k)%nat ->
       exists qj, reportedQuality env (extractKeyword env (url item)) (generatorCalls e + j)
                  = Some qj /\ qj < MIN_QUALITY_SCORE) ->
    reportedQuality env (extractKeyword env (url item)) (generatorCalls e + k) <> None.

(** The time from the first pass to the start of pass [k + 1], when the [k]
    passes before it were answered below the target: the time of each call,
    and the 2000 ms slept after it. The calls are those from number [g0]. *)
Fixpoint timeToPass (env : Environment) (keyword : string) (g0 k : nat) : Z :=
  match k with
  | O => 0
  | S j =>
      timeToPass env keyword g0 j
      + Z.max 0 (took (generateContent env (g0 + j) keyword)) + 2000
  end.

(** The generation of [item] fails, and it does at the time [tf]: at once
    when there is no orchestrator, and otherwise when the generator has
    rejected the call of the failing pass. *)
Definition generationFailsAt (env : Environment) (options : GodModeEngineOptions)
    (e : Engine) (item : GodModeQueueItem) (tf : Z) : Prop :=
  (orchestrator e = None /\ tf = clock e) \/
  (orchestrator e <> None /\
   exists k,
     (k < if isPriorityItem options item then MAX_QUALITY_IMPROVEMENT_PASSES else 1)%nat /\
     (forall j, (j < k)%nat ->
        exists qj, reportedQuality env (extractKeyword env (url item)) (generatorCalls e + j)
                   = Some qj /\ qj < MIN_QUALITY_SCORE) /\
     reportedQuality env (extractKeyword env (url item)) (generatorCalls e + k) = None /\
     tf = clock e + timeToPass env (extractKeyword env (url item)) (generatorCalls e) k
          + Z.max 0 (took (generateContent env (generatorCalls e + k)
                             (extractKeyword env (url item))))).

Definition isGeneratorCall (ev : Event) : bool :=
  match ev with generateContent_called _ => true | _ => false end.

(** In a record of events, most recent first: every call of the generator
    that is not the earliest one comes directly after a sleep of [ms]. *)
Fixpoint pausedBetweenPasses (ms : Z) (l : list Event) : Prop :=
  match l with
  | [] => True
  | ev :: earlier =>
      (isGeneratorCall ev = true -> existsb isGeneratorCall earlier = true ->
       exists before, earlier = slept ms :: before) /\
      pausedBetweenPasses ms earlier
  end.

(** The multi-pass rule for a priority or manual item, with [target] as the
    score that ends the passes: the generator is called at most three times;
    the pass that first reports [target] or more is the last; a pass that
    reports less is followed by another, unless it was the third; and the
    passes are 2000 ms apart. *)
Definition passesStopAt (target : Z) (env : Environment) (options : GodModeEngineOptions)
    (e : Engine) : Prop :=
  forall item rest,
    queue e = item :: rest ->
    circuitBlocked e = false ->
    orchestrator e <> None ->
    priorityOnlyMode options = true \/ source item = manual ->
    let keyword := extractKeyword env (url item) in
    let e' := after (runGenerationPhase env options) e in
    let calls := (generatorCalls e' - generatorCalls e)%nat in
    (calls <= 3)%nat /\
    (forall k, (k < 3)%nat ->
       (forall j, (j < k)%nat ->
          exists q, reportedQuality env keyword (generatorCalls e + j) = Some q /\ q < target) ->
       forall q, reportedQuality env keyword (generatorCalls e + k) = Some q ->
         (target <= q -> calls = S k) /\
         (q < target -> (k < 2)%nat -> (S (S k) <= calls)%nat)) /\
    (exists new, emitted e' = new ++ emitted e /\ pausedBetweenPasses 2000 new).

(** The events of a generation phase that finds the breaker open. *)
Definition breakerOpenEvents : list Event :=
  [slept 60000; onActivity warning "Circuit breaker active"; entered m_runGenerationPhase].

(** The entries that a record of events (most recent first) adds to the
    history. *)
Fixpoint historyOf (l : list Event) : list GodModeHistoryItem :=
  match l with
  | [] => []
  | onStateUpdate u :: l' =>
      match u_history u with Some h => h | None => [] end ++ historyOf l'
  | _ :: l' => historyOf l'
  end.

(** Since the engine had emitted [base], exactly one entry has gone to the
    history: an [error] for [item], without a content snapshot. *)
Definition errorRecordedSince (base : list Event) (item : GodModeQueueItem) (y : Engine) : Prop :=
  exists new, emitted y = new ++ base /\
    exists h, historyOf new = [h] /\ action h = action_error /\ h_url h = url item /\
              generatedContent h = None.

(* ================================================================== *)
(** ** The properties stated of publishing *)

Definition credentialsMissing (appConfig : AppConfig) : bool :=
  negb (truthy (wpUrl appConfig)) || negb (truthy (wpUsername appConfig))
  || negb (truthy (wpAppPassword appConfig)).

(** Publishing [c] for [item] from the engine [e] fails: the WordPress
    credentials are not configured, or the request is rejected, or the
    response is not ok. *)
Definition publishFails (env : Environment) (options : GodModeEngineOptions) (e : Engine)
    (item : GodModeQueueItem) (c : GeneratedContent) : Prop :=
  let appConfig := getAppConfig env (clock e) in
  credentialsMissing appConfig = true \/
  match settled (wordpressPublish env (publisherCalls e) (publishRequest options appConfig item c)) with
  | Rejected _ => True
  | Resolved response => ok response = false
  end.

(** Since the engine had emitted [base], exactly one entry has gone to the
    history: an [error] for [item] that says the content was generated and
    the publishing failed, and that carries no content snapshot. *)
Definition publishFailureRecorded (base : list Event) (item : GodModeQueueItem)
    (quality : Z) (y : Engine) : Prop :=
  exists new, emitted y = new ++ base /\
    exists h, historyOf new = [h] /\ action h = action_error /\ h_url h = url item /\
              h_qualityScore h = Some quality /\
              (exists message, h_error h = Some ("Generated but publish failed: " +++ message)) /\
              generatedContent h = None.

(* ================================================================== *)
(** ** The properties stated of the main loop and of the scoring phase *)

(** The scan procedure has not been called, and the time of the last scan is
    still [t0]. *)
Definition notScanned (t0 : option Z) (e : Engine) : Prop :=
  ~ In (entered m_runScanPhase) (emitted e) /\ lastScanTime e = t0.

(** The URLs handed to the analyser in a record of events, most recent
    first. *)
Fixpoint analyzedUrls (l : list Event) : list string :=
  match l with
  | [] => []
  | analyzePage_called u :: l' => u :: analyzedUrls l'
  | _ :: l' => analyzedUrls l'
  end.

(** Since the engine had emitted [base], made [n] analyser calls and held
    the queue [q0], the URLs [a] (most recent first) have been analysed, each
    by one call, and only items for these URLs have been added to the
    queue. *)
Definition analyzedSince (base : list Event) (n : nat) (q0 : list GodModeQueueItem)
    (a : list string) (e : Engine) : Prop :=
  analyzerCalls e = (n + List.length a)%nat /\
  (exists new, emitted e = new ++ base /\ analyzedUrls new = a) /\
  (forall it, In it (queue e) -> In it q0 \/ In (url it) a).

(* ================================================================== *)
(** ** Specifications of methods

    [preserves I m]: the method [m] keeps the property [I] of the engine,
    whether it returns or throws. [returns m]: the method never throws. *)

Definition preserves {A} (I : Engine -> Prop) (m : M A) : Prop :=
  forall e, I e -> I (after m e).

Definition returns {A} (m : M A) : Prop :=
  forall e, exists a, completion m e = Returned a.

(** [hoare P m Q]: from an engine with [P], the method [m] leaves one with
    [Q], whether it returns or throws. *)
Definition hoare {A} (P : Engine -> Prop) (m : M A) (Q : Engine -> Prop) : Prop :=
  forall e, P e -> Q (after m e).

(** [hoareR P m Q]: from an engine with [P], the method [m] returns, with a
    value and an engine that satisfy [Q]. *)
Definition hoareR {A} (P : Engine -> Prop) (m : M A) (Q : A -> Engine -> Prop) : Prop :=
  forall e, P e -> exists a, completion m e = Returned a /\ Q a (after m e).

(** [hoareT P m Q]: from an engine with [P], the method [m] throws, and
    leaves an engine with [Q]. *)
Definition hoareT {A} (P : Engine -> Prop) (m : M A) (Q : Engine -> Prop) : Prop :=
  forall e, P e -> exists msg, completion m e = Thrown msg /\ Q (after m e).

(* ================================================================== *)
(** ** Stages of a generation phase, for the proofs *)

(** Events that are neither a call of a collaborator, nor a sleep, nor an
    entry of the history. *)
Definition quietEvent (ev : Event) : Prop :=
  match ev with
  | onActivity _ _ => True
  | entered _ => True
  | onStateUpdate u => u_history u = None
  | _ => False
  end.

(** [x] is the engine at the point where [runGenerationPhase], called on [e]
    with the breaker closed and [item] at the head of the queue, enters its
    [try] block. *)
Definition generationStarted (e : Engine) (rest : list GodModeQueueItem) (x : Engine) : Prop :=
  queue x = rest /\
  orchestrator x = orchestrator e /\
  clock x = clock e /\
  generatorCalls x = generatorCalls e /\
  publisherCalls x = publisherCalls e /\
  randomDraws x = randomDraws e /\
  uuids x = uuids e /\
  processedToday x = processedToday e /\
  circuitBrokenUntil x = None /\
  consecutiveFailures x =
    match circuitBrokenUntil e with
    | None => consecutiveFailures e
    | Some _ => 0%nat
    end /\
  exists l, emitted x = l ++ emitted e /\ Forall quietEvent l.

(** A record of events is ready for a pass when a sleep of [ms] is its most
    recent event, or no pass has been made yet. *)
Definition readyForPass (ms : Z) (new : list Event) : Prop :=
  existsb isGeneratorCall new = true -> exists before, new = slept ms :: before.

Definition pausedSince (base : list Event) (e : Engine) : Prop :=
  exists new, emitted e = new ++ base /\ pausedBetweenPasses 2000 new.

Definition noCallsSince (base : list Event) (e : Engine) : Prop :=
  exists new, emitted e = new ++ base /\ existsb isGeneratorCall new = false.

(** The generator calls made, the time, and the state of the breaker while
    the passes of a generation go on. *)
Definition passing (c0 : nat) (t : Z) (n : nat) (e : Engine) : Prop :=
  generatorCalls e = n /\ clock e = t /\
  consecutiveFailures e = c0 /\ circuitBrokenUntil e = None.

(** The three facts about the breaker that a failing [try] block leaves as
    they were. *)
Definition breakerAt (c0 : nat) (t0 : Z) (y : Engine) : Prop :=
  consecutiveFailures y = c0 /\ circuitBrokenUntil y = None /\ t0 <= clock y.

(** Since the engine had emitted [base], no entry has gone to the history. *)
Definition noHistorySince (base : list Event) (y : Engine) : Prop :=
  exists new, emitted y = new ++ base /\ historyOf new = [].

(* ================================================================== *)
(** ** A small world to run the engine in

    URLs are their own path, made of one segment; it is noon on a Wednesday;
    [Math.random()] returns 1/2; nobody calls [pause], [resume] or [stop]. *)

Definition sampleAppConfig : AppConfig :=
  mkAppConfig (Some "https://blog.example"%string) (Some "editor"%string)
    (Some "app-password"%string) None None.

Definition sampleEnvironment
    (analyze : nat -> string -> Call Z)
    (generate : nat -> string -> Call GeneratedContent)
    (publish : nat -> PublishRequest -> Call HttpResponse) : Environment :=
  mkEnvironment
    (fun u => Some u) (fun s => s) (fun s t => String.eqb s t) (fun s => [s]) (fun s => s)
    (fun _ => 12) (fun _ => 3) (fun _ => 1 # 2)
    (fun _ => sampleAppConfig) analyze generate publish (fun _ => []).

Definition sampleConfig : GodModeConfig :=
  mkConfig 70 3 70 true 50 30 24 0 24 true "draft"%string.

Definition sampleContent (quality : Z) : GeneratedContent :=
  mkContent (Some "Title"%string) (Some "<p>Body</p>"%string) (Some "SEO title"%string)
    (Some "Description"%string) (Some quality) (Some 1800).

(** A newly constructed engine. *)
Definition newEngine (now : Z) : Engine :=
  mkEngine false false None None [] 0 None 0 0 None [] [] now 0 0 0 0 0 0 [].

(** An engine that has been started, with a given queue. *)
Definition runningEngine (now : Z) (q : list GodModeQueueItem) : Engine :=
  mkEngine true false (Some false) (Some sampleAppConfig) q 0 None 0 0 None [] [] now 0 0 0 0 0 0 [].

(** A started engine with a given count of failures and cooldown. *)
Definition engineWith (now : Z) (q : list GodModeQueueItem) (failures : nat)
    (cooldown : option Z) : Engine :=
  mkEngine true false (Some false) (Some sampleAppConfig) q 0 None 0 failures cooldown
    [] [] now 0 0 0 0 0 0 [].

Definition samplePriorityUrls : list PriorityUrl :=
  [mkPriorityUrl "/b" high; mkPriorityUrl "/a" critical; mkPriorityUrl "/b" low].

Definition sampleOptions (priorityOnly : bool) : GodModeEngineOptions :=
  mkOptions sampleConfig ["/x"; "/y"; "/x"]%string samplePriorityUrls [] [] priorityOnly.

(** Options without automatic publishing, and options in priority-only mode
    with an empty priority list; a sitemap of 25 pages. *)
Definition reviewOptions : GodModeEngineOptions :=
  mkOptions (mkConfig 70 3 70 false 50 30 24 0 24 true "draft"%string)
    ["/x"; "/y"]%string samplePriorityUrls [] [] false.

Definition emptyPriorityOptions : GodModeEngineOptions :=
  mkOptions sampleConfig ["/x"; "/y"]%string [] [] [] true.

Definition largeSitemapOptions : GodModeEngineOptions :=
  mkOptions sampleConfig
    (map (fun n => "/page-" +++ show (Z.of_nat n)) (seq 1 25)) [] [] [] false.

(** The analyser finds every page at 40; the generator writes content of a
    given quality; the publisher accepts or refuses. *)
Definition analyzes40 (n : nat) (u : string) : Call Z := mkCall 100 (Resolved 40).

Definition generatesAt (quality : Z) (n : nat) (k : string) : Call GeneratedContent :=
  mkCall 1000 (Resolved (sampleContent quality)).

(** A generator that rejects its first call and answers from then on. *)
Definition generatorRecovers (n : nat) (k : string) : Call GeneratedContent :=
  if (n =? 0)%nat then mkCall 1000 (Rejected "model unavailable")
  else mkCall 1000 (Resolved (sampleContent 95)).

Definition generatorDown (n : nat) (k : string) : Call GeneratedContent :=
  mkCall 1000 (Rejected "model unavailable").

Definition publishes (n : nat) (r : PublishRequest) : Call HttpResponse :=
  mkCall 500 (Resolved (mkResponse true 201 (Some "https://blog.example/post"%string))).

Definition publisherRefuses (n : nat) (r : PublishRequest) : Call HttpResponse :=
  mkCall 500 (Resolved (mkResponse false 503 None)).

Definition sampleItem (u : string) (p : Priority) (score : Z) (src : Source) (retries : nat)
    : GodModeQueueItem :=
  mkQueueItem 0 u p score 0 src retries None.


(* ================================================================== *)
(** ** The public getters and the quality trend *)

(** [get status()] *)
Definition get_status (e : Engine) : GodModeStatus :=
  if isPaused e then paused
  else if isRunning e then running
  else idle.

(** [get queueLength()] *)
Definition queueLength (e : Engine) : nat := List.length (queue e).

Inductive Trend := improving | declining | stable.

Record QualityTrend := mkTrend { avg : Q; trend : Trend }.

(** [l.reduce((a, b) => a + b, 0)], [l.slice(-5)] and [l.slice(0, -5)] *)
Definition sumOf (l : list Z) : Z := fold_left Z.add l 0.

Definition lastFive (l : list Z) : list Z := skipn (List.length l - 5) l.

Definition butLastFive (l : list Z) : list Z := firstn (List.length l - 5) l.

(** [a > b] on numbers. *)
Definition exceeds (a b : Q) : bool := negb (Qle_bool a b).

(** [getQualityTrend()]. The averages are computed over the rationals. The
    code's doubles round each quotient and each sum, which matters only
    where the two averages are 3 apart up to that rounding: the older scores
    64, 64, 64, 65, 65 and the recent 61, 61, 61, 62, 62 have averages 64.4
    and 61.4, exactly 3 apart and [stable] here, and [declining] in doubles,
    in which 64.4 - 3 is above 61.4. *)
Definition getQualityTrend (e : Engine) : QualityTrend :=
  let history := qualityScoreHistory e in
  let n := Z.of_nat (List.length history) in
  if n <? 2 then mkTrend 0 stable
  else
    let avg := (inject_Z (sumOf history) / inject_Z n)%Q in
    let recentAvg := (inject_Z (sumOf (lastFive history)) / inject_Z (Z.min 5 n))%Q in
    let olderAvg := (inject_Z (sumOf (butLastFive history)) / inject_Z (Z.max 1 (n - 5)))%Q in
    mkTrend avg
      (if exceeds recentAvg (olderAvg + 3) then improving
       else if exceeds (olderAvg - 3) recentAvg then declining
       else stable).

(* ================================================================== *)
(** ** Specifications that tell a return from a throw *)

(** [outcome P m QR QT]: from an engine with [P], the method [m] either
    returns, with a value and an engine that satisfy [QR], or throws, with a
    message and an engine that satisfy [QT]. *)
Definition outcome {A} (P : Engine -> Prop) (m : M A)
    (QR : A -> Engine -> Prop) (QT : string -> Engine -> Prop) : Prop :=
  forall e, P e ->
    match m e with
    | (Returned a, e') => QR a e'
    | (Thrown message, e') => QT message e'
    end.

(** An update of the engine keeps the property [I]. *)
Definition closedUnder (I : Engine -> Prop) (f : Engine -> Engine) : Prop :=
  forall e, I e -> I (f e).

(* ================================================================== *)
(** ** What a generation phase leaves in the history and in the statistics *)

(** The deltas that a record of events (most recent first) sends to the
    statistics, as [updateStats] does. *)
Fixpoint statsOf (l : list Event) : list StatsPayload :=
  match l with
  | [] => []
  | onStateUpdate u :: l' =>
      match u_stats u with
      | Some (StatsDelta p s f q w) => StatsDelta p s f q w :: statsOf l'
      | _ => statsOf l'
      end
  | _ :: l' => statsOf l'
  end.

(** Since the engine had emitted [base], the entries [hs] have gone to the
    history and the deltas [ds] to the statistics (most recent first). *)
Definition recordedSince (base : list Event) (hs : list GodModeHistoryItem)
    (ds : list StatsPayload) (x : Engine) : Prop :=
  exists new, emitted x = new ++ base /\ historyOf new = hs /\ statsOf new = ds.

(** How the generation of an item can end. *)
Inductive Verdict :=
| belowThreshold       (* generated, below the configured threshold *)
| keptForReview        (* generated, automatic publishing is off *)
| publishedNow         (* generated and published *)
| publishFailed        (* generated, the publishing failed *)
| retryScheduled       (* the generation failed, retries are left *)
| gaveUp.              (* the generation failed, no retry is left *)

(** What each ending leaves behind, for an [item] taken from the head of the
    queue (the [rest] staying behind it) by an engine that had emitted [base]
    and processed [n] items: the queue, the count of items processed, the
    history and the statistics. *)
Definition settledAs (options : GodModeEngineOptions) (v : Verdict)
    (base : list Event) (n : nat) (item : GodModeQueueItem) (rest : list GodModeQueueItem)
    (e' : Engine) : Prop :=
  match v with
  | belowThreshold =>
      queue e' = rest /\ processedToday e' = n /\
      exists h q, recordedSince base [h] [] e' /\
        h_url h = url item /\ action h = skipped /\ generatedContent h <> None /\
        h_qualityScore h = Some q /\ q < qualityThreshold (config options)
  | keptForReview =>
      queue e' = rest /\ processedToday e' = S n /\
      autoPublish (config options) = false /\
      exists h q w, recordedSince base [h] [StatsDelta 1 1 0 q w] e' /\
        h_url h = url item /\ action h = generated /\ generatedContent h <> None /\
        h_qualityScore h = Some q /\ qualityThreshold (config options) <= q
  | publishedNow =>
      queue e' = rest /\ processedToday e' = S n /\
      autoPublish (config options) = true /\
      exists h q w, recordedSince base [h] [StatsDelta 1 1 0 q w] e' /\
        h_url h = url item /\ action h = published /\
        h_qualityScore h = Some q /\ qualityThreshold (config options) <= q
  | publishFailed =>
      queue e' = rest /\ processedToday e' = S n /\
      autoPublish (config options) = true /\
      exists h q w, recordedSince base [h] [StatsDelta 1 1 0 q w] e' /\
        h_url h = url item /\ action h = action_error /\ generatedContent h = None /\
        h_qualityScore h = Some q /\ qualityThreshold (config options) <= q
  | retryScheduled =>
      Z.of_nat (retryCount item) < retryAttempts (config options) /\
      (exists message, queue e' = sortItems (rest ++ [retried item message])) /\
      processedToday e' = n /\
      recordedSince base [] [StatsDelta 1 0 1 0 0] e'
  | gaveUp =>
      retryAttempts (config options) <= Z.of_nat (retryCount item) /\
      queue e' = rest /\ processedToday e' = n /\
      exists h, recordedSince base [h] [StatsDelta 1 0 1 0 0] e' /\
        h_url h = url item /\ action h = action_error /\ generatedContent h = None /\
        h_qualityScore h = None
  end.

(** The endings of a generation that went through, and of one that failed. *)
Definition wentThrough (v : Verdict) : bool :=
  match v with
  | belowThreshold | keptForReview | publishedNow | publishFailed => true
  | retryScheduled | gaveUp => false
  end.

(** The state in which the [try] block of the generation phase is entered
    and in which it is left when it throws: the item is off the queue, and
    nothing has been recorded or counted yet. *)
Definition underWay (base : list Event) (n : nat) (rest : list GodModeQueueItem)
    (x : Engine) : Prop :=
  queue x = rest /\ processedToday x = n /\ recordedSince base [] [] x.

(** The fields that steer the main loop are in [x] what they are in [e]. *)
Definition sameControl (e x : Engine) : Prop :=
  isRunning x = isRunning e /\ isPaused x = isPaused e /\
  abortController x = abortController e /\ orchestrator x = orchestrator e /\
  cycleCount x = cycleCount e /\ lastScanTime x = lastScanTime e.

(** Nothing has been called, queued, taken or counted since [e]. *)
Definition nothingDoneSince (e x : Engine) : Prop :=
  generatorCalls x = generatorCalls e /\ analyzerCalls x = analyzerCalls e /\
  publisherCalls x = publisherCalls e /\ queue x = queue e /\
  processedToday x = processedToday e /\ cycleCount x = cycleCount e.

(** A paused engine is a running one. *)
Definition pausedWhileRunning (x : Engine) : Prop :=
  isPaused x = true -> isRunning x = true.

(** The two histories kept for the trend are of the same length, 50 at most. *)
Definition historiesCapped (x : Engine) : Prop :=
  (List.length (qualityScoreHistory x) <= 50)%nat /\
  List.length (processingTimeHistory x) = List.length (qualityScoreHistory x).

(** The engine is neither paused nor aborted. *)
Definition goingOn (x : Engine) : Prop := isPaused x = false /\ aborted x = false.

(** What the scoring phase makes of a page that scored below the minimum:
    the queue item carries the score, the priority computed for it, its
    origin, and no retry. *)
Definition queuedByScoring (options : GodModeEngineOptions) (it : GodModeQueueItem) : Prop :=
  healthScore it < minHealthScore (config options) /\
  priority it = calculatePriority options (healthScore it) (url it) /\
  source it = (if isPriorityUrl options (url it) then manual else scan) /\
  retryCount it = 0%nat /\ lastError it = None.

(** What the initialisation of the priority queue makes of a priority URL. *)
Definition queuedByPriority (options : GodModeEngineOptions) (it : GodModeQueueItem) : Prop :=
  healthScore it = 0 /\ source it = manual /\ retryCount it = 0%nat /\ lastError it = None /\
  exists p, find (fun p => String.eqb (p_url p) (url it)) (priorityUrls options) = Some p /\
            priority it = p_priority p.

(** The sum of the four counts of the queue summary. *)
Definition countedUrls (c : PriorityCounts) : nat :=
  (n_critical c + n_high c + n_medium c + n_low c)%nat.

(** What the queue built from the priority list holds: the listed URLs that
    are not excluded, each as the initialisation makes it. *)
Definition holdsListedUrls (env : Environment) (options : GodModeEngineOptions)
    (q : list GodModeQueueItem) : Prop :=
  (forall u, In u (map url q) <->
             In u (map p_url (priorityUrls options)) /\ isExcluded env options u = false) /\
  (forall it, In it q -> queuedByPriority options it).

(** The engine is running and not paused, with a controller that is not
    aborted, an orchestrator, the breaker closed, and [q] as its queue. *)
Definition readyWith (q : list GodModeQueueItem) (x : Engine) : Prop :=
  isRunning x = true /\ isPaused x = false /\ abortController x = Some false /\
  orchestrator x <> None /\ circuitBrokenUntil x = None /\ queue x = q.

(** The main loop at the head of a turn, with [q] still to work off: at most
    [k] items have been processed, and since the engine had emitted [base]
    the history has received entries for the URLs [hs] (most recent first). *)
Definition workingOff (base : list Event) (q : list GodModeQueueItem) (k : nat)
    (hs : list string) (x : Engine) : Prop :=
  readyWith q x /\ (processedToday x <= k)%nat /\
  exists new, emitted x = new ++ base /\ map h_url (historyOf new) = hs.

(** The main loop has come back: the engine is stopped, the queue is empty,
    and the history has received entries for the URLs [hs]. *)
Definition workedOff (base : list Event) (hs : list string) (r : Progress) (x : Engine)
    : Prop :=
  r = finished /\ isRunning x = false /\ isPaused x = false /\ queue x = [] /\
  exists new, emitted x = new ++ base /\ map h_url (historyOf new) = hs.

(** The state in which [start] hands over to the main loop. *)
Definition freshlyStarted (x : Engine) : Prop :=
  isRunning x = true /\ isPaused x = false /\ abortController x = Some false /\
  orchestrator x <> None /\ circuitBrokenUntil x = None /\ processedToday x = 0%nat.

(* ================================================================== *)
(** * SEOHealthScorer: the page analysis behind the scoring phase
      (src/lib/sota/SEOHealthScorer.ts)

    The analyser that the scoring phase awaits. What the platform gives (the
    regular expressions, [URL], [Date], [Number], [fetch]) is read from a
    [Platform]; the arithmetic of the score, the issues and the
    recommendations follow the source statement by statement. Counts are
    integers; the readability figures, doubles in the source, are rationals. *)

Module SEOHealthScorer.

Record HeadingStructure := mkHeadings {
  h1Count : Z; h2Count : Z; h3Count : Z; isValid : bool
}.

Record Freshness := mkFreshness {
  lastModified : option Z; daysSinceUpdate : Z; isStale : bool
}.

Record LinkCounts := mkLinks { internalCount : Z; externalCount : Z; brokenCount : Z }.

Record SchemaMarkup := mkSchema { hasSchema : bool; types : list string }.

Record SEOHealthAnalysis := mkAnalysis {
  url : string;
  score : Z;
  wordCount : Z;
  headingStructure : HeadingStructure;
  freshness : Freshness;
  links : LinkCounts;
  schema : SchemaMarkup;
  issues : list string;
  recommendations : list string
}.

Record EEAT := mkEEAT {
  authorSignals : Z;
  citationCount : Z;
  hasFirstPersonExperience : bool;
  expertiseIndicators : list string
}.

Record Readability := mkReadability {
  avgSentenceLength : Q;
  avgWordLength : Q;
  fleschKincaid : Q;
  readabilityGrade : string
}.

(** The regular expressions of the file, by what they look for; the lists
    [credentialPatterns], [citationPatterns], [experiencePatterns] and
    [datePatterns] by position. *)
Inductive Pattern :=
| h1Tag | h2Tag | h3Tag            (* /<h1[\s>]/gi, ... *)
| imgTag                           (* /<img\s/i *)
| metaDescriptionTag               (* /<meta\s+name=["']description["']/i *)
| authorTag                        (* /<author|rel=["']author["']|class=...author.../i *)
| authorBio                        (* /about the author|author bio|written by|reviewed by/i *)
| credentialPattern (i : nat)
| citationPattern (i : nat)
| experiencePattern (i : nat)
| datePattern (i : nat).

Record ParsedURL := mkParsedURL { protocol : string; hostname : string }.

Record Response := mkResponse { ok : bool; status : Z; text : Settled string }.

(** A JavaScript number, as [Number(s)] gives it. *)
Inductive Num :=
| NaN
| infinite (positive : bool)
| finite (q : Q).

Inductive Request :=
| viaJina (target : string)        (* fetch(`https://r.jina.ai/${url}`, ...) *)
| direct (target : string).        (* fetch(url, ...) *)

Record Platform := mkPlatform {
  (* strings and regular expressions *)
  codeUnits : string -> nat;                       (* s.length *)
  toLowerCase : string -> string;
  endsWith : string -> string -> bool;
  splitDots : string -> list string;               (* s.split('.') *)
  splitWhitespace : string -> list string;         (* s.split(/\s+/) *)
  splitSentences : string -> list string;          (* s.split(/[.!?]+/) *)
  trim : string -> string;
  extractTextContent : string -> string;           (* the four replaces and the trim *)
  test : Pattern -> string -> bool;                (* re.test(s) *)
  matchCount : Pattern -> string -> Z;             (* (s.match(re) || []).length *)
  toFixed : Q -> nat -> string;
  toNumber : string -> Num;                        (* Number(s) *)
  (* URL and Date *)
  parseURL : string -> option ParsedURL;           (* new URL(s); None: it throws *)
  now : Z;
  dateFound : Pattern -> string -> option Z;       (* the time of the date that a pattern
                                                      finds and [Date] can read *)
  (* the parts of the analysis left to the platform *)
  countLinks : string -> string -> Z * Z;          (* analyzeLinks: internal, external *)
  schemaTypes : string -> list string;             (* the @type values of the JSON-LD scripts *)
  countSyllables : string -> Z;
  (* the network *)
  fetch : Request -> Settled Response
}.

Section Analysis.
Variable w : Platform.

Definition isPublicHttpUrl (input : string) : bool :=
  match parseURL w input with
  | None => false
  | Some parsed =>
      if negb (String.eqb (protocol parsed) "http:") && negb (String.eqb (protocol parsed) "https:")
      then false
      else
        let hostname := toLowerCase w (hostname parsed) in
        if String.eqb hostname "localhost" || String.eqb hostname "[::1]" then false
        else if endsWith w hostname ".local" || endsWith w hostname ".internal" then false
        else
          let parts := map (toNumber w) (splitDots w hostname) in
          let equals n (x : Num) :=
            match x with finite q => Qeq_bool q n | _ => false end in
          let within lo hi (x : Num) :=
            match x with
            | finite q => Qle_bool lo q && Qle_bool q hi
            | _ => false
            end in
          if (List.length parts =? 4)%nat
             && forallb (fun x => match x with NaN => false | _ => true end) parts
          then
            let p0 := nth 0 parts NaN in
            let p1 := nth 1 parts NaN in
            if equals 127%Q p0 || equals 10%Q p0 || equals 0%Q p0 then false
            else if equals 172%Q p0 && within 16%Q 31%Q p1 then false
            else if equals 192%Q p0 && equals 168%Q p1 then false
            else if equals 169%Q p0 && equals 254%Q p1 then false
            else true
          else true
  end.

(** [fetchPageContent]: the reader first, then the page itself. A rejection
    carries the message that [analyzePage] reports for it. *)
Definition fetchPageContent (target : string) : Settled string :=
  let fallback :=
    match fetch w (direct target) with
    | Rejected message => Rejected message
    | Resolved response =>
        if negb (ok response) then Rejected ("HTTP " +++ show (status response))
        else text response
    end in
  match fetch w (viaJina target) with
  | Resolved response =>
      if ok response then
        match text response with
        | Resolved html => Resolved html
        | Rejected _ => fallback
        end
      else fallback
  | Rejected _ => fallback
  end.

Definition countWords (t : string) : Z :=
  Z.of_nat (List.length (filter (fun word => (0 <? codeUnits w word)%nat)
                                (splitWhitespace w t))).

Definition analyzeHeadings (html : string) : HeadingStructure :=
  let h1Count := matchCount w h1Tag html in
  let h2Count := matchCount w h2Tag html in
  let h3Count := matchCount w h3Tag html in
  mkHeadings h1Count h2Count h3Count ((h1Count =? 1) && (2 <=? h2Count)).

(** The first of the five date patterns that finds a date. *)
Definition analyzeFreshness (html : string) : Freshness :=
  let lastModified :=
    fold_left (fun found i =>
                 match found with
                 | Some t => Some t
                 | None => dateFound w (datePattern i) html
                 end) (seq 0 5) None in
  let daysSinceUpdate :=
    match lastModified with
    | Some t => (now w - t) / (1000 * 60 * 60 * 24)
    | None => 999
    end in
  mkFreshness lastModified daysSinceUpdate (90 <? daysSinceUpdate).

Definition analyzeLinks (html pageUrl : string) : LinkCounts :=
  let (internal, external) := countLinks w html pageUrl in
  mkLinks internal external 0.

Definition analyzeSchema (html : string) : SchemaMarkup :=
  let found := schemaTypes w html in
  mkSchema (0 <? List.length found)%nat
    (* [...new Set(schemaTypes)]: the first occurrences, in order *)
    (fold_left (fun seen type => if existsb (String.eqb type) seen then seen else seen ++ [type])
               found []).

Definition analyzeEEAT (html textContent : string) : EEAT :=
  let hasAuthorTag := test w authorTag html in
  let hasCredentials := existsb (fun i => test w (credentialPattern i) textContent) (seq 0 6) in
  let hasBio := test w authorBio textContent in
  let authorSignals :=
    (if hasAuthorTag then 1 else 0) + (if hasCredentials then 1 else 0)
    + (if hasBio then 1 else 0) in
  let citationCount :=
    fold_left (fun count i => count + matchCount w (citationPattern i) textContent)
              (seq 0 6) 0 in
  let hasFirstPersonExperience :=
    existsb (fun i => test w (experiencePattern i) textContent) (seq 0 7) in
  mkEEAT authorSignals (Z.min citationCount 20) hasFirstPersonExperience
    ((if hasAuthorTag then ["author-tag"%string] else [])
     ++ (if hasCredentials then ["credentials"%string] else [])
     ++ (if hasBio then ["author-bio"%string] else [])
     ++ (if hasFirstPersonExperience then ["first-person-experience"%string] else [])).

Definition analyzeReadability (textContent : string) : Readability :=
  let sentences :=
    filter (fun s => (10 <? codeUnits w (trim w s))%nat) (splitSentences w textContent) in
  let words :=
    filter (fun word => (0 <? codeUnits w word)%nat) (splitWhitespace w textContent) in
  let syllables := fold_left (fun count word => count + countSyllables w word) words 0 in
  let sentenceCount := Z.max (Z.of_nat (List.length sentences)) 1 in
  let wordCount := Z.max (Z.of_nat (List.length words)) 1 in
  let avgSentenceLength := (inject_Z wordCount / inject_Z sentenceCount)%Q in
  let avgWordLength :=
    (inject_Z (fold_left (fun sum word => (sum + Z.of_nat (codeUnits w word))%Z) words 0%Z)
     / inject_Z wordCount)%Q in
  let avgSyllablesPerWord := (inject_Z syllables / inject_Z wordCount)%Q in
  let fleschKincaid :=
    ((39 # 100) * avgSentenceLength + (118 # 10) * avgSyllablesPerWord - (1559 # 100))%Q in
  let readabilityGrade :=
    if Qle_bool fleschKincaid 6 then "Easy (Elementary)"%string
    else if Qle_bool fleschKincaid 8 then "Fairly Easy (Middle School)"%string
    else if Qle_bool fleschKincaid 10 then "Standard (High School)"%string
    else if Qle_bool fleschKincaid 12 then "Fairly Difficult (Some College)"%string
    else "Difficult (College+)"%string in
  mkReadability avgSentenceLength avgWordLength
    (if Qle_bool fleschKincaid 0 then 0%Q else fleschKincaid) readabilityGrade.

(** The running state of [analyzeHtml]: the score, the issues and the
    recommendations. Each [if] statement of the method chooses what happens
    to it. *)
Record Tally := mkTally {
  t_score : Z; t_issues : list string; t_recommendations : list string
}.

(** [score -= points], without a word. *)
Definition deduct (points : Z) (t : Tally) : Tally :=
  mkTally (t_score t - points) (t_issues t) (t_recommendations t).

(** No branch of the statement is taken. *)
Definition unchanged (t : Tally) : Tally := t.

(** [score -= points; issues.push(issue); recommendations.push(advice)] *)
Definition report (points : Z) (issue advice : string) (t : Tally) : Tally :=
  mkTally (t_score t - points) (t_issues t ++ [issue]) (t_recommendations t ++ [advice]).

Definition analyzeHtml (pageUrl html : string) : SEOHealthAnalysis :=
  let t := mkTally 100 [] [] in
  let textContent := extractTextContent w html in
  let wordCount := countWords textContent in
  (* word count *)
  let t :=
    (if wordCount <? 500 then
      report 30 ("Very thin content: " +++ show wordCount +++ " words (target: 2500+)")
        "Expand content significantly with in-depth coverage"
    else if wordCount <? 1000 then
      report 20 ("Thin content: " +++ show wordCount +++ " words")
        "Add more comprehensive content sections"
    else if wordCount <? 1500 then
      report 10 ("Below optimal word count: " +++ show wordCount +++ " words")
        "Consider expanding with more details and examples"
    else if wordCount <? 2500 then deduct 5
    else unchanged) t in
  (* heading structure *)
  let headingStructure := analyzeHeadings html in
  let t :=
    (if h1Count headingStructure =? 0 then
      report 15 "Missing H1 tag" "Add a single, descriptive H1 tag"
    else if 1 <? h1Count headingStructure then
      report 10 ("Multiple H1 tags: " +++ show (h1Count headingStructure))
        "Use only one H1 tag per page"
    else unchanged) t in
  let t :=
    (if h2Count headingStructure =? 0 then
      report 10 "No H2 subheadings" "Add H2 headings to structure content"
    else if (h2Count headingStructure <? 3) && (1000 <? wordCount) then
      report 5 "Few H2 headings for content length"
        "Add more H2 subheadings for better structure"
    else unchanged) t in
  (* freshness *)
  let freshness := analyzeFreshness html in
  let t :=
    (if 365 <? daysSinceUpdate freshness then
      report 20 ("Content is " +++ show (daysSinceUpdate freshness) +++ " days old")
        "Update with fresh information and current year references"
    else if 180 <? daysSinceUpdate freshness then
      report 10 ("Content hasn't been updated in " +++ show (daysSinceUpdate freshness)
                 +++ " days")
        "Consider refreshing with recent data"
    else if 90 <? daysSinceUpdate freshness then deduct 5
    else unchanged) t in
  (* links *)
  let links := analyzeLinks html pageUrl in
  let t :=
    (if internalCount links =? 0 then
      report 15 "No internal links" "Add relevant internal links to related content"
    else if internalCount links <? 3 then
      report 5 "Few internal links" "Add more internal links for better site structure"
    else unchanged) t in
  let t :=
    (if externalCount links =? 0 then
      report 5 "No external authority links" "Add citations to authoritative sources"
    else unchanged) t in
  (* schema markup *)
  let schema := analyzeSchema html in
  let t :=
    (if negb (hasSchema schema) then
      report 10 "No structured data/schema markup"
        "Add JSON-LD schema (Article, FAQ, HowTo, etc.)"
    else unchanged) t in
  (* content quality signals *)
  let t :=
    (if negb (test w imgTag html) then
      report 5 "No images detected" "Add relevant images with alt text"
    else unchanged) t in
  let t :=
    (if negb (test w metaDescriptionTag html) then
      report 10 "Missing meta description" "Add a compelling meta description"
    else unchanged) t in
  (* E-E-A-T signals *)
  let eeatAnalysis := analyzeEEAT html textContent in
  let t :=
    (if authorSignals eeatAnalysis <? 2 then
      report 5 "Weak author/expertise signals"
        "Add author bio, credentials, and expertise indicators"
    else unchanged) t in
  let t :=
    (if citationCount eeatAnalysis <? 3 then
      report 5 ("Only " +++ show (citationCount eeatAnalysis) +++ " citations found")
        "Add more citations to research, studies, and authoritative sources"
    else unchanged) t in
  let t :=
    (if negb (hasFirstPersonExperience eeatAnalysis) then
      report 3 "No first-hand experience indicators"
        "Add personal experience, case studies, or real-world examples"
    else unchanged) t in
  (* readability *)
  let readability := analyzeReadability textContent in
  let t :=
    (if negb (Qle_bool (avgSentenceLength readability) 25) then
      report 5 ("Long sentences (avg " +++ toFixed w (avgSentenceLength readability) 0
                +++ " words)")
        "Break up long sentences for better readability"
    else unchanged) t in
  let t :=
    (if negb (Qle_bool (fleschKincaid readability) 12) then
      report 5 ("High reading level (Grade " +++ toFixed w (fleschKincaid readability) 1
                +++ ")")
        "Simplify vocabulary for broader audience"
    else unchanged) t in
  (* Math.max(0, Math.min(100, score)) *)
  mkAnalysis pageUrl (Z.max 0 (Z.min 100 (t_score t))) wordCount headingStructure freshness
    links schema (t_issues t) (t_recommendations t).

(** What [analyzePage] returns when the analysis throws. *)
Definition failedAnalysis (target message : string) : SEOHealthAnalysis :=
  mkAnalysis target 0 0 (mkHeadings 0 0 0 false) (mkFreshness None 999 true)
    (mkLinks 0 0 0) (mkSchema false [])
    ["Failed to analyze: " +++ message] ["Manual review required"%string].

(** [analyzePage]: the promise always resolves. *)
Definition analyzePage (target : string) : SEOHealthAnalysis :=
  if negb (isPublicHttpUrl target) then
    failedAnalysis target "URL must be a public HTTP/HTTPS address"
  else
    match fetchPageContent target with
    | Resolved html => analyzeHtml target html
    | Rejected message => failedAnalysis target message
    end.

End Analysis.

(** The account that [analyzeHtml] keeps: one recommendation for each issue,
    at most [most] issues, at least 3 and at most 30 points off for each
    issue, and at most [silent] points off without an issue. *)
Definition accounted (silent : Z) (most : nat) (t : Tally) : Prop :=
  List.length (t_recommendations t) = List.length (t_issues t) /\
  (List.length (t_issues t) <= most)%nat /\
  0 <= silent /\
  100 - silent - 30 * Z.of_nat (List.length (t_issues t)) <= t_score t
    <= 100 - 3 * Z.of_nat (List.length (t_issues t)).

(** The page cannot be analysed: its address is not a public one, or it
    cannot be fetched. *)
Definition cannotBeAnalysed (w : Platform) (target : string) : Prop :=
  isPublicHttpUrl w target = false \/ exists message, fetchPageContent w target = Rejected message.

End SEOHealthScorer.

(** The analyser under a short name. *)
Module Scorer := SEOHealthScorer.

(* ================================================================== *)
(** * ContentPostProcessor: visual breaks in generated HTML
      (the second module of src/lib/sota/SEOHealthScorer.ts)

    The processor works on the blocks that [parseBlocks] finds in the HTML.
    The parser, the styled snippets of [VISUAL_ELEMENTS] and
    [extractFirstSentence] are read from a [Platform]; the two loops over the
    blocks are the source's. Word counts are the lengths of arrays; the
    limit, a number of the caller, is an integer. The options of the caller
    are a [Partial<VisualBreakOptions>], in which a key can be missing or
    hold [undefined]; the spread of [enforceVisualBreaks] copies such a key
    over the default. *)

Module ContentPostProcessor.

Inductive BreakElementType :=
| callout_info | callout_tip | callout_warning | callout_success
| pullquote | key_takeaway | hr | highlight_box.

Record VisualBreakOptions := mkOptions {
  maxConsecutiveWords : Z;
  breakElementCycle : list BreakElementType;
  usePullQuotes : bool
}.

(** A key of an object of type [Partial<VisualBreakOptions>]: it is not
    there, or it is there and holds a value or [undefined] ([None]), which
    the type allows as well. *)
Inductive Key (A : Type) :=
| absent
| present (value : option A).
Arguments absent {A}.
Arguments present {A} value.

Record PartialOptions := mkPartial {
  given_maxConsecutiveWords : Key Z;
  given_breakElementCycle : Key (list BreakElementType);
  given_usePullQuotes : Key bool
}.

(** The object that [{ ...this.DEFAULT_OPTIONS, ...options }] makes: every
    key is there, and holds a value or [undefined] ([None]). *)
Record SpreadOptions := mkSpread {
  spread_maxConsecutiveWords : option Z;
  spread_breakElementCycle : option (list BreakElementType);
  spread_usePullQuotes : option bool
}.

Record WallOfTextViolation := mkViolation { blockIndex : Z; v_wordCount : nat }.

Record ValidationResult := mkValidation {
  valid : bool;
  violations : list WallOfTextViolation
}.

Record HtmlBlock := mkBlock { tag : string; html : string; wordCount : nat }.

Record Platform := mkPlatform {
  parseBlocks : string -> list HtmlBlock;
  extractFirstSentence : string -> string;
  VISUAL_ELEMENTS : BreakElementType -> option string -> string
}.

Definition VISUAL_BREAK_TAGS : list string :=
  ["h1"; "h2"; "h3"; "h4"; "h5"; "h6"; "blockquote"; "table"; "ul"; "ol";
   "figure"; "img"; "hr"; "div"; "details"; "aside"; "section"; "pre"]%string.

Definition DEFAULT_OPTIONS : VisualBreakOptions :=
  mkOptions 200
    [callout_tip; key_takeaway; callout_info; pullquote; highlight_box; callout_success;
     callout_warning; hr]
    true.

(** One key of the spread: what [options] holds under it, [undefined]
    included, when the key is there, and the default when it is not. *)
Definition spreadKey {A} (default : A) (given : Key A) : option A :=
  match given with
  | absent => Some default
  | present value => value
  end.

(** [{ ...this.DEFAULT_OPTIONS, ...options }] *)
Definition withDefaults (options : option PartialOptions) : SpreadOptions :=
  match options with
  | None =>
      mkSpread (Some (maxConsecutiveWords DEFAULT_OPTIONS))
        (Some (breakElementCycle DEFAULT_OPTIONS)) (Some (usePullQuotes DEFAULT_OPTIONS))
  | Some given =>
      mkSpread
        (spreadKey (maxConsecutiveWords DEFAULT_OPTIONS) (given_maxConsecutiveWords given))
        (spreadKey (breakElementCycle DEFAULT_OPTIONS) (given_breakElementCycle given))
        (spreadKey (usePullQuotes DEFAULT_OPTIONS) (given_usePullQuotes given))
  end.

(** [options?.maxConsecutiveWords]: [undefined] ([None]) without options,
    without the key, and with the key holding [undefined]. *)
Definition givenLimit (options : option PartialOptions) : option Z :=
  match options with
  | None => None
  | Some given =>
      match given_maxConsecutiveWords given with
      | absent => None
      | present value => value
      end
  end.

(** [VISUAL_BREAK_TAGS.has(block.tag) && block.tag !== "p"] *)
Definition isVisualBreak (block : HtmlBlock) : bool :=
  existsb (String.eqb (tag block)) VISUAL_BREAK_TAGS && negb (String.eqb (tag block) "p").

(* ------------------------------------------------------------------ *)
(** *** validateVisualBreaks *)

Record Validation := mkValidationState {
  consecutiveWords : nat;
  runStartIndex : Z;
  found : list WallOfTextViolation
}.

(** [if (consecutiveWords > maxConsecutiveWords && runStartIndex >= 0) violations.push(...)] *)
Definition checkRun (limit : Z) (s : Validation) : list WallOfTextViolation :=
  if (limit <? Z.of_nat (consecutiveWords s)) && (0 <=? runStartIndex s)
  then found s ++ [mkViolation (runStartIndex s) (consecutiveWords s)]
  else found s.

(** The body of the loop, for the block at index [i]. *)
Definition validateBlock (limit : Z) (s : Validation) (i : Z) (block : HtmlBlock) : Validation :=
  if isVisualBreak block then
    mkValidationState 0 (-1) (checkRun limit s)
  else
    mkValidationState (consecutiveWords s + wordCount block)
      (if runStartIndex s =? -1 then i else runStartIndex s) (found s).

Fixpoint validateBlocks (limit : Z) (s : Validation) (i : Z) (blocks : list HtmlBlock)
    : Validation :=
  match blocks with
  | [] => s
  | block :: rest => validateBlocks limit (validateBlock limit s i block) (i + 1) rest
  end.

(** The violations of a list of blocks: the loop, then the trailing run. *)
Definition violationsOf (limit : Z) (blocks : list HtmlBlock) : list WallOfTextViolation :=
  checkRun limit (validateBlocks limit (mkValidationState 0 (-1) []) 0 blocks).

Definition validateVisualBreaks (w : Platform) (text : string)
    (maxConsecutiveWords : option Z) : ValidationResult :=
  let limit := match maxConsecutiveWords with Some v => v | None => 200 end in
  let blocks := parseBlocks w text in
  let violations := violationsOf limit blocks in
  mkValidation (List.length violations =? 0)%nat violations.

(* ------------------------------------------------------------------ *)
(** *** enforceVisualBreaks *)

(** What is pushed to [result]: the HTML of a block, or the snippet of a
    visual element made for a context sentence. *)
Inductive Piece :=
| kept (block : HtmlBlock)
| injected (elementType : BreakElementType) (contextSentence : option string).

Definition render (w : Platform) (p : Piece) : string :=
  match p with
  | kept block => html block
  | injected elementType contextSentence => VISUAL_ELEMENTS w elementType contextSentence
  end.

Record Enforcement := mkEnforcement {
  result : list Piece;
  e_consecutiveWords : nat;
  cycleIndex : nat;
  lastParagraphHtml : string
}.

(** The body of the loop. With an empty cycle the element type is
    [undefined] and nothing is injected. *)
Definition enforceBlock (w : Platform) (opts : VisualBreakOptions) (s : Enforcement)
    (block : HtmlBlock) : Enforcement :=
  if isVisualBreak block then
    mkEnforcement (result s ++ [kept block]) 0 (cycleIndex s) (lastParagraphHtml s)
  else
    let consecutiveWords := (e_consecutiveWords s + wordCount block)%nat in
    if maxConsecutiveWords opts <? Z.of_nat consecutiveWords then
      let elementType :=
        nth_error (breakElementCycle opts)
                  (cycleIndex s mod List.length (breakElementCycle opts)) in
      let contextSentence :=
        match elementType with
        | Some pullquote =>
            if usePullQuotes opts && negb (String.eqb (lastParagraphHtml s) EmptyString)
            then Some (extractFirstSentence w (lastParagraphHtml s))
            else None
        | _ => None
        end in
      let result :=
        match elementType with
        | Some t => result s ++ [injected t contextSentence]
        | None => result s
        end in
      mkEnforcement (result ++ [kept block]) (wordCount block) (S (cycleIndex s)) (html block)
    else
      mkEnforcement (result s ++ [kept block]) consecutiveWords (cycleIndex s) (html block).

Definition enforceBlocks (w : Platform) (opts : VisualBreakOptions) (blocks : list HtmlBlock)
    : Enforcement :=
  fold_left (enforceBlock w opts) blocks (mkEnforcement [] 0 0 EmptyString).

(** The body of the loop once more, on the object that the spread makes, in
    which a key can hold [undefined]: [consecutiveWords > undefined] is
    false, reading [length] of [undefined] throws a [TypeError], and
    [undefined] is not truthy. Where every key holds a value this is
    [enforceBlock]. *)
Definition enforceBlockSpread (w : Platform) (opts : SpreadOptions) (s : Enforcement)
    (block : HtmlBlock) : Completion Enforcement :=
  if isVisualBreak block then
    Returned (mkEnforcement (result s ++ [kept block]) 0 (cycleIndex s) (lastParagraphHtml s))
  else
    let consecutiveWords := (e_consecutiveWords s + wordCount block)%nat in
    if match spread_maxConsecutiveWords opts with
       | Some limit => limit <? Z.of_nat consecutiveWords
       | None => false
       end
    then
      match spread_breakElementCycle opts with
      | None => Thrown "TypeError: Cannot read properties of undefined (reading 'length')"
      | Some cycle =>
          let elementType := nth_error cycle (cycleIndex s mod List.length cycle) in
          let contextSentence :=
            match elementType with
            | Some pullquote =>
                if match spread_usePullQuotes opts with Some flag => flag | None => false end
                   && negb (String.eqb (lastParagraphHtml s) EmptyString)
                then Some (extractFirstSentence w (lastParagraphHtml s))
                else None
            | _ => None
            end in
          let result :=
            match elementType with
            | Some t => result s ++ [injected t contextSentence]
            | None => result s
            end in
          Returned (mkEnforcement (result ++ [kept block]) (wordCount block)
                      (S (cycleIndex s)) (html block))
      end
    else
      Returned (mkEnforcement (result s ++ [kept block]) consecutiveWords (cycleIndex s)
                  (html block)).

Fixpoint enforceBlocksSpread (w : Platform) (opts : SpreadOptions) (blocks : list HtmlBlock)
    (s : Enforcement) : Completion Enforcement :=
  match blocks with
  | [] => Returned s
  | block :: rest =>
      match enforceBlockSpread w opts s block with
      | Returned s' => enforceBlocksSpread w opts rest s'
      | Thrown message => Thrown message
      end
  end.

(** [result.join("\n\n")] *)
Definition join (pieces : list string) : string :=
  String.concat (String (ascii_of_nat 10) (String (ascii_of_nat 10) EmptyString)) pieces.

Definition enforceVisualBreaks (w : Platform) (text : string) (options : option PartialOptions)
    : Completion string :=
  let opts := withDefaults options in
  let blocks := parseBlocks w text in
  if (List.length blocks =? 0)%nat then Returned text
  else
    match enforceBlocksSpread w opts blocks (mkEnforcement [] 0 0 EmptyString) with
    | Returned s => Returned (join (map (render w) (result s)))
    | Thrown message => Thrown message
    end.

(* ------------------------------------------------------------------ *)
(** *** process *)

Record Processed := mkProcessed {
  p_html : string;
  p_violations : list WallOfTextViolation;
  wasModified : bool
}.

Definition process (w : Platform) (text : string) (options : option PartialOptions)
    : Completion Processed :=
  let preValidation := validateVisualBreaks w text (givenLimit options) in
  if valid preValidation then Returned (mkProcessed text [] false)
  else
    match enforceVisualBreaks w text options with
    | Returned processed =>
        let postValidation := validateVisualBreaks w processed (givenLimit options) in
        Returned (mkProcessed processed (violations postValidation) true)
    | Thrown message => Thrown message
    end.

(* ------------------------------------------------------------------ *)
(** *** The vocabulary of the properties *)

(** The runs of text blocks in a list of pieces: a visual break, kept or
    injected, ends a run and begins the next. *)
Fixpoint runsOf (pieces : list Piece) : list (list HtmlBlock) :=
  match pieces with
  | [] => [[]]
  | p :: rest =>
      match p with
      | kept block =>
          if isVisualBreak block then [] :: runsOf rest
          else
            match runsOf rest with
            | run :: runs => (block :: run) :: runs
            | [] => [[block]]
            end
      | injected _ _ => [] :: runsOf rest
      end
  end.

Definition wordsOf (run : list HtmlBlock) : nat :=
  fold_right (fun block n => (wordCount block + n)%nat) 0%nat run.

(** The blocks among the pieces, in order. *)
Definition blocksOf (pieces : list Piece) : list HtmlBlock :=
  flat_map (fun p => match p with kept block => [block] | injected _ _ => [] end) pieces.

Definition isInjected (p : Piece) : bool :=
  match p with injected _ _ => true | kept _ => false end.

End ContentPostProcessor.

(** The post-processor under a short name. *)
Module PostProcessor := ContentPostProcessor.

(* ================================================================== *)
(** ** More of the small world

    The sample world with its working collaborators; a host that calls
    [stop] at every point at which calls are let in; a platform without
    network, on which no pattern matches; and the analyser of the engine
    made of the scorer on a platform. *)

Definition sampleWorld : Environment :=
  sampleEnvironment analyzes40 (generatesAt 95) publishes.

Definition stoppingHost : Environment :=
  mkEnvironment
    (fun u => Some u) (fun s => s) (fun s t => String.eqb s t) (fun s => [s]) (fun s => s)
    (fun _ => 12) (fun _ => 3) (fun _ => 1 # 2)
    (fun _ => sampleAppConfig) analyzes40 (generatesAt 95) publishes (fun _ => [call_stop]).

Definition offlinePlatform : Scorer.Platform :=
  Scorer.mkPlatform String.length (fun s => s) (fun s t => false) (fun s => [s]) (fun s => [s])
    (fun s => [s]) (fun s => s) (fun s => s) (fun _ _ => false) (fun _ _ => 0)
    (fun _ _ => "0"%string) (fun _ => Scorer.NaN)
    (fun s => Some (Scorer.mkParsedURL "https:" s)) 0 (fun _ _ => None) (fun _ _ => (0, 0))
    (fun _ => []) (fun _ => 1) (fun _ => Rejected "Failed to fetch").

Definition scorerOn (w : Scorer.Platform) (duration : Z) (n : nat) (u : string) : Call Z :=
  mkCall duration (Resolved (Scorer.score (Scorer.analyzePage w u))).

(** Options that exclude the page [/y]. *)
Definition excludingOptions : GodModeEngineOptions :=
  mkOptions sampleConfig ["/x"; "/y"]%string samplePriorityUrls ["/y"%string] [] false.

(** A page of four blocks: two paragraphs of 150 and of 100 words, a
    heading, a paragraph of 50 words. *)
Definition sampleBlocks : list PostProcessor.HtmlBlock :=
  [PostProcessor.mkBlock "p" "<p>one</p>" 150; PostProcessor.mkBlock "p" "<p>two</p>" 100;
   PostProcessor.mkBlock "h2" "<h2>three</h2>" 1; PostProcessor.mkBlock "p" "<p>four</p>" 50].

Definition samplePage : PostProcessor.Platform :=
  PostProcessor.mkPlatform (fun _ => sampleBlocks) (fun s => s) (fun _ _ => "<hr />"%string).
(* ------------------------------------------------------------------ *)
(** *** Facts about the comparator and the sort *)

Lemma priorityOrder_range p : 0 <= priorityOrder p <= 3.
Proof. destruct p; simpl; lia. Qed.

Lemma priorityOrder_inj p q : priorityOrder p = priorityOrder q -> p = q.
Proof. destruct p, q; simpl; intros H; try reflexivity; lia. Qed.

Lemma comesFirst_spec a b :
  comesFirst a b <->
  priorityOrder (priority a) < priorityOrder (priority b) \/
  (priority a = priority b /\ healthScore a <= healthScore b).
Proof.
  unfold comesFirst, compareItems.
  destruct (Z.eqb_spec (priorityOrder (priority a) - priorityOrder (priority b)) 0)
    as [E | E]; simpl.
  - assert (P : priority a = priority b) by (apply priorityOrder_inj; lia).
    rewrite P. split.
    + intros H. right. split; [reflexivity | lia].
    + intros [H | [_ H]]; lia.
  - split.
    + intros H. left. lia.
    + intros [H | [H _]]; [lia | rewrite H in E; lia].
Qed.

Lemma comesFirst_total a b : comesFirst a b \/ comesFirst b a.
Proof.
  rewrite !comesFirst_spec.
  destruct (Z.lt_trichotomy (priorityOrder (priority a)) (priorityOrder (priority b)))
    as [H | [H | H]]; auto.
  apply priorityOrder_inj in H.
  destruct (Z.le_ge_cases (healthScore a) (healthScore b)); auto.
Qed.

Lemma comesFirst_trans a b c : comesFirst a b -> comesFirst b c -> comesFirst a c.
Proof.
  rewrite !comesFirst_spec.
  intros [H1 | [P1 H1]] [H2 | [P2 H2]].
  - left; lia.
  - left; rewrite <- P2; exact H1.
  - left; rewrite P1; exact H2.
  - right; split; [congruence | lia].
Qed.

Lemma Array_insert_perm {A} (f : A -> A -> Z) x l :
  Permutation (x :: l) (Array_insert f x l).
Proof.
  induction l as [| y l IH]; simpl.
  - apply Permutation_refl.
  - destruct (f x y <=? 0).
    + apply Permutation_refl.
    + eapply perm_trans; [apply perm_swap |]. apply perm_skip. exact IH.
Qed.

Lemma Array_sort_perm {A} (f : A -> A -> Z) l : Permutation l (Array_sort f l).
Proof.
  induction l as [| x l IH]; simpl.
  - apply perm_nil.
  - eapply perm_trans; [apply perm_skip; exact IH | apply Array_insert_perm].
Qed.

Lemma insert_ordered x q :
  QueueOrdered q -> QueueOrdered (Array_insert compareItems x q).
Proof.
  unfold QueueOrdered. induction 1 as [| y q Hq IH Hy]; simpl.
  - repeat constructor.
  - destruct (Z.leb_spec (compareItems x y) 0) as [L | L].
    + constructor.
      * constructor; assumption.
      * constructor; [exact L |].
        eapply Forall_impl; [| exact Hy].
        intros z Hz. eapply comesFirst_trans; [exact L | exact Hz].
    + constructor; [exact IH |].
      assert (Hyx : comesFirst y x).
      { destruct (comesFirst_total x y) as [H | H]; [unfold comesFirst in H; lia | exact H]. }
      eapply Permutation_Forall; [apply Array_insert_perm |].
      constructor; assumption.
Qed.

Lemma sortItems_ordered q : QueueOrdered (sortItems q).
Proof.
  unfold sortItems. induction q as [| x q IH]; simpl.
  - constructor.
  - apply insert_ordered. exact IH.
Qed.

Lemma sortItems_perm q : Permutation q (sortItems q).
Proof. apply Array_sort_perm. Qed.

(** Positions in an ordered queue: of two items, the one in front compares at
    most equal to the one behind. *)
Lemma QueueOrdered_nth q i j a b :
  QueueOrdered q -> (i < j)%nat ->
  nth_error q i = Some a -> nth_error q j = Some b -> comesFirst a b.
Proof.
  intros Hq. revert i j. induction Hq as [| x q Hq IH Hx]; intros i j Hij Ha Hb.
  - destruct i; discriminate.
  - destruct j as [| j]; [lia |]. simpl in Hb.
    destruct i as [| i]; simpl in Ha.
    + injection Ha as <-. rewrite Forall_forall in Hx. apply Hx.
      eapply nth_error_In; exact Hb.
    + apply (IH i j); [lia | assumption | assumption].
Qed.


(* ================================================================== *)
(** ** Reasoning about methods *)

Lemma bind_run {A B} (m : M A) (k : A -> M B) e a e' :
  m e = (Returned a, e') -> bind m k e = k a e'.
Proof. intros H. unfold bind. rewrite H. reflexivity. Qed.

Lemma after_bind {A B} (m : M A) (k : A -> M B) e a :
  completion m e = Returned a -> after (bind m k) e = after (k a) (after m e).
Proof.
  unfold completion, after, bind. destruct (m e) as [[x | msg] e']; simpl.
  - intros H. injection H as ->. reflexivity.
  - discriminate.
Qed.

Lemma completion_this_bind {B} (k : Engine -> M B) e :
  completion (bind this k) e = completion (k e) e.
Proof. reflexivity. Qed.

Lemma preserves_ret {A} I (a : A) : preserves I (ret a).
Proof. intros e H. exact H. Qed.

Lemma preserves_throw {A} I message : preserves I (@throw A message).
Proof. intros e H. exact H. Qed.

Lemma preserves_this I : preserves I this.
Proof. intros e H. exact H. Qed.

Lemma preserves_assign I f : (forall e, I e -> I (f e)) -> preserves I (assign f).
Proof. intros H e He. apply H. exact He. Qed.

Lemma preserves_bind {A B} I (m : M A) (k : A -> M B) :
  preserves I m -> (forall a, preserves I (k a)) -> preserves I (bind m k).
Proof.
  intros Hm Hk e He. specialize (Hm e He). unfold after, bind in *.
  destruct (m e) as [[a | msg] e']; simpl in *.
  - apply Hk. exact Hm.
  - exact Hm.
Qed.

Lemma preserves_tryCatch {A} I (m : M A) (h : string -> M A) :
  preserves I m -> (forall msg, preserves I (h msg)) -> preserves I (tryCatch m h).
Proof.
  intros Hm Hh e He. specialize (Hm e He). unfold after, tryCatch in *.
  destruct (m e) as [[a | msg] e']; simpl in *.
  - exact Hm.
  - apply Hh. exact Hm.
Qed.

Lemma returns_ret {A} (a : A) : returns (ret a).
Proof. intros e. exists a. reflexivity. Qed.

Lemma returns_assign f : returns (assign f).
Proof. intros e. exists tt. reflexivity. Qed.

Lemma returns_this : returns this.
Proof. intros e. exists e. reflexivity. Qed.

Lemma returns_bind {A B} (m : M A) (k : A -> M B) :
  returns m -> (forall a, returns (k a)) -> returns (bind m k).
Proof.
  intros Hm Hk e. destruct (Hm e) as [a Ha]. unfold completion, bind in *.
  destruct (m e) as [[x | msg] e']; simpl in *; [| discriminate].
  apply Hk.
Qed.

Lemma returns_tryCatch {A} (m : M A) (h : string -> M A) :
  (forall msg, returns (h msg)) -> returns (tryCatch m h).
Proof.
  intros Hh e. unfold completion, tryCatch.
  destruct (m e) as [[x | msg] e']; simpl.
  - exists x. reflexivity.
  - apply Hh.
Qed.

(** [l = ?new ++ r], where [l] is [r] with events put in front. *)
Ltac prefix_of r l :=
  match l with
  | r => constr:(@nil Event)
  | ?a :: ?l' => let p := prefix_of r l' in constr:(a :: p)
  end.

Ltac new_events :=
  match goal with
  | |- ?l = _ ++ ?r => let p := prefix_of r l in exact (eq_refl (p ++ r))
  end.

Ltac open_effects :=
  unfold when, log, updateState, emit, sleep, randomUUID, await, sortQueue,
    addToHistory, updateStats.

Ltac open_methods :=
  unfold recordSuccess, recordFailure, isCircuitBroken, calculateBackoffDelay,
    stop, pause, resume, deliver, initializeOrchestrator, runScanPhase,
    runPublishPhase, callGenerator, generationFailed, afterPasses.

Create HintDb frame.

Ltac keeps_step :=
  match goal with
  | |- preserves _ _ => solve [auto with frame nocore]
  | |- preserves _ (bind _ _) => apply preserves_bind; [| intro]
  | |- preserves _ (tryCatch _ _) => apply preserves_tryCatch; [| intro]
  | |- preserves _ (ret _) => apply preserves_ret
  | |- preserves _ (throw _) => apply preserves_throw
  | |- preserves _ this => apply preserves_this
  | |- preserves _ (assign _) =>
      apply preserves_assign; intros ? ?; simpl in *; try assumption; try tauto
  | |- preserves _ (let _ := _ in _) => cbv zeta
  | |- preserves _ (if ?b then _ else _) => destruct b
  | |- preserves _ (match ?x with _ => _ end) => destruct x
  | |- preserves _ _ => progress open_effects
  | |- preserves _ _ => progress open_methods
  end.

Ltac keeps := repeat keeps_step.

Ltac returns_step :=
  match goal with
  | |- returns _ => solve [auto with frame nocore]
  | |- returns (bind _ _) => apply returns_bind; [| intro]
  | |- returns (tryCatch _ _) => apply returns_tryCatch; intro
  | |- returns (ret _) => apply returns_ret
  | |- returns this => apply returns_this
  | |- returns (assign _) => apply returns_assign
  | |- returns (let _ := _ in _) => cbv zeta
  | |- returns (if ?b then _ else _) => destruct b
  | |- returns (match ?x with _ => _ end) => destruct x
  | |- returns _ => progress open_effects
  | |- returns _ => progress open_methods
  end.

Ltac returning := repeat returns_step.

Section Properties.
Variable env : Environment.
Variable options : GodModeEngineOptions.

Ltac step :=
  unfold bind, tryCatch, assign, this, ret, throw, when, log, updateState, emit,
    sleep, randomUUID, await, sortQueue, after, completion in *; simpl in *.

(* ------------------------------------------------------------------ *)
(** *** Which methods leave the queue alone *)

Lemma callGenerator_queue k q : preserves (fun e => queue e = q) (callGenerator env k).
Proof. unfold callGenerator. keeps. Qed.
Hint Resolve callGenerator_queue : frame.

Lemma qualityPasses_queue turns k mx p q :
  preserves (fun e => queue e = q) (qualityPasses env turns k mx p).
Proof.
  revert p. induction turns as [| n IH]; intros p; simpl; keeps.
Qed.
Hint Resolve qualityPasses_queue : frame.

Lemma runPublishPhase_queue item c t s q :
  preserves (fun e => queue e = q) (runPublishPhase env options item c t s).
Proof. unfold runPublishPhase. keeps. Qed.
Hint Resolve runPublishPhase_queue : frame.

Lemma recordSuccess_queue s t q : preserves (fun e => queue e = q) (recordSuccess s t).
Proof. unfold recordSuccess. keeps. Qed.
Hint Resolve recordSuccess_queue : frame.

Lemma generateItem_queue item t b q :
  preserves (fun e => queue e = q) (generateItem env options item t b).
Proof. unfold generateItem. keeps. Qed.
Hint Resolve generateItem_queue : frame.

Lemma isCircuitBroken_queue q : preserves (fun e => queue e = q) isCircuitBroken.
Proof. unfold isCircuitBroken. keeps. Qed.
Hint Resolve isCircuitBroken_queue : frame.

Lemma recordFailure_queue q : preserves (fun e => queue e = q) recordFailure.
Proof. unfold recordFailure. keeps. Qed.
Hint Resolve recordFailure_queue : frame.

Lemma calculateBackoffDelay_queue n q :
  preserves (fun e => queue e = q) (calculateBackoffDelay env n).
Proof. unfold calculateBackoffDelay. keeps. Qed.
Hint Resolve calculateBackoffDelay_queue : frame.

Lemma perform_queue c q : preserves (fun e => queue e = q) (perform c).
Proof. destruct c; simpl; unfold pause, resume, stop; keeps. Qed.
Hint Resolve perform_queue : frame.

Lemma performAll_queue cs q : preserves (fun e => queue e = q) (performAll cs).
Proof. induction cs as [| c cs IH]; simpl; keeps. Qed.
Hint Resolve performAll_queue : frame.

Lemma deliver_queue q : preserves (fun e => queue e = q) (deliver env).
Proof. unfold deliver. keeps. Qed.
Hint Resolve deliver_queue : frame.

Lemma runScanPhase_queue q : preserves (fun e => queue e = q) (runScanPhase options).
Proof. unfold runScanPhase. keeps. Qed.
Hint Resolve runScanPhase_queue : frame.

(* ------------------------------------------------------------------ *)
(** *** Methods that never throw *)

Lemma perform_returns c : returns (perform c).
Proof. destruct c; simpl; unfold pause, resume, stop; returning. Qed.
Hint Resolve perform_returns : frame.

Lemma performAll_returns cs : returns (performAll cs).
Proof. induction cs as [| c cs IH]; simpl; returning. Qed.
Hint Resolve performAll_returns : frame.

Lemma deliver_returns : returns (deliver env).
Proof. unfold deliver. returning. Qed.
Hint Resolve deliver_returns : frame.

Lemma scoreOne_returns u : returns (scoreOne env options u).
Proof. unfold scoreOne. returning. Qed.
Hint Resolve scoreOne_returns : frame.

Lemma scoreLoop_returns urls : returns (scoreLoop env options urls).
Proof. induction urls as [| u urls IH]; simpl; returning. Qed.
Hint Resolve scoreLoop_returns : frame.

Lemma runScoringPhase_returns : returns (runScoringPhase env options).
Proof. unfold runScoringPhase. returning. Qed.
Hint Resolve runScoringPhase_returns : frame.

Lemma isCircuitBroken_returns : returns isCircuitBroken.
Proof. unfold isCircuitBroken. returning. Qed.
Hint Resolve isCircuitBroken_returns : frame.

Lemma recordFailure_returns : returns recordFailure.
Proof. unfold recordFailure. returning. Qed.
Hint Resolve recordFailure_returns : frame.

Lemma generationFailed_returns item t msg :
  returns (generationFailed env options item t msg).
Proof. unfold generationFailed, calculateBackoffDelay. returning. Qed.
Hint Resolve generationFailed_returns : frame.

Lemma runGenerationPhase_returns : returns (runGenerationPhase env options).
Proof. unfold runGenerationPhase. returning. Qed.
Hint Resolve runGenerationPhase_returns : frame.

Lemma runScanPhase_returns : returns (runScanPhase options).
Proof. unfold runScanPhase. returning. Qed.
Hint Resolve runScanPhase_returns : frame.

Lemma enqueuePriorityUrls_returns l counts :
  returns (enqueuePriorityUrls env options l counts).
Proof. revert counts. induction l as [| p l IH]; intros counts; simpl; returning. Qed.
Hint Resolve enqueuePriorityUrls_returns : frame.

Lemma initializePriorityQueue_returns : returns (initializePriorityQueue env options).
Proof. unfold initializePriorityQueue. returning. Qed.
Hint Resolve initializePriorityQueue_returns : frame.

(* ------------------------------------------------------------------ *)
(** *** What the generation phase does to the queue *)

Lemma preserves_this_bind {B} (I : Engine -> Prop) (k : Engine -> M B) :
  (forall e0, I e0 -> I (after (k e0) e0)) -> preserves I (bind this k).
Proof. intros H e He. unfold after, bind, this. simpl. apply H. exact He. Qed.

Lemma tryCatch_post {A} (I Q : Engine -> Prop) (body : M A) (handler : string -> M A) :
  preserves I body ->
  (forall e, I e -> Q e) ->
  (forall msg e, I e -> Q (after (handler msg) e)) ->
  forall e, I e -> Q (after (tryCatch body handler) e).
Proof.
  intros Hb Hn Hh e He. specialize (Hb e He). unfold after, tryCatch in *.
  destruct (body e) as [[a | msg] e']; simpl in *.
  - apply Hn. exact Hb.
  - apply Hh. exact Hb.
Qed.

Lemma hoare_bind {A B} (P R Q : Engine -> Prop) (m : M A) (k : A -> M B) :
  returns m -> hoare P m R -> (forall a, hoare R (k a) Q) -> hoare P (bind m k) Q.
Proof.
  intros Hr Hm Hk e He. destruct (Hr e) as [a Ha].
  rewrite (after_bind m k e a Ha). apply Hk. apply Hm. exact He.
Qed.

Lemma hoare_keep {A B} (I Q : Engine -> Prop) (m : M A) (k : A -> M B) :
  returns m -> preserves I m -> (forall a, hoare I (k a) Q) -> hoare I (bind m k) Q.
Proof. intros Hr Hm Hk. apply (hoare_bind I I Q); assumption. Qed.

Lemma hoare_this {B} (P Q : Engine -> Prop) (k : Engine -> M B) :
  (forall e0, P e0 -> Q (after (k e0) e0)) -> hoare P (bind this k) Q.
Proof. intros H e He. unfold after, bind, this. simpl. apply H. exact He. Qed.

Ltac through := apply hoare_keep; [returning | keeps | intro].

Ltac kept := match goal with |- hoare ?I ?m _ => change (preserves I m); keeps end.

Lemma generationFailed_queue item t msg q :
  hoare (fun e => queue e = q)
    (generationFailed env options item t msg)
    (fun e' => queue e' =
       if Z.of_nat (retryCount item) <? retryAttempts (config options)
       then sortItems (q ++ [retried item msg])
       else q).
Proof.
  unfold generationFailed. through. through.
  destruct (Z.of_nat (retryCount item) <? retryAttempts (config options)).
  - unfold calculateBackoffDelay.
    apply (hoare_bind _ (fun e' => queue e' = sortItems (q ++ [retried item msg]))).
    + returning.
    + through. through. through.
      intros e He. step. rewrite He. reflexivity.
    + intros _. kept.
  - apply (hoare_bind _ (fun e' => queue e' = q)).
    + returning.
    + kept.
    + intros _. kept.
Qed.

Lemma runGenerationPhase_queue e :
  let e' := after (runGenerationPhase env options) e in
  queue e' = queue e \/
  exists item rest, queue e = item :: rest /\
    (queue e' = rest \/
     exists msg, Z.of_nat (retryCount item) < retryAttempts (config options) /\
                 queue e' = sortItems (rest ++ [retried item msg])).
Proof.
  simpl. unfold runGenerationPhase.
  rewrite (after_bind _ _ e tt) by reflexivity.
  set (e1 := after (emit (entered m_runGenerationPhase)) e).
  assert (Q1 : queue e1 = queue e) by reflexivity.
  destruct (isCircuitBroken_returns e1) as [broken Hb].
  rewrite (after_bind _ _ e1 broken) by exact Hb.
  assert (Q2 : queue (after isCircuitBroken e1) = queue e)
    by (apply (isCircuitBroken_queue (queue e)); exact Q1).
  set (e2 := after isCircuitBroken e1) in *. clearbody e2. clear Hb.
  destruct broken.
  - left. rewrite <- Q2. step. reflexivity.
  - rewrite (after_bind _ _ e2 e2) by reflexivity.
    change (after this e2) with e2.
    destruct (queue e2) as [| item rest] eqn:Q.
    + left. rewrite <- Q2. exact Q.
    + right. exists item, rest. split; [symmetry; exact Q2 |].
      repeat (rewrite (after_bind _ _ _ tt) by reflexivity).
      match goal with |- context [after (tryCatch ?b ?h) ?s] =>
        apply (tryCatch_post (fun e => queue e = rest)
                 (fun e' => queue e' = rest \/
                    exists msg, Z.of_nat (retryCount item) < retryAttempts (config options) /\
                                queue e' = sortItems (rest ++ [retried item msg])) b h)
      end.
      * apply generateItem_queue.
      * intros e3 H3. left. exact H3.
      * intros msg e3 H3. rewrite (generationFailed_queue item (clock e2) msg rest e3 H3).
        destruct (Z.ltb_spec (Z.of_nat (retryCount item)) (retryAttempts (config options))).
        -- right. exists msg. split; [assumption | reflexivity].
        -- left. reflexivity.
      * reflexivity.
Qed.

(* ------------------------------------------------------------------ *)
(** *** Properties of the queue that its three writers keep

    [J] is any property of queues that survives the pushes and the sort. *)

Lemma queued_false u e : queued u e = false -> ~ In u (map url (queue e)).
Proof.
  unfold queued. intros H Hin. apply in_map_iff in Hin. destruct Hin as [x [Hx Hin]].
  assert (T : existsb (fun q => String.eqb (url q) u) (queue e) = true).
  { apply existsb_exists. exists x. split; [exact Hin |]. apply String.eqb_eq. exact Hx. }
  congruence.
Qed.

Section QueueInvariant.
Variable J : list GodModeQueueItem -> Prop.
Hypothesis J_push : forall q i u p s t src,
  J q -> ~ In u (map url q) -> J (q ++ [mkQueueItem i u p s t src 0 None]).
Hypothesis J_sort : forall q, J q -> J (sortItems q).

Lemma scoreOne_keeps u : preserves (fun e => J (queue e)) (scoreOne env options u).
Proof.
  unfold scoreOne.
  apply preserves_bind; [keeps | intros _].
  apply preserves_tryCatch; [| intro; keeps].
  apply preserves_bind; [keeps | intros e0].
  apply preserves_bind; [keeps | intros _].
  apply preserves_bind; [keeps | intros _].
  apply preserves_bind; [keeps | intros score].
  apply preserves_this_bind. intros e1 H1.
  destruct ((score <? minHealthScore (config options)) && negb (queued u e1)) eqn:C.
  - apply andb_prop in C. destruct C as [_ C]. apply negb_true_iff in C.
    step. apply J_push; [exact H1 | apply queued_false; exact C].
  - step. exact H1.
Qed.

Lemma scoreLoop_keeps urls : preserves (fun e => J (queue e)) (scoreLoop env options urls).
Proof.
  induction urls as [| u urls IH]; simpl.
  - keeps.
  - apply preserves_bind.
    + intros e He. simpl. rewrite (deliver_queue (queue e) e eq_refl). exact He.
    + intros _. apply preserves_bind; [keeps | intros e0].
      destruct (aborted e0 || isPaused e0); [keeps |].
      apply preserves_bind; [apply scoreOne_keeps | intros _; exact IH].
Qed.

Lemma runScoringPhase_keeps : preserves (fun e => J (queue e)) (runScoringPhase env options).
Proof.
  unfold runScoringPhase.
  apply preserves_bind; [keeps | intros _].
  apply preserves_bind; [keeps | intros _].
  destruct (List.length (filteredUrls env options) =? 0)%nat; [keeps |].
  apply preserves_bind; [keeps | intros _].
  apply preserves_bind; [apply scoreLoop_keeps | intros _].
  apply preserves_bind.
  - intros e He. step. apply J_sort. exact He.
  - intros _. keeps.
Qed.

Lemma enqueuePriorityUrls_keeps l counts :
  preserves (fun e => J (queue e)) (enqueuePriorityUrls env options l counts).
Proof.
  revert counts. induction l as [| p l IH]; intros counts; simpl.
  - keeps.
  - destruct (isExcluded env options (p_url p)).
    + apply preserves_bind; [keeps | intros _; apply IH].
    + apply preserves_this_bind. intros e0 H0.
      destruct (queued (p_url p) e0) eqn:C.
      * apply IH. exact H0.
      * rewrite (after_bind _ _ e0 (uuids e0)) by reflexivity.
        rewrite (after_bind _ _ _ (after randomUUID e0)) by reflexivity.
        rewrite (after_bind _ _ _ tt) by reflexivity.
        apply IH. step. apply J_push; [exact H0 | apply queued_false; exact C].
Qed.

Lemma initializePriorityQueue_establishes :
  J [] -> hoare (fun _ => True) (initializePriorityQueue env options) (fun e => J (queue e)).
Proof.
  intros Hnil. unfold initializePriorityQueue.
  apply (hoare_bind _ (fun e => J (queue e))); [returning | intros e _; exact Hnil | intros _].
  pose proof enqueuePriorityUrls_keeps as K.
  kept. apply J_sort. assumption.
Qed.

Hypothesis J_nil : J [].
Hypothesis J_tail : forall x q, J (x :: q) -> J q.
Hypothesis J_retry : forall x q msg,
  J (x :: q) -> Z.of_nat (retryCount x) < retryAttempts (config options) ->
  J (q ++ [retried x msg]).

Lemma runGenerationPhase_keeps :
  preserves (fun e => J (queue e)) (runGenerationPhase env options).
Proof.
  intros e He.
  destruct (runGenerationPhase_queue e) as [H | [item [rest [Hq [H | [msg [Hr H]]]]]]];
    rewrite H.
  - exact He.
  - rewrite Hq in He. apply (J_tail item). exact He.
  - apply J_sort. apply J_retry; [rewrite <- Hq; exact He | exact Hr].
Qed.

Lemma cycle_keeps : preserves (fun e => J (queue e)) (cycle env options).
Proof.
  pose proof runGenerationPhase_keeps. pose proof runScoringPhase_keeps.
  unfold cycle, stop, runScanPhase. keeps.
Qed.

Lemma mainLoop_keeps turns : preserves (fun e => J (queue e)) (mainLoop env options turns).
Proof.
  pose proof cycle_keeps.
  induction turns as [| n IH]; simpl.
  - keeps.
  - apply preserves_bind.
    + intros e He. simpl. rewrite (deliver_queue (queue e) e eq_refl). exact He.
    + intros _. unfold cycleFailed. keeps.
Qed.

Lemma start_keeps turns : preserves (fun e => J (queue e)) (start env options turns).
Proof.
  pose proof (mainLoop_keeps turns).
  assert (K : preserves (fun e => J (queue e)) (initializePriorityQueue env options)).
  { intros e _. apply initializePriorityQueue_establishes; [exact J_nil | exact I]. }
  unfold start, initializeOrchestrator. keeps.
Qed.

End QueueInvariant.

(* ------------------------------------------------------------------ *)
(** *** The order of the queue *)

Lemma QueueOrdered_inPriorityOrder q : QueueOrdered q -> inPriorityOrder q.
Proof.
  intros Hq i j a b Ha Hb.
  assert (F : forall i j a b, (i < j)%nat -> nth_error q i = Some a ->
                nth_error q j = Some b ->
                priorityOrder (priority a) < priorityOrder (priority b) \/
                (priority a = priority b /\ healthScore a <= healthScore b)).
  { intros i' j' a' b' L Ha' Hb'. apply comesFirst_spec.
    exact (QueueOrdered_nth q i' j' a' b' Hq L Ha' Hb'). }
  split; [| split].
  - intros L. destruct (F i j a b L Ha Hb) as [H | [P H]].
    + split; [lia | intros P; rewrite P in H; lia].
    + split; [rewrite P; lia | intros _; exact H].
  - intros R. destruct (Nat.lt_trichotomy i j) as [L | [L | L]]; [exact L | |].
    + subst j. rewrite Ha in Hb. injection Hb as ->. lia.
    + destruct (F j i b a L Hb Ha) as [H | [P H]]; [lia | rewrite P in R; lia].
  - intros P R. destruct (Nat.lt_trichotomy i j) as [L | [L | L]]; [exact L | |].
    + subst j. rewrite Ha in Hb. injection Hb as ->. lia.
    + destruct (F j i b a L Hb Ha) as [H | [_ H]]; [rewrite P in H; lia | lia].
Qed.

Lemma inPriorityOrder_tail x q : inPriorityOrder (x :: q) -> inPriorityOrder q.
Proof.
  intros H i j a b Ha Hb.
  destruct (H (S i) (S j) a b Ha Hb) as [H1 [H2 H3]].
  split; [| split].
  - intros L. apply H1. lia.
  - intros R. specialize (H2 R). lia.
  - intros P R. specialize (H3 P R). lia.
Qed.

Ltac skip := apply (hoare_bind _ (fun _ => True)); [returning | intros ? _; exact I | intro].

Lemma sortQueue_ordered : hoare (fun _ => True) sortQueue (fun e => QueueOrdered (queue e)).
Proof. intros e _. step. apply sortItems_ordered. Qed.

Lemma initializePriorityQueue_ordered :
  hoare (fun _ => True) (initializePriorityQueue env options)
        (fun e => QueueOrdered (queue e)).
Proof.
  unfold initializePriorityQueue. skip. skip. cbv zeta. do 9 skip. skip.
  apply (hoare_bind _ (fun e => QueueOrdered (queue e)));
    [returning | apply sortQueue_ordered | intros _; kept].
Qed.

Lemma runScoringPhase_ordered :
  filteredUrls env options <> [] ->
  hoare (fun _ => True) (runScoringPhase env options) (fun e => QueueOrdered (queue e)).
Proof.
  intros Hne. unfold runScoringPhase. skip. skip.
  destruct (filteredUrls env options) as [| u l] eqn:E; [congruence |]. simpl.
  skip. skip.
  apply (hoare_bind _ (fun e => QueueOrdered (queue e)));
    [returning | apply sortQueue_ordered | intros _; kept].
Qed.

Lemma generationFailed_ordered item t msg e :
  Z.of_nat (retryCount item) < retryAttempts (config options) ->
  QueueOrdered (queue (after (generationFailed env options item t msg) e)).
Proof.
  intros H. rewrite (generationFailed_queue item t msg (queue e) e eq_refl).
  apply Z.ltb_lt in H. rewrite H. apply sortItems_ordered.
Qed.

(* ------------------------------------------------------------------ *)
(** *** Distinct URLs *)

Lemma urlsDistinct_push q x :
  urlsDistinct q -> ~ In (url x) (map url q) -> urlsDistinct (q ++ [x]).
Proof.
  unfold urlsDistinct. intros Hq Hx.
  apply (Permutation_NoDup (l := map url (x :: q))).
  - apply Permutation_map. apply Permutation_cons_append.
  - simpl. constructor; assumption.
Qed.

Lemma urlsDistinct_sort q : urlsDistinct q -> urlsDistinct (sortItems q).
Proof.
  unfold urlsDistinct. intros Hq.
  apply (Permutation_NoDup (l := map url q)); [| exact Hq].
  apply Permutation_map. apply sortItems_perm.
Qed.

Lemma urlsDistinct_tail x q : urlsDistinct (x :: q) -> urlsDistinct q.
Proof. unfold urlsDistinct. simpl. intros H. apply NoDup_cons_iff in H. apply H. Qed.

Lemma urlsDistinct_retry x q msg : urlsDistinct (x :: q) -> urlsDistinct (q ++ [retried x msg]).
Proof.
  intros H. apply urlsDistinct_push.
  - apply (urlsDistinct_tail x). exact H.
  - unfold urlsDistinct in H. simpl in *. apply NoDup_cons_iff in H. apply H.
Qed.

Lemma queued_true u e : queued u e = true -> In u (map url (queue e)).
Proof.
  unfold queued. intros H. apply existsb_exists in H. destruct H as [x [Hin Hx]].
  apply String.eqb_eq in Hx. subst u. apply in_map. exact Hin.
Qed.

(** Scoring a URL that is already queued leaves the queue as it is. *)
Lemma scoreOne_queued u e :
  queued u e = true -> queue (after (scoreOne env options u) e) = queue e.
Proof.
  intros Hq.
  assert (G : hoare (fun x => queue x = queue e) (scoreOne env options u)
                    (fun x => queue x = queue e)).
  { unfold scoreOne. through.
    apply preserves_tryCatch; [| intro; keeps].
    apply preserves_bind; [keeps | intros e0].
    apply preserves_bind; [keeps | intros _].
    apply preserves_bind; [keeps | intros _].
    apply preserves_bind; [keeps | intros score].
    apply preserves_this_bind. intros e1 H1.
    assert (Q1 : queued u e1 = true) by (unfold queued in *; rewrite H1; exact Hq).
    rewrite Q1, andb_false_r. step. exact H1. }
  apply G. reflexivity.
Qed.

(** A priority URL that is already queued is passed over. *)
Lemma enqueuePriorityUrls_queued p counts e :
  queued (p_url p) e = true ->
  queue (after (enqueuePriorityUrls env options [p] counts) e) = queue e.
Proof.
  intros Hq. simpl. destruct (isExcluded env options (p_url p)).
  - reflexivity.
  - unfold after, bind, this. simpl. rewrite Hq. reflexivity.
Qed.

(* ================================================================== *)
(** ** The queue: order and distinct URLs *)

(** C2. Every queue that [sortQueue] leaves behind is in priority order, with
    ties going to the lower health score: the queue after the sort itself,
    after the initialisation of the priority queue, at the end of the scoring
    phase (which sorts whenever there is a URL to score), and after the
    requeue of an item whose generation failed; and the generation phase as
    a whole keeps a queue in order. *)
Theorem sortQueue_keeps_priority_order (e : Engine) :
  inPriorityOrder (queue (after sortQueue e)) /\
  inPriorityOrder (queue (after (initializePriorityQueue env options) e)) /\
  (filteredUrls env options <> [] ->
   inPriorityOrder (queue (after (runScoringPhase env options) e))) /\
  (forall item startTime message,
     Z.of_nat (retryCount item) < retryAttempts (config options) ->
     inPriorityOrder
       (queue (after (generationFailed env options item startTime message) e))) /\
  (inPriorityOrder (queue e) ->
   inPriorityOrder (queue (after (runGenerationPhase env options) e))).
Proof.
  split; [| split; [| split; [| split]]].
  - apply QueueOrdered_inPriorityOrder. apply sortQueue_ordered. exact I.
  - apply QueueOrdered_inPriorityOrder. apply initializePriorityQueue_ordered. exact I.
  - intros Hne. apply QueueOrdered_inPriorityOrder.
    apply (runScoringPhase_ordered Hne). exact I.
  - intros item t msg Hr. apply QueueOrdered_inPriorityOrder.
    apply generationFailed_ordered. exact Hr.
  - intros He.
    destruct (runGenerationPhase_queue e) as [H | [item [rest [Hq [H | [msg [Hr H]]]]]]];
      rewrite H.
    + exact He.
    + rewrite Hq in He. exact (inPriorityOrder_tail item rest He).
    + apply QueueOrdered_inPriorityOrder. apply sortItems_ordered.
Qed.

(** C3. No URL is ever queued twice: the queue built from the priority list
    has distinct URLs; the scoring phase, the generation phase, the main loop
    and [start] keep the URLs distinct; and a URL that is already queued is
    passed over, both by the scoring loop and by the initialisation loop. *)
Theorem url_queued_at_most_once (e : Engine) :
  urlsDistinct (queue (after (initializePriorityQueue env options) e)) /\
  (urlsDistinct (queue e) ->
   urlsDistinct (queue (after (runScoringPhase env options) e)) /\
   urlsDistinct (queue (after (runGenerationPhase env options) e)) /\
   forall turns,
     urlsDistinct (queue (after (mainLoop env options turns) e)) /\
     urlsDistinct (queue (after (start env options turns) e))) /\
  (forall u, queued u e = true ->
     queue (after (scoreOne env options u) e) = queue e) /\
  (forall p counts, queued (p_url p) e = true ->
     queue (after (enqueuePriorityUrls env options [p] counts) e) = queue e).
Proof.
  assert (P : forall q i u p s t src, urlsDistinct q -> ~ In u (map url q) ->
                urlsDistinct (q ++ [mkQueueItem i u p s t src 0 None])).
  { intros. apply urlsDistinct_push; assumption. }
  assert (R : forall x q msg, urlsDistinct (x :: q) ->
                Z.of_nat (retryCount x) < retryAttempts (config options) ->
                urlsDistinct (q ++ [retried x msg])).
  { intros. apply urlsDistinct_retry. assumption. }
  assert (N : urlsDistinct []) by constructor.
  split; [| split; [| split]].
  - apply (initializePriorityQueue_establishes urlsDistinct P urlsDistinct_sort N). exact I.
  - intros He. split; [| split; [| intros turns; split]].
    + exact (runScoringPhase_keeps urlsDistinct P urlsDistinct_sort e He).
    + exact (runGenerationPhase_keeps urlsDistinct urlsDistinct_sort urlsDistinct_tail R e He).
    + exact (mainLoop_keeps urlsDistinct P urlsDistinct_sort urlsDistinct_tail R turns e He).
    + exact (start_keeps urlsDistinct P urlsDistinct_sort N urlsDistinct_tail R turns e He).
  - intros u. apply scoreOne_queued.
  - intros p counts. apply enqueuePriorityUrls_queued.
Qed.

(* ================================================================== *)
(** ** The generation phase: passes *)

Lemma hoareR_bind {A B} (P : Engine -> Prop) (R : A -> Engine -> Prop)
    (Q : B -> Engine -> Prop) (m : M A) (k : A -> M B) :
  hoareR P m R -> (forall a, hoareR (R a) (k a) Q) -> hoareR P (bind m k) Q.
Proof.
  intros Hm Hk e He. destruct (Hm e He) as [a [Ca Ra]].
  destruct (Hk a _ Ra) as [b [Cb Qb]].
  exists b. rewrite (after_bind m k e a Ca). split; [| exact Qb].
  unfold completion, after, bind in *. destruct (m e) as [[x | msg] e1]; simpl in *.
  - injection Ca as ->. exact Cb.
  - discriminate.
Qed.

Lemma hoare_bindR {A B} (P : Engine -> Prop) (R : A -> Engine -> Prop)
    (Q : Engine -> Prop) (m : M A) (k : A -> M B) :
  hoareR P m R -> (forall a, hoare (R a) (k a) Q) -> hoare P (bind m k) Q.
Proof.
  intros Hm Hk e He. destruct (Hm e He) as [a [Ca Ra]].
  rewrite (after_bind m k e a Ca). apply Hk. exact Ra.
Qed.

Lemma hoareR_plain {A} (P Q : Engine -> Prop) (m : M A) :
  returns m -> hoare P m Q -> hoareR P m (fun _ => Q).
Proof.
  intros Hr Hm e He. destruct (Hr e) as [a Ca]. exists a. split; [exact Ca |].
  apply Hm. exact He.
Qed.

Lemma hoare_tryCatch {A} (P R Q : Engine -> Prop) (m : M A) (h : string -> M A) :
  hoare P m R -> (forall e, R e -> Q e) -> (forall msg, hoare R (h msg) Q) ->
  hoare P (tryCatch m h) Q.
Proof.
  intros Hm Hn Hh e He. specialize (Hm e He). unfold after, tryCatch in *.
  destruct (m e) as [[a | msg] e1]; simpl in *.
  - apply Hn. exact Hm.
  - apply Hh. exact Hm.
Qed.

Lemma hoare_weaken {A} (P Q Q' : Engine -> Prop) (m : M A) :
  hoare P m Q -> (forall e, Q e -> Q' e) -> hoare P m Q'.
Proof. intros H W e He. apply W. apply H. exact He. Qed.

(** A [bind] whose first part may throw: what holds after the first part
    must then be enough. *)
Lemma hoare_bind_any {A B} (P R Q : Engine -> Prop) (m : M A) (k : A -> M B) :
  hoare P m R -> (forall e, R e -> Q e) -> (forall a, hoare R (k a) Q) ->
  hoare P (bind m k) Q.
Proof.
  intros Hm Hn Hk e He. specialize (Hm e He). unfold after, bind in *.
  destruct (m e) as [[a | msg] e1]; simpl in *.
  - apply Hk. exact Hm.
  - apply Hn. exact Hm.
Qed.

(* ------------------------------------------------------------------ *)
(** *** How often the generator is called *)

Lemma callGenerator_calls k n :
  hoare (fun e => generatorCalls e = n) (callGenerator env k)
        (fun e => generatorCalls e = S n).
Proof.
  intros e He. unfold callGenerator. step.
  destruct (settled (generateContent env (generatorCalls e) k)); simpl; congruence.
Qed.

Lemma qualityPasses_calls turns k mx : forall p n,
  hoare (fun e => generatorCalls e = n) (qualityPasses env turns k mx p)
        (fun e => (n <= generatorCalls e <= n + (mx - passCount p))%nat).
Proof.
  induction turns as [| t IH]; intros p n; cbn [qualityPasses].
  - intros e He. unfold after, ret. cbn [snd]. lia.
  - destruct (Nat.ltb_spec (passCount p) mx) as [L | L];
      [| intros e He; unfold after, ret; cbn [snd]; lia].
    apply (hoare_bind_any _ (fun e => generatorCalls e = S n));
      [apply callGenerator_calls | intros; lia | intros c].
    apply (hoare_bind _ (fun e => generatorCalls e = S n)); [returning | kept | intros _].
    destruct (MIN_QUALITY_SCORE <=? orZero (qualityScore_overall c)).
    + apply (hoare_weaken _ (fun e => generatorCalls e = S n)); [kept | intros; lia].
    + apply (hoare_bind _ (fun e => generatorCalls e = S n)); [returning | kept | intros _].
      eapply hoare_weaken; [apply IH |]. cbn [passCount]. intros; lia.
Qed.

Lemma generateItem_calls item t b n :
  hoare (fun e => generatorCalls e = n) (generateItem env options item t b)
        (fun e => (n <= generatorCalls e <= n + 3)%nat).
Proof.
  unfold generateItem. cbv zeta.
  apply (hoare_bind _ (fun e => generatorCalls e = n)); [returning | kept | intros e0].
  destruct (orchestrator e0) as [o |]; [| intros e He; unfold after, throw; cbn [snd]; lia].
  apply (hoare_bind _ (fun e => generatorCalls e = n)); [returning | kept | intros _].
  apply (hoare_bind_any _ (fun e => (n <= generatorCalls e <= n + 3)%nat)).
  - eapply hoare_weaken; [apply qualityPasses_calls |].
    cbn [passCount]. unfold MAX_QUALITY_IMPROVEMENT_PASSES. intros e He.
    destruct b; lia.
  - intros e He. exact He.
  - intros p. kept.
Qed.

Lemma runGenerationPhase_calls n :
  hoare (fun e => generatorCalls e = n) (runGenerationPhase env options)
        (fun e => (n <= generatorCalls e <= n + 3)%nat).
Proof.
  unfold runGenerationPhase.
  apply (hoare_bind _ (fun e => generatorCalls e = n)); [returning | kept | intros _].
  apply (hoare_bind _ (fun e => generatorCalls e = n)); [returning | kept | intros broken].
  destruct broken.
  - apply (hoare_weaken _ (fun e => generatorCalls e = n)); [kept | intros; lia].
  - apply (hoare_bind _ (fun e => generatorCalls e = n)); [returning | kept | intros e0].
    destruct (queue e0) as [| item rest].
    + apply (hoare_weaken _ (fun e => generatorCalls e = n)); [kept | intros; lia].
    + do 3 (apply (hoare_bind _ (fun e => generatorCalls e = n));
            [returning | kept | intros _]).
      apply (hoare_tryCatch _ (fun e => (n <= generatorCalls e <= n + 3)%nat)).
      * apply generateItem_calls.
      * intros e He. exact He.
      * intros msg. kept.
Qed.

(* ------------------------------------------------------------------ *)
(** *** Entering the [try] block *)

Lemma runGenerationPhase_enters e item rest :
  circuitBlocked e = false -> queue e = item :: rest ->
  exists x,
    generationStarted e rest x /\
    runGenerationPhase env options e =
    tryCatch (generateItem env options item (clock e) (isPriorityItem options item))
             (generationFailed env options item (clock e)) x.
Proof.
  unfold circuitBlocked, runGenerationPhase, isCircuitBroken, generationStarted.
  intros Hb Hq. step.
  destruct (circuitBrokenUntil e) as [until |] eqn:C; simpl.
  - assert (L : (until <=? clock e) = true) by lia. rewrite L. simpl. rewrite Hq. simpl.
    eexists. split; [| reflexivity]. simpl. rewrite ?C.
    repeat (split; [reflexivity |]).
    eexists. split; [new_events | repeat constructor].
  - rewrite Hq. simpl.
    eexists. split; [| reflexivity]. simpl. rewrite ?C.
    repeat (split; [reflexivity |]).
    eexists. split; [new_events | repeat constructor].
Qed.

(* ------------------------------------------------------------------ *)
(** *** When the passes stop *)

Lemma hoareR_keep {A B} (I : Engine -> Prop) (Q : B -> Engine -> Prop)
    (m : M A) (k : A -> M B) :
  returns m -> preserves I m -> (forall a, hoareR I (k a) Q) -> hoareR I (bind m k) Q.
Proof.
  intros Hr Hm Hk. apply (hoareR_bind I (fun _ => I)); [| exact Hk].
  apply hoareR_plain; assumption.
Qed.

Lemma hoareR_ret {A} (P : Engine -> Prop) (Q : A -> Engine -> Prop) (a : A) :
  (forall e, P e -> Q a e) -> hoareR P (ret a) Q.
Proof. intros H e He. exists a. split; [reflexivity | apply H; exact He]. Qed.

Lemma hoareR_assume {A} (P0 : Prop) (P : Engine -> Prop) (Q : A -> Engine -> Prop) (m : M A) :
  (P0 -> hoareR P m Q) -> hoareR (fun e => P0 /\ P e) m Q.
Proof. intros H e [H0 He]. apply H; assumption. Qed.

Lemma hoareR_assume_any {A} (P0 : Prop) (Q : A -> Engine -> Prop) (m : M A) :
  (P0 -> hoareR (fun _ => P0) m Q) -> hoareR (fun _ => P0) m Q.
Proof. intros H e He. apply H; exact He. Qed.

Lemma hoare_assume {A} (P0 : Prop) (P Q : Engine -> Prop) (m : M A) :
  (P0 -> hoare P m Q) -> hoare (fun e => P0 /\ P e) m Q.
Proof. intros H e [H0 He]. apply H; assumption. Qed.

Lemma hoareR_forget {A} (P : Engine -> Prop) (Q : A -> Engine -> Prop) (m : M A) :
  hoareR P m Q -> hoare P m (fun e => exists a, Q a e).
Proof. intros H e He. destruct (H e He) as [a [_ Ha]]. exists a. exact Ha. Qed.

Ltac throughR := apply hoareR_keep; [returning | keeps | intro].

Lemma reportedQuality_Some kw n q :
  reportedQuality env kw n = Some q ->
  exists c, settled (generateContent env n kw) = Resolved c /\
            orZero (qualityScore_overall c) = q.
Proof.
  unfold reportedQuality. destruct (settled (generateContent env n kw)) as [c | msg].
  - intros H. injection H as <-. exists c. split; reflexivity.
  - discriminate.
Qed.

Lemma callGenerator_resolves kw n c :
  settled (generateContent env n kw) = Resolved c ->
  hoareR (fun e => generatorCalls e = n) (callGenerator env kw)
         (fun c' e' => c' = c /\ generatorCalls e' = S n).
Proof.
  intros H e He. unfold callGenerator. step. rewrite He, H. simpl.
  exists c. repeat split; reflexivity.
Qed.

Section PassesOf.
Variable kw : string.
Variable mx g0 k : nat.
Hypothesis k_lt_mx : (k < mx)%nat.
Hypothesis below : forall j, (j < k)%nat ->
  exists qj, reportedQuality env kw (g0 + j) = Some qj /\ qj < MIN_QUALITY_SCORE.

(** The pass that reaches the target is the last one. *)
Lemma qualityPasses_stops q :
  reportedQuality env kw (g0 + k) = Some q -> MIN_QUALITY_SCORE <= q ->
  forall turns p, (passCount p <= k)%nat -> (S k <= passCount p + turns)%nat ->
  hoareR (fun e => generatorCalls e = (g0 + passCount p)%nat)
         (qualityPasses env turns kw mx p)
         (fun p' e' => generatorCalls e' = (g0 + S k)%nat /\ passCount p' = S k /\
                       pass_qualityScore p' = q).
Proof.
  intros Hq Hge. induction turns as [| t IH]; intros p Hp Ht; [lia |].
  cbn [qualityPasses].
  assert (L : (passCount p <? mx)%nat = true) by (apply Nat.ltb_lt; lia). rewrite L.
  destruct (Nat.eq_dec (passCount p) k) as [E | E].
  - destruct (reportedQuality_Some _ _ _ Hq) as [c [Hc Qc]].
    rewrite <- E in Hc.
    apply (hoareR_bind _ _ _ _ _ (callGenerator_resolves kw _ c Hc)). intros c'.
    apply hoareR_assume. intros ->.
    throughR. rewrite Qc.
    assert (G : (MIN_QUALITY_SCORE <=? q) = true) by lia. rewrite G.
    throughR. apply hoareR_ret. intros e He. cbn [passCount pass_qualityScore].
    repeat split; lia.
  - assert (Lk : (passCount p < k)%nat) by lia.
    destruct (below _ Lk) as [qj [Hqj Bj]].
    destruct (reportedQuality_Some _ _ _ Hqj) as [c [Hc Qc]].
    apply (hoareR_bind _ _ _ _ _ (callGenerator_resolves kw _ c Hc)). intros c'.
    apply hoareR_assume. intros ->.
    throughR. rewrite Qc.
    assert (G : (MIN_QUALITY_SCORE <=? qj) = false) by lia. rewrite G.
    throughR.
    assert (N : S (g0 + passCount p) = (g0 + passCount (mkPasses (Some c) qj (S (passCount p))))%nat)
      by (cbn [passCount]; lia).
    rewrite N. apply IH; cbn [passCount]; lia.
Qed.

(** A pass below the target, if it is not the last allowed, is followed by
    another call of the generator. *)
Lemma qualityPasses_continues q :
  reportedQuality env kw (g0 + k) = Some q -> q < MIN_QUALITY_SCORE -> (S k < mx)%nat ->
  forall turns p, (passCount p <= S k)%nat -> (S (S k) <= passCount p + turns)%nat ->
  hoare (fun e => generatorCalls e = (g0 + passCount p)%nat)
        (qualityPasses env turns kw mx p)
        (fun e' => (g0 + S (S k) <= generatorCalls e')%nat).
Proof.
  intros Hq Hlt Hmx. induction turns as [| t IH]; intros p Hp Ht; [lia |].
  cbn [qualityPasses].
  assert (L : (passCount p <? mx)%nat = true) by (apply Nat.ltb_lt; lia). rewrite L.
  destruct (Nat.eq_dec (passCount p) (S k)) as [E | E].
  - (* the further pass itself *)
    apply (hoare_bind_any _ (fun e => generatorCalls e = S (g0 + passCount p)));
      [apply callGenerator_calls | intros; lia | intros c].
    eapply hoare_weaken.
    + apply (hoare_bind _ (fun e => generatorCalls e = S (g0 + passCount p)));
        [returning | kept | intros _].
      destruct (MIN_QUALITY_SCORE <=? orZero (qualityScore_overall c)).
      * apply (hoare_weaken _ (fun e => generatorCalls e = S (g0 + passCount p)));
          [kept | intros e He; exact (Nat.eq_le_incl _ _ (eq_sym He))].
      * apply (hoare_bind _ (fun e => generatorCalls e = S (g0 + passCount p)));
          [returning | kept | intros _].
        eapply hoare_weaken; [apply qualityPasses_calls |].
        intros e He. exact (proj1 He).
    + intros e He. cbv beta in He. lia.
  - assert (exists qj c, settled (generateContent env (g0 + passCount p) kw) = Resolved c /\
                         orZero (qualityScore_overall c) = qj /\ qj < MIN_QUALITY_SCORE)
      as [qj [c [Hc [Qc Bj]]]].
    { destruct (Nat.eq_dec (passCount p) k) as [Ek | Ek].
      - rewrite Ek. destruct (reportedQuality_Some _ _ _ Hq) as [c [Hc Qc]].
        exists q, c. auto.
      - assert (Lk : (passCount p < k)%nat) by lia.
        destruct (below _ Lk) as [qj [Hqj Bj]].
        destruct (reportedQuality_Some _ _ _ Hqj) as [c [Hc Qc]].
        exists qj, c. auto. }
    apply (hoare_bindR _ _ _ _ _ (callGenerator_resolves kw _ c Hc)). intros c'.
    apply hoare_assume. intros ->.
    through. rewrite Qc.
    assert (G : (MIN_QUALITY_SCORE <=? qj) = false) by lia. rewrite G.
    through.
    assert (N : S (g0 + passCount p) = (g0 + passCount (mkPasses (Some c) qj (S (passCount p))))%nat)
      by (cbn [passCount]; lia).
    rewrite N. apply IH; cbn [passCount]; lia.
Qed.

End PassesOf.

Lemma after_eq {A} (m m' : M A) e x : m e = m' x -> after m e = after m' x.
Proof. unfold after. intros ->. reflexivity. Qed.

(** The number of passes allowed for an item. *)
Lemma maxPasses_positive (b : bool) :
  (0 < (if b then MAX_QUALITY_IMPROVEMENT_PASSES else 1))%nat.
Proof. destruct b; unfold MAX_QUALITY_IMPROVEMENT_PASSES; lia. Qed.

(** What the passes establish about the number of generator calls holds of
    the whole phase, on an engine that is ready. *)
Lemma runGenerationPhase_passes e item rest (R : nat -> Prop) :
  queue e = item :: rest -> circuitBlocked e = false -> orchestrator e <> None ->
  (let mx := if isPriorityItem options item then MAX_QUALITY_IMPROVEMENT_PASSES else 1%nat in
   hoare (fun x => generatorCalls x = generatorCalls e)
         (qualityPasses env mx (extractKeyword env (url item)) mx (mkPasses None 0 0))
         (fun x => R (generatorCalls x))) ->
  R (generatorCalls (after (runGenerationPhase env options) e)).
Proof.
  intros Hq Hb Ho Hloop. cbv zeta in Hloop.
  destruct (runGenerationPhase_enters e item rest Hb Hq) as [x [Hx Heq]].
  rewrite (after_eq _ _ _ _ Heq).
  destruct Hx as [_ [Hox [_ [Hg _]]]].
  destruct (orchestrator e) as [o |] eqn:Eo; [clear Ho | congruence].
  assert (G : hoare (fun x => generatorCalls x = generatorCalls e /\ orchestrator x = Some o)
                (tryCatch (generateItem env options item (clock e)
                             (isPriorityItem options item))
                          (generationFailed env options item (clock e)))
                (fun x => R (generatorCalls x))).
  { apply (hoare_tryCatch _ (fun x => R (generatorCalls x))).
    - unfold generateItem. cbv zeta. apply hoare_this. intros e0 [H1 H2]. rewrite H2.
      revert e0 H1 H2.
      assert (G : hoare (fun x => generatorCalls x = generatorCalls e)
                (log info "Starting content generation" ;;
                 p <- qualityPasses env
                        (if isPriorityItem options item
                         then MAX_QUALITY_IMPROVEMENT_PASSES else 1%nat)
                        (extractKeyword env (url item))
                        (if isPriorityItem options item
                         then MAX_QUALITY_IMPROVEMENT_PASSES else 1%nat)
                        (mkPasses None 0 0) ;;
                 afterPasses env options item (clock e) p)
                (fun x => R (generatorCalls x))).
      { through.
        apply (hoare_bind_any _ (fun x => R (generatorCalls x)));
          [exact Hloop | intros; assumption | intros p; kept]. }
      intros e0 H1 _. apply G. exact H1.
    - intros; assumption.
    - intros msg. kept. }
  apply G. split; congruence.
Qed.

(* ------------------------------------------------------------------ *)
(** *** The pause between passes *)

Ltac extend_trace :=
  match goal with
  | H : exists new, emitted ?e = new ++ ?base /\ _
    |- exists new', ?ev :: emitted ?e = new' ++ ?base /\ _ =>
      let new := fresh "new" in
      let E := fresh "E" in
      let P := fresh "P" in
      destruct H as [new [E P]]; exists (ev :: new); rewrite E; split;
      [reflexivity
      | simpl; first [exact P | split; [intros D; discriminate D | exact P]]]
  | H : exists new, emitted ?e = new ++ ?base /\ _
    |- exists new', emitted ?e = new' ++ ?base /\ _ => exact H
  end.

Ltac quiet :=
  match goal with
  | |- hoare ?I ?m _ => change (preserves I m)
  | |- preserves _ _ => idtac
  end;
  keeps; unfold pausedSince, noCallsSince, noHistorySince, errorRecordedSince in *;
  simpl in *; try extend_trace.

Lemma noCalls_paused ms new :
  existsb isGeneratorCall new = false -> pausedBetweenPasses ms new.
Proof.
  induction new as [| ev new IH]; simpl; [trivial |].
  intros H. apply orb_false_iff in H. destruct H as [H1 H2].
  split; [rewrite H1; discriminate | apply IH; exact H2].
Qed.

Lemma qualityPasses_paused base turns kw mx : forall p,
  hoare (fun e => exists new, emitted e = new ++ base /\ pausedBetweenPasses 2000 new /\
                              ((passCount p < mx)%nat -> readyForPass 2000 new))
        (qualityPasses env turns kw mx p)
        (pausedSince base).
Proof.
  unfold pausedSince.
  induction turns as [| t IH]; intros p; cbn [qualityPasses].
  - intros e [new [E [P _]]]. exists new. split; assumption.
  - destruct (Nat.ltb_spec (passCount p) mx) as [L | L];
      [| intros e [new [E [P _]]]; exists new; split; assumption].
    apply (hoare_bind_any _ (pausedSince base)).
    + intros e [new [E [P R]]]. unfold callGenerator, pausedSince. step.
      exists (generateContent_called kw :: new).
      destruct (settled (generateContent env (generatorCalls e) kw)); simpl;
        rewrite E; (split; [reflexivity |]); simpl; (split; [| exact P]);
        intros _; apply R; exact L.
    + intros e He. exact He.
    + intros c. unfold pausedSince.
      apply (hoare_bind _ (pausedSince base)); unfold pausedSince;
        [returning | kept; extend_trace | intros _].
      destruct (MIN_QUALITY_SCORE <=? orZero (qualityScore_overall c)).
      * kept; extend_trace.
      * destruct (Nat.ltb_spec (S (passCount p)) mx) as [L' | L']; cbn [when].
        -- apply (hoare_bind _ (fun e => exists new, emitted e = new ++ base /\
                     pausedBetweenPasses 2000 new /\ readyForPass 2000 new)).
           ++ returning.
           ++ intros e [new [E P]]. step. eexists (_ :: _ :: new). rewrite E.
              split; [reflexivity |].
              simpl. repeat split; try discriminate; try exact P.
              intros _. eexists. reflexivity.
           ++ intros _. eapply hoare_weaken; [| intros e He; exact He].
              intros e [new [E [P R]]]. apply IH. exists new. auto.
        -- apply (hoare_bind _ (pausedSince base)); unfold pausedSince;
             [returning | kept | intros _].
           intros e [new [E P]]. apply IH. exists new. cbn [passCount].
           repeat split; try assumption. intros F. lia.
Qed.

Lemma hoare_pre_R {A} (P P' : Engine -> Prop) (Q : A -> Engine -> Prop) (m : M A) :
  (forall e, P e -> P' e) -> hoareR P' m Q -> hoareR P m Q.
Proof. intros W H e He. apply H. apply W. exact He. Qed.

Lemma hoare_pre {A} (P P' Q : Engine -> Prop) (m : M A) :
  (forall e, P e -> P' e) -> hoare P' m Q -> hoare P m Q.
Proof. intros W H e He. apply H. apply W. exact He. Qed.

Lemma noCalls_pausedSince base e : noCallsSince base e -> pausedSince base e.
Proof.
  intros [new [E N]]. exists new. split; [exact E | apply noCalls_paused; exact N].
Qed.

Lemma runGenerationPhase_paused base :
  hoare (noCallsSince base) (runGenerationPhase env options) (pausedSince base).
Proof.
  unfold runGenerationPhase.
  apply (hoare_bind _ (noCallsSince base)); [returning | quiet | intros _].
  apply (hoare_bind _ (noCallsSince base)); [returning | quiet | intros broken].
  destruct broken.
  - apply (hoare_weaken _ (noCallsSince base)); [quiet | apply noCalls_pausedSince].
  - apply (hoare_bind _ (noCallsSince base)); [returning | quiet | intros e0].
    destruct (queue e0) as [| item rest].
    + apply (hoare_weaken _ (noCallsSince base)); [quiet | apply noCalls_pausedSince].
    + do 3 (apply (hoare_bind _ (noCallsSince base)); [returning | quiet | intros _]).
      apply (hoare_tryCatch _ (pausedSince base)).
      * unfold generateItem. cbv zeta.
        apply (hoare_bind _ (noCallsSince base)); [returning | quiet | intros e1].
        destruct (orchestrator e1) as [o |].
        -- apply (hoare_bind _ (noCallsSince base)); [returning | quiet | intros _].
           apply (hoare_bind_any _ (pausedSince base)).
           ++ eapply hoare_pre; [| apply qualityPasses_paused].
              intros e [new [E N]]. exists new. repeat split.
              ** exact E.
              ** apply noCalls_paused. exact N.
              ** intros _ F. congruence.
           ++ intros e He. exact He.
           ++ intros p. quiet.
        -- apply (hoare_weaken _ (noCallsSince base)); [quiet | apply noCalls_pausedSince].
      * intros e He. exact He.
      * intros msg. quiet.
Qed.

(** C1, as the code has it. For a priority or manual item the generator is
    called at most three times in a generation phase; the passes end with the
    first one that reports the engine's own target, [MIN_QUALITY_SCORE] = 90,
    or more (the configured quality threshold plays no part in the loop); a
    pass that reports less than 90 is followed by another unless it was the
    third; and every pass but the first comes directly after a sleep of
    2000 ms. *)
Theorem passes_stop_at_internal_target (e : Engine) :
  passesStopAt MIN_QUALITY_SCORE env options e.
Proof.
  intros item rest Hq Hb Ho Hp. cbv zeta.
  assert (Hpi : isPriorityItem options item = true).
  { unfold isPriorityItem. destruct Hp as [-> | ->]; [reflexivity | apply orb_true_r]. }
  split; [| split].
  - pose proof (runGenerationPhase_calls (generatorCalls e) e eq_refl) as H.
    cbv beta in H. lia.
  - intros k Hk Hbelow q Hrq. split.
    + intros Hge.
      apply (runGenerationPhase_passes e item rest
               (fun n => (n - generatorCalls e)%nat = S k) Hq Hb Ho).
      rewrite Hpi. cbv zeta. change MAX_QUALITY_IMPROVEMENT_PASSES with 3%nat.
      eapply hoare_weaken.
      * apply hoareR_forget.
        eapply hoare_pre_R;
          [| apply (qualityPasses_stops (extractKeyword env (url item)) 3
                      (generatorCalls e) k Hk Hbelow q Hrq Hge 3 (mkPasses None 0 0))].
        -- intros x Hx. cbn [passCount]. lia.
        -- cbn [passCount]. lia.
        -- cbn [passCount]. lia.
      * intros x [p [Hx _]]. lia.
    + intros Hlt Hk2.
      apply (runGenerationPhase_passes e item rest
               (fun n => (S (S k) <= n - generatorCalls e)%nat) Hq Hb Ho).
      rewrite Hpi. cbv zeta. change MAX_QUALITY_IMPROVEMENT_PASSES with 3%nat.
      eapply hoare_weaken.
      * eapply hoare_pre;
          [| apply (qualityPasses_continues (extractKeyword env (url item)) 3
                      (generatorCalls e) k Hk Hbelow q Hrq Hlt ltac:(lia) 3
                      (mkPasses None 0 0))].
        -- intros x Hx. cbn [passCount]. lia.
        -- cbn [passCount]. lia.
        -- cbn [passCount]. lia.
      * intros x Hx. cbv beta in Hx. lia.
  - apply (runGenerationPhase_paused (emitted e) e).
    exists []. split; reflexivity.
Qed.

(* ================================================================== *)
(** ** The circuit breaker *)

Lemma hoareT_first {A B} (P Q : Engine -> Prop) (m : M A) (k : A -> M B) :
  hoareT P m Q -> hoareT P (bind m k) Q.
Proof.
  intros H e He. destruct (H e He) as [msg [C HQ]]. exists msg.
  unfold completion, after, bind in *.
  destruct (m e) as [[a | msg'] e1]; simpl in *; [discriminate |].
  injection C as ->. split; [reflexivity | assumption].
Qed.

Lemma hoareT_later {A B} (P : Engine -> Prop) (R : A -> Engine -> Prop) (Q : Engine -> Prop)
    (m : M A) (k : A -> M B) :
  hoareR P m R -> (forall a, hoareT (R a) (k a) Q) -> hoareT P (bind m k) Q.
Proof.
  intros Hm Hk e He. destruct (Hm e He) as [a [Ca Ra]].
  destruct (Hk a _ Ra) as [msg [C HQ]]. exists msg.
  rewrite (after_bind m k e a Ca). split; [| exact HQ].
  unfold completion, after, bind in *. destruct (m e) as [[x | msg'] e1]; simpl in *.
  - injection Ca as ->. exact C.
  - discriminate.
Qed.

Lemma hoareT_keep {A B} (I Q : Engine -> Prop) (m : M A) (k : A -> M B) :
  returns m -> preserves I m -> (forall a, hoareT I (k a) Q) -> hoareT I (bind m k) Q.
Proof.
  intros Hr Hm Hk. apply (hoareT_later I (fun _ => I)); [| exact Hk].
  apply hoareR_plain; assumption.
Qed.

Lemma hoare_tryCatch_thrown {A} (P R Q : Engine -> Prop) (m : M A) (h : string -> M A) :
  hoareT P m R -> (forall msg, hoare R (h msg) Q) -> hoare P (tryCatch m h) Q.
Proof.
  intros Hm Hh e He. destruct (Hm e He) as [msg [C HR]].
  unfold completion, after, tryCatch in *.
  destruct (m e) as [[a | msg'] e1]; simpl in *; [discriminate |].
  apply Hh. exact HR.
Qed.

Lemma hoare_tryCatch_returned {A} (P : Engine -> Prop) (Q : Engine -> Prop)
    (m : M A) (h : string -> M A) :
  hoareR P m (fun _ => Q) -> hoare P (tryCatch m h) Q.
Proof.
  intros Hm e He. destruct (Hm e He) as [a [C HQ]].
  unfold completion, after, tryCatch in *.
  destruct (m e) as [[x | msg'] e1]; simpl in *; [exact HQ | discriminate].
Qed.

Ltac throughT := apply hoareT_keep; [returning | keeps | intro].

(* ------------------------------------------------------------------ *)
(** *** A failure is counted, and the fifth in a row trips the breaker *)

Lemma generationFailed_counts item t msg c0 t0 :
  hoare (fun y => consecutiveFailures y = c0 /\ circuitBrokenUntil y = None /\ t0 <= clock y)
        (generationFailed env options item t msg)
        (fun e' => consecutiveFailures e' = S c0 /\
                   if (CIRCUIT_BREAKER_THRESHOLD <=? S c0)%nat
                   then exists tf, t0 <= tf /\
                                   circuitBrokenUntil e' = Some (tf + CIRCUIT_BREAKER_RESET_MS)
                   else circuitBrokenUntil e' = None).
Proof.
  unfold generationFailed. through.
  apply (hoare_bind _ (fun e' => consecutiveFailures e' = S c0 /\
                   if (CIRCUIT_BREAKER_THRESHOLD <=? S c0)%nat
                   then exists tf, t0 <= tf /\
                                   circuitBrokenUntil e' = Some (tf + CIRCUIT_BREAKER_RESET_MS)
                   else circuitBrokenUntil e' = None)).
  - returning.
  - intros e [H1 [H2 H3]]. unfold recordFailure.
    rewrite (after_bind _ _ e tt) by reflexivity.
    rewrite (after_bind _ _ _ (after (assign (fun e0 => set_consecutiveFailures
                                        (S (consecutiveFailures e0)) e0)) e)) by reflexivity.
    change (after this ?x) with x.
    cbn [after assign snd consecutiveFailures set_consecutiveFailures]. rewrite H1.
    destruct (CIRCUIT_BREAKER_THRESHOLD <=? S c0)%nat; cbn [when].
    + step. split; [congruence |]. exists (clock e). split; [exact H3 | reflexivity].
    + step. split; [congruence | exact H2].
  - intros _. kept.
Qed.

(** A [try] block that fails before the passes are over has only logged,
    called the generator, slept between passes and let time pass. *)
Section FailingBody.
Variable I : Engine -> Prop.
Hypothesis I_emit : forall e ev,
  quietEvent ev \/ isGeneratorCall ev = true \/ (exists ms, ev = slept ms) ->
  I e -> I (set_emitted (ev :: emitted e) e).
Hypothesis I_clock : forall e d, 0 <= d -> I e -> I (set_clock (clock e + d) e).
Hypothesis I_calls : forall e v, I e -> I (set_generatorCalls v e).

Lemma log_keeps_I n ty m :
  preserves (fun e => generatorCalls e = n /\ I e) (log ty m).
Proof.
  intros e [Hg He]. unfold log, emit, after, assign. cbn [snd].
  split; [exact Hg | apply I_emit; [left; exact Logic.I | exact He]].
Qed.

Lemma sleep_keeps_I n ms :
  preserves (fun e => generatorCalls e = n /\ I e) (sleep ms).
Proof.
  intros e [Hg He]. unfold sleep, emit. step.
  split; [exact Hg |].
  apply (I_clock (set_emitted (slept ms :: emitted e) e)); [lia |].
  apply I_emit; [right; right; exists ms; reflexivity | exact He].
Qed.

Lemma callGenerator_rejects kw n :
  reportedQuality env kw n = None ->
  hoareT (fun e => generatorCalls e = n /\ I e) (callGenerator env kw) I.
Proof.
  unfold reportedQuality. intros H e [He HI]. unfold callGenerator. step.
  rewrite He. destruct (settled (generateContent env n kw)) as [c | msg]; [discriminate |].
  simpl. exists msg. split; [reflexivity |].
  apply (I_clock (set_generatorCalls (S n) (set_emitted (generateContent_called kw :: emitted e) e))).
  - lia.
  - apply (I_calls (set_emitted (generateContent_called kw :: emitted e) e)).
    apply I_emit; [right; left; reflexivity | exact HI].
Qed.

Lemma callGenerator_resolves_I kw n c :
  settled (generateContent env n kw) = Resolved c ->
  hoareR (fun e => generatorCalls e = n /\ I e) (callGenerator env kw)
         (fun c' e' => c' = c /\ generatorCalls e' = S n /\ I e').
Proof.
  intros H e [He HI]. unfold callGenerator. step. rewrite He, H. simpl.
  exists c. repeat split; try reflexivity.
  apply (I_clock (set_generatorCalls (S n) (set_emitted (generateContent_called kw :: emitted e) e))).
  - lia.
  - apply (I_calls (set_emitted (generateContent_called kw :: emitted e) e)).
    apply I_emit; [right; left; reflexivity | exact HI].
Qed.

(** The generator rejects pass [k + 1], after [k] passes below the target. *)
Lemma qualityPasses_rejected kw mx g0 k :
  (k < mx)%nat ->
  (forall j, (j < k)%nat ->
     exists qj, reportedQuality env kw (g0 + j) = Some qj /\ qj < MIN_QUALITY_SCORE) ->
  reportedQuality env kw (g0 + k) = None ->
  forall turns p, (passCount p <= k)%nat -> (S k <= passCount p + turns)%nat ->
  hoareT (fun e => generatorCalls e = (g0 + passCount p)%nat /\ I e)
         (qualityPasses env turns kw mx p) I.
Proof.
  intros Hk Hbelow Hrej. induction turns as [| t IH]; intros p Hp Ht; [lia |].
  cbn [qualityPasses].
  assert (L : (passCount p <? mx)%nat = true) by (apply Nat.ltb_lt; lia). rewrite L.
  destruct (Nat.eq_dec (passCount p) k) as [E | E].
  - apply hoareT_first. apply callGenerator_rejects. rewrite E. exact Hrej.
  - assert (Lk : (passCount p < k)%nat) by lia.
    destruct (Hbelow _ Lk) as [qj [Hqj Bj]].
    destruct (reportedQuality_Some _ _ _ Hqj) as [c [Hc Qc]].
    apply (hoareT_later _ _ _ _ _ (callGenerator_resolves_I kw _ c Hc)). intros c'.
    intros e [-> He]. revert e He.
    apply hoareT_keep; [returning | apply log_keeps_I | intros _].
    rewrite Qc.
    assert (G : (MIN_QUALITY_SCORE <=? qj) = false) by lia. rewrite G.
    apply hoareT_keep; [returning | | intros _].
    + destruct (S (passCount p) <? mx)%nat; cbn [when]; [| apply preserves_ret].
      apply preserves_bind; [apply log_keeps_I | intros _; apply sleep_keeps_I].
    + intros e He.
      apply (IH (mkPasses (Some c) qj (S (passCount p)))); cbn [passCount]; try lia.
      destruct He as [Hg He]. split; [lia | exact He].
Qed.

Lemma generateItem_rejected item t (b : bool) g0 k :
  (k < if b then MAX_QUALITY_IMPROVEMENT_PASSES else 1)%nat ->
  (forall j, (j < k)%nat ->
     exists qj, reportedQuality env (extractKeyword env (url item)) (g0 + j) = Some qj /\
                qj < MIN_QUALITY_SCORE) ->
  reportedQuality env (extractKeyword env (url item)) (g0 + k) = None ->
  hoareT (fun e => generatorCalls e = g0 /\ I e) (generateItem env options item t b) I.
Proof.
  intros Hk Hbelow H. unfold generateItem. cbv zeta.
  apply (hoareT_later _ (fun e0 e => e = e0 /\ generatorCalls e = g0 /\ I e)).
  { intros e He. exists e. split; [reflexivity | split; [reflexivity | exact He]]. }
  intros e0. destruct (orchestrator e0) as [o |].
  - apply (hoareT_later _ (fun _ e => generatorCalls e = g0 /\ I e)).
    { apply hoareR_plain; [returning |]. intros e [_ He]. apply log_keeps_I. exact He. }
    intros _. apply hoareT_first.
    intros e [Hg He].
    apply (qualityPasses_rejected _ _ g0 k Hk Hbelow H); cbn [passCount]; try lia.
    split; [lia | exact He].
  - intros e [_ [_ He]]. exists "Content orchestrator not initialized"%string.
    split; [reflexivity | exact He].
Qed.

Lemma generateItem_unready item t b :
  hoareT (fun e => orchestrator e = None /\ I e) (generateItem env options item t b) I.
Proof.
  intros e [Ho He]. unfold generateItem, completion, after, bind, this. simpl.
  rewrite Ho. exists "Content orchestrator not initialized"%string.
  split; [reflexivity | exact He].
Qed.

Lemma generateItem_fails e item t :
  generationFails env options e item ->
  hoareT (fun y => orchestrator y = orchestrator e /\
                   generatorCalls y = generatorCalls e /\ I y)
         (generateItem env options item t (isPriorityItem options item)) I.
Proof.
  intros [Ho | [k [Hk [Hb Hr]]]] y [H1 [H2 H3]].
  - apply generateItem_unready. split; [congruence | exact H3].
  - apply (generateItem_rejected item t _ (generatorCalls e) k Hk Hb Hr).
    split; assumption.
Qed.

End FailingBody.

Lemma breakerAt_emit c0 t0 e ev :
  breakerAt c0 t0 e -> breakerAt c0 t0 (set_emitted (ev :: emitted e) e).
Proof. intros H. exact H. Qed.

Lemma breakerAt_clock c0 t0 e d :
  0 <= d -> breakerAt c0 t0 e -> breakerAt c0 t0 (set_clock (clock e + d) e).
Proof. unfold breakerAt. simpl. intros Hd [H1 [H2 H3]]. repeat split; try assumption. lia. Qed.

Lemma breakerAt_calls c0 t0 e v :
  breakerAt c0 t0 e -> breakerAt c0 t0 (set_generatorCalls v e).
Proof. intros H. exact H. Qed.

(* ------------------------------------------------------------------ *)
(** *** A success resets the count *)

Section GeneratorAnswers.
Variable kw : string.
Hypothesis answers : forall n, reportedQuality env kw n <> None.

Lemma callGenerator_answers : returns (callGenerator env kw).
Proof.
  intros e. unfold callGenerator. step.
  specialize (answers (generatorCalls e)). unfold reportedQuality in answers.
  destruct (settled (generateContent env (generatorCalls e) kw)) as [c | msg];
    [| congruence].
  exists c. reflexivity.
Qed.

Lemma qualityPasses_answers turns mx : forall p,
  hoareR (fun _ => True) (qualityPasses env turns kw mx p)
         (fun p' _ => pass_content p <> None \/ ((0 < turns)%nat /\ (passCount p < mx)%nat) ->
                      pass_content p' <> None).
Proof.
  induction turns as [| t IH]; intros p; cbn [qualityPasses].
  - apply hoareR_ret. intros e _ [H | [H _]]; [exact H | lia].
  - destruct (Nat.ltb_spec (passCount p) mx) as [L | L].
    + apply (hoareR_bind _ (fun _ _ => True)).
      { apply hoareR_plain; [apply callGenerator_answers | intros e _; exact I]. }
      intros c. throughR.
      destruct (MIN_QUALITY_SCORE <=? orZero (qualityScore_overall c)).
      * throughR. apply hoareR_ret. intros e _ _. discriminate.
      * throughR. intros e He. destruct (IH (mkPasses (Some c) (orZero (qualityScore_overall c))
                                               (S (passCount p))) e He) as [p' [C H]].
        exists p'. split; [exact C |]. intros _. apply H. left. discriminate.
    + apply hoareR_ret. intros e _ [H | [_ H]]; [exact H | lia].
Qed.

End GeneratorAnswers.

Lemma afterPasses_resets item t p :
  pass_content p <> None ->
  hoareR (fun _ => True) (afterPasses env options item t p)
         (fun _ x => consecutiveFailures x = 0%nat).
Proof.
  intros Hc. destruct (pass_content p) as [c |] eqn:E; [clear Hc | congruence].
  unfold afterPasses. rewrite E. cbv zeta.
  apply (hoareR_bind _ (fun _ _ => True)).
  { apply hoareR_plain; [returning | intros e _; exact I]. }
  intros e0.
  apply (hoareR_bind _ (fun _ x => consecutiveFailures x = 0%nat)).
  { apply hoareR_plain; [returning |]. intros e _. reflexivity. }
  intros _. apply hoareR_plain; [returning | kept].
Qed.

Lemma generateItem_succeeds item t b :
  (forall n, reportedQuality env (extractKeyword env (url item)) n <> None) ->
  hoareR (fun x => orchestrator x <> None) (generateItem env options item t b)
         (fun _ x => consecutiveFailures x = 0%nat).
Proof.
  intros Ha. unfold generateItem. cbv zeta.
  apply (hoareR_bind _ (fun e0 x => orchestrator e0 <> None)).
  { intros e He. exists e. split; [reflexivity | exact He]. }
  intros e0. destruct (orchestrator e0) as [o |].
  - apply (hoareR_bind _ (fun _ _ => True)).
    { apply hoareR_plain; [returning | intros e _; exact I]. }
    intros _.
    apply (hoareR_bind _ (fun p _ => pass_content p <> None)).
    + intros e He.
      destruct (qualityPasses_answers _ Ha
                  (if b then MAX_QUALITY_IMPROVEMENT_PASSES else 1%nat)
                  (if b then MAX_QUALITY_IMPROVEMENT_PASSES else 1%nat)
                  (mkPasses None 0 0) e I) as [p [C H]].
      exists p. split; [exact C |]. apply H. right. cbn [passCount].
      pose proof (maxPasses_positive b). lia.
    + intros p. apply hoareR_assume_any. intros Hp.
      eapply hoare_pre_R; [| apply afterPasses_resets; exact Hp]. intros; exact I.
  - intros e He. congruence.
Qed.

Lemma qualityPasses_first_call turns kw mx p n :
  (0 < turns)%nat -> (passCount p < mx)%nat ->
  hoare (fun e => generatorCalls e = n) (qualityPasses env turns kw mx p)
        (fun e => (n < generatorCalls e)%nat).
Proof.
  intros Ht Hp. destruct turns as [| t]; [lia |]. cbn [qualityPasses].
  assert (L : (passCount p <? mx)%nat = true) by (apply Nat.ltb_lt; exact Hp). rewrite L.
  apply (hoare_bind_any _ (fun e => generatorCalls e = S n));
    [apply callGenerator_calls | intros; lia | intros c].
  apply (hoare_bind _ (fun e => generatorCalls e = S n)); [returning | kept | intros _].
  destruct (MIN_QUALITY_SCORE <=? orZero (qualityScore_overall c)).
  - apply (hoare_weaken _ (fun e => generatorCalls e = S n)); [kept | intros; lia].
  - apply (hoare_bind _ (fun e => generatorCalls e = S n)); [returning | kept | intros _].
    eapply hoare_weaken; [apply qualityPasses_calls |]. intros e He. cbv beta in He. lia.
Qed.

Lemma runGenerationPhase_blocked e :
  circuitBlocked e = true ->
  let e' := after (runGenerationPhase env options) e in
  queue e' = queue e /\ generatorCalls e' = generatorCalls e /\
  consecutiveFailures e' = consecutiveFailures e /\
  circuitBrokenUntil e' = circuitBrokenUntil e /\
  clock e' = clock e + 60000 /\
  emitted e' = breakerOpenEvents ++ emitted e.
Proof.
  unfold circuitBlocked, runGenerationPhase, isCircuitBroken. intros H. step.
  destruct (circuitBrokenUntil e) as [until |] eqn:C; [| discriminate].
  assert (L : (until <=? clock e) = false) by lia. rewrite L. simpl.
  rewrite C. repeat split.
Qed.

Lemma isCircuitBroken_expired e until :
  circuitBrokenUntil e = Some until -> until <= clock e ->
  completion isCircuitBroken e = Returned false /\
  consecutiveFailures (after isCircuitBroken e) = 0%nat /\
  circuitBrokenUntil (after isCircuitBroken e) = None.
Proof.
  intros C L. unfold isCircuitBroken. step. rewrite C.
  assert (L' : (until <=? clock e) = true) by lia. rewrite L'. simpl. repeat split.
Qed.

(* ------------------------------------------------------------------ *)
(** *** The passes that the generator answers *)

Lemma qualityPasses_answered kw mx g0 :
  (forall k, (k < mx)%nat ->
     (forall j, (j < k)%nat ->
        exists qj, reportedQuality env kw (g0 + j) = Some qj /\ qj < MIN_QUALITY_SCORE) ->
     reportedQuality env kw (g0 + k) <> None) ->
  forall turns p,
    (forall j, (j < passCount p)%nat ->
       exists qj, reportedQuality env kw (g0 + j) = Some qj /\ qj < MIN_QUALITY_SCORE) ->
    hoareR (fun e => generatorCalls e = (g0 + passCount p)%nat)
           (qualityPasses env turns kw mx p)
           (fun p' _ => pass_content p <> None \/ ((0 < turns)%nat /\ (passCount p < mx)%nat) ->
                        pass_content p' <> None).
Proof.
  intros Ha. induction turns as [| t IH]; intros p Hb; cbn [qualityPasses].
  - apply hoareR_ret. intros e _ [H | [H _]]; [exact H | lia].
  - destruct (Nat.ltb_spec (passCount p) mx) as [L | L].
    + destruct (reportedQuality env kw (g0 + passCount p)) as [q |] eqn:Hq;
        [| exfalso; exact (Ha _ L Hb Hq)].
      destruct (reportedQuality_Some _ _ _ Hq) as [c [Hc Qc]].
      apply (hoareR_bind _ _ _ _ _ (callGenerator_resolves kw _ c Hc)). intros c'.
      apply hoareR_assume. intros ->.
      throughR. rewrite Qc.
      destruct (Z.leb_spec MIN_QUALITY_SCORE q) as [G | G].
      * throughR. apply hoareR_ret. intros e _ _. discriminate.
      * throughR.
        assert (N : S (g0 + passCount p)
                    = (g0 + passCount (mkPasses (Some c) q (S (passCount p))))%nat)
          by (cbn [passCount]; lia).
        rewrite N. intros e He.
        destruct (IH (mkPasses (Some c) q (S (passCount p)))) with (e := e) as [p' [C H]].
        { cbn [passCount]. intros j Hj.
          destruct (Nat.eq_dec j (passCount p)) as [-> | Hn].
          - exists q. split; [exact Hq | exact G].
          - apply Hb. lia. }
        { exact He. }
        exists p'. split; [exact C |]. intros _. apply H. left. discriminate.
    + apply hoareR_ret. intros e _ [H | [_ H]]; [exact H | lia].
Qed.

Lemma generateItem_answered e item t :
  generationSucceeds env options e item ->
  hoareR (fun x => orchestrator x = orchestrator e /\ generatorCalls x = generatorCalls e)
         (generateItem env options item t (isPriorityItem options item))
         (fun _ x => consecutiveFailures x = 0%nat).
Proof.
  intros [Ho Ha]. unfold generateItem. cbv zeta.
  apply (hoareR_bind _ (fun e0 x => orchestrator e0 <> None /\
                                    generatorCalls x = generatorCalls e)).
  { intros x [Hx Hg]. exists x. split; [reflexivity | split; [congruence | exact Hg]]. }
  intros e0. destruct (orchestrator e0) as [o |]; [| intros x [Hx _]; congruence].
  apply (hoareR_bind _ (fun _ x => generatorCalls x = generatorCalls e)).
  { apply hoareR_plain; [returning | intros x [_ Hg]; exact Hg]. }
  intros _.
  apply (hoareR_bind _ (fun p _ => pass_content p <> None)).
  - intros x Hx.
    destruct (qualityPasses_answered _ _ (generatorCalls e) Ha
                (if isPriorityItem options item then MAX_QUALITY_IMPROVEMENT_PASSES else 1%nat)
                (mkPasses None 0 0)) with (e := x) as [p [C H]].
    + cbn [passCount]. intros j Hj. lia.
    + cbn [passCount]. rewrite Hx. lia.
    + exists p. split; [exact C |]. apply H. right. cbn [passCount].
      pose proof (maxPasses_positive (isPriorityItem options item)). lia.
  - intros p. apply hoareR_assume_any. intros Hp.
    eapply hoare_pre_R; [| apply afterPasses_resets; exact Hp]. intros; exact I.
Qed.

(* ------------------------------------------------------------------ *)
(** *** The time of a failure *)

Lemma timeToPass_nonneg kw g0 k : 0 <= timeToPass env kw g0 k.
Proof. induction k as [| k IH]; simpl; lia. Qed.

Lemma callGenerator_resolves_at kw c0 t n c :
  settled (generateContent env n kw) = Resolved c ->
  hoareR (passing c0 t n) (callGenerator env kw)
         (fun c' e' => c' = c /\
                       passing c0 (t + Z.max 0 (took (generateContent env n kw))) (S n) e').
Proof.
  intros H e [Hg [Ht [Hc Hu]]]. unfold callGenerator. step. rewrite Hg, H. simpl.
  exists c. unfold passing. simpl. rewrite Ht. repeat split; assumption.
Qed.

Lemma callGenerator_rejects_at kw c0 t n :
  reportedQuality env kw n = None ->
  hoareT (passing c0 t n) (callGenerator env kw)
         (fun e' => clock e' = t + Z.max 0 (took (generateContent env n kw)) /\
                    consecutiveFailures e' = c0 /\ circuitBrokenUntil e' = None).
Proof.
  unfold reportedQuality. intros H e [Hg [Ht [Hc Hu]]]. unfold callGenerator. step.
  rewrite Hg. destruct (settled (generateContent env n kw)) as [c | msg]; [discriminate |].
  simpl. exists msg. rewrite Ht. repeat split; assumption.
Qed.

Lemma hoareT_assume {A} (P0 : Prop) (P Q : Engine -> Prop) (m : M A) :
  (P0 -> hoareT P m Q) -> hoareT (fun e => P0 /\ P e) m Q.
Proof. intros H e [H0 He]. apply H; assumption. Qed.

Lemma qualityPasses_rejected_at kw mx g0 t0 c0 k :
  (k < mx)%nat ->
  (forall j, (j < k)%nat ->
     exists qj, reportedQuality env kw (g0 + j) = Some qj /\ qj < MIN_QUALITY_SCORE) ->
  reportedQuality env kw (g0 + k) = None ->
  forall turns p, (passCount p <= k)%nat -> (S k <= passCount p + turns)%nat ->
  hoareT (passing c0 (t0 + timeToPass env kw g0 (passCount p)) (g0 + passCount p))
         (qualityPasses env turns kw mx p)
         (fun e' => clock e' = t0 + timeToPass env kw g0 k
                               + Z.max 0 (took (generateContent env (g0 + k) kw)) /\
                    consecutiveFailures e' = c0 /\ circuitBrokenUntil e' = None).
Proof.
  intros Hk Hbelow Hrej. induction turns as [| t IH]; intros p Hp Ht; [lia |].
  cbn [qualityPasses].
  assert (L : (passCount p <? mx)%nat = true) by (apply Nat.ltb_lt; lia). rewrite L.
  destruct (Nat.eq_dec (passCount p) k) as [E | E].
  - apply hoareT_first. rewrite E. apply callGenerator_rejects_at. exact Hrej.
  - assert (Lk : (passCount p < k)%nat) by lia.
    destruct (Hbelow _ Lk) as [qj [Hqj Bj]].
    destruct (reportedQuality_Some _ _ _ Hqj) as [c [Hc Qc]].
    apply (hoareT_later _ _ _ _ _ (callGenerator_resolves_at kw c0 _ _ c Hc)). intros c'.
    apply hoareT_assume. intros ->.
    apply (hoareT_later _ (fun _ => passing c0
             (t0 + timeToPass env kw g0 (passCount p)
              + Z.max 0 (took (generateContent env (g0 + passCount p) kw)))
             (S (g0 + passCount p)))).
    { apply hoareR_plain; [returning | intros e He; exact He]. }
    intros _. rewrite Qc.
    assert (G : (MIN_QUALITY_SCORE <=? qj) = false) by lia. rewrite G.
    assert (W : (S (passCount p) <? mx)%nat = true) by (apply Nat.ltb_lt; lia). rewrite W.
    cbn [when].
    apply (hoareT_later _ (fun _ => passing c0
             (t0 + timeToPass env kw g0 (S (passCount p))) (g0 + S (passCount p)))).
    { apply hoareR_plain; [returning |].
      intros e [Hg [Hc' [Hf Hu]]]. unfold passing. cbn [timeToPass].
      unfold sleep, log, emit. step. rewrite Hc'. repeat split; try assumption; lia. }
    intros _.
    apply (IH (mkPasses (Some c) qj (S (passCount p)))); cbn [passCount]; lia.
Qed.

Lemma generateItem_fails_at e item t tf :
  generationFailsAt env options e item tf ->
  hoareT (fun y => orchestrator y = orchestrator e /\
                   passing (failuresAtStart e) (clock e) (generatorCalls e) y)
         (generateItem env options item t (isPriorityItem options item))
         (fun y => clock y = tf /\ consecutiveFailures y = failuresAtStart e /\
                   circuitBrokenUntil y = None).
Proof.
  intros Hf. unfold generateItem. cbv zeta.
  apply (hoareT_later _ (fun e0 y => y = e0 /\ orchestrator y = orchestrator e /\
                                     passing (failuresAtStart e) (clock e) (generatorCalls e) y)).
  { intros y Hy. exists y. split; [reflexivity | split; [reflexivity | exact Hy]]. }
  intros e0. destruct Hf as [[Ho ->] | [Ho [k [Hk [Hb [Hr ->]]]]]].
  - intros y [-> [Hy [_ [Hc [Hn Hu]]]]]. rewrite Hy, Ho.
    exists "Content orchestrator not initialized"%string.
    split; [reflexivity | repeat split; assumption].
  - destruct (orchestrator e0) as [o |] eqn:O.
    + apply (hoareT_later _ (fun _ => passing (failuresAtStart e) (clock e) (generatorCalls e))).
      { apply hoareR_plain; [returning | intros y [_ [_ Hy]]; exact Hy]. }
      intros _. apply hoareT_first.
      intros y Hy.
      apply (qualityPasses_rejected_at _ _ (generatorCalls e) (clock e) (failuresAtStart e) k
               Hk Hb Hr); cbn [passCount timeToPass]; try lia.
      destruct Hy as [H1 [H2 [H3 H4]]]. unfold passing. repeat split; try assumption; lia.
    + intros y [-> [Hy _]]. congruence.
Qed.

Lemma generationFailed_counts_at item t msg c0 tf :
  hoare (fun y => clock y = tf /\ consecutiveFailures y = c0 /\ circuitBrokenUntil y = None)
        (generationFailed env options item t msg)
        (fun e' => consecutiveFailures e' = S c0 /\
                   if (CIRCUIT_BREAKER_THRESHOLD <=? S c0)%nat
                   then circuitBrokenUntil e' = Some (tf + CIRCUIT_BREAKER_RESET_MS)
                   else circuitBrokenUntil e' = None).
Proof.
  unfold generationFailed.
  apply (hoare_bind _ (fun y => clock y = tf /\ consecutiveFailures y = c0 /\
                                circuitBrokenUntil y = None));
    [returning | intros y Hy; exact Hy | intros _].
  apply (hoare_bind _ (fun e' => consecutiveFailures e' = S c0 /\
                   if (CIRCUIT_BREAKER_THRESHOLD <=? S c0)%nat
                   then circuitBrokenUntil e' = Some (tf + CIRCUIT_BREAKER_RESET_MS)
                   else circuitBrokenUntil e' = None)).
  - returning.
  - intros e [H3 [H1 H2]]. unfold recordFailure.
    rewrite (after_bind _ _ e tt) by reflexivity.
    rewrite (after_bind _ _ _ (after (assign (fun e0 => set_consecutiveFailures
                                        (S (consecutiveFailures e0)) e0)) e)) by reflexivity.
    change (after this ?x) with x.
    cbn [after assign snd consecutiveFailures set_consecutiveFailures]. rewrite H1.
    destruct (CIRCUIT_BREAKER_THRESHOLD <=? S c0)%nat; cbn [when].
    + step. split; [congruence |]. rewrite H3. reflexivity.
    + step. split; [congruence | exact H2].
  - intros _. kept.
Qed.

(** A generation fails, at a time, or it succeeds. *)
Lemma passes_outcome kw g0 mx :
  (exists k, (k < mx)%nat /\
     (forall j, (j < k)%nat ->
        exists qj, reportedQuality env kw (g0 + j) = Some qj /\ qj < MIN_QUALITY_SCORE) /\
     reportedQuality env kw (g0 + k) = None) \/
  (forall k, (k < mx)%nat ->
     (forall j, (j < k)%nat ->
        exists qj, reportedQuality env kw (g0 + j) = Some qj /\ qj < MIN_QUALITY_SCORE) ->
     reportedQuality env kw (g0 + k) <> None).
Proof.
  assert (T : (exists k, (k < mx)%nat /\
                 (forall j, (j < k)%nat ->
                    exists qj, reportedQuality env kw (g0 + j) = Some qj /\
                               qj < MIN_QUALITY_SCORE) /\
                 reportedQuality env kw (g0 + k) = None) \/
              (forall j, (j < mx)%nat ->
                 exists qj, reportedQuality env kw (g0 + j) = Some qj /\
                            qj < MIN_QUALITY_SCORE) \/
              (exists k q, (k < mx)%nat /\ reportedQuality env kw (g0 + k) = Some q /\
                           MIN_QUALITY_SCORE <= q /\
                           forall j, (j < k)%nat -> reportedQuality env kw (g0 + j) <> None)).
  { induction mx as [| m IH].
    - right. left. intros j Hj. lia.
    - destruct IH as [[k [Hk [Hb Hr]]] | [Hb | [k [q [Hk [Hq [Hge Hb]]]]]]].
      + left. exists k. split; [lia | split; assumption].
      + destruct (reportedQuality env kw (g0 + m)) as [q |] eqn:Hq.
        * destruct (Z.lt_ge_cases q MIN_QUALITY_SCORE) as [G | G].
          -- right. left. intros j Hj.
             destruct (Nat.eq_dec j m) as [-> | Hn]; [exists q; split; assumption |].
             apply Hb. lia.
          -- right. right. exists m, q. split; [lia | split; [exact Hq | split; [exact G |]]].
             intros j Hj. destruct (Hb j Hj) as [qj [Hqj _]]. congruence.
        * left. exists m. split; [lia | split; [exact Hb | exact Hq]].
      + right. right. exists k, q. split; [lia | split; [exact Hq | split; assumption]]. }
  destruct T as [A | [B | [k0 [q [Hk [Hq [Hge Hb]]]]]]].
  - left. exact A.
  - right. intros k Hk' _. destruct (B k Hk') as [qk [Hqk _]]. congruence.
  - right. intros k Hk' Hbelow.
    destruct (Nat.lt_trichotomy k k0) as [Lt | [-> | Gt]].
    + apply Hb. exact Lt.
    + congruence.
    + destruct (Hbelow k0 Gt) as [qj [Hqj Bj]]. rewrite Hq in Hqj.
      injection Hqj as <-. lia.
Qed.

Lemma generation_fails_or_succeeds e item :
  generationSucceeds env options e item \/
  exists tf, clock e <= tf /\ generationFailsAt env options e item tf.
Proof.
  destruct (orchestrator e) as [o |] eqn:Ho.
  - destruct (passes_outcome (extractKeyword env (url item)) (generatorCalls e)
                (if isPriorityItem options item then MAX_QUALITY_IMPROVEMENT_PASSES else 1%nat))
      as [[k [Hk [Hb Hr]]] | Ha].
    + right. eexists. split; [| right; split; [congruence |]; exists k;
                                 split; [exact Hk | split; [exact Hb | split;
                                   [exact Hr | reflexivity]]]].
      pose proof (timeToPass_nonneg (extractKeyword env (url item)) (generatorCalls e) k). lia.
    + left. split; [congruence | exact Ha].
  - right. exists (clock e). split; [lia | left; split; [exact Ho | reflexivity]].
Qed.

(** C4. The circuit breaker, in one generation phase run on [e]. A
    generation either succeeds or fails, at a time [tf]. If it succeeds
    (there is an orchestrator, and the generator answers the passes that the
    phase comes to, whatever it did on calls made before), the phase ends with
    no consecutive failure counted; if it fails, one more failure is counted,
    and when that makes five the cooldown is set to [tf + 600000], ten
    minutes after the failure; while a cooldown has not run out the phase
    pops nothing and calls nothing, it warns, sleeps 60000 ms and returns;
    once the cooldown has run out the breaker check clears it together with
    the count, and the generator is called again. *)
Theorem circuit_breaker_trips_and_recovers (e : Engine) :
  let e' := after (runGenerationPhase env options) e in
  (forall item,
     generationSucceeds env options e item \/
     exists tf, clock e <= tf /\ generationFailsAt env options e item tf) /\
  (forall item rest,
     circuitBlocked e = false -> queue e = item :: rest ->
     generationSucceeds env options e item ->
     consecutiveFailures e' = 0%nat) /\
  (forall item rest tf,
     circuitBlocked e = false -> queue e = item :: rest ->
     generationFailsAt env options e item tf ->
     consecutiveFailures e' = S (failuresAtStart e) /\
     if (CIRCUIT_BREAKER_THRESHOLD <=? S (failuresAtStart e))%nat
     then circuitBrokenUntil e' = Some (tf + CIRCUIT_BREAKER_RESET_MS)
     else circuitBrokenUntil e' = None) /\
  (circuitBlocked e = true ->
     queue e' = queue e /\ generatorCalls e' = generatorCalls e /\
     consecutiveFailures e' = consecutiveFailures e /\
     circuitBrokenUntil e' = circuitBrokenUntil e /\
     clock e' = clock e + 60000 /\
     emitted e' = breakerOpenEvents ++ emitted e) /\
  (forall until, circuitBrokenUntil e = Some until -> until <= clock e ->
     circuitBlocked e = false /\ failuresAtStart e = 0%nat /\
     completion isCircuitBroken e = Returned false /\
     consecutiveFailures (after isCircuitBroken e) = 0%nat /\
     circuitBrokenUntil (after isCircuitBroken e) = None /\
     forall item rest, queue e = item :: rest -> orchestrator e <> None ->
       (generatorCalls e < generatorCalls e')%nat).
Proof.
  cbv zeta. split; [| split; [| split; [| split]]].
  - intros item. apply generation_fails_or_succeeds.
  - intros item rest Hb Hq Hs.
    destruct (runGenerationPhase_enters e item rest Hb Hq) as [x [Hx Heq]].
    rewrite (after_eq _ _ _ _ Heq).
    destruct Hx as [_ [Hox [_ [Hg _]]]].
    apply (hoare_tryCatch_returned
             (fun y => orchestrator y = orchestrator e /\ generatorCalls y = generatorCalls e)).
    + apply generateItem_answered. exact Hs.
    + split; [exact Hox | exact Hg].
  - intros item rest tf Hb Hq Hf.
    destruct (runGenerationPhase_enters e item rest Hb Hq) as [x [Hx Heq]].
    rewrite (after_eq _ _ _ _ Heq).
    destruct Hx as [_ [Hox [Hc [Hg [_ [_ [_ [_ [Hu [Hn _]]]]]]]]]].
    apply (hoare_tryCatch_thrown
             (fun y => orchestrator y = orchestrator e /\
                       passing (failuresAtStart e) (clock e) (generatorCalls e) y)
             (fun y => clock y = tf /\ consecutiveFailures y = failuresAtStart e /\
                       circuitBrokenUntil y = None)).
    + apply generateItem_fails_at. exact Hf.
    + intros msg. apply generationFailed_counts_at.
    + split; [exact Hox |]. unfold passing, failuresAtStart.
      repeat split; assumption.
  - apply runGenerationPhase_blocked.
  - intros expiry C L.
    assert (Hb : circuitBlocked e = false).
    { unfold circuitBlocked. rewrite C. lia. }
    split; [exact Hb |]. split; [unfold failuresAtStart; rewrite C; reflexivity |].
    destruct (isCircuitBroken_expired e expiry C L) as [H1 [H2 H3]].
    repeat (split; [assumption |]).
    intros item rest Hq Ho.
    apply (runGenerationPhase_passes e item rest
             (fun n => (generatorCalls e < n)%nat) Hq Hb Ho).
    cbv zeta. apply qualityPasses_first_call.
    + apply maxPasses_positive.
    + cbn [passCount]. apply maxPasses_positive.
Qed.

(* ================================================================== *)
(** ** Retries *)

Lemma hoare_conj {A} (P1 P2 Q1 Q2 : Engine -> Prop) (m : M A) :
  hoare P1 m Q1 -> hoare P2 m Q2 -> hoare (fun e => P1 e /\ P2 e) m (fun e => Q1 e /\ Q2 e).
Proof. intros H1 H2 e [He1 He2]. split; [apply H1 | apply H2]; assumption. Qed.

Lemma generationFailed_history item t msg base :
  hoare (noHistorySince base) (generationFailed env options item t msg)
        (fun e' => if Z.of_nat (retryCount item) <? retryAttempts (config options)
                   then noHistorySince base e'
                   else errorRecordedSince base item e').
Proof.
  unfold generationFailed.
  do 2 (apply hoare_keep; [returning | quiet | intro]).
  destruct (Z.of_nat (retryCount item) <? retryAttempts (config options)).
  - quiet.
  - apply (hoare_bind _ (errorRecordedSince base item)); [returning | | intros _; quiet].
    apply (hoare_bind _ (noHistorySince base)); [returning | quiet | intros _].
    apply (hoare_bind _ (noHistorySince base)); [returning | quiet | intros e0].
    intros e [new [E H]]. unfold addToHistory. step.
    eexists (_ :: new). rewrite E. split; [reflexivity |].
    simpl. rewrite H. eexists. split; [reflexivity |]. repeat split.
Qed.

Lemma noHistorySince_emit base e ev :
  quietEvent ev \/ isGeneratorCall ev = true \/ (exists ms, ev = slept ms) ->
  noHistorySince base e -> noHistorySince base (set_emitted (ev :: emitted e) e).
Proof.
  intros Hev [new [E H]]. exists (ev :: new). simpl. rewrite E. split; [reflexivity |].
  destruct ev as [ty m | u | ms | v | k | r | m]; simpl in *;
    try exact H; destruct Hev as [Hev | [Hev | [ms' Hev]]];
    try contradiction; try discriminate.
  rewrite Hev. exact H.
Qed.

Lemma quiet_noHistory l : Forall quietEvent l -> historyOf l = [].
Proof.
  induction 1 as [| ev l Hev Hl IH]; [reflexivity |].
  destruct ev as [ty m | u | ms | v | k | r | m]; simpl in *; try exact IH; try contradiction.
  rewrite Hev. exact IH.
Qed.

(** A failed generation, seen from the whole phase. *)
Lemma runGenerationPhase_failed e item rest :
  circuitBlocked e = false -> queue e = item :: rest ->
  generationFails env options e item ->
  let e' := after (runGenerationPhase env options) e in
  if Z.of_nat (retryCount item) <? retryAttempts (config options)
  then (exists msg, queue e' = sortItems (rest ++ [retried item msg])) /\
       noHistorySince (emitted e) e'
  else queue e' = rest /\ errorRecordedSince (emitted e) item e'.
Proof.
  intros Hb Hq Hf. cbv zeta.
  destruct (runGenerationPhase_enters e item rest Hb Hq) as [x [Hx Heq]].
  rewrite (after_eq _ _ _ _ Heq).
  destruct Hx as [Hqx [Hox [_ [Hg [_ [_ [_ [_ [_ [_ [l [Hl Hquiet]]]]]]]]]]]].
  apply (hoare_tryCatch_thrown
           (fun y => orchestrator y = orchestrator e /\
                     generatorCalls y = generatorCalls e /\
                     (queue y = rest /\ noHistorySince (emitted e) y))
           (fun y => queue y = rest /\ noHistorySince (emitted e) y)).
  - apply generateItem_fails; [| | | exact Hf].
    + intros y ev Hev [H1 H2]. split; [exact H1 | apply noHistorySince_emit; assumption].
    + intros y d _ H. exact H.
    + intros y v H. exact H.
  - intros msg.
    eapply hoare_weaken.
    + apply hoare_conj;
        [apply (generationFailed_queue item (clock e) msg rest)
        | apply (generationFailed_history item (clock e) msg (emitted e))].
    + cbv beta. intros y [H1 H2].
      destruct (Z.of_nat (retryCount item) <? retryAttempts (config options)).
      * split; [exists msg; exact H1 | exact H2].
      * split; assumption.
  - split; [exact Hox | split; [exact Hg | split; [exact Hqx |]]].
    exists l. split; [exact Hl | apply quiet_noHistory; exact Hquiet].
Qed.

Lemma retriesBounded_sort q : retriesBounded options q -> retriesBounded options (sortItems q).
Proof. unfold retriesBounded. apply Permutation_Forall. apply sortItems_perm. Qed.

Lemma retriesBounded_tail x q : retriesBounded options (x :: q) -> retriesBounded options q.
Proof. unfold retriesBounded. apply Forall_inv_tail. Qed.

Lemma retriesBounded_push q x :
  retriesBounded options q -> Z.of_nat (retryCount x) <= retryAttempts (config options) ->
  retriesBounded options (q ++ [x]).
Proof.
  unfold retriesBounded. intros Hq Hx. apply Forall_app. split; [exact Hq |].
  constructor; [exact Hx | constructor].
Qed.

(** C5. With a maximum of retries that is not negative, no queued item has
    been retried more often than the maximum: the queue built from the
    priority list respects the bound, and the scoring phase, the generation
    phase, the main loop and [start] keep it. When a generation fails (no
    orchestrator, or the generator rejects a pass) for an item with retries
    left, the item goes back into the queue with one more retry and nothing is
    written to the history; for an item whose retries have reached the
    maximum, the queue is left without the item and exactly one entry goes to
    the history, with action [error]. *)
Theorem retries_bounded_and_exhaustion_recorded (e : Engine) :
  0 <= retryAttempts (config options) ->
  let e' := after (runGenerationPhase env options) e in
  retriesBounded options (queue (after (initializePriorityQueue env options) e)) /\
  (retriesBounded options (queue e) ->
   retriesBounded options (queue (after (runScoringPhase env options) e)) /\
   retriesBounded options (queue e') /\
   forall turns,
     retriesBounded options (queue (after (mainLoop env options turns) e)) /\
     retriesBounded options (queue (after (start env options turns) e))) /\
  (forall item rest,
     circuitBlocked e = false -> queue e = item :: rest ->
     generationFails env options e item ->
     if Z.of_nat (retryCount item) <? retryAttempts (config options)
     then (exists item', queue e' = sortItems (rest ++ [item']) /\
                         url item' = url item /\ retryCount item' = S (retryCount item)) /\
          noHistorySince (emitted e) e'
     else queue e' = rest /\ errorRecordedSince (emitted e) item e').
Proof.
  intros Hmax. cbv zeta.
  assert (P : forall q i u p s t src, retriesBounded options q -> ~ In u (map url q) ->
                retriesBounded options (q ++ [mkQueueItem i u p s t src 0 None])).
  { intros q i u p s t src Hq _. apply retriesBounded_push; [exact Hq | exact Hmax]. }
  assert (R : forall x q msg, retriesBounded options (x :: q) ->
                Z.of_nat (retryCount x) < retryAttempts (config options) ->
                retriesBounded options (q ++ [retried x msg])).
  { intros x q msg Hq Hx. apply retriesBounded_push.
    - apply (retriesBounded_tail x). exact Hq.
    - cbn [retried retryCount]. lia. }
  assert (N : retriesBounded options []) by constructor.
  split; [| split].
  - apply (initializePriorityQueue_establishes (retriesBounded options) P retriesBounded_sort N).
    exact I.
  - intros He. split; [| split; [| intros turns; split]].
    + exact (runScoringPhase_keeps (retriesBounded options) P retriesBounded_sort e He).
    + exact (runGenerationPhase_keeps (retriesBounded options)
               retriesBounded_sort retriesBounded_tail R e He).
    + exact (mainLoop_keeps (retriesBounded options) P retriesBounded_sort
               retriesBounded_tail R turns e He).
    + exact (start_keeps (retriesBounded options) P retriesBounded_sort N
               retriesBounded_tail R turns e He).
  - intros item rest Hb Hq Hf.
    pose proof (runGenerationPhase_failed e item rest Hb Hq Hf) as H. cbv zeta in H.
    destruct (Z.of_nat (retryCount item) <? retryAttempts (config options)).
    + destruct H as [[msg H1] H2]. split; [| exact H2].
      exists (retried item msg). repeat split. exact H1.
    + exact H.
Qed.

(* ================================================================== *)
(** ** The backoff delay *)

(** *** Rounding to the nearest double keeps the order *)

Lemma inject_Z_lt a b : a < b -> (inject_Z a < inject_Z b)%Q.
Proof. intros H. rewrite <- Zlt_Qlt. exact H. Qed.

Lemma inject_Z_le a b : a <= b -> (inject_Z a <= inject_Z b)%Q.
Proof. intros H. rewrite <- Zle_Qle. exact H. Qed.

Lemma nearestEven_bounds q :
  Qfloor q <= Double.nearestEven q <= Qfloor q + 1.
Proof.
  unfold Double.nearestEven. cbv zeta.
  destruct (q - inject_Z (Qfloor q) ?= 1 # 2)%Q; [destruct (Z.even (Qfloor q)) | |]; lia.
Qed.

Lemma nearestEven_integer n : Double.nearestEven (inject_Z n) = n.
Proof.
  unfold Double.nearestEven. cbv zeta. rewrite Qfloor_Z.
  assert (H : (inject_Z n - inject_Z n ?= 1 # 2)%Q = Lt) by (apply (proj1 (Qlt_alt _ _)); lra).
  rewrite H. reflexivity.
Qed.

Lemma nearestEven_le a b : (a <= b)%Q -> Double.nearestEven a <= Double.nearestEven b.
Proof.
  intros H. pose proof (Qfloor_resp_le _ _ H) as F.
  pose proof (nearestEven_bounds a) as Ba. pose proof (nearestEven_bounds b) as Bb.
  destruct (Z.eq_dec (Qfloor a) (Qfloor b)) as [E | E]; [| lia].
  unfold Double.nearestEven. cbv zeta. rewrite <- E.
  destruct (Qcompare_spec (a - inject_Z (Qfloor a)) (1 # 2)) as [Ca | Ca | Ca];
    destruct (Qcompare_spec (b - inject_Z (Qfloor a)) (1 # 2)) as [Cb | Cb | Cb];
    try (destruct (Z.even (Qfloor a))); try lia; exfalso; lra.
Qed.

Lemma pow2_positive k : (0 < 2 ^ k)%Q.
Proof. apply Qpower_0_lt. reflexivity. Qed.

Lemma pow2_le a b : a <= b -> (2 ^ a <= 2 ^ b)%Q.
Proof. intros H. apply Qpower_le_compat_l; [exact H | discriminate]. Qed.

Lemma pow2_lt_inv a b : (2 ^ a < 2 ^ b)%Q -> a < b.
Proof. intros H. apply (Qpower_lt_compat_l_inv 2); [exact H | reflexivity]. Qed.

Lemma pow2_succ k : (2 ^ (k + 1) == 2 * 2 ^ k)%Q.
Proof. rewrite Qpower_plus by discriminate. change (2 ^ 1)%Q with 2%Q. ring. Qed.

Lemma pow2_pred k : (2 * 2 ^ (k - 1) == 2 ^ k)%Q.
Proof. rewrite <- pow2_succ. replace (k - 1 + 1) with k by lia. reflexivity. Qed.

Lemma pow2_Z k : 0 <= k -> (inject_Z (2 ^ k) == 2 ^ k)%Q.
Proof. intros H. apply (Zpower_Qpower 2 k H). Qed.

Lemma exponent_spec q :
  (0 < q)%Q -> (2 ^ Double.exponent q <= q)%Q /\ (q < 2 ^ (Double.exponent q + 1))%Q.
Proof.
  intros Hq. unfold Double.exponent. cbv zeta.
  set (n := Qnum q). set (d := Zpos (Qden q)).
  assert (Hn : 0 < n).
  { unfold Qlt in Hq. simpl in Hq. unfold n. lia. }
  assert (Hd : 0 < d) by (unfold d; lia).
  pose proof (Z.log2_spec n Hn) as [N1 N2]. pose proof (Z.log2_spec d Hd) as [D1 D2].
  pose proof (Z.log2_nonneg n) as An. pose proof (Z.log2_nonneg d) as Ad.
  set (a := Z.log2 n) in *. set (b := Z.log2 d) in *.
  assert (Eq : (q == inject_Z n / inject_Z d)%Q).
  { unfold n, d. destruct q as [qn qd]. simpl. apply Qmake_Qdiv. }
  assert (Pd : (0 < inject_Z d)%Q) by exact (inject_Z_lt 0 d Hd).
  assert (Ek : (2 ^ (a - b) == 2 ^ a / 2 ^ b)%Q) by (apply Qpower_minus; discriminate).
  pose proof (pow2_positive a) as Pa. pose proof (pow2_positive b) as Pb.
  assert (Na : (2 ^ a <= inject_Z n)%Q).
  { rewrite <- pow2_Z by exact An. rewrite <- Zle_Qle. exact N1. }
  assert (Nb : (inject_Z n < 2 * 2 ^ a)%Q).
  { rewrite <- pow2_succ. rewrite <- pow2_Z by lia. rewrite <- Zlt_Qlt.
    replace (a + 1) with (Z.succ a) by lia. exact N2. }
  assert (Da : (2 ^ b <= inject_Z d)%Q).
  { rewrite <- pow2_Z by exact Ad. rewrite <- Zle_Qle. exact D1. }
  assert (Db : (inject_Z d < 2 * 2 ^ b)%Q).
  { rewrite <- pow2_succ. rewrite <- pow2_Z by lia. rewrite <- Zlt_Qlt.
    replace (b + 1) with (Z.succ b) by lia. exact D2. }
  assert (Up : (q < 2 * 2 ^ (a - b))%Q).
  { rewrite Eq, Ek. apply Qlt_shift_div_r; [exact Pd |].
    apply Qlt_le_trans with (2 * 2 ^ a)%Q; [exact Nb |].
    setoid_replace (2 * (2 ^ a / 2 ^ b) * inject_Z d)%Q
      with (2 * 2 ^ a * (inject_Z d / 2 ^ b))%Q by (field; lra).
    assert (1 <= inject_Z d / 2 ^ b)%Q by (apply Qle_shift_div_l; [exact Pb | lra]).
    nra. }
  assert (Lo : (2 ^ (a - b) < 2 * q)%Q).
  { rewrite Eq, Ek. apply Qlt_shift_div_r; [exact Pb |].
    setoid_replace (2 * (inject_Z n / inject_Z d) * 2 ^ b)%Q
      with (inject_Z n * (2 * 2 ^ b / inject_Z d))%Q by (field; lra).
    assert (1 < 2 * 2 ^ b / inject_Z d)%Q by (apply Qlt_shift_div_l; [exact Pd | lra]).
    nra. }
  destruct (Qle_bool (2 ^ (a - b)) q) eqn:C.
  - apply Qle_bool_iff in C. split; [exact C |]. rewrite pow2_succ. exact Up.
  - assert (C' : (q < 2 ^ (a - b))%Q).
    { apply Qnot_le_lt. intros K. apply Qle_bool_iff in K. congruence. }
    split.
    + pose proof (pow2_pred (a - b)). lra.
    + replace (a - b - 1 + 1) with (a - b) by lia. exact C'.
Qed.

Lemma exponent_le x y : (0 < x)%Q -> (x <= y)%Q -> Double.exponent x <= Double.exponent y.
Proof.
  intros Hx H. assert (Hy : (0 < y)%Q) by lra.
  destruct (exponent_spec x Hx) as [X1 _]. destruct (exponent_spec y Hy) as [_ Y2].
  assert (K : (2 ^ Double.exponent x < 2 ^ (Double.exponent y + 1))%Q) by lra.
  apply pow2_lt_inv in K. lia.
Qed.

Lemma roundPositive_nonneg q : (0 < q)%Q -> (0 <= Double.roundPositive q)%Q.
Proof.
  intros Hq. unfold Double.roundPositive. cbv zeta.
  set (u := (2 ^ Z.max (Double.exponent q - 52) (-1074))%Q).
  assert (Pu : (0 < u)%Q) by apply pow2_positive.
  assert (0 <= Double.nearestEven (q / u)).
  { pose proof (nearestEven_bounds (q / u)) as [B _].
    assert (0 <= Qfloor (q / u)).
    { rewrite <- (Qfloor_Z 0). apply Qfloor_resp_le. apply Qle_shift_div_l; [exact Pu | change (inject_Z 0) with 0%Q; lra]. }
    lia. }
  assert (0 <= inject_Z (Double.nearestEven (q / u)))%Q by exact (inject_Z_le 0 _ H).
  nra.
Qed.

(** A positive number in the normal range rounds to no less than the power
    of two below it. *)
Lemma roundPositive_lower q :
  (0 < q)%Q -> -1074 <= Double.exponent q - 52 ->
  (2 ^ Double.exponent q <= Double.roundPositive q)%Q.
Proof.
  intros Hq Hn. unfold Double.roundPositive. cbv zeta.
  destruct (exponent_spec q Hq) as [E1 _].
  set (e := Double.exponent q) in *.
  replace (Z.max (e - 52) (-1074)) with (e - 52) by lia.
  pose proof (pow2_positive (e - 52)) as Pu.
  assert (S : (2 ^ e == inject_Z (2 ^ 52) * 2 ^ (e - 52))%Q).
  { rewrite pow2_Z by lia. rewrite <- Qpower_plus by discriminate.
    replace (52 + (e - 52)) with e by lia. reflexivity. }
  rewrite S. apply Qmult_le_compat_r; [| lra].
  rewrite <- Zle_Qle. rewrite <- (nearestEven_integer (2 ^ 52)).
  apply nearestEven_le. apply Qle_shift_div_l; [exact Pu |]. rewrite <- S. exact E1.
Qed.

(** And to no more than the power of two above it, or the smallest double. *)
Lemma roundPositive_upper q :
  (0 < q)%Q ->
  (Double.roundPositive q <= 2 ^ Z.max (Double.exponent q + 1) (-1074))%Q.
Proof.
  intros Hq. unfold Double.roundPositive. cbv zeta.
  destruct (exponent_spec q Hq) as [_ E2].
  set (e := Double.exponent q) in *.
  set (p := Z.max (e - 52) (-1074)).
  pose proof (pow2_positive p) as Pu.
  destruct (Z.le_gt_cases p (e + 1)) as [L | L].
  - replace (Z.max (e + 1) (-1074)) with (e + 1) by lia.
    assert (S : (2 ^ (e + 1) == inject_Z (2 ^ (e + 1 - p)) * 2 ^ p)%Q).
    { rewrite pow2_Z by lia. rewrite <- Qpower_plus by discriminate.
      replace (e + 1 - p + p) with (e + 1) by lia. reflexivity. }
    rewrite S. apply Qmult_le_compat_r; [| lra].
    rewrite <- Zle_Qle. rewrite <- (nearestEven_integer (2 ^ (e + 1 - p))).
    apply nearestEven_le. apply Qle_shift_div_r; [exact Pu |]. rewrite <- S. lra.
  - replace (Z.max (e + 1) (-1074)) with p by lia.
    assert (M : (q / 2 ^ p <= 1)%Q).
    { apply Qle_shift_div_r; [exact Pu |].
      assert (2 ^ (e + 1) <= 2 ^ p)%Q by (apply pow2_le; lia). lra. }
    pose proof (nearestEven_le _ _ M) as N. change 1%Q with (inject_Z 1) in N.
    rewrite nearestEven_integer in N.
    assert (inject_Z (Double.nearestEven (q / 2 ^ p)) <= 1)%Q
      by exact (inject_Z_le _ 1 N).
    nra.
Qed.

Lemma roundPositive_le x y :
  (0 < x)%Q -> (x <= y)%Q -> (Double.roundPositive x <= Double.roundPositive y)%Q.
Proof.
  intros Hx H. assert (Hy : (0 < y)%Q) by lra.
  pose proof (exponent_le x y Hx H) as E.
  destruct (Z.eq_dec (Z.max (Double.exponent x - 52) (-1074))
                     (Z.max (Double.exponent y - 52) (-1074))) as [P | P].
  - unfold Double.roundPositive. cbv zeta. rewrite P.
    set (u := (2 ^ Z.max (Double.exponent y - 52) (-1074))%Q).
    assert (Pu : (0 < u)%Q) by apply pow2_positive.
    apply Qmult_le_compat_r; [| lra].
    rewrite <- Zle_Qle. apply nearestEven_le.
    apply Qle_shift_div_l; [exact Pu |].
    setoid_replace (x / u * u)%Q with x by (field; lra). exact H.
  - apply Qle_trans with (2 ^ Double.exponent y)%Q.
    + eapply Qle_trans; [apply roundPositive_upper; exact Hx |]. apply pow2_le. lia.
    + apply roundPositive_lower; [exact Hy | lia].
Qed.

(** Rounding keeps the order. *)
Lemma round_le x y : (x <= y)%Q -> (Double.round x <= Double.round y)%Q.
Proof.
  intros H. unfold Double.round.
  destruct (Qcompare_spec x 0) as [X | X | X]; destruct (Qcompare_spec y 0) as [Y | Y | Y];
    try (exfalso; lra); try lra.
  - apply roundPositive_nonneg. exact Y.
  - assert (0 <= Double.roundPositive (- x))%Q by (apply roundPositive_nonneg; lra). lra.
  - assert (Double.roundPositive (- y) <= Double.roundPositive (- x))%Q
      by (apply roundPositive_le; lra).
    lra.
  - assert (0 <= Double.roundPositive (- x))%Q by (apply roundPositive_nonneg; lra).
    assert (0 <= Double.roundPositive y)%Q by (apply roundPositive_nonneg; lra). lra.
  - apply roundPositive_le; assumption.
Qed.

(** *** The jitter *)

Lemma unjitteredDelay_values n :
  In (unjitteredDelay n) [5000; 10000; 20000; 40000; 80000; 160000; 300000].
Proof.
  do 6 (destruct n as [| n]; [vm_compute; tauto |]).
  do 6 right. left.
  unfold unjitteredDelay, EXPONENTIAL_BACKOFF_BASE_MS, EXPONENTIAL_BACKOFF_MAX_MS.
  assert (P : 2 ^ 6 <= 2 ^ Z.of_nat (S (S (S (S (S (S n)))))))
    by (apply Z.pow_le_mono_r; lia).
  change (2 ^ 6) with 64 in P. lia.
Qed.

Lemma round_at_most x y bound :
  (Double.round y == bound)%Q -> (x <= y)%Q -> (Double.round x <= bound)%Q.
Proof. intros E H. rewrite <- E. apply round_le. exact H. Qed.

Lemma round_at_least x y bound :
  (Double.round y == bound)%Q -> (y <= x)%Q -> (bound <= Double.round x)%Q.
Proof. intros E H. rewrite <- E. apply round_le. exact H. Qed.

(** The jitter of a delay of ten times [tenth], of which the fifth is
    computed without error. *)
Lemma jitter_within_a_tenth (tenth : Z) (rnd : Q) :
  (Double.mul (inject_Z (10 * tenth)) (Double.round (2 # 10)) == inject_Z (2 * tenth))%Q ->
  (Double.round (inject_Z (2 * tenth) * (1 # 2)) == inject_Z tenth)%Q ->
  (Double.round (inject_Z (2 * tenth) * - (1 # 2)) == - inject_Z tenth)%Q ->
  (Double.round (inject_Z (10 * tenth) + inject_Z tenth) == inject_Z (11 * tenth))%Q ->
  (Double.round (inject_Z (10 * tenth) + - inject_Z tenth) == inject_Z (9 * tenth))%Q ->
  0 <= tenth -> (0 <= rnd)%Q -> (rnd < 1)%Q ->
  9 * tenth
  <= Qfloor (Double.add (inject_Z (10 * tenth))
               (Double.mul (Double.mul (inject_Z (10 * tenth)) (Double.round (2 # 10)))
                           (Double.sub rnd (1 # 2))))
  <= 11 * tenth.
Proof.
  intros Hfifth Hup Hdown Hmost Hleast Ht H0 H1.
  assert (Hh : (- (1 # 2) <= Double.sub rnd (1 # 2) <= 1 # 2)%Q).
  { unfold Double.sub. split.
    - apply (round_at_least _ (- (1 # 2))); [vm_compute; reflexivity | lra].
    - apply (round_at_most _ (1 # 2)); [vm_compute; reflexivity | lra]. }
  set (h := Double.sub rnd (1 # 2)) in *.
  set (fifth := Double.mul (inject_Z (10 * tenth)) (Double.round (2 # 10))) in *.
  assert (Pf : (0 <= inject_Z (2 * tenth))%Q) by (apply (inject_Z_le 0); lia).
  assert (Hj : (- inject_Z tenth <= Double.mul fifth h <= inject_Z tenth)%Q).
  { unfold Double.mul at 1 2. split.
    - apply (round_at_least _ _ _ Hdown). rewrite Hfifth. nra.
    - apply (round_at_most _ _ _ Hup). rewrite Hfifth. nra. }
  set (jitter := Double.mul fifth h) in *.
  assert (Hs : (inject_Z (9 * tenth) <= Double.add (inject_Z (10 * tenth)) jitter
                <= inject_Z (11 * tenth))%Q).
  { unfold Double.add. split.
    - apply (round_at_least _ _ _ Hleast). lra.
    - apply (round_at_most _ _ _ Hmost). lra. }
  split.
  - rewrite <- (Qfloor_Z (9 * tenth)). apply Qfloor_resp_le. exact (proj1 Hs).
  - rewrite <- (Qfloor_Z (11 * tenth)). apply Qfloor_resp_le. exact (proj2 Hs).
Qed.

(** C6, as the code has it: the delay before jitter is
    [min (5000 * 2 ^ retryCount) 300000], and as [Math.random()] ranges over
    its domain the delay returned stays between 90% and 110% of it, both
    ends included (the largest random number gives 110% after rounding); it
    is exactly 90% when the random number is 0. The jitter term is
    [delay * 0.2 * (random - 0.5)], one tenth of the delay at most. *)
Theorem backoff_jitter_is_one_tenth (retryCount : nat) (rnd : Q) :
  (0 <= rnd)%Q -> (rnd < 1)%Q ->
  unjitteredDelay retryCount = Z.min (5000 * 2 ^ Z.of_nat retryCount) 300000 /\
  9 * unjitteredDelay retryCount <= 10 * backoffDelay retryCount rnd /\
  10 * backoffDelay retryCount rnd <= 11 * unjitteredDelay retryCount /\
  10 * backoffDelay retryCount 0 = 9 * unjitteredDelay retryCount.
Proof.
  intros H0 H1. split; [reflexivity |].
  unfold backoffDelay. cbv zeta.
  assert (T : exists tenth,
             unjitteredDelay retryCount = 10 * tenth /\
             In tenth [500; 1000; 2000; 4000; 8000; 16000; 30000]).
  { destruct (unjitteredDelay_values retryCount) as [E | [E | [E | [E | [E | [E | [E | []]]]]]]];
      [exists 500 | exists 1000 | exists 2000 | exists 4000 | exists 8000 | exists 16000
       | exists 30000];
      (split; [rewrite <- E; reflexivity | simpl; tauto]). }
  destruct T as [tenth [E Hin]]. rewrite E.
  assert (B : forall r, (0 <= r)%Q -> (r < 1)%Q ->
              9 * tenth
              <= Qfloor (Double.add (inject_Z (10 * tenth))
                           (Double.mul (Double.mul (inject_Z (10 * tenth))
                                                   (Double.round (2 # 10)))
                                       (Double.sub r (1 # 2))))
              <= 11 * tenth).
  { intros r R0 R1.
    destruct Hin as [<- | [<- | [<- | [<- | [<- | [<- | [<- | []]]]]]]];
      (apply jitter_within_a_tenth; [vm_compute; reflexivity .. | lia | exact R0 | exact R1]). }
  split; [| split].
  - pose proof (B rnd H0 H1). lia.
  - pose proof (B rnd H0 H1). lia.
  - destruct Hin as [<- | [<- | [<- | [<- | [<- | [<- | [<- | []]]]]]]]; vm_compute; reflexivity.
Qed.

(* ================================================================== *)
(** ** Publishing *)

(** C7, as the code has it. When publishing fails after a generation, the
    publish phase returns, and exactly one entry goes to the history: its
    action is [error] and its message says that the content was generated and
    the publishing failed; but the entry carries no content snapshot (the
    [generatedContent] prepared by the generation phase is not handed to the
    publish phase). *)
Theorem publish_failure_recorded_without_snapshot
    (item : GodModeQueueItem) (c : GeneratedContent) (processingTime quality : Z)
    (e : Engine) :
  publishFails env options e item c ->
  completion (runPublishPhase env options item (Some c) processingTime quality) e
    = Returned tt /\
  publishFailureRecorded (emitted e) item quality
    (after (runPublishPhase env options item (Some c) processingTime quality) e).
Proof.
  unfold publishFails, credentialsMissing, publishFailureRecorded, runPublishPhase, addToHistory.
  cbv zeta. intros H. step.
  destruct (negb (truthy (wpUrl (getAppConfig env (clock e))))
            || negb (truthy (wpUsername (getAppConfig env (clock e))))
            || negb (truthy (wpAppPassword (getAppConfig env (clock e))))) eqn:C; simpl.
  - split; [reflexivity |]. eexists. split; [new_events |]. simpl.
    eexists. split; [reflexivity |]. repeat split. eexists. reflexivity.
  - destruct H as [H | H]; [discriminate |].
    destruct (settled (wordpressPublish env (publisherCalls e)
                (publishRequest options (getAppConfig env (clock e)) item c)))
      as [response | msg]; simpl.
    + rewrite H. simpl. split; [reflexivity |]. eexists. split; [new_events |]. simpl.
      eexists. split; [reflexivity |]. repeat split. eexists. reflexivity.
    + split; [reflexivity |]. eexists. split; [new_events |]. simpl.
      eexists. split; [reflexivity |]. repeat split. eexists. reflexivity.
Qed.

(* ================================================================== *)
(** ** Priority-only mode *)

Ltac unscanned_step :=
  match goal with
  | H : notScanned ?t ?e |- notScanned ?t _ =>
      let D := fresh "D" in
      destruct H as [H ?]; split;
      [simpl; intros [D | D]; [discriminate D | exact (H D)] | simpl; assumption]
  end.

Ltac unscanned :=
  match goal with
  | |- hoare ?I ?m _ => change (preserves I m)
  | |- preserves _ _ => idtac
  end;
  keeps; try unscanned_step.

Section PriorityOnly.
Hypothesis priorityOnly : priorityOnlyMode options = true.
Variable t0 : option Z.

Lemma performAll_unscanned cs : preserves (notScanned t0) (performAll cs).
Proof.
  induction cs as [| c cs IH]; simpl; [keeps |].
  apply preserves_bind; [| intros _; exact IH].
  destruct c; simpl; unscanned.
Qed.

Lemma deliver_unscanned : preserves (notScanned t0) (deliver env).
Proof.
  pose proof performAll_unscanned. unfold deliver. unscanned.
Qed.

Lemma qualityPasses_unscanned turns kw mx p :
  preserves (notScanned t0) (qualityPasses env turns kw mx p).
Proof.
  revert p. induction turns as [| n IH]; intros p; simpl; unscanned.
Qed.

Lemma runGenerationPhase_unscanned :
  preserves (notScanned t0) (runGenerationPhase env options).
Proof.
  pose proof qualityPasses_unscanned.
  unfold runGenerationPhase, generateItem. unscanned.
Qed.

Lemma cycle_unscanned : preserves (notScanned t0) (cycle env options).
Proof.
  pose proof runGenerationPhase_unscanned.
  unfold cycle. rewrite priorityOnly. unscanned.
Qed.

Lemma mainLoop_unscanned turns : preserves (notScanned t0) (mainLoop env options turns).
Proof.
  pose proof cycle_unscanned. pose proof deliver_unscanned.
  induction turns as [| n IH]; simpl; [keeps |].
  unfold cycleFailed. unscanned.
Qed.

Lemma enqueuePriorityUrls_unscanned l counts :
  preserves (notScanned t0) (enqueuePriorityUrls env options l counts).
Proof.
  revert counts. induction l as [| p l IH]; intros counts; simpl; unscanned.
Qed.

Lemma start_unscanned turns : preserves (notScanned t0) (start env options turns).
Proof.
  pose proof (mainLoop_unscanned turns). pose proof enqueuePriorityUrls_unscanned.
  unfold start, initializePriorityQueue. unscanned.
Qed.

Lemma runScanPhase_guarded e :
  runScanPhase options e =
  (Returned tt,
   set_emitted (onActivity warning "Priority Only Mode Active"
                :: entered m_runScanPhase :: emitted e) e).
Proof. unfold runScanPhase. rewrite priorityOnly. reflexivity. Qed.

End PriorityOnly.

(** C8. In priority-only mode the main loop never calls the scan procedure,
    however many turns it takes and whatever is answered to it, and neither
    does [start]; the time of the last scan stays what it was. The scan
    procedure itself, were it called in that mode, returns at once: it emits
    a warning and nothing else, and changes nothing in the engine. *)
Theorem priority_only_mode_never_scans (e : Engine) (turns : nat) :
  priorityOnlyMode options = true ->
  (~ In (entered m_runScanPhase) (emitted e) ->
   ~ In (entered m_runScanPhase) (emitted (after (mainLoop env options turns) e)) /\
   lastScanTime (after (mainLoop env options turns) e) = lastScanTime e /\
   ~ In (entered m_runScanPhase) (emitted (after (start env options turns) e)) /\
   lastScanTime (after (start env options turns) e) = lastScanTime e) /\
  runScanPhase options e =
  (Returned tt,
   set_emitted (onActivity warning "Priority Only Mode Active"
                :: entered m_runScanPhase :: emitted e) e).
Proof.
  intros Hp. split; [| apply runScanPhase_guarded; exact Hp].
  intros Hn.
  assert (H0 : notScanned (lastScanTime e) e) by (split; [exact Hn | reflexivity]).
  destruct (mainLoop_unscanned Hp (lastScanTime e) turns e H0) as [H1 H2].
  destruct (start_unscanned Hp (lastScanTime e) turns e H0) as [H3 H4].
  repeat split; assumption.
Qed.

(* ================================================================== *)
(** ** Start *)

Lemma cycle_returns : returns (cycle env options).
Proof. unfold cycle. returning. Qed.

Lemma mainLoop_returns turns : returns (mainLoop env options turns).
Proof.
  pose proof cycle_returns.
  induction turns as [| n IH]; simpl; [returning |].
  unfold cycleFailed. returning.
Qed.

(** C9. [start] on an engine that is not running, in priority-only mode with
    an empty priority list, throws the configuration error and leaves the
    engine exactly as it was: not running, nothing logged, no state touched.
    With a priority list that is not empty, or outside priority-only mode,
    [start] does not throw. *)
Theorem start_requires_priority_urls (e : Engine) (turns : nat) :
  isRunning e = false ->
  (priorityOnlyMode options = true -> priorityUrls options = [] ->
   start env options turns e =
   (Thrown "Priority Only Mode requires at least one URL in the Priority Queue. Add URLs to your priority queue first.",
    e)) /\
  (priorityOnlyMode options = false \/ priorityUrls options <> [] ->
   exists p, completion (start env options turns) e = Returned p).
Proof.
  intros Hr. split.
  - intros Hp Hl. unfold start.
    rewrite (bind_run this _ e e e eq_refl). rewrite Hr, Hp, Hl.
    reflexivity.
  - intros H.
    assert (G : returns
      ((if priorityOnlyMode options
        then if (List.length (priorityUrls options) =? 0)%nat
             then throw "Priority Only Mode requires at least one URL in the Priority Queue. Add URLs to your priority queue first."
             else log info "PRIORITY ONLY MODE ENABLED"
        else ret tt) : M unit)).
    { destruct H as [H | H].
      - rewrite H. returning.
      - destruct (priorityUrls options) as [| p l]; [congruence |]. simpl.
        destruct (priorityOnlyMode options); returning. }
    pose proof (mainLoop_returns turns).
    unfold start. rewrite completion_this_bind. rewrite Hr.
    apply returns_bind; [exact G | intros _].
    unfold initializeOrchestrator. returning.
Qed.

(* ================================================================== *)
(** ** The scoring phase *)

Ltac analysed_step :=
  match goal with
  | H : analyzedSince ?b ?n ?q ?a ?e |- analyzedSince ?b ?n ?q ?a _ =>
      let H1 := fresh "H1" in
      let new := fresh "new" in
      let E := fresh "E" in
      let H2 := fresh "H2" in
      let H3 := fresh "H3" in
      destruct H as [H1 [[new [E H2]] H3]]; split;
      [exact H1
      | split;
        [first [ exists new; split; [exact E | exact H2]
               | eexists (_ :: new); simpl; rewrite E; split; [reflexivity | exact H2] ]
        | exact H3]]
  end.

Ltac analysed :=
  match goal with
  | |- hoare ?I ?m _ => change (preserves I m)
  | |- preserves _ _ => idtac
  end;
  keeps; try analysed_step.

Section Scoring.
Variable base : list Event.
Variable n0 : nat.
Variable q0 : list GodModeQueueItem.

Lemma performAll_analysed a cs : preserves (analyzedSince base n0 q0 a) (performAll cs).
Proof.
  induction cs as [| c cs IH]; simpl; [keeps |].
  apply preserves_bind; [| intros _; exact IH].
  destruct c; simpl; analysed.
Qed.

Lemma sleep_analysed a ms : preserves (analyzedSince base n0 q0 a) (sleep ms).
Proof. analysed. Qed.

Lemma deliver_analysed a : preserves (analyzedSince base n0 q0 a) (deliver env).
Proof. pose proof (performAll_analysed a). unfold deliver. analysed. Qed.

Lemma scoreOne_analysed u a :
  hoare (analyzedSince base n0 q0 a) (scoreOne env options u)
        (analyzedSince base n0 q0 (u :: a)).
Proof.
  unfold scoreOne.
  apply (hoare_bind _ (analyzedSince base n0 q0 a)); [returning | analysed | intros _].
  apply (hoare_tryCatch _ (analyzedSince base n0 q0 (u :: a)));
    [| intros e He; exact He | intros msg; analysed].
  apply hoare_this. intros e0 [H1 [[new [E H2]] H3]].
  rewrite (after_bind _ _ e0 tt) by reflexivity.
  rewrite (after_bind _ _ _ tt) by reflexivity.
  match goal with |- _ (after _ ?x) =>
    assert (G : analyzedSince base n0 q0 (u :: a) x)
  end.
  { split; [| split].
    - simpl. rewrite H1. lia.
    - exists (analyzePage_called u :: new). simpl. rewrite E, H2. split; reflexivity.
    - intros it Hit. simpl in Hit. destruct (H3 it Hit) as [H | H]; [left | right; right];
        exact H. }
  revert G.
  match goal with |- _ ?x -> _ (after ?m ?x) => generalize x; change (preserves
    (analyzedSince base n0 q0 (u :: a)) m) end.
  apply preserves_bind; [analysed | intros score].
  apply preserves_this_bind. intros e1 He1.
  destruct ((score <? minHealthScore (config options)) && negb (queued u e1)); cbn [when].
  - rewrite (after_bind _ _ e1 tt).
    + apply (sleep_analysed). 
      destruct He1 as [H1' [[new' [E' H2']] H3']].
      step. split; [exact H1' | split].
      * eexists (_ :: new'). simpl. rewrite E'. split; [reflexivity | exact H2'].
      * intros it Hit. apply in_app_or in Hit. destruct Hit as [Hit | [<- | []]].
        -- apply H3'. exact Hit.
        -- right. left. reflexivity.
    + reflexivity.
  - rewrite (after_bind _ _ e1 tt) by reflexivity. apply sleep_analysed. exact He1.
Qed.

Lemma scoreLoop_analysed urls : forall a,
  hoare (analyzedSince base n0 q0 a) (scoreLoop env options urls)
        (fun e' => exists done rest, urls = done ++ rest /\
                                     analyzedSince base n0 q0 (rev done ++ a) e').
Proof.
  induction urls as [| u urls IH]; intros a; simpl.
  - intros e He. exists [], []. split; [reflexivity | exact He].
  - apply (hoare_bind _ (analyzedSince base n0 q0 a));
      [returning | apply deliver_analysed | intros _].
    apply (hoare_bind _ (analyzedSince base n0 q0 a)); [returning | analysed | intros e0].
    destruct (aborted e0 || isPaused e0).
    + intros e He. exists [], (u :: urls). split; [reflexivity | exact He].
    + apply (hoare_bind _ (analyzedSince base n0 q0 (u :: a)));
        [returning | apply scoreOne_analysed | intros _].
      intros e He. destruct (IH (u :: a) e He) as [done [rest [Hd Ha]]].
      exists (u :: done), rest. split; [simpl; rewrite Hd; reflexivity |].
      simpl. rewrite <- app_assoc. exact Ha.
Qed.

Lemma runScoringPhase_analysed :
  hoare (analyzedSince base n0 q0 [])
        (runScoringPhase env options)
        (fun e' => exists done rest, urlsToAnalyze env options = done ++ rest /\
                                     analyzedSince base n0 q0 (rev done) e').
Proof.
  unfold runScoringPhase.
  apply (hoare_bind _ (analyzedSince base n0 q0 [])); [returning | analysed | intros _].
  apply (hoare_bind _ (analyzedSince base n0 q0 [])); [returning | analysed | intros _].
  destruct (List.length (filteredUrls env options) =? 0)%nat.
  - apply (hoare_weaken _ (analyzedSince base n0 q0 [])); [analysed |].
    intros e He. exists [], (urlsToAnalyze env options). split; [reflexivity | exact He].
  - apply (hoare_bind _ (analyzedSince base n0 q0 [])); [returning | analysed | intros _].
    apply (hoare_bind _ (fun e' => exists done rest,
             urlsToAnalyze env options = done ++ rest /\
             analyzedSince base n0 q0 (rev done) e')).
    + returning.
    + eapply hoare_weaken; [apply scoreLoop_analysed |].
      intros e [done [rest [Hd Ha]]]. exists done, rest. rewrite app_nil_r in Ha.
      split; assumption.
    + intros _. intros e [done [rest [Hd Ha]]]. exists done, rest. split; [exact Hd |].
      revert e Ha.
      match goal with |- forall e, _ e -> _ (after ?m e) =>
        change (hoare (analyzedSince base n0 q0 (rev done)) m
                      (analyzedSince base n0 q0 (rev done)))
      end.
      apply (hoare_bind _ (analyzedSince base n0 q0 (rev done))); [returning | | intros _].
      * intros e [H1 [H2 H3]]. step. split; [exact H1 | split; [exact H2 |]].
        intros it Hit. apply H3.
        apply (Permutation_in it (Permutation_sym (sortItems_perm (queue e)))). exact Hit.
      * analysed.
Qed.

End Scoring.

(** C10. One run of the scoring phase analyses only URLs among the first 20
    of the candidates that are not excluded, in their order, each once: the
    analysed URLs are a prefix of that list of at most 20, the analyser is
    called once for each of them and no more, and every item that the phase
    adds to the queue is for one of them. What comes after the first 20 is
    neither analysed nor queued in that run. *)
Theorem scoring_analyzes_first_twenty (e : Engine) :
  let e' := after (runScoringPhase env options) e in
  urlsToAnalyze env options = firstn 20 (filteredUrls env options) /\
  (List.length (urlsToAnalyze env options) <= 20)%nat /\
  exists analyzed rest,
    urlsToAnalyze env options = analyzed ++ rest /\
    analyzerCalls e' = (analyzerCalls e + List.length analyzed)%nat /\
    (exists new, emitted e' = new ++ emitted e /\ rev (analyzedUrls new) = analyzed) /\
    (forall it, In it (queue e') -> In it (queue e) \/ In (url it) analyzed).
Proof.
  cbv zeta. split; [reflexivity |]. split; [apply firstn_le_length |].
  assert (H0 : analyzedSince (emitted e) (analyzerCalls e) (queue e) [] e).
  { split; [simpl; lia | split].
    - exists []. split; reflexivity.
    - intros it Hit. left. exact Hit. }
  destruct (runScoringPhase_analysed (emitted e) (analyzerCalls e) (queue e) e H0)
    as [done [rest [Hd [H1 [[new [E H2]] H3]]]]].
  exists done, rest. split; [exact Hd |]. split; [| split].
  - rewrite H1, length_rev. reflexivity.
  - exists new. split; [exact E |]. rewrite H2. apply rev_involutive.
  - intros it Hit. destruct (H3 it Hit) as [H | H]; [left; exact H |].
    right. apply in_rev. exact H.
Qed.

(* ================================================================== *)
(** ** Properties that every method keeps

    [I] is a property of the engine that the updates made by the methods
    keep, each hypothesis covering one kind of update. *)

Section Invariants.
Variable I : Engine -> Prop.
Hypothesis I_emitted : forall l, closedUnder I (set_emitted l).
Hypothesis I_clock : forall t, closedUnder I (set_clock t).
Hypothesis I_uuids : forall n, closedUnder I (set_uuids n).
Hypothesis I_analyzerCalls : forall n, closedUnder I (set_analyzerCalls n).
Hypothesis I_generatorCalls : forall n, closedUnder I (set_generatorCalls n).
Hypothesis I_publisherCalls : forall n, closedUnder I (set_publisherCalls n).
Hypothesis I_randomDraws : forall n, closedUnder I (set_randomDraws n).
Hypothesis I_deliveries : forall n, closedUnder I (set_deliveries n).
Hypothesis I_queue : forall q, closedUnder I (set_queue q).
Hypothesis I_processedToday : forall n, closedUnder I (set_processedToday n).
Hypothesis I_cycleCount : forall n, closedUnder I (set_cycleCount n).
Hypothesis I_lastScanTime : forall t, closedUnder I (set_lastScanTime t).
Hypothesis I_orchestrator : forall o, closedUnder I (set_orchestrator o).
Hypothesis I_isRunning : closedUnder I (set_isRunning true).
Hypothesis I_isPaused : closedUnder I (set_isPaused false).
Hypothesis I_abortController : closedUnder I (set_abortController (Some false)).
Hypothesis I_recordSuccess : forall q t, preserves I (recordSuccess q t).
Hypothesis I_recordFailure : preserves I recordFailure.
Hypothesis I_isCircuitBroken : preserves I isCircuitBroken.
Hypothesis I_perform : forall c, preserves I (perform c).

Ltac closing :=
  keeps;
  try match goal with
      | H : I ?e |- I (_ _ ?e) =>
          first [ apply I_emitted | apply I_clock | apply I_uuids | apply I_analyzerCalls
                | apply I_generatorCalls | apply I_publisherCalls | apply I_randomDraws
                | apply I_deliveries | apply I_queue | apply I_processedToday
                | apply I_cycleCount | apply I_lastScanTime | apply I_orchestrator ];
          exact H
      | H : I ?e |- I (_ ?e) =>
          first [ apply I_isRunning | apply I_isPaused | apply I_abortController ]; exact H
      end.

Lemma callGenerator_closed kw : preserves I (callGenerator env kw).
Proof. unfold callGenerator. closing. Qed.

Lemma qualityPasses_closed turns kw mx p : preserves I (qualityPasses env turns kw mx p).
Proof.
  pose proof callGenerator_closed.
  revert p. induction turns as [| n IH]; intros p; simpl; closing.
Qed.

Lemma runPublishPhase_closed item c t q :
  preserves I (runPublishPhase env options item c t q).
Proof. unfold runPublishPhase. closing. Qed.

Lemma generateItem_closed item t b : preserves I (generateItem env options item t b).
Proof.
  pose proof qualityPasses_closed. pose proof runPublishPhase_closed.
  unfold generateItem, afterPasses. closing.
Qed.

Lemma generationFailed_closed item t msg :
  preserves I (generationFailed env options item t msg).
Proof. unfold generationFailed, calculateBackoffDelay. closing. Qed.

Lemma runGenerationPhase_closed : preserves I (runGenerationPhase env options).
Proof.
  pose proof generateItem_closed. pose proof generationFailed_closed.
  unfold runGenerationPhase. closing.
Qed.

Lemma runScanPhase_closed : preserves I (runScanPhase options).
Proof. unfold runScanPhase. closing. Qed.

Lemma performAll_closed cs : preserves I (performAll cs).
Proof. induction cs as [| c cs IH]; simpl; closing. Qed.

Lemma deliver_closed : preserves I (deliver env).
Proof. pose proof performAll_closed. unfold deliver. closing. Qed.

Lemma scoreOne_closed u : preserves I (scoreOne env options u).
Proof. unfold scoreOne. closing. Qed.

Lemma scoreLoop_closed urls : preserves I (scoreLoop env options urls).
Proof.
  pose proof deliver_closed. pose proof scoreOne_closed.
  induction urls as [| u urls IH]; simpl; closing.
Qed.

Lemma runScoringPhase_closed : preserves I (runScoringPhase env options).
Proof. pose proof scoreLoop_closed. unfold runScoringPhase. closing. Qed.

Lemma cycle_closed : preserves I (cycle env options).
Proof.
  pose proof runGenerationPhase_closed. pose proof runScoringPhase_closed.
  pose proof runScanPhase_closed. pose proof (I_perform call_stop) as Hstop.
  change (perform call_stop) with stop in Hstop.
  unfold cycle. closing.
Qed.

Lemma mainLoop_closed turns : preserves I (mainLoop env options turns).
Proof.
  pose proof cycle_closed. pose proof deliver_closed.
  induction turns as [| n IH]; simpl; [keeps |].
  unfold cycleFailed. closing.
Qed.

Lemma enqueuePriorityUrls_closed l counts :
  preserves I (enqueuePriorityUrls env options l counts).
Proof. revert counts. induction l as [| p l IH]; intros counts; simpl; closing. Qed.

Lemma initializePriorityQueue_closed : preserves I (initializePriorityQueue env options).
Proof.
  pose proof enqueuePriorityUrls_closed. unfold initializePriorityQueue. closing.
Qed.

Lemma start_closed turns : preserves I (start env options turns).
Proof.
  pose proof (mainLoop_closed turns). pose proof initializePriorityQueue_closed.
  unfold start, initializeOrchestrator. closing.
Qed.

End Invariants.

(* ================================================================== *)
(** ** The abort signal *)

Lemma perform_unaborted c : preserves (fun e => aborted e = false) (perform c).
Proof. destruct c; simpl; unfold pause, resume, stop; keeps. Qed.

Lemma recordSuccess_fields (P : Engine -> Prop) q t :
  (forall e n l1 l2, P e ->
     P (set_processingTimeHistory l2 (set_qualityScoreHistory l1 (set_consecutiveFailures n e)))) ->
  preserves P (recordSuccess q t).
Proof. intros H e He. unfold recordSuccess. step. apply (H e 0%nat). exact He. Qed.

Lemma recordFailure_fields (P : Engine -> Prop) :
  (forall e l, P e -> P (set_emitted l e)) ->
  (forall e n, P e -> P (set_consecutiveFailures n e)) ->
  (forall e t, P e -> P (set_circuitBrokenUntil t e)) ->
  preserves P recordFailure.
Proof. intros H1 H2 H3. unfold recordFailure. keeps; auto. Qed.

Lemma isCircuitBroken_fields (P : Engine -> Prop) :
  (forall e l, P e -> P (set_emitted l e)) ->
  (forall e n, P e -> P (set_consecutiveFailures n e)) ->
  (forall e t, P e -> P (set_circuitBrokenUntil t e)) ->
  preserves P isCircuitBroken.
Proof. intros H1 H2 H3. unfold isCircuitBroken. keeps; auto. Qed.

(** X1. The abort signal is never seen as aborted. [stop] aborts the
    controller and then sets the field to [null], so that
    [this.abortController?.signal.aborted] reads as false after [stop]; and
    from an engine on which it reads as false it still does after every call
    of [pause], [resume] and [stop], after the scoring loop, after any
    number of turns of the main loop and after [start], which installs a new
    controller. *)
Theorem abort_signal_is_never_observed (e : Engine) (turns : nat) (urls : list string) :
  aborted (after stop e) = false /\
  (aborted e = false ->
   (forall c, aborted (after (perform c) e) = false) /\
   aborted (after (scoreLoop env options urls) e) = false /\
   aborted (after (mainLoop env options turns) e) = false /\
   aborted (after (start env options turns) e) = false).
Proof.
  split.
  - reflexivity.
  - intros A.
    assert (S : forall q t, preserves (fun e => aborted e = false) (recordSuccess q t)).
    { intros q t. apply recordSuccess_fields. intros x n l1 l2 H. exact H. }
    assert (F : preserves (fun e => aborted e = false) recordFailure).
    { apply recordFailure_fields; intros; assumption. }
    assert (B : preserves (fun e => aborted e = false) isCircuitBroken).
    { apply isCircuitBroken_fields; intros; assumption. }
    split; [| split; [| split]].
    + intros c. apply (perform_unaborted c e A).
    + apply (scoreLoop_closed (fun e => aborted e = false)); try exact A;
        try (intros ? ? H; exact H); try apply perform_unaborted.
    + apply (mainLoop_closed (fun e => aborted e = false)); try exact A; try exact S;
        try exact F; try exact B;
        try (intros ? ? H; exact H); try (intros ? H; exact H); try apply perform_unaborted.
    + apply (start_closed (fun e => aborted e = false)); try exact A; try exact S;
        try exact F; try exact B;
        try (intros ? ? H; exact H); try (intros ? H; exact H); try apply perform_unaborted;
        try (intros ? ?; reflexivity).
Qed.

(* ================================================================== *)
(** ** Returns and throws *)

Lemma outcome_bind {A B} (P : Engine -> Prop) (R : A -> Engine -> Prop)
    (QR : B -> Engine -> Prop) (QT : string -> Engine -> Prop) (m : M A) (k : A -> M B) :
  outcome P m R QT -> (forall a, outcome (R a) (k a) QR QT) -> outcome P (bind m k) QR QT.
Proof.
  intros Hm Hk e He. specialize (Hm e He). unfold bind.
  destruct (m e) as [[a | msg] e1]; [apply Hk; exact Hm | exact Hm].
Qed.

Lemma outcome_tryCatch {A} (P : Engine -> Prop) (R : string -> Engine -> Prop)
    (QR : A -> Engine -> Prop) (QT : string -> Engine -> Prop)
    (m : M A) (h : string -> M A) :
  outcome P m QR R -> (forall msg, outcome (R msg) (h msg) QR QT) ->
  outcome P (tryCatch m h) QR QT.
Proof.
  intros Hm Hh e He. specialize (Hm e He). unfold tryCatch.
  destruct (m e) as [[a | msg] e1]; [exact Hm | apply Hh; exact Hm].
Qed.

Lemma outcome_kept {A} (I : Engine -> Prop) (m : M A) :
  preserves I m -> outcome I m (fun _ => I) (fun _ => I).
Proof.
  intros H e He. specialize (H e He). unfold after in H.
  destruct (m e) as [[a | msg] e1]; exact H.
Qed.

Lemma outcome_keep {A B} (I : Engine -> Prop) (QR : B -> Engine -> Prop)
    (QT : string -> Engine -> Prop) (m : M A) (k : A -> M B) :
  preserves I m -> (forall e, I e -> forall msg, QT msg e) ->
  (forall a, outcome I (k a) QR QT) -> outcome I (bind m k) QR QT.
Proof.
  intros Hm HT Hk. apply (outcome_bind I (fun _ => I)); [| exact Hk].
  intros e He. specialize (Hm e He). unfold after in Hm.
  destruct (m e) as [[a | msg] e1]; [exact Hm | apply HT; exact Hm].
Qed.

Lemma outcome_this {B} (P : Engine -> Prop) (QR : B -> Engine -> Prop)
    (QT : string -> Engine -> Prop) (k : Engine -> M B) :
  (forall e0, P e0 -> outcome (fun e => e = e0) (k e0) QR QT) ->
  outcome P (bind this k) QR QT.
Proof. intros H e He. unfold bind, this. apply (H e He e eq_refl). Qed.

Lemma outcome_returned {A} (P : Engine -> Prop) (Q : Engine -> Prop)
    (QT : string -> Engine -> Prop) (m : M A) :
  returns m -> hoare P m Q -> outcome P m (fun _ => Q) QT.
Proof.
  intros Hr Hm e He. destruct (Hr e) as [a Ha]. specialize (Hm e He).
  unfold completion, after in *. destruct (m e) as [[x | msg] e1]; simpl in *;
    [exact Hm | discriminate].
Qed.

Lemma outcome_after {A} (P : Engine -> Prop) (Q : Engine -> Prop) (m : M A) :
  outcome P m (fun _ => Q) (fun _ => Q) -> hoare P m Q.
Proof.
  intros H e He. specialize (H e He). unfold after.
  destruct (m e) as [[a | msg] e1]; exact H.
Qed.

(* ================================================================== *)
(** ** The ledger of a generation phase *)

Ltac ledger_step :=
  match goal with
  | H : recordedSince ?b ?hs ?ds ?e |- recordedSince ?b ?hs ?ds _ =>
      let new := fresh "new" in
      let E := fresh "E" in
      let H1 := fresh "H1" in
      let H2 := fresh "H2" in
      destruct H as [new [E [H1 H2]]];
      first [ exists new; split; [exact E | split; [exact H1 | exact H2]]
            | eexists (_ :: new); simpl; rewrite E;
              split; [reflexivity | split; [exact H1 | exact H2]] ]
  end.

Ltac ledger :=
  match goal with
  | |- hoare ?I ?m _ => change (preserves I m)
  | |- preserves _ _ => idtac
  end;
  keeps; try ledger_step.

Lemma qualityPasses_ledger base hs ds turns kw mx p :
  preserves (recordedSince base hs ds) (qualityPasses env turns kw mx p).
Proof. revert p. induction turns as [| n IH]; intros p; simpl; ledger. Qed.

Lemma underWay_world base n rest (f : Engine -> Engine) x :
  queue (f x) = queue x -> processedToday (f x) = processedToday x ->
  emitted (f x) = emitted x ->
  underWay base n rest x -> underWay base n rest (f x).
Proof.
  intros H1 H2 H3 [Hq [Hp [new [E Hr]]]].
  split; [congruence | split; [congruence |]].
  exists new. rewrite H3. split; [exact E | exact Hr].
Qed.

Lemma underWay_quiet base n rest ev x :
  quietEvent ev -> (forall u, ev = onStateUpdate u -> u_stats u = None) ->
  underWay base n rest x -> underWay base n rest (set_emitted (ev :: emitted x) x).
Proof.
  intros Hq Hs [H1 [H2 [new [E [Hh Hd]]]]].
  split; [exact H1 | split; [exact H2 |]].
  exists (ev :: new). simpl. rewrite E. split; [reflexivity |].
  destruct ev as [ty m | u | ms | v | k | r | m]; simpl in *; try contradiction;
    try (split; assumption).
  rewrite Hq, (Hs u eq_refl). split; assumption.
Qed.

Ltac underway_step :=
  match goal with
  | H : underWay ?b ?n ?r ?e |- underWay ?b ?n ?r _ =>
      let Hq := fresh "Hq" in
      let Hp := fresh "Hp" in
      let Hr := fresh "Hr" in
      destruct H as [Hq [Hp Hr]];
      split; [simpl; exact Hq | split; [simpl; exact Hp | ledger_step]]
  end.

Ltac underway :=
  match goal with
  | |- hoare ?I ?m _ => change (preserves I m)
  | |- preserves _ _ => idtac
  end;
  keeps; try underway_step.

Lemma qualityPasses_underWay base n rest turns kw mx p :
  preserves (underWay base n rest) (qualityPasses env turns kw mx p).
Proof. revert p. induction turns as [| k IH]; intros p; simpl; underway. Qed.

(** The events put in front of those of [e], and what they record. *)
Ltac recorded :=
  match goal with
  | E : emitted ?e = ?new ++ ?b, Hh : historyOf ?new = [], Hd : statsOf ?new = []
    |- recordedSince ?b _ _ _ =>
      unfold recordedSince; simpl;
      match goal with
      | |- exists n0, ?l = n0 ++ b /\ _ =>
          let p := prefix_of (emitted e) l in
          exists (p ++ new); rewrite E; split;
          [reflexivity | simpl; rewrite ?Hh, ?Hd; split; reflexivity]
      end
  end.

Lemma afterPasses_settles base n item rest t p :
  outcome (underWay base n rest) (afterPasses env options item t p)
    (fun _ x => exists v, wentThrough v = true /\ settledAs options v base n item rest x)
    (fun _ x => underWay base n rest x).
Proof.
  intros e [Hq [Hp [new [E [Hh Hd]]]]].
  unfold afterPasses, recordSuccess, runPublishPhase, addToHistory, updateStats. step.
  destruct (pass_qualityScore p <? qualityThreshold (config options)) eqn:T; simpl.
  - exists belowThreshold. split; [reflexivity |]. simpl.
    split; [exact Hq | split; [exact Hp |]].
    eexists. exists (pass_qualityScore p). split; [recorded |].
    simpl. repeat split; try discriminate. lia.
  - destruct (autoPublish (config options)) eqn:A; simpl.
    + destruct (pass_content p) as [c |] eqn:C; simpl.
      * destruct (negb (truthy (wpUrl (getAppConfig env (clock e))))
                  || negb (truthy (wpUsername (getAppConfig env (clock e))))
                  || negb (truthy (wpAppPassword (getAppConfig env (clock e))))) eqn:Cr; simpl.
        -- exists publishFailed. split; [reflexivity |]. simpl.
           split; [exact Hq | split; [congruence | split; [exact A |]]].
           eexists. exists (pass_qualityScore p). eexists. split; [recorded |].
           simpl. repeat split. lia.
        -- destruct (settled (wordpressPublish env (publisherCalls e)
                       (publishRequest options (getAppConfig env (clock e)) item c)))
             as [response | msg]; simpl.
           ++ destruct (ok response); simpl.
              ** exists publishedNow. split; [reflexivity |]. simpl.
                 split; [exact Hq | split; [congruence | split; [exact A |]]].
                 eexists. exists (pass_qualityScore p). eexists. split; [recorded |].
                 simpl. repeat split. lia.
              ** exists publishFailed. split; [reflexivity |]. simpl.
                 split; [exact Hq | split; [congruence | split; [exact A |]]].
                 eexists. exists (pass_qualityScore p). eexists. split; [recorded |].
                 simpl. repeat split. lia.
           ++ exists publishFailed. split; [reflexivity |]. simpl.
              split; [exact Hq | split; [congruence | split; [exact A |]]].
              eexists. exists (pass_qualityScore p). eexists. split; [recorded |].
              simpl. repeat split. lia.
      * split; [exact Hq | split; [exact Hp | recorded]].
    + exists keptForReview. split; [reflexivity |]. simpl.
      split; [exact Hq | split; [congruence | split; [exact A |]]].
      eexists. exists (pass_qualityScore p). eexists. split; [recorded |].
      simpl. repeat split; try discriminate. lia.
Qed.

Lemma generateItem_settles base n item rest t b :
  outcome (underWay base n rest) (generateItem env options item t b)
    (fun _ x => exists v, wentThrough v = true /\ settledAs options v base n item rest x)
    (fun _ x => underWay base n rest x).
Proof.
  assert (G : forall mx,
    outcome (underWay base n rest)
      (log info "Starting content generation" ;;
       p <- qualityPasses env mx (extractKeyword env (url item)) mx (mkPasses None 0 0) ;;
       afterPasses env options item t p)
      (fun _ x => exists v, wentThrough v = true /\ settledAs options v base n item rest x)
      (fun _ x => underWay base n rest x)).
  { intros mx. apply outcome_keep; [underway | intros x Hx _; exact Hx | intros _].
    apply (outcome_bind _ (fun _ => underWay base n rest)).
    - apply outcome_kept. apply qualityPasses_underWay.
    - intros p. apply afterPasses_settles. }
  intros e He. unfold generateItem. cbv zeta.
  rewrite (bind_run this _ e e e eq_refl). cbv beta.
  destruct (orchestrator e) as [o |]; [| exact He].
  exact (G _ e He).
Qed.

Lemma generationFailed_settles base n item rest t msg :
  hoare (underWay base n rest) (generationFailed env options item t msg)
        (fun x => exists v, wentThrough v = false /\ settledAs options v base n item rest x).
Proof.
  unfold generationFailed.
  apply hoare_keep; [returning | underway | intros _].
  apply hoare_keep; [returning | underway | intros _].
  intros e [Hq [Hp [new [E [Hh Hd]]]]].
  unfold calculateBackoffDelay, addToHistory, updateStats. step.
  destruct (Z.ltb_spec (Z.of_nat (retryCount item)) (retryAttempts (config options)));
    simpl.
  - exists retryScheduled. split; [reflexivity |]. simpl.
    split; [assumption | split; [exists msg; rewrite Hq; reflexivity | split; [exact Hp |]]].
    recorded.
  - exists gaveUp. split; [reflexivity |]. simpl.
    split; [assumption | split; [exact Hq | split; [exact Hp |]]].
    eexists. split; [recorded |]. simpl. repeat split.
Qed.

(** Entering the [try] block, with what has been recorded so far. *)
Lemma runGenerationPhase_underWay e item rest :
  circuitBlocked e = false -> queue e = item :: rest ->
  exists x,
    underWay (emitted e) (processedToday e) rest x /\
    sameControl e x /\ circuitBrokenUntil x = None /\
    generatorCalls x = generatorCalls e /\ clock x = clock e /\
    runGenerationPhase env options e =
    tryCatch (generateItem env options item (clock e) (isPriorityItem options item))
             (generationFailed env options item (clock e)) x.
Proof.
  unfold circuitBlocked, runGenerationPhase, isCircuitBroken, underWay, sameControl,
    recordedSince.
  intros Hb Hq. step.
  destruct (circuitBrokenUntil e) as [expiry |] eqn:C; simpl.
  - assert (L : (expiry <=? clock e) = true) by lia. rewrite L. simpl. rewrite Hq. simpl.
    eexists. split; [| split; [| split; [| split; [| split; [| reflexivity]]]]]; simpl;
      try reflexivity.
    + split; [reflexivity | split; [reflexivity |]].
      eexists. split; [new_events | split; reflexivity].
    + repeat split.
  - rewrite Hq. simpl.
    eexists. split; [| split; [| split; [| split; [| split; [| reflexivity]]]]]; simpl;
      try reflexivity.
    + split; [reflexivity | split; [reflexivity |]].
      eexists. split; [new_events | split; reflexivity].
    + repeat split.
    + exact C.
Qed.

(** How a generation phase that takes an item ends. *)
Lemma runGenerationPhase_settles e item rest :
  circuitBlocked e = false -> queue e = item :: rest ->
  exists v, settledAs options v (emitted e) (processedToday e) item rest
              (after (runGenerationPhase env options) e).
Proof.
  intros Hb Hq.
  destruct (runGenerationPhase_underWay e item rest Hb Hq) as [x [Hx [_ [_ [_ [_ Heq]]]]]].
  rewrite (after_eq _ _ _ _ Heq).
  assert (G : outcome (underWay (emitted e) (processedToday e) rest)
                (tryCatch (generateItem env options item (clock e) (isPriorityItem options item))
                          (generationFailed env options item (clock e)))
                (fun _ y => exists v, settledAs options v (emitted e) (processedToday e)
                                        item rest y)
                (fun _ y => exists v, settledAs options v (emitted e) (processedToday e)
                                        item rest y)).
  { apply (outcome_tryCatch _ (fun _ => underWay (emitted e) (processedToday e) rest)).
    - intros y Hy. pose proof (generateItem_settles _ _ item rest (clock e)
                                  (isPriorityItem options item) y Hy) as H.
      destruct (generateItem env options item (clock e) (isPriorityItem options item) y)
        as [[a | m] y']; [| exact H].
      destruct H as [v [_ H]]. exists v. exact H.
    - intros m. apply outcome_returned; [returning |].
      eapply hoare_weaken; [apply generationFailed_settles |].
      intros y [v [_ H]]. exists v. exact H. }
  exact (outcome_after _ _ _ G x Hx).
Qed.

(** X2. Every item that a generation phase takes off the queue is accounted
    for, whatever the generator and the publisher answer: either the queue is
    left without it and exactly one entry for its URL has gone to the
    history, or it had retries left and is back in the queue, retried once
    more, with nothing written to the history. *)
Theorem every_item_is_accounted_for
    (e : Engine) (item : GodModeQueueItem) (rest : list GodModeQueueItem) :
  circuitBlocked e = false -> queue e = item :: rest ->
  let e' := after (runGenerationPhase env options) e in
  exists new, emitted e' = new ++ emitted e /\
    ((queue e' = rest /\ exists h, historyOf new = [h] /\ h_url h = url item) \/
     (Z.of_nat (retryCount item) < retryAttempts (config options) /\
      (exists message, queue e' = sortItems (rest ++ [retried item message])) /\
      historyOf new = [])).
Proof.
  intros Hb Hq. cbv zeta.
  destruct (runGenerationPhase_settles e item rest Hb Hq) as [v H].
  destruct v; simpl in H.
  - destruct H as [H1 [_ [h [q [[new [E [Hh _]]] [Hu _]]]]]].
    exists new. split; [exact E | left]. split; [exact H1 | exists h; split; assumption].
  - destruct H as [H1 [_ [_ [h [q [w [[new [E [Hh _]]] [Hu _]]]]]]]].
    exists new. split; [exact E | left]. split; [exact H1 | exists h; split; assumption].
  - destruct H as [H1 [_ [_ [h [q [w [[new [E [Hh _]]] [Hu _]]]]]]]].
    exists new. split; [exact E | left]. split; [exact H1 | exists h; split; assumption].
  - destruct H as [H1 [_ [_ [h [q [w [[new [E [Hh _]]] [Hu _]]]]]]]].
    exists new. split; [exact E | left]. split; [exact H1 | exists h; split; assumption].
  - destruct H as [H1 [H2 [_ [new [E [Hh _]]]]]].
    exists new. split; [exact E | right]. repeat split; assumption.
  - destruct H as [_ [H1 [_ [h [[new [E [Hh _]]] [Hu _]]]]]].
    exists new. split; [exact E | left]. split; [exact H1 | exists h; split; assumption].
Qed.

(** X3. What counts as processed. A generation phase that takes an item
    ends in one of three ways. The content reached the configured quality
    threshold: the count of items processed goes up by one and one success
    goes to the statistics, whether the content was published, kept for
    review, or could not be published (the history entry is then an error).
    The content stayed below the threshold: it is stored in the history as
    skipped, with its snapshot, and neither the count nor the statistics
    change. The generation failed: the count stays, and one error goes to the
    statistics. *)
Theorem processed_count_follows_the_threshold
    (e : Engine) (item : GodModeQueueItem) (rest : list GodModeQueueItem) :
  circuitBlocked e = false -> queue e = item :: rest ->
  let e' := after (runGenerationPhase env options) e in
  exists new, emitted e' = new ++ emitted e /\
    ((exists h q w,
        historyOf new = [h] /\ h_qualityScore h = Some q /\
        qualityThreshold (config options) <= q /\
        (action h = generated \/ action h = published \/ action h = action_error) /\
        processedToday e' = S (processedToday e) /\
        statsOf new = [StatsDelta 1 1 0 q w]) \/
     (exists h q,
        historyOf new = [h] /\ h_qualityScore h = Some q /\
        q < qualityThreshold (config options) /\
        action h = skipped /\ generatedContent h <> None /\
        processedToday e' = processedToday e /\
        statsOf new = []) \/
     (processedToday e' = processedToday e /\
      statsOf new = [StatsDelta 1 0 1 0 0] /\
      (historyOf new = [] \/
       exists h, historyOf new = [h] /\ action h = action_error /\ h_qualityScore h = None))).
Proof.
  intros Hb Hq. cbv zeta.
  destruct (runGenerationPhase_settles e item rest Hb Hq) as [v H].
  destruct v; simpl in H.
  - destruct H as [_ [H2 [h [q [[new [E [Hh Hd]]] [_ [Ha [Hg [Hs Hlt]]]]]]]]].
    exists new. split; [exact E | right; left]. exists h, q. repeat split; assumption.
  - destruct H as [_ [H2 [_ [h [q [w [[new [E [Hh Hd]]] [_ [Ha [_ [Hs Hle]]]]]]]]]]].
    exists new. split; [exact E | left]. exists h, q, w.
    repeat split; try assumption. left. exact Ha.
  - destruct H as [_ [H2 [_ [h [q [w [[new [E [Hh Hd]]] [_ [Ha [Hs Hle]]]]]]]]]].
    exists new. split; [exact E | left]. exists h, q, w.
    repeat split; try assumption. right. left. exact Ha.
  - destruct H as [_ [H2 [_ [h [q [w [[new [E [Hh Hd]]] [_ [Ha [_ [Hs Hle]]]]]]]]]]].
    exists new. split; [exact E | left]. exists h, q, w.
    repeat split; try assumption. right. right. exact Ha.
  - destruct H as [_ [_ [H2 [new [E [Hh Hd]]]]]].
    exists new. split; [exact E | right; right]. repeat split; try assumption.
    left. exact Hh.
  - destruct H as [_ [_ [H2 [h [[new [E [Hh Hd]]] [_ [Ha [_ Hs]]]]]]]].
    exists new. split; [exact E | right; right]. repeat split; try assumption.
    right. exists h. repeat split; assumption.
Qed.

(* ================================================================== *)
(** ** The daily limit *)



Ltac fields :=
  let K := fresh "K" in
  first [ intros ? ? ? K; exact K | intros ? ? K; exact K | intros ? K; exact K ].







(* ================================================================== *)
(** ** When the loop only waits *)

Lemma isWithinActiveHours_empty_window x :
  activeHoursEnd (config options) <= activeHoursStart (config options) ->
  isWithinActiveHours env options x = false.
Proof.
  intros H. unfold isWithinActiveHours. cbv zeta.
  destruct (negb (enableWeekends (config options)) &&
            ((getDay env (clock x) =? 0) || (getDay env (clock x) =? 6))); [reflexivity |].
  apply andb_false_iff.
  destruct (Z.leb_spec (activeHoursStart (config options)) (getHours env (clock x)));
    [right; lia | left; reflexivity].
Qed.

Section Waiting.
Variable e : Engine.

Lemma perform_nothingDone c : preserves (nothingDoneSince e) (perform c).
Proof. destruct c; simpl; unfold pause, resume, stop; keeps. Qed.

Lemma deliver_nothingDone : preserves (nothingDoneSince e) (deliver env).
Proof.
  apply (deliver_closed (nothingDoneSince e)); try fields. apply perform_nothingDone.
Qed.

Hypothesis gated :
  maxPerDay (config options) <= Z.of_nat (processedToday e) \/
  activeHoursEnd (config options) <= activeHoursStart (config options).

Lemma cycle_nothingDone : preserves (nothingDoneSince e) (cycle env options).
Proof.
  unfold cycle. apply preserves_this_bind. intros e0 H0.
  destruct (isPaused e0); [exact H0 |].
  destruct (isWithinActiveHours env options e0) eqn:W; [| exact H0]. cbn [negb].
  destruct (Z.leb_spec (maxPerDay (config options)) (Z.of_nat (processedToday e0)))
    as [L | L]; [exact H0 |].
  exfalso. destruct gated as [G | G].
  - destruct H0 as [_ [_ [_ [_ [H0 _]]]]]. rewrite H0 in L. lia.
  - rewrite (isWithinActiveHours_empty_window e0 G) in W. discriminate.
Qed.

Lemma mainLoop_nothingDone turns :
  preserves (nothingDoneSince e) (mainLoop env options turns).
Proof.
  pose proof cycle_nothingDone. pose proof deliver_nothingDone.
  induction turns as [| n IH]; simpl; [keeps |].
  unfold cycleFailed. keeps.
Qed.

End Waiting.

(** X5. Once the count of items processed has reached the daily maximum the
    main loop does nothing but wait, for any number of turns: the count is
    set to zero by [start] only, never by the loop, so the limit holds for
    the rest of the session, not of the day. The same holds when the window
    of active hours is empty, which is the case whenever it ends at or before
    the hour at which it starts (a window over midnight, such as 22 to 6, is
    never open). The loop then calls neither the analyser, nor the generator,
    nor the publisher, leaves the queue and the counts as they are, and
    starts no cycle. *)
Theorem loop_only_waits_past_the_limit (e : Engine) (turns : nat) :
  maxPerDay (config options) <= Z.of_nat (processedToday e) \/
  activeHoursEnd (config options) <= activeHoursStart (config options) ->
  let e' := after (mainLoop env options turns) e in
  generatorCalls e' = generatorCalls e /\ analyzerCalls e' = analyzerCalls e /\
  publisherCalls e' = publisherCalls e /\ queue e' = queue e /\
  processedToday e' = processedToday e /\ cycleCount e' = cycleCount e.
Proof.
  intros H. apply (mainLoop_nothingDone e H turns e). repeat split.
Qed.

(* ================================================================== *)
(** ** Stopping, pausing and resuming *)

(** X6. [pause] and [resume] undo each other and do nothing out of turn. On
    an engine that is not running both return at once, and so does [resume]
    on an engine that is not paused: nothing is logged and nothing changes.
    On a running engine [pause] makes the status [paused], and a [resume]
    after it leaves the engine as it was before the [pause], with two log
    lines and two status updates ([paused], then [running]) sent to the
    host. *)
Theorem pause_then_resume_restores_the_engine (e : Engine) :
  (isRunning e = false -> pause e = (Returned tt, e) /\ resume e = (Returned tt, e)) /\
  (isPaused e = false -> resume e = (Returned tt, e)) /\
  (isRunning e = true -> isPaused e = false ->
   get_status e = running /\
   get_status (after pause e) = paused /\
   (pause ;; resume) e =
   (Returned tt,
    set_emitted
      (onStateUpdate (mkUpdates (Some running) None None None None None None)
       :: onActivity info "God Mode resumed"
       :: onStateUpdate (mkUpdates (Some paused) None None None None None None)
       :: onActivity info "God Mode paused"
       :: emitted e) e)).
Proof.
  split; [| split].
  - intros H. unfold pause, resume, bind, this. rewrite H. split; reflexivity.
  - intros H. unfold resume, bind, this. rewrite H, orb_true_r. reflexivity.
  - intros Hr Hp. destruct e. simpl in Hr, Hp. subst. repeat split.
Qed.

Lemma perform_pausedWhileRunning c : preserves pausedWhileRunning (perform c).
Proof.
  destruct c; simpl; unfold pause, resume, stop, pausedWhileRunning.
  - apply preserves_this_bind. intros e0 H0.
    destruct (negb (isRunning e0)) eqn:R; [exact H0 |].
    intros _. apply negb_false_iff in R. exact R.
  - apply preserves_this_bind. intros e0 H0.
    destruct (negb (isRunning e0) || negb (isPaused e0)) eqn:C; simpl; [exact H0 |].
    discriminate.
  - intros e0 H0. simpl. discriminate.
Qed.

Lemma pausedWhileRunning_kept (f : Engine -> Engine) :
  (forall x, isRunning (f x) = isRunning x) -> (forall x, isPaused (f x) = isPaused x) ->
  closedUnder pausedWhileRunning f.
Proof. intros H1 H2 x Hx. unfold pausedWhileRunning. rewrite H1, H2. exact Hx. Qed.

(** X7. The status never reads [paused] on an engine that is not running:
    that a paused engine is a running one is kept by [pause], [resume] and
    [stop], by the main loop for any number of turns and by [start]; so the
    getter [status] reads [idle] exactly when the engine is not running. And
    after [stop] it reads [idle], whatever the engine was doing. *)
Theorem status_is_idle_exactly_when_stopped (e : Engine) (turns : nat) :
  get_status (after stop e) = idle /\
  (pausedWhileRunning e ->
   (forall c, pausedWhileRunning (after (perform c) e)) /\
   pausedWhileRunning (after (mainLoop env options turns) e) /\
   pausedWhileRunning (after (start env options turns) e) /\
   (get_status (after (mainLoop env options turns) e) = idle <->
    isRunning (after (mainLoop env options turns) e) = false) /\
   (get_status (after (start env options turns) e) = idle <->
    isRunning (after (start env options turns) e) = false)).
Proof.
  split; [reflexivity |]. intros H.
  assert (S : forall q t, preserves pausedWhileRunning (recordSuccess q t)).
  { intros q t. apply recordSuccess_fields. intros x n l1 l2 Hx. exact Hx. }
  assert (F : preserves pausedWhileRunning recordFailure).
  { apply recordFailure_fields; intros; assumption. }
  assert (B : preserves pausedWhileRunning isCircuitBroken).
  { apply isCircuitBroken_fields; intros; assumption. }
  assert (L : pausedWhileRunning (after (mainLoop env options turns) e)).
  { apply (mainLoop_closed pausedWhileRunning); try exact H; try exact S; try exact F;
      try exact B; try apply perform_pausedWhileRunning; try fields. }
  assert (T : pausedWhileRunning (after (start env options turns) e)).
  { apply (start_closed pausedWhileRunning); try exact H; try exact S; try exact F;
      try exact B; try apply perform_pausedWhileRunning; try fields.
    - intros x Hx _. reflexivity.
    - intros x Hx. unfold pausedWhileRunning. simpl. discriminate. }
  assert (G : forall x, pausedWhileRunning x -> (get_status x = idle <-> isRunning x = false)).
  { intros x Hx. unfold get_status, pausedWhileRunning in *.
    destruct (isPaused x); destruct (isRunning x); split; intros K;
      try reflexivity; try discriminate.
    specialize (Hx eq_refl). discriminate. }
  split; [intros c; apply perform_pausedWhileRunning; exact H |].
  split; [exact L | split; [exact T | split; apply G; assumption]].
Qed.

(* ================================================================== *)
(** ** The histories kept for the trend *)

Lemma pushCapped_spec x l :
  (List.length l <= 50)%nat ->
  pushCapped x l = (if (List.length l <? 50)%nat then l else tl l) ++ [x] /\
  List.length (pushCapped x l) = Nat.min 50 (S (List.length l)).
Proof.
  intros H. unfold pushCapped. cbv zeta. rewrite length_app. cbn [List.length].
  destruct (Nat.ltb_spec (List.length l) 50) as [L | L].
  - assert (C : (50 <? List.length l + 1)%nat = false) by (apply Nat.ltb_ge; lia).
    rewrite C. split; [reflexivity |]. rewrite length_app. cbn [List.length]. lia.
  - assert (C : (50 <? List.length l + 1)%nat = true) by (apply Nat.ltb_lt; lia).
    rewrite C. destruct l as [| y l]; [cbn [List.length] in L; lia |].
    cbn [tl app]. split; [reflexivity |]. rewrite length_app. cbn [List.length] in *. lia.
Qed.

Lemma recordSuccess_capped q t : preserves historiesCapped (recordSuccess q t).
Proof.
  intros e [H1 H2]. unfold recordSuccess, historiesCapped. step.
  destruct (pushCapped_spec q (qualityScoreHistory e) H1) as [_ L1].
  destruct (pushCapped_spec t (processingTimeHistory e) ltac:(lia)) as [_ L2].
  rewrite L1, L2, H2. lia.
Qed.

(** X8. The two histories from which the trend is read hold the most recent
    results, 50 at most. [recordSuccess] puts the new quality score and the
    new processing time at the end, and drops the oldest entry of a history
    that already held 50; the main loop and [start] keep both histories at
    the same length, never above 50. *)
Theorem trend_histories_keep_the_last_fifty (e : Engine) (turns : nat) :
  historiesCapped e ->
  (forall q t,
     let e' := after (recordSuccess q t) e in
     qualityScoreHistory e' =
       (if (List.length (qualityScoreHistory e) <? 50)%nat
        then qualityScoreHistory e else tl (qualityScoreHistory e)) ++ [q] /\
     processingTimeHistory e' =
       (if (List.length (processingTimeHistory e) <? 50)%nat
        then processingTimeHistory e else tl (processingTimeHistory e)) ++ [t] /\
     consecutiveFailures e' = 0%nat) /\
  historiesCapped (after (mainLoop env options turns) e) /\
  historiesCapped (after (start env options turns) e).
Proof.
  intros H.
  assert (F : preserves historiesCapped recordFailure).
  { apply recordFailure_fields; intros; assumption. }
  assert (B : preserves historiesCapped isCircuitBroken).
  { apply isCircuitBroken_fields; intros; assumption. }
  assert (P : forall c, preserves historiesCapped (perform c)).
  { intros c. destruct c; simpl; unfold pause, resume, stop; keeps. }
  split; [| split].
  - intros q t. cbv zeta. destruct H as [H1 H2]. unfold recordSuccess. step.
    destruct (pushCapped_spec q (qualityScoreHistory e) H1) as [E1 _].
    destruct (pushCapped_spec t (processingTimeHistory e) ltac:(lia)) as [E2 _].
    rewrite E1, E2. repeat split.
  - apply (mainLoop_closed historiesCapped); try exact H; try exact F; try exact B;
      try exact P; try apply recordSuccess_capped; try fields.
  - apply (start_closed historiesCapped); try exact H; try exact F; try exact B;
      try exact P; try apply recordSuccess_capped; try fields.
Qed.

(* ================================================================== *)
(** ** The priority of a scored page *)

Lemma find_first {A} (f : A -> bool) l1 x l2 :
  f x = true -> (forall y, In y l1 -> f y = false) -> find f (l1 ++ x :: l2) = Some x.
Proof.
  intros Hx Hl. induction l1 as [| y l1 IH]; simpl.
  - rewrite Hx. reflexivity.
  - rewrite (Hl y (or_introl eq_refl)). apply IH. intros z Hz. apply Hl. right. exact Hz.
Qed.

Lemma find_unlisted u l :
  ~ In u (map p_url l) -> find (fun p => String.eqb (p_url p) u) l = None.
Proof.
  induction l as [| p l IH]; simpl; [reflexivity |].
  intros H. destruct (String.eqb_spec (p_url p) u) as [E | E].
  - exfalso. apply H. left. exact E.
  - apply IH. intros K. apply H. right. exact K.
Qed.

(** X9. The priority given to a scored page. A URL of the priority list
    gets the priority of its first listing, whatever it scored. Any other
    URL is [critical] below 30, [high] from 30 and below 50, [medium] from 50
    and below 70, and [low] from 70 on; so a lower score never gives a less
    urgent priority. *)
Theorem calculatePriority_prefers_the_priority_list (score score' : Z) (u : string) :
  (forall l1 p l2,
     priorityUrls options = l1 ++ p :: l2 -> p_url p = u -> ~ In u (map p_url l1) ->
     calculatePriority options score u = p_priority p) /\
  (~ In u (map p_url (priorityUrls options)) ->
   (calculatePriority options score u = critical <-> score < 30) /\
   (calculatePriority options score u = high <-> 30 <= score < 50) /\
   (calculatePriority options score u = medium <-> 50 <= score < 70) /\
   (calculatePriority options score u = low <-> 70 <= score) /\
   (score <= score' ->
    priorityOrder (calculatePriority options score u)
    <= priorityOrder (calculatePriority options score' u))).
Proof.
  split.
  - intros l1 p l2 E Hu Hn. unfold calculatePriority. rewrite E.
    rewrite (find_first _ l1 p l2); [reflexivity | apply String.eqb_eq; exact Hu |].
    intros y Hy. apply String.eqb_neq. intros K. apply Hn. apply in_map_iff.
    exists y. split; assumption.
  - intros Hn. unfold calculatePriority. rewrite (find_unlisted u _ Hn).
    destruct (Z.ltb_spec score 30); [| destruct (Z.ltb_spec score 50);
      [| destruct (Z.ltb_spec score 70)]];
    (split; [split; intros K; try reflexivity; try discriminate; try lia |]);
    (split; [split; intros K; try reflexivity; try discriminate; try lia |]);
    (split; [split; intros K; try reflexivity; try discriminate; try lia |]);
    (split; [split; intros K; try reflexivity; try discriminate; try lia |]);
    intros L;
    destruct (Z.ltb_spec score' 30); try lia;
    destruct (Z.ltb_spec score' 50); try lia;
    destruct (Z.ltb_spec score' 70); simpl; lia.
Qed.

(* ================================================================== *)
(** ** What interrupts the scoring loop *)

Lemma preserves_both {A} (I J : Engine -> Prop) (m : M A) :
  preserves I m -> preserves J m -> preserves (fun x => I x /\ J x) m.
Proof. intros H1 H2 x [Hx1 Hx2]. split; [apply H1 | apply H2]; assumption. Qed.

Lemma perform_goingOn c : c <> call_pause -> preserves goingOn (perform c).
Proof.
  intros Hc. destruct c; [congruence | |]; simpl; unfold resume, stop, goingOn.
  - apply preserves_this_bind. intros e0 H0.
    destruct (negb (isRunning e0) || negb (isPaused e0)); [exact H0 |].
    destruct H0 as [H1 H2]. split; [reflexivity | exact H2].
  - intros e0 _. split; reflexivity.
Qed.

Lemma performAll_goingOn cs : ~ In call_pause cs -> preserves goingOn (performAll cs).
Proof.
  induction cs as [| c cs IH]; intros H; simpl; [keeps |].
  apply preserves_bind.
  - apply perform_goingOn. intros E. apply H. left. exact E.
  - intros _. apply IH. intros K. apply H. right. exact K.
Qed.

Lemma deliver_goingOn :
  (forall n, ~ In call_pause (commands env n)) -> preserves goingOn (deliver env).
Proof.
  intros H. unfold deliver. apply preserves_this_bind. intros e0 H0.
  rewrite (after_bind _ _ e0 tt) by reflexivity.
  apply performAll_goingOn; [apply H | exact H0].
Qed.

Lemma scoreOne_goingOn u : preserves goingOn (scoreOne env options u).
Proof. apply (scoreOne_closed goingOn); fields. Qed.

Lemma scoreLoop_runs_through base n0 q0 urls :
  (forall n, ~ In call_pause (commands env n)) ->
  forall a,
  hoare (fun x => goingOn x /\ analyzedSince base n0 q0 a x)
        (scoreLoop env options urls)
        (fun x => goingOn x /\ analyzedSince base n0 q0 (rev urls ++ a) x).
Proof.
  intros Hc. induction urls as [| u urls IH]; intros a; simpl.
  - intros x Hx. exact Hx.
  - apply (hoare_bind _ (fun x => goingOn x /\ analyzedSince base n0 q0 a x)).
    + returning.
    + intros x [H1 H2]. split; [apply (deliver_goingOn Hc) | apply deliver_analysed];
        assumption.
    + intros _. apply hoare_this. intros e0 [[H1 H2] H3]. rewrite H1, H2. cbn [orb].
      cut (hoare (fun x => goingOn x /\ analyzedSince base n0 q0 a x)
                 (scoreOne env options u ;; scoreLoop env options urls)
                 (fun x => goingOn x /\
                           analyzedSince base n0 q0 ((rev urls ++ [u]) ++ a) x)).
      { intros G. apply (G e0). split; [split |]; assumption. }
      apply (hoare_bind _ (fun x => goingOn x /\ analyzedSince base n0 q0 (u :: a) x)).
      * returning.
      * intros x [K1 K2]. split; [apply scoreOne_goingOn | apply scoreOne_analysed];
          assumption.
      * intros _. rewrite <- app_assoc. apply IH.
Qed.

(** X10. Only [pause] interrupts a scoring phase; [stop] does not. The loop
    over the pages ends early when the abort signal reads as aborted or the
    engine is paused; but [stop] leaves no controller behind, so that on an
    engine that is neither paused nor aborted, and as long as nobody calls
    [pause], every one of the (at most 20) pages to analyse is handed to the
    analyser, each once and in order, whatever calls of [stop] and [resume]
    arrive in between. *)
Theorem only_pause_interrupts_scoring (e : Engine) :
  (forall n, ~ In call_pause (commands env n)) ->
  isPaused e = false -> aborted e = false ->
  let e' := after (runScoringPhase env options) e in
  analyzerCalls e' = (analyzerCalls e + List.length (urlsToAnalyze env options))%nat /\
  exists new, emitted e' = new ++ emitted e /\
              rev (analyzedUrls new) = urlsToAnalyze env options.
Proof.
  intros Hc Hp Ha. cbv zeta.
  assert (G : hoare (fun x => goingOn x /\
                              analyzedSince (emitted e) (analyzerCalls e) (queue e) [] x)
                (runScoringPhase env options)
                (fun x => analyzedSince (emitted e) (analyzerCalls e) (queue e)
                            (rev (urlsToAnalyze env options)) x)).
  { unfold runScoringPhase.
    apply hoare_keep; [returning | apply preserves_both; [keeps | analysed] | intros _].
    apply hoare_keep; [returning | apply preserves_both; [keeps | analysed] | intros _].
    destruct (filteredUrls env options) as [| u l] eqn:F.
    - cbn [List.length Nat.eqb]. unfold urlsToAnalyze. rewrite F. cbn [firstn rev].
      apply (hoare_pre _ (analyzedSince (emitted e) (analyzerCalls e) (queue e) []));
        [intros x [_ H3]; exact H3 | analysed].
    - cbn [List.length Nat.eqb].
      apply hoare_keep; [returning | apply preserves_both; [keeps | analysed] | intros _].
      apply (hoare_bind _ (analyzedSince (emitted e) (analyzerCalls e) (queue e)
                             (rev (urlsToAnalyze env options)))).
      + returning.
      + eapply hoare_weaken; [apply (scoreLoop_runs_through _ _ _ _ Hc) |].
        intros x [_ H]. rewrite app_nil_r in H. exact H.
      + intros _.
        apply (hoare_bind _ (analyzedSince (emitted e) (analyzerCalls e) (queue e)
                               (rev (urlsToAnalyze env options)))); [returning | | intros _].
        * intros x [H1 [H2 H3]]. step. split; [exact H1 | split; [exact H2 |]].
          intros it Hit. apply H3.
          apply (Permutation_in it (Permutation_sym (sortItems_perm (queue x)))). exact Hit.
        * analysed. }
  assert (H0 : goingOn e /\ analyzedSince (emitted e) (analyzerCalls e) (queue e) [] e).
  { split; [split; assumption |]. split; [simpl; lia | split].
    - exists []. split; reflexivity.
    - intros it Hit. left. exact Hit. }
  destruct (G e H0) as [H1 [[new [E H2]] _]].
  split.
  - rewrite H1, length_rev. reflexivity.
  - exists new. split; [exact E |]. rewrite H2. apply rev_involutive.
Qed.

(* ================================================================== *)
(** ** What the scoring phase queues *)

Lemma scoreOne_scores q0 u :
  preserves (fun x => Forall (fun it => In it q0 \/ queuedByScoring options it) (queue x))
            (scoreOne env options u).
Proof.
  unfold scoreOne.
  apply preserves_bind; [keeps | intros _].
  apply preserves_tryCatch; [| intro; keeps].
  apply preserves_bind; [keeps | intros e0].
  apply preserves_bind; [keeps | intros _].
  apply preserves_bind; [keeps | intros _].
  apply preserves_bind; [keeps | intros score].
  apply preserves_this_bind. intros e1 H1.
  destruct ((score <? minHealthScore (config options)) && negb (queued u e1)) eqn:C.
  - apply andb_prop in C. destruct C as [C _]. step.
    apply Forall_app. split; [exact H1 |].
    constructor; [| constructor]. right. unfold queuedByScoring. simpl.
    repeat split. lia.
  - step. exact H1.
Qed.

Lemma scoreLoop_scores q0 urls :
  preserves (fun x => Forall (fun it => In it q0 \/ queuedByScoring options it) (queue x))
            (scoreLoop env options urls).
Proof.
  induction urls as [| u urls IH]; simpl.
  - keeps.
  - apply preserves_bind.
    + intros e He. simpl. rewrite (deliver_queue (queue e) e eq_refl). exact He.
    + intros _. apply preserves_bind; [keeps | intros e0].
      destruct (aborted e0 || isPaused e0); [keeps |].
      apply preserves_bind; [apply scoreOne_scores | intros _; exact IH].
Qed.

Lemma runScoringPhase_scores q0 :
  preserves (fun x => Forall (fun it => In it q0 \/ queuedByScoring options it) (queue x))
            (runScoringPhase env options).
Proof.
  unfold runScoringPhase.
  apply preserves_bind; [keeps | intros _].
  apply preserves_bind; [keeps | intros _].
  destruct (List.length (filteredUrls env options) =? 0)%nat; [keeps |].
  apply preserves_bind; [keeps | intros _].
  apply preserves_bind; [apply scoreLoop_scores | intros _].
  apply preserves_bind.
  - intros e He. step. revert He. apply Permutation_Forall. apply sortItems_perm.
  - intros _. keeps.
Qed.

(** X11. What the scoring phase puts in the queue. Every item that is in the
    queue after the phase and was not there before is for one of the pages
    to analyse, and records how that page scored: a health score below the
    configured minimum, the priority that [calculatePriority] gives to that
    score and URL, [manual] as its origin if the URL is on the priority list
    and [scan] if not, and no retry. *)
Theorem scoring_queues_pages_below_the_minimum (e : Engine) (it : GodModeQueueItem) :
  In it (queue (after (runScoringPhase env options) e)) ->
  In it (queue e) \/
  (In (url it) (urlsToAnalyze env options) /\
   healthScore it < minHealthScore (config options) /\
   priority it = calculatePriority options (healthScore it) (url it) /\
   source it = (if isPriorityUrl options (url it) then manual else scan) /\
   retryCount it = 0%nat).
Proof.
  intros Hit.
  assert (H0 : Forall (fun it => In it (queue e) \/ queuedByScoring options it) (queue e)).
  { apply Forall_forall. intros x Hx. left. exact Hx. }
  pose proof (runScoringPhase_scores (queue e) e H0) as H1.
  rewrite Forall_forall in H1. destruct (H1 it Hit) as [H | [S1 [S2 [S3 [S4 _]]]]];
    [left; exact H |].
  assert (A0 : analyzedSince (emitted e) (analyzerCalls e) (queue e) [] e).
  { split; [simpl; lia | split].
    - exists []. split; reflexivity.
    - intros x Hx. left. exact Hx. }
  destruct (runScoringPhase_analysed (emitted e) (analyzerCalls e) (queue e) e A0)
    as [done [rest [Hd [_ [_ H3]]]]].
  destruct (H3 it Hit) as [H | H]; [left; exact H | right].
  split; [| repeat split; assumption].
  rewrite Hd. apply in_or_app. left. apply in_rev. exact H.
Qed.

(* ================================================================== *)
(** ** What the initialisation of the priority queue queues *)

Lemma find_skip u p l :
  p_url p <> u ->
  find (fun p => String.eqb (p_url p) u) (p :: l) = find (fun p => String.eqb (p_url p) u) l.
Proof. intros H. simpl. apply String.eqb_neq in H. rewrite H. reflexivity. Qed.

Lemma enqueuePriorityUrls_adds l : forall counts e,
  let e' := after (enqueuePriorityUrls env options l counts) e in
  (forall u, In u (map url (queue e')) <->
             In u (map url (queue e)) \/
             (In u (map p_url l) /\ isExcluded env options u = false)) /\
  (forall it, In it (queue e') ->
     In it (queue e) \/
     (~ In (url it) (map url (queue e)) /\ isExcluded env options (url it) = false /\
      healthScore it = 0 /\ source it = manual /\ retryCount it = 0%nat /\
      lastError it = None /\
      exists p, find (fun p => String.eqb (p_url p) (url it)) l = Some p /\
                priority it = p_priority p)).
Proof.
  induction l as [| p l IH]; intros counts e; cbv zeta.
  - simpl. split.
    + intros u. split; [intros H; left; exact H | intros [H | [[] _]]; exact H].
    + intros it H. left. exact H.
  - cbn [enqueuePriorityUrls]. destruct (isExcluded env options (p_url p)) eqn:X.
    + rewrite (after_bind _ _ e tt) by reflexivity.
      destruct (IH (countExcluded counts) (after (log info ("Excluded: " +++ getSlug env (p_url p))) e))
        as [I1 I2]. cbv zeta in I1, I2.
      change (queue (after (log info ("Excluded: " +++ getSlug env (p_url p))) e))
        with (queue e) in I1, I2.
      split.
      * intros u. rewrite I1. cbn [map In]. split.
        -- intros [H | [H1 H2]]; [left; exact H | right; split; [right; exact H1 | exact H2]].
        -- intros [H | [[H1 | H1] H2]]; [left; exact H | congruence | right; split; assumption].
      * intros it Hit. destruct (I2 it Hit) as [H | [H1 [H2 [H3 [H4 [H5 [H6 [q [H7 H8]]]]]]]]];
          [left; exact H | right].
        repeat (split; [assumption |]). exists q. split; [| exact H8].
        rewrite find_skip; [exact H7 | congruence].
    + rewrite (after_bind _ _ e e) by reflexivity. change (after this e) with e.
      destruct (queued (p_url p) e) eqn:Qd.
      * destruct (IH counts e) as [I1 I2]. cbv zeta in I1, I2.
        pose proof (queued_true _ _ Qd) as Hin.
        split.
        -- intros u. rewrite I1. cbn [map In]. split.
           ++ intros [H | [H1 H2]]; [left; exact H | right; split; [right; exact H1 | exact H2]].
           ++ intros [H | [[H1 | H1] H2]];
                [left; exact H | left; rewrite <- H1; exact Hin | right; split; assumption].
        -- intros it Hit.
           destruct (I2 it Hit) as [H | [H1 [H2 [H3 [H4 [H5 [H6 [q [H7 H8]]]]]]]]];
             [left; exact H | right].
           repeat (split; [assumption |]). exists q. split; [| exact H8].
           rewrite find_skip; [exact H7 | intros K; apply H1; rewrite <- K; exact Hin].
      * pose proof (queued_false _ _ Qd) as Hout.
        rewrite (after_bind _ _ e (uuids e)) by reflexivity.
        rewrite (after_bind _ _ _ (after randomUUID e)) by reflexivity.
        rewrite (after_bind _ _ _ tt) by reflexivity.
        match goal with |- context [after (enqueuePriorityUrls env options l ?c) ?x] =>
          destruct (IH c x) as [I1 I2]; cbv zeta in I1, I2;
          assert (Q1 : queue x = queue e ++
                    [mkQueueItem (uuids e) (p_url p) (p_priority p) 0 (clock e) manual 0 None])
            by reflexivity;
          rewrite Q1 in I1, I2; clear Q1
        end.
        split.
        -- intros u. rewrite I1. rewrite map_app, in_app_iff. cbn [map In]. split.
           ++ intros [[H | [H | []]] | [H1 H2]].
              ** left; exact H.
              ** right. split; [left; exact H | rewrite <- H; exact X].
              ** right. split; [right; exact H1 | exact H2].
           ++ intros [H | [[H1 | H1] H2]].
              ** left. left. exact H.
              ** left. right. left. exact H1.
              ** right. split; assumption.
        -- intros it Hit.
           destruct (I2 it Hit) as [H | [H1 [H2 [H3 [H4 [H5 [H6 [q [H7 H8]]]]]]]]].
           ++ apply in_app_or in H. destruct H as [H | [H | []]]; [left; exact H | right].
              subst it. cbn [url healthScore source retryCount lastError priority].
              repeat (split; [first [exact Hout | exact X | reflexivity] |]).
              exists p. split; [| reflexivity]. simpl. rewrite String.eqb_refl. reflexivity.
           ++ right. rewrite map_app, in_app_iff in H1. cbn [map In] in H1.
              split; [intros K; apply H1; left; exact K |].
              repeat (split; [assumption |]). exists q. split; [| exact H8].
              rewrite find_skip; [exact H7 | intros K; apply H1; right; left; exact K].
Qed.

Lemma initializePriorityQueue_lists :
  hoare (fun _ => True) (initializePriorityQueue env options)
        (fun x => holdsListedUrls env options (queue x)).
Proof.
  unfold initializePriorityQueue.
  apply (hoare_bind _ (fun x => queue x = [])); [returning | intros x _; reflexivity | intros _].
  apply hoare_keep; [returning | keeps | intros e0]. cbv zeta.
  do 9 (apply hoare_keep; [returning | keeps | intros _]).
  apply (hoare_bind _ (fun x => holdsListedUrls env options (queue x)));
    [returning | | intros counts].
  - intros x Hx.
    destruct (enqueuePriorityUrls_adds (priorityUrls options) (mkCounts 0 0 0 0 0) x)
      as [I1 I2].
    cbv zeta in I1, I2. rewrite Hx in I1, I2. split.
    + intros u. rewrite I1. cbn [map In]. tauto.
    + intros it Hit.
      destruct (I2 it Hit) as [[] | [_ [_ [H3 [H4 [H5 [H6 H7]]]]]]].
      unfold queuedByPriority. repeat (split; [assumption |]). exact H7.
  - apply (hoare_bind _ (fun x => holdsListedUrls env options (queue x)));
      [returning | | intros _; kept].
    intros x [H1 H2]. step. split.
    + intros u. rewrite <- H1. split; apply Permutation_in; apply Permutation_map;
        [apply Permutation_sym |]; apply sortItems_perm.
    + intros it Hit. apply H2.
      apply (Permutation_in it (Permutation_sym (sortItems_perm (queue x)))). exact Hit.
Qed.

(** X12. What the priority queue holds after its initialisation: exactly the
    URLs of the priority list that are not excluded (each once, as the
    queue never holds a URL twice), whatever was queued before; and each of
    them with health score 0, origin [manual], no retry, and the priority of
    its first listing, which is the priority that [calculatePriority] gives
    to that URL whatever the score. *)
Theorem priority_queue_holds_the_listed_urls (e : Engine) :
  let q := queue (after (initializePriorityQueue env options) e) in
  (forall u, In u (map url q) <->
             In u (map p_url (priorityUrls options)) /\ isExcluded env options u = false) /\
  (forall it, In it q ->
     healthScore it = 0 /\ source it = manual /\ retryCount it = 0%nat /\
     forall score, priority it = calculatePriority options score (url it)).
Proof.
  cbv zeta. destruct (initializePriorityQueue_lists e I) as [H1 H2]. split; [exact H1 |].
  intros it Hit. destruct (H2 it Hit) as [K1 [K2 [K3 [_ [p [K5 K6]]]]]].
  repeat (split; [assumption |]).
  intros score. unfold calculatePriority. rewrite K5. exact K6.
Qed.

(* ================================================================== *)
(** ** Excluded URLs *)

Lemma In_firstn {A} (x : A) n l : In x (firstn n l) -> In x l.
Proof.
  intros H. rewrite <- (firstn_skipn n l). apply in_or_app. left. exact H.
Qed.

Lemma urlsToAnalyze_not_excluded u :
  In u (urlsToAnalyze env options) -> isExcluded env options u = false.
Proof.
  unfold urlsToAnalyze, filteredUrls. intros H. apply In_firstn in H.
  apply filter_In in H. destruct H as [_ H]. apply negb_true_iff in H. exact H.
Qed.

(** X13. An excluded URL is left alone. A URL that is itself on the list of
    excluded URLs is excluded (for an entry that is no URL the test is
    [url.includes(entry)], which holds of the entry itself). And a URL that is
    excluded is not among the pages to analyse, is not handed to the analyser
    by the scoring phase, is not queued by it, and is not in the priority
    queue after its initialisation. *)
Theorem excluded_urls_are_left_alone (e : Engine) (u : string) :
  ((forall s, includes env s s = true) ->
   In u (excludedUrls options) -> isExcluded env options u = true) /\
  (isExcluded env options u = true ->
   ~ In u (urlsToAnalyze env options) /\
   (exists new, emitted (after (runScoringPhase env options) e) = new ++ emitted e /\
                ~ In u (analyzedUrls new)) /\
   (~ In u (map url (queue e)) ->
    ~ In u (map url (queue (after (runScoringPhase env options) e)))) /\
   ~ In u (map url (queue (after (initializePriorityQueue env options) e)))).
Proof.
  split.
  - intros Hrefl Hin. unfold isExcluded. cbv zeta.
    match goal with |- (if existsb ?f ?l then _ else _) = true =>
      assert (T : existsb f l = true); [| rewrite T; reflexivity]
    end.
    apply existsb_exists. exists u. split; [exact Hin |].
    destruct (URL_pathname env u) as [p |].
    + rewrite String.eqb_refl. reflexivity.
    + apply Hrefl.
  - intros X.
    assert (N : ~ In u (urlsToAnalyze env options)).
    { intros H. rewrite (urlsToAnalyze_not_excluded u H) in X. discriminate. }
    assert (A0 : analyzedSince (emitted e) (analyzerCalls e) (queue e) [] e).
    { split; [simpl; lia | split].
      - exists []. split; reflexivity.
      - intros x Hx. left. exact Hx. }
    destruct (runScoringPhase_analysed (emitted e) (analyzerCalls e) (queue e) e A0)
      as [done [rest [Hd [_ [[new [E H2]] H3]]]]].
    split; [exact N | split; [| split]].
    + exists new. split; [exact E |]. rewrite H2. intros K. apply N. rewrite Hd.
      apply in_or_app. left. apply in_rev. exact K.
    + intros Hq K. apply in_map_iff in K. destruct K as [it [Hu Hit]].
      destruct (H3 it Hit) as [H | H].
      * apply Hq. rewrite <- Hu. apply in_map. exact H.
      * apply N. rewrite Hd. apply in_or_app. left. apply in_rev. rewrite <- Hu. exact H.
    + intros K. destruct (initializePriorityQueue_lists e I) as [H1 _].
      apply H1 in K. destruct K as [_ K]. congruence.
Qed.

(* ================================================================== *)
(** ** Working off the priority queue *)

Lemma run_eq {A} (m : M A) e a : completion m e = Returned a -> m e = (Returned a, after m e).
Proof.
  unfold completion, after. destruct (m e) as [c e']. simpl. intros ->. reflexivity.
Qed.

Lemma historyOf_app l1 l2 : historyOf (l1 ++ l2) = historyOf l1 ++ historyOf l2.
Proof.
  induction l1 as [| ev l1 IH]; [reflexivity |].
  destruct ev as [ty m | u | ms | v | k | r | m]; simpl; try exact IH.
  rewrite IH. apply app_assoc.
Qed.

Section Unattended.
Hypothesis priorityOnly : priorityOnlyMode options = true.
Hypothesis nobodyCalls : forall n, commands env n = [].
Hypothesis alwaysOpen : forall x, isWithinActiveHours env options x = true.
Hypothesis answers : forall kw n, reportedQuality env kw n <> None.

Lemma runGenerationPhase_goes_through x1 item rest :
  readyWith (item :: rest) x1 ->
  exists a y,
    runGenerationPhase env options x1 = (Returned a, y) /\
    readyWith rest y /\ (processedToday y <= S (processedToday x1))%nat /\
    exists new h, emitted y = new ++ emitted x1 /\ historyOf new = [h] /\
                  h_url h = url item.
Proof.
  intros [R1 [R2 [R3 [R4 [R5 R6]]]]].
  assert (Hb : circuitBlocked x1 = false) by (unfold circuitBlocked; rewrite R5; reflexivity).
  destruct (runGenerationPhase_underWay x1 item rest Hb R6)
    as [x [Hx [Hc [Hu [_ [_ Heq]]]]]].
  assert (Ho : orchestrator x <> None).
  { destruct Hc as [_ [_ [_ [Ho _]]]]. rewrite Ho. exact R4. }
  destruct (generateItem_succeeds item (clock x1) (isPriorityItem options item)
              (answers _) x Ho) as [a [Ca _]].
  pose proof (generateItem_settles _ _ item rest (clock x1) (isPriorityItem options item) x Hx)
    as Hs.
  assert (Hk : sameControl x1 (after (generateItem env options item (clock x1)
                                        (isPriorityItem options item)) x) /\
               circuitBrokenUntil (after (generateItem env options item (clock x1)
                                            (isPriorityItem options item)) x) = None).
  { apply (generateItem_closed (fun y => sameControl x1 y /\ circuitBrokenUntil y = None));
      try fields. split; assumption. }
  rewrite (run_eq _ _ _ Ca) in Hs.
  exists a. eexists. split.
  - rewrite Heq. unfold tryCatch. rewrite (run_eq _ _ _ Ca). reflexivity.
  - destruct Hk as [[K1 [K2 [K3 [K4 _]]]] K5].
    destruct Hs as [v [Hw Hs]].
    assert (G : queue (after (generateItem env options item (clock x1)
                                (isPriorityItem options item)) x) = rest /\
                (processedToday (after (generateItem env options item (clock x1)
                                          (isPriorityItem options item)) x)
                 <= S (processedToday x1))%nat /\
                exists new h, emitted (after (generateItem env options item (clock x1)
                                                (isPriorityItem options item)) x)
                              = new ++ emitted x1 /\
                              historyOf new = [h] /\ h_url h = url item).
    { destruct v; simpl in Hw; try discriminate; simpl in Hs.
      - destruct Hs as [S1 [S2 [h [q [[new [E [Hh _]]] [Hurl _]]]]]].
        split; [exact S1 | split; [lia |]]. exists new, h. repeat split; assumption.
      - destruct Hs as [S1 [S2 [_ [h [q [w [[new [E [Hh _]]] [Hurl _]]]]]]]].
        split; [exact S1 | split; [lia |]]. exists new, h. repeat split; assumption.
      - destruct Hs as [S1 [S2 [_ [h [q [w [[new [E [Hh _]]] [Hurl _]]]]]]]].
        split; [exact S1 | split; [lia |]]. exists new, h. repeat split; assumption.
      - destruct Hs as [S1 [S2 [_ [h [q [w [[new [E [Hh _]]] [Hurl _]]]]]]]].
        split; [exact S1 | split; [lia |]]. exists new, h. repeat split; assumption. }
    destruct G as [G1 [G2 G3]].
    split; [| split; [exact G2 | exact G3]].
    unfold readyWith. rewrite K1, K2, K3, K4. repeat split; assumption.
Qed.

Lemma deliver_nobody x :
  deliver env x = (Returned tt, set_deliveries (S (deliveries x)) x).
Proof. unfold deliver, bind, this, assign. simpl. rewrite nobodyCalls. reflexivity. Qed.

Lemma mainLoop_turn n x :
  isRunning x = true -> abortController x = Some false ->
  mainLoop env options (S n) x =
  (t <- tryCatch (cycle env options) cycleFailed ;;
   match t with
   | goOn => mainLoop env options n
   | leave => ret finished
   end) (set_deliveries (S (deliveries x)) x).
Proof.
  intros H1 H2. cbn [mainLoop].
  rewrite (bind_run _ _ x tt _ (deliver_nobody x)).
  rewrite (bind_run this _ _ _ _ eq_refl).
  unfold aborted. cbn [isRunning abortController set_deliveries]. rewrite H1, H2.
  reflexivity.
Qed.

Lemma cycle_on_item x item rest :
  readyWith (item :: rest) x ->
  Z.of_nat (processedToday x) < maxPerDay (config options) ->
  exists y,
    cycle env options x = (Returned goOn, y) /\
    readyWith rest y /\ (processedToday y <= S (processedToday x))%nat /\
    exists new h, emitted y = new ++ emitted x /\ historyOf new = [h] /\
                  h_url h = url item.
Proof.
  intros R L. pose proof R as [R1 [R2 [R3 [R4 [R5 R6]]]]].
  unfold cycle. rewrite (bind_run this _ x x x eq_refl). rewrite R2, alwaysOpen.
  cbn [negb].
  destruct (Z.leb_spec (maxPerDay (config options)) (Z.of_nat (processedToday x)));
    [lia |].
  rewrite (bind_run (assign _) _ x tt _ eq_refl).
  rewrite (bind_run this _ _ _ _ eq_refl).
  rewrite (bind_run (updateState _) _ _ tt _ eq_refl).
  rewrite priorityOnly. cbn [queue set_cycleCount]. rewrite R6.
  cbn [List.length Nat.ltb Nat.leb].
  match goal with |- exists y, bind _ _ ?X = _ /\ _ =>
    destruct (runGenerationPhase_goes_through X item rest)
      as [a [y [Hrun [Hy [Hp [new [h [E [Hh Hu]]]]]]]]]
  end.
  { unfold readyWith. repeat split; assumption. }
  rewrite (bind_run _ _ _ _ _ Hrun). exists y. split; [reflexivity |].
  split; [exact Hy | split; [exact Hp |]].
  eexists (new ++ [_]), h. split; [rewrite <- app_assoc; exact E |].
  split; [| exact Hu]. rewrite historyOf_app, Hh. reflexivity.
Qed.

Lemma cycle_on_empty x :
  readyWith [] x ->
  Z.of_nat (processedToday x) < maxPerDay (config options) ->
  exists y,
    cycle env options x = (Returned leave, y) /\
    isRunning y = false /\ isPaused y = false /\ queue y = [] /\
    exists new, emitted y = new ++ emitted x /\ historyOf new = [].
Proof.
  intros [R1 [R2 [R3 [R4 [R5 R6]]]]] L.
  unfold cycle. rewrite (bind_run this _ x x x eq_refl). rewrite R2, alwaysOpen.
  cbn [negb].
  destruct (Z.leb_spec (maxPerDay (config options)) (Z.of_nat (processedToday x)));
    [lia |].
  rewrite (bind_run (assign _) _ x tt _ eq_refl).
  rewrite (bind_run this _ _ _ _ eq_refl).
  rewrite (bind_run (updateState _) _ _ tt _ eq_refl).
  rewrite priorityOnly. cbn [queue set_cycleCount]. rewrite R6.
  cbn [List.length Nat.ltb Nat.leb].
  eexists. split; [reflexivity |]. simpl.
  repeat (split; [first [reflexivity | assumption] |]).
  eexists. split; [new_events | reflexivity].
Qed.

Lemma mainLoop_works_off base q : forall k hs x extra,
  workingOff base q k hs x ->
  Z.of_nat (k + List.length q) < maxPerDay (config options) ->
  exists r y,
    mainLoop env options (S (List.length q) + extra) x = (Returned r, y) /\
    workedOff base (rev (map url q) ++ hs) r y.
Proof.
  induction q as [| item rest IH]; intros k hs x extra [R [Hk [new [E Hh]]]] L.
  - cbn [List.length Nat.add]. pose proof R as [R1 [_ [R3 _]]].
    rewrite (mainLoop_turn _ x R1 R3).
    destruct (cycle_on_empty (set_deliveries (S (deliveries x)) x))
      as [y [Hc [Y1 [Y2 [Y3 [new' [E' Hh']]]]]]].
    { exact R. }
    { cbn [processedToday set_deliveries]. lia. }
    unfold bind, tryCatch. rewrite Hc. exists finished, y. split; [reflexivity |].
    unfold workedOff. repeat (split; [first [reflexivity | assumption] |]).
    exists (new' ++ new). split.
    + rewrite E'. cbn [emitted set_deliveries]. rewrite E. apply app_assoc.
    + rewrite historyOf_app, Hh'. exact Hh.
  - cbn [List.length Nat.add]. pose proof R as [R1 [_ [R3 _]]].
    rewrite (mainLoop_turn _ x R1 R3).
    destruct (cycle_on_item (set_deliveries (S (deliveries x)) x) item rest)
      as [y [Hc [Hy [Hp [new' [h [E' [Hh' Hu]]]]]]]].
    { exact R. }
    { cbn [processedToday set_deliveries]. cbn [List.length] in L. lia. }
    unfold bind at 1. unfold tryCatch. rewrite Hc.
    destruct (IH (S k) (url item :: hs) y extra) as [r [z [Hz W]]].
    + split; [exact Hy | split].
      * cbn [processedToday set_deliveries] in Hp. lia.
      * exists (new' ++ new). split.
        -- rewrite E'. cbn [emitted set_deliveries]. rewrite E. apply app_assoc.
        -- rewrite historyOf_app, Hh', <- Hh, <- Hu. reflexivity.
    + cbn [List.length] in L. lia.
    + exists r, z. split; [exact Hz |].
      cbn [map rev]. rewrite <- app_assoc. exact W.
Qed.

End Unattended.

Lemma enqueuePriorityUrls_quiet base l counts :
  preserves (noHistorySince base) (enqueuePriorityUrls env options l counts).
Proof. revert counts. induction l as [| p l IH]; intros counts; simpl; quiet. Qed.

Lemma initializePriorityQueue_quiet base :
  preserves (noHistorySince base) (initializePriorityQueue env options).
Proof.
  pose proof (enqueuePriorityUrls_quiet base). unfold initializePriorityQueue. quiet.
Qed.

Lemma initializePriorityQueue_length e :
  (List.length (queue (after (initializePriorityQueue env options) e))
   <= List.length (priorityUrls options))%nat.
Proof.
  assert (D : urlsDistinct (queue (after (initializePriorityQueue env options) e))).
  { apply (initializePriorityQueue_establishes urlsDistinct).
    - intros. apply urlsDistinct_push; assumption.
    - apply urlsDistinct_sort.
    - constructor.
    - exact I. }
  destruct (initializePriorityQueue_lists e I) as [H _].
  rewrite <- (length_map url), <- (length_map p_url (priorityUrls options)).
  apply NoDup_incl_length; [exact D |].
  intros u Hu. apply H in Hu. apply Hu.
Qed.

(** X14. Priority-only mode works the priority list off and stops. On an
    engine that is not running and whose breaker is closed, with a generator
    that answers every call, a window of active hours that is always open,
    a daily maximum above the number of priority URLs, and nobody calling
    [pause], [resume] or [stop]: [start] comes back within as many turns of
    the main loop as there are priority URLs, and one more. The engine is
    then stopped, its status is [idle], its queue is empty, and the history
    has received exactly one entry for each priority URL that is not
    excluded, and no other entry. *)
Theorem priority_queue_is_worked_off (e : Engine) (extra : nat) :
  priorityOnlyMode options = true ->
  priorityUrls options <> [] ->
  isRunning e = false -> circuitBrokenUntil e = None ->
  (forall n, commands env n = []) ->
  (forall x, isWithinActiveHours env options x = true) ->
  (forall kw n, reportedQuality env kw n <> None) ->
  Z.of_nat (List.length (priorityUrls options)) < maxPerDay (config options) ->
  let turns := (S (List.length (priorityUrls options)) + extra)%nat in
  let e' := after (start env options turns) e in
  completion (start env options turns) e = Returned finished /\
  isRunning e' = false /\ get_status e' = idle /\ queue e' = [] /\
  exists new, emitted e' = new ++ emitted e /\
    NoDup (map h_url (historyOf new)) /\
    forall u, In u (map h_url (historyOf new)) <->
              In u (map p_url (priorityUrls options)) /\ isExcluded env options u = false.
Proof.
  intros Hp Hl Hr Hb Hc Hw Ha Hm. cbv zeta.
  (* the state in which the priority queue is initialised *)
  assert (P : exists s,
    freshlyStarted s /\ noHistorySince (emitted e) s /\
    forall turns, start env options turns e =
      (when true (initializePriorityQueue env options) ;; mainLoop env options turns) s).
  { unfold start. eexists. split; [| split].
    3: { intros turns. rewrite (bind_run this _ e e e eq_refl). rewrite Hr, Hp.
         destruct (priorityUrls options) as [| p l]; [congruence |].
         cbn [List.length Nat.eqb].
         rewrite (bind_run (log _ _) _ e tt _ eq_refl).
         do 5 rewrite (bind_run (assign _) _ _ tt _ eq_refl).
         rewrite (bind_run (log _ _) _ _ tt _ eq_refl).
         rewrite (bind_run this _ _ _ _ eq_refl).
         rewrite (bind_run (updateState _) _ _ tt _ eq_refl).
         rewrite (bind_run (initializeOrchestrator env) _ _ tt _ eq_refl).
         reflexivity. }
    - unfold freshlyStarted. simpl. repeat split; try assumption. discriminate.
    - eexists. simpl. split; [new_events | reflexivity]. }
  destruct P as [s [Fs [Qs Hs]]].
  cbn [when] in Hs.
  destruct (initializePriorityQueue_returns s) as [[] Ci].
  set (s' := after (initializePriorityQueue env options) s) in *.
  assert (F' : freshlyStarted s').
  { apply (initializePriorityQueue_closed freshlyStarted); try fields. exact Fs. }
  assert (Q' : noHistorySince (emitted e) s') by (apply initializePriorityQueue_quiet; exact Qs).
  pose proof (initializePriorityQueue_length s) as Len. fold s' in Len.
  destruct (initializePriorityQueue_lists s I) as [L1 _]. fold s' in L1.
  assert (D : urlsDistinct (queue s')).
  { apply (initializePriorityQueue_establishes urlsDistinct).
    - intros. apply urlsDistinct_push; assumption.
    - apply urlsDistinct_sort.
    - constructor.
    - exact I. }
  destruct F' as [F1 [F2 [F3 [F4 [F5 F6]]]]].
  destruct Q' as [new0 [E0 H0]].
  destruct (mainLoop_works_off Hp Hc Hw Ha (emitted e) (queue s') 0 [] s'
              (List.length (priorityUrls options) - List.length (queue s') + extra))
    as [r [y [Hy [W1 [W2 [W3 [W4 [new [E Hh]]]]]]]]].
  { split; [unfold readyWith; repeat split; assumption | split; [lia |]].
    exists new0. split; [exact E0 | rewrite H0; reflexivity]. }
  { lia. }
  assert (T : (S (List.length (priorityUrls options)) + extra
               = S (List.length (queue s')) +
                 (List.length (priorityUrls options) - List.length (queue s') + extra))%nat)
    by lia.
  assert (R : start env options (S (List.length (priorityUrls options)) + extra) e
              = (Returned r, y)).
  { rewrite Hs, T. rewrite (bind_run _ _ s tt s' (run_eq _ _ _ Ci)). exact Hy. }
  unfold completion, after. rewrite R. cbn [fst snd]. subst r.
  split; [reflexivity | split; [exact W2 | split; [| split; [exact W4 |]]]].
  - unfold get_status. rewrite W3, W2. reflexivity.
  - exists new. split; [exact E |]. rewrite Hh, app_nil_r. split.
    + apply NoDup_rev. exact D.
    + intros u. rewrite <- in_rev. apply L1.
Qed.

(* ================================================================== *)
(** ** The quality trend *)

Lemma fold_left_add l : forall a, fold_left Z.add l a = a + sumOf l.
Proof.
  unfold sumOf. induction l as [| x l IH]; intros a; simpl; [lia |].
  rewrite IH, (IH x). lia.
Qed.

Lemma sumOf_cons x l : sumOf (x :: l) = x + sumOf l.
Proof. unfold sumOf at 1. simpl. apply fold_left_add. Qed.

Lemma sumOf_repeat c n : sumOf (repeat c n) = c * Z.of_nat n.
Proof.
  induction n as [| n IH]; [unfold sumOf; simpl; lia |].
  cbn [repeat]. rewrite sumOf_cons, IH. lia.
Qed.

Lemma exceeds_spec a b : exceeds a b = true <-> (b < a)%Q.
Proof.
  unfold exceeds. rewrite negb_true_iff. split.
  - intros H. apply Qnot_le_lt. intros K. apply Qle_bool_iff in K. congruence.
  - intros H. destruct (Qle_bool a b) eqn:E; [| reflexivity].
    apply Qle_bool_iff in E. exfalso. exact (Qlt_not_le _ _ H E).
Qed.

(** The mean [s / n] against a bound [b / m], over integers. *)
Lemma mean_exceeds (s n b m c : Z) :
  0 < n -> 0 < m ->
  (exceeds (inject_Z s / inject_Z n) (inject_Z b / inject_Z m + inject_Z c) = true
   <-> (b + c * m) * n < s * m) /\
  (exceeds (inject_Z b / inject_Z m - inject_Z c) (inject_Z s / inject_Z n) = true
   <-> s * m < (b - c * m) * n).
Proof.
  intros Hn Hm. rewrite !exceeds_spec.
  destruct n as [| n | n]; try lia. destruct m as [| m | m]; try lia.
  unfold Qlt, Qdiv, Qmult, Qinv, Qplus, Qminus, Qopp, Qplus, inject_Z. simpl.
  rewrite ?Pos.mul_1_r, ?Z.mul_1_r. split; split; intros H; lia.
Qed.

Lemma mean_of_equals (c n : Z) : 0 < n -> (inject_Z (c * n) / inject_Z n == inject_Z c)%Q.
Proof.
  intros Hn. destruct n as [| n | n]; try lia.
  unfold Qeq, Qdiv, Qmult, Qinv, inject_Z. simpl. rewrite ?Pos.mul_1_r, ?Z.mul_1_r.
  reflexivity.
Qed.

(** How [getQualityTrend] decides, over the integers: [s] is the sum of the
    last five scores and [b] the sum of those before them. *)
Lemma getQualityTrend_decides e :
  let h := qualityScoreHistory e in
  let n := Z.of_nat (List.length h) in
  let s := sumOf (lastFive h) in
  let b := sumOf (butLastFive h) in
  2 <= n ->
  (trend (getQualityTrend e) = improving <->
   (b + 3 * Z.max 1 (n - 5)) * Z.min 5 n < s * Z.max 1 (n - 5)) /\
  (trend (getQualityTrend e) = declining <->
   s * Z.max 1 (n - 5) < (b - 3 * Z.max 1 (n - 5)) * Z.min 5 n) /\
  avg (getQualityTrend e) = (inject_Z (sumOf h) / inject_Z n)%Q.
Proof.
  cbv zeta. intros Hn. unfold getQualityTrend. cbv zeta.
  destruct (Z.ltb_spec (Z.of_nat (List.length (qualityScoreHistory e))) 2) as [L | L];
    [lia |].
  cbn [trend avg]. change 3%Q with (inject_Z 3).
  destruct (mean_exceeds (sumOf (lastFive (qualityScoreHistory e)))
              (Z.min 5 (Z.of_nat (List.length (qualityScoreHistory e))))
              (sumOf (butLastFive (qualityScoreHistory e)))
              (Z.max 1 (Z.of_nat (List.length (qualityScoreHistory e)) - 5)) 3
              ltac:(lia) ltac:(lia)) as [E1 E2].
  destruct (exceeds _ _) eqn:X1 in |- *.
  - split; [| split; [| reflexivity]].
    + split; [intros _; apply E1; exact X1 | reflexivity].
    + split; [discriminate |]. intros K. apply E1 in X1. lia.
  - destruct (exceeds _ _) eqn:X2 in |- *.
    + split; [| split; [| reflexivity]].
      * split; [discriminate |]. intros K. apply E1 in K. congruence.
      * split; [intros _; apply E2; exact X2 | reflexivity].
    + split; [| split; [| reflexivity]].
      * split; [discriminate |]. intros K. apply E1 in K. congruence.
      * split; [discriminate |]. intros K. apply E2 in K. congruence.
Qed.

(** X15. The quality trend of short and of steady histories. With fewer than
    two scores recorded the trend is [stable], with average 0. With two to
    five scores there are no older scores to compare with, the older average
    is taken over an empty slice and counts as 0: the trend is [improving]
    exactly when the mean of the scores is above 3, and [declining] exactly
    when it is below -3. With six scores or more that are all equal, the
    trend is [stable] and the average is that score. *)
Theorem quality_trend_of_short_and_steady_histories (e : Engine) :
  let h := qualityScoreHistory e in
  ((List.length h < 2)%nat -> getQualityTrend e = mkTrend 0 stable) /\
  ((2 <= List.length h <= 5)%nat ->
   (trend (getQualityTrend e) = improving <-> 3 * Z.of_nat (List.length h) < sumOf h) /\
   (trend (getQualityTrend e) = declining <-> sumOf h < - 3 * Z.of_nat (List.length h))) /\
  (forall c n, (6 <= n)%nat -> h = repeat c n ->
     trend (getQualityTrend e) = stable /\ (avg (getQualityTrend e) == inject_Z c)%Q).
Proof.
  cbv zeta. split; [| split].
  - intros H. unfold getQualityTrend. cbv zeta.
    destruct (Z.ltb_spec (Z.of_nat (List.length (qualityScoreHistory e))) 2) as [L | L];
      [reflexivity | lia].
  - intros H.
    destruct (getQualityTrend_decides e ltac:(lia)) as [D1 [D2 _]]. cbv zeta in D1, D2.
    assert (E1 : lastFive (qualityScoreHistory e) = qualityScoreHistory e).
    { unfold lastFive.
      replace (List.length (qualityScoreHistory e) - 5)%nat with 0%nat by lia. reflexivity. }
    assert (E2 : sumOf (butLastFive (qualityScoreHistory e)) = 0).
    { unfold butLastFive.
      replace (List.length (qualityScoreHistory e) - 5)%nat with 0%nat by lia. reflexivity. }
    rewrite E1, E2 in D1, D2. rewrite D1, D2. split; lia.
  - intros c n Hn Hh.
    destruct (getQualityTrend_decides e) as [D1 [D2 D3]].
    { rewrite Hh, repeat_length. lia. }
    cbv zeta in D1, D2, D3.
    assert (Hl : List.length (qualityScoreHistory e) = n) by (rewrite Hh; apply repeat_length).
    assert (Hs : qualityScoreHistory e = repeat c (n - 5) ++ repeat c 5).
    { rewrite Hh, <- repeat_app. f_equal. lia. }
    assert (E1 : sumOf (lastFive (qualityScoreHistory e)) = c * 5).
    { unfold lastFive. rewrite Hl. rewrite Hs at 1. rewrite skipn_app, repeat_length.
      rewrite skipn_all2 by (rewrite repeat_length; lia).
      replace (n - 5 - (n - 5))%nat with 0%nat by lia. cbn [skipn app].
      apply (sumOf_repeat c 5). }
    assert (E2 : sumOf (butLastFive (qualityScoreHistory e)) = c * Z.of_nat (n - 5)).
    { unfold butLastFive. rewrite Hl. rewrite Hs at 1. rewrite firstn_app, repeat_length.
      rewrite firstn_all2 by (rewrite repeat_length; lia).
      replace (n - 5 - (n - 5))%nat with 0%nat by lia. cbn [firstn]. rewrite app_nil_r.
      apply sumOf_repeat. }
    rewrite E1, E2, Hl in D1, D2.
    replace (Z.max 1 (Z.of_nat n - 5)) with (Z.of_nat (n - 5)) in D1, D2 by lia.
    replace (Z.min 5 (Z.of_nat n)) with 5 in D1, D2 by lia.
    assert (Pk : 0 < Z.of_nat (n - 5)) by lia.
    split.
    + destruct (trend (getQualityTrend e)); [| | reflexivity].
      * exfalso. assert (K : @eq Trend improving improving) by reflexivity.
        apply D1 in K. nia.
      * exfalso. assert (K : @eq Trend declining declining) by reflexivity.
        apply D2 in K. nia.
    + rewrite D3, Hl, Hh, sumOf_repeat. apply mean_of_equals. lia.
Qed.

(* ================================================================== *)
(** ** The analyser behind the scoring phase *)

Lemma accounted_report silent most silent' most' points issue advice t :
  Scorer.accounted silent most t -> 3 <= points <= 30 ->
  silent <= silent' -> (S most <= most')%nat ->
  Scorer.accounted silent' most' (Scorer.report points issue advice t).
Proof.
  unfold Scorer.accounted, Scorer.report. cbn [Scorer.t_score Scorer.t_issues Scorer.t_recommendations].
  rewrite !length_app. cbn [List.length]. lia.
Qed.

Lemma accounted_deduct silent most silent' most' points t :
  Scorer.accounted silent most t -> 0 <= points ->
  silent + points <= silent' -> (most <= most')%nat ->
  Scorer.accounted silent' most' (Scorer.deduct points t).
Proof.
  unfold Scorer.accounted, Scorer.deduct. cbn [Scorer.t_score Scorer.t_issues Scorer.t_recommendations].
  lia.
Qed.

Lemma accounted_same silent most silent' most' t :
  Scorer.accounted silent most t -> silent <= silent' -> (most <= most')%nat ->
  Scorer.accounted silent' most' t.
Proof. unfold Scorer.accounted. lia. Qed.

(** One statement of [analyzeHtml]: from the account before it, at most
    [silent] points off without an issue, to the account after it. *)
Ltac tally A :=
  repeat match goal with |- context [if ?c then _ else _] => destruct c end;
  unfold Scorer.unchanged;
  first [ apply (accounted_report _ _ _ _ _ _ _ _ A); lia
        | apply (accounted_deduct _ _ _ _ _ _ A); lia
        | apply (accounted_same _ _ _ _ _ A); lia ].

Ltac stage silent :=
  match goal with
  | |- Scorer.accounted _ (S ?most) (?f ?t) =>
      let A := fresh "A" in
      cut (Scorer.accounted silent most t); [generalize t; intros ? A; tally A |]
  end.

Lemma analyzeHtml_accounted w pageUrl html :
  exists t, Scorer.accounted 10 14 t /\
    Scorer.score (Scorer.analyzeHtml w pageUrl html) = Z.max 0 (Z.min 100 (Scorer.t_score t)) /\
    Scorer.issues (Scorer.analyzeHtml w pageUrl html) = Scorer.t_issues t /\
    Scorer.recommendations (Scorer.analyzeHtml w pageUrl html) = Scorer.t_recommendations t.
Proof.
  unfold Scorer.analyzeHtml. cbn [Scorer.score Scorer.issues Scorer.recommendations].
  eexists. refine (conj _ (conj eq_refl (conj eq_refl eq_refl))).
  do 10 stage 10. do 3 stage 5. stage 0.
  unfold Scorer.accounted. simpl. lia.
Qed.

(** X16. The account of an analysed page. [analyzeHtml] gives one
    recommendation for each issue and at most 14 issues; the score lies
    between 0 and 100; each issue costs at least 3 and at most 30 points, and
    at most 10 points are lost without an issue (a text of 1500 to 2499
    words, an age of 91 to 180 days). So a page without issues scores at
    least 90, and a page with [n] issues at most [100 - 3 n]. *)
Theorem analysis_accounts_for_every_point (w : Scorer.Platform) (pageUrl html : string) :
  let a := Scorer.analyzeHtml w pageUrl html in
  let n := Z.of_nat (List.length (Scorer.issues a)) in
  List.length (Scorer.recommendations a) = List.length (Scorer.issues a) /\
  n <= 14 /\
  0 <= Scorer.score a <= 100 /\
  90 - 30 * n <= Scorer.score a <= 100 - 3 * n.
Proof.
  cbv zeta. destruct (analyzeHtml_accounted w pageUrl html) as [t [A [E1 [E2 E3]]]].
  rewrite E1, E2, E3. unfold Scorer.accounted in A. lia.
Qed.

(** A later statement of [analyzeHtml] takes no point back and withdraws no
    issue. *)
Ltac later :=
  match goal with
  | |- Scorer.t_score (?f ?t) <= ?bound /\ In ?issue (Scorer.t_issues (?f ?t)) =>
      let A := fresh "A" in
      let B := fresh "B" in
      cut (Scorer.t_score t <= bound /\ In issue (Scorer.t_issues t));
      [ generalize t; intros ? [A B];
        repeat match goal with |- context [if ?c then _ else _] => destruct c end;
        unfold Scorer.unchanged, Scorer.report, Scorer.deduct;
        cbn [Scorer.t_score Scorer.t_issues];
        (split; [lia | try (apply in_or_app; left); exact B])
      | ]
  | |- Scorer.t_score (?f ?t) <= ?bound =>
      let A := fresh "A" in
      cut (Scorer.t_score t <= bound);
      [ generalize t; intros ? A;
        repeat match goal with |- context [if ?c then _ else _] => destruct c end;
        unfold Scorer.unchanged, Scorer.report, Scorer.deduct;
        cbn [Scorer.t_score]; lia
      | ]
  end.

(** X17. The age of a page in its score. A page on which no date is found
    counts as 999 days old. A page older than 365 days scores at most 80 and
    carries the issue that names its age; a page that [analyzeHtml] flags as
    stale (older than 90 days) scores at most 95. *)
Theorem page_age_bounds_the_score (w : Scorer.Platform) (pageUrl html : string) :
  let a := Scorer.analyzeHtml w pageUrl html in
  let days := Scorer.daysSinceUpdate (Scorer.freshness a) in
  (Scorer.lastModified (Scorer.freshness a) = None -> days = 999) /\
  (365 < days ->
   Scorer.score a <= 80 /\ In ("Content is " +++ show days +++ " days old") (Scorer.issues a)) /\
  (Scorer.isStale (Scorer.freshness a) = true -> Scorer.score a <= 95).
Proof.
  cbv zeta. split; [| split].
  - unfold Scorer.analyzeHtml. cbn [Scorer.freshness].
    unfold Scorer.analyzeFreshness. cbn [Scorer.lastModified Scorer.daysSinceUpdate].
    intros H. rewrite H. reflexivity.
  - unfold Scorer.analyzeHtml. cbn [Scorer.freshness Scorer.score Scorer.issues].
    set (days := Scorer.daysSinceUpdate (Scorer.analyzeFreshness w html)).
    intros Hd.
    match goal with
    | |- Z.max 0 (Z.min 100 (Scorer.t_score ?t)) <= 80 /\ _ =>
        cut (Scorer.t_score t <= 80 /\
             In ("Content is " +++ show days +++ " days old") (Scorer.t_issues t));
        [intros [A B]; split; [lia | exact B] |]
    end.
    do 10 later.
    match goal with
    | |- Scorer.t_score (?f ?t) <= _ /\ _ => cut (Scorer.t_score t <= 100); [generalize t; intros ? A |]
    end.
    + apply Z.ltb_lt in Hd. rewrite Hd.
      unfold Scorer.report. cbn [Scorer.t_score Scorer.t_issues].
      split; [lia | apply in_or_app; right; left; reflexivity].
    + do 3 later. simpl. lia.
  - unfold Scorer.analyzeHtml. cbn [Scorer.freshness Scorer.score].
    intros Hd.
    change ((90 <? Scorer.daysSinceUpdate (Scorer.analyzeFreshness w html)) = true) in Hd.
    set (days := Scorer.daysSinceUpdate (Scorer.analyzeFreshness w html)) in *.
    match goal with
    | |- Z.max 0 (Z.min 100 (Scorer.t_score ?t)) <= 95 =>
        cut (Scorer.t_score t <= 95); [lia |]
    end.
    do 10 later.
    match goal with
    | |- Scorer.t_score (?f ?t) <= _ => cut (Scorer.t_score t <= 100); [generalize t; intros ? A |]
    end.
    + apply Z.ltb_lt in Hd.
      repeat match goal with
             | |- context [if ?a <? ?b then _ else _] => destruct (Z.ltb_spec a b)
             end;
        unfold Scorer.unchanged, Scorer.report, Scorer.deduct; cbn [Scorer.t_score]; lia.
    + do 3 later. simpl. lia.
Qed.

Lemma cannotBeAnalysed_fails w u :
  Scorer.cannotBeAnalysed w u ->
  exists message, Scorer.analyzePage w u = Scorer.failedAnalysis u message.
Proof.
  unfold Scorer.cannotBeAnalysed, Scorer.analyzePage. intros [H | [message H]].
  - rewrite H. eexists. reflexivity.
  - destruct (Scorer.isPublicHttpUrl w u); [| eexists; reflexivity].
    rewrite H. exists message. reflexivity.
Qed.

Lemma find_absent u l :
  existsb (fun p => String.eqb (p_url p) u) l = false ->
  find (fun p => String.eqb (p_url p) u) l = None.
Proof.
  induction l as [| p l IH]; simpl; [reflexivity |].
  destruct (String.eqb (p_url p) u); [discriminate | exact IH].
Qed.

(** X18. A page that cannot be analysed. When the address is not a public
    HTTP address or the page cannot be fetched, [analyzePage] does not
    reject: it resolves with score 0, the issue that carries the message and
    the recommendation of a manual review. The scoring phase of the engine
    takes that score like any other: with a positive minimum health score it
    queues the page at health score 0, as [critical] unless the URL is on
    the priority list. *)
Theorem page_that_cannot_be_analysed_is_queued_at_zero
    (w : Scorer.Platform) (e : Engine) (u : string) (duration : Z) :
  Scorer.cannotBeAnalysed w u ->
  analyzePage env (analyzerCalls e) u
    = mkCall duration (Resolved (Scorer.score (Scorer.analyzePage w u))) ->
  0 < minHealthScore (config options) ->
  queued u e = false ->
  let a := Scorer.analyzePage w u in
  let e' := after (scoreOne env options u) e in
  Scorer.score a = 0 /\
  Scorer.recommendations a = ["Manual review required"%string] /\
  (exists message, Scorer.issues a = ["Failed to analyze: " +++ message]) /\
  exists it, queue e' = queue e ++ [it] /\ url it = u /\ healthScore it = 0 /\
             priority it = calculatePriority options 0 u /\
             (isPriorityUrl options u = false -> priority it = critical).
Proof.
  intros Hc Ha Hm Hq. cbv zeta.
  destruct (cannotBeAnalysed_fails w u Hc) as [message Hf].
  rewrite Hf in *. cbn [Scorer.score Scorer.failedAnalysis Scorer.recommendations Scorer.issues] in *.
  split; [reflexivity | split; [reflexivity | split; [exists message; reflexivity |]]].
  assert (Hm' : (0 <? minHealthScore (config options)) = true) by (apply Z.ltb_lt; exact Hm).
  unfold after, scoreOne, tryCatch, bind, updateState, emit, assign, this. cbn.
  rewrite Ha. unfold await, bind, assign. cbn.
  unfold queued in *. cbn. rewrite Hm', Hq. cbn.
  eexists. split; [reflexivity |]. cbn.
  split; [reflexivity | split; [reflexivity | split; [reflexivity |]]].
  intros Hp. unfold calculatePriority, isPriorityUrl in *.
  rewrite (find_absent _ _ Hp). reflexivity.
Qed.

End Properties.

(* ================================================================== *)
(** ** The theorems at work in the small world *)

(** The sample world with a working analyser, generator and publisher. *)
Lemma sortQueue_keeps_priority_order_witness :
  inPriorityOrder
    (queue (after (runScoringPhase (sampleEnvironment analyzes40 (generatesAt 95) publishes)
                     (sampleOptions false))
                  (runningEngine 0 []))) /\
  inPriorityOrder
    (queue (after (generationFailed (sampleEnvironment analyzes40 generatorDown publishes)
                     (sampleOptions false) (sampleItem "/a" critical 10 scan 1) 0 "down")
                  (runningEngine 0 [sampleItem "/c" critical 5 scan 0;
                                    sampleItem "/d" high 20 scan 0]))) /\
  inPriorityOrder
    (queue (after (runGenerationPhase (sampleEnvironment analyzes40 generatorDown publishes)
                     (sampleOptions false))
                  (runningEngine 0 [sampleItem "/c" critical 5 scan 0;
                                    sampleItem "/d" high 20 scan 0]))).
Proof.
  pose proof (sortQueue_keeps_priority_order
                (sampleEnvironment analyzes40 (generatesAt 95) publishes) (sampleOptions false)
                (runningEngine 0 [])) as [_ [_ [H1 _]]].
  pose proof (sortQueue_keeps_priority_order
                (sampleEnvironment analyzes40 generatorDown publishes) (sampleOptions false)
                (runningEngine 0 [sampleItem "/c" critical 5 scan 0;
                                  sampleItem "/d" high 20 scan 0])) as [_ [_ [_ [H2 H3]]]].
  split; [| split].
  - apply H1. vm_compute. discriminate.
  - apply H2. vm_compute. reflexivity.
  - apply H3. apply QueueOrdered_inPriorityOrder.
    constructor; [constructor; [constructor | constructor] |].
    constructor; [vm_compute; discriminate | constructor].
Defined.

Lemma url_queued_at_most_once_witness :
  urlsDistinct
    (queue (after (runScoringPhase (sampleEnvironment analyzes40 (generatesAt 95) publishes)
                     (sampleOptions false))
                  (runningEngine 0 [sampleItem "/x" high 40 scan 0]))) /\
  queue (after (scoreOne (sampleEnvironment analyzes40 (generatesAt 95) publishes)
                  (sampleOptions false) "/x")
               (runningEngine 0 [sampleItem "/x" high 40 scan 0]))
  = [sampleItem "/x" high 40 scan 0].
Proof.
  pose proof (url_queued_at_most_once
                (sampleEnvironment analyzes40 (generatesAt 95) publishes) (sampleOptions false)
                (runningEngine 0 [sampleItem "/x" high 40 scan 0])) as [_ [H2 [H3 _]]].
  assert (D : urlsDistinct (queue (runningEngine 0 [sampleItem "/x" high 40 scan 0]))).
  { constructor; [simpl; tauto | constructor]. }
  destruct (H2 D) as [H _].
  split.
  - exact H.
  - exact (H3 "/x"%string eq_refl).
Defined.

(** A priority item; the generator reports 75 on every pass, and the
    configured threshold is 70: the first pass already meets the threshold,
    and the generator is still called three times. *)
Lemma passes_go_on_above_configured_threshold :
  ~ passesStopAt (qualityThreshold (config (sampleOptions true)))
      (sampleEnvironment analyzes40 (generatesAt 75) publishes) (sampleOptions true)
      (runningEngine 0 [sampleItem "/a" critical 10 manual 0]).
Proof.
  intros H.
  specialize (H (sampleItem "/a" critical 10 manual 0) [] eq_refl eq_refl
                ltac:(discriminate) (or_introl eq_refl)).
  cbv zeta in H. destruct H as [_ [H _]].
  specialize (H 0%nat ltac:(lia) ltac:(intros j Hj; lia) 75 eq_refl).
  destruct H as [H _].
  assert (G : qualityThreshold (config (sampleOptions true)) <= 75) by (vm_compute; discriminate).
  specialize (H G). vm_compute in H. discriminate.
Qed.

(** The generator reports 75, then 95: two calls, 2000 ms apart. *)
Lemma passes_stop_at_internal_target_witness :
  (generatorCalls
     (after (runGenerationPhase
               (sampleEnvironment analyzes40
                  (fun n k => if (n =? 0)%nat then generatesAt 75 n k else generatesAt 95 n k)
                  publishes)
               (sampleOptions true))
            (runningEngine 0 [sampleItem "/a" critical 10 manual 0])) - 0 = 2)%nat.
Proof.
  pose proof (passes_stop_at_internal_target
                (sampleEnvironment analyzes40
                   (fun n k => if (n =? 0)%nat then generatesAt 75 n k else generatesAt 95 n k)
                   publishes)
                (sampleOptions true)
                (runningEngine 0 [sampleItem "/a" critical 10 manual 0])
                (sampleItem "/a" critical 10 manual 0) [] eq_refl eq_refl
                ltac:(discriminate) (or_introl eq_refl)) as H.
  cbv zeta in H. destruct H as [_ [H _]].
  assert (B : forall j, (j < 1)%nat ->
            exists q, reportedQuality
                        (sampleEnvironment analyzes40
                           (fun n k => if (n =? 0)%nat then generatesAt 75 n k
                                       else generatesAt 95 n k) publishes)
                        (extractKeyword
                           (sampleEnvironment analyzes40
                              (fun n k => if (n =? 0)%nat then generatesAt 75 n k
                                          else generatesAt 95 n k) publishes)
                           (url (sampleItem "/a" critical 10 manual 0)))
                        (generatorCalls (runningEngine 0 [sampleItem "/a" critical 10 manual 0]) + j)
                      = Some q /\ q < MIN_QUALITY_SCORE).
  { intros j Hj. assert (j = 0%nat) as -> by lia. exists 75. split; [reflexivity | reflexivity]. }
  destruct (H 1%nat ltac:(lia) B 95 eq_refl) as [G _].
  apply G. vm_compute. discriminate.
Defined.

(** An item that is tried again after the generator rejected its first
    call, which counted one failure: the generator answers the next call and
    the count is cleared. Four failures so far and a generator that rejects
    after 1000 ms: the fifth failure trips the breaker, until 601000. During
    the cooldown the queue is left alone; after it the generator is called
    again. *)
Lemma circuit_breaker_trips_and_recovers_witness :
  consecutiveFailures
    (after (runGenerationPhase (sampleEnvironment analyzes40 generatorRecovers publishes)
              (sampleOptions false))
           (set_generatorCalls 1
              (engineWith 2000 [retried (sampleItem "/a" critical 10 scan 0) "model unavailable"]
                 1 None))) = 0%nat /\
  reportedQuality (sampleEnvironment analyzes40 generatorRecovers publishes) "/a" 0 = None /\
  (consecutiveFailures
     (after (runGenerationPhase (sampleEnvironment analyzes40 generatorDown publishes)
               (sampleOptions false))
            (engineWith 0 [sampleItem "/a" critical 10 scan 0] 4 None)) = 5%nat /\
   circuitBrokenUntil
     (after (runGenerationPhase (sampleEnvironment analyzes40 generatorDown publishes)
               (sampleOptions false))
            (engineWith 0 [sampleItem "/a" critical 10 scan 0] 4 None)) = Some 601000) /\
  queue
    (after (runGenerationPhase (sampleEnvironment analyzes40 generatorDown publishes)
              (sampleOptions false))
           (engineWith 0 [sampleItem "/a" critical 10 scan 0] 5 (Some 600000)))
  = [sampleItem "/a" critical 10 scan 0] /\
  lt (generatorCalls (engineWith 600000 [sampleItem "/a" critical 10 scan 0] 5 (Some 600000)))
     (generatorCalls
        (after (runGenerationPhase (sampleEnvironment analyzes40 generatorDown publishes)
                  (sampleOptions false))
               (engineWith 600000 [sampleItem "/a" critical 10 scan 0] 5 (Some 600000)))).
Proof.
  pose proof (circuit_breaker_trips_and_recovers
                (sampleEnvironment analyzes40 generatorRecovers publishes) (sampleOptions false)
                (set_generatorCalls 1
                   (engineWith 2000
                      [retried (sampleItem "/a" critical 10 scan 0) "model unavailable"]
                      1 None))) as [_ [H1 _]].
  pose proof (circuit_breaker_trips_and_recovers
                (sampleEnvironment analyzes40 generatorDown publishes) (sampleOptions false)
                (engineWith 0 [sampleItem "/a" critical 10 scan 0] 4 None)) as [_ [_ [H2 _]]].
  pose proof (circuit_breaker_trips_and_recovers
                (sampleEnvironment analyzes40 generatorDown publishes) (sampleOptions false)
                (engineWith 0 [sampleItem "/a" critical 10 scan 0] 5 (Some 600000)))
    as [_ [_ [_ [H3 _]]]].
  pose proof (circuit_breaker_trips_and_recovers
                (sampleEnvironment analyzes40 generatorDown publishes) (sampleOptions false)
                (engineWith 600000 [sampleItem "/a" critical 10 scan 0] 5 (Some 600000)))
    as [_ [_ [_ [_ H4]]]].
  split; [| split; [reflexivity | split; [| split]]].
  - refine (H1 (retried (sampleItem "/a" critical 10 scan 0) "model unavailable") []
               eq_refl eq_refl _).
    split; [discriminate |]. intros k _ _. discriminate.
  - refine (H2 (sampleItem "/a" critical 10 scan 0) [] 1000 eq_refl eq_refl _).
    right. split; [discriminate |]. exists 0%nat.
    split; [vm_compute; lia | split; [intros j Hj; lia | split; reflexivity]].
  - exact (proj1 (H3 eq_refl)).
  - destruct (H4 600000 eq_refl ltac:(reflexivity)) as [_ [_ [_ [_ [_ H]]]]].
    exact (H (sampleItem "/a" critical 10 scan 0) [] eq_refl ltac:(discriminate)).
Defined.

(** Three retries are configured. An item retried twice goes back with a
    third retry; an item retried three times is dropped, with one [error]
    entry in the history. *)
Lemma retries_bounded_and_exhaustion_recorded_witness :
  (exists item',
     queue (after (runGenerationPhase (sampleEnvironment analyzes40 generatorDown publishes)
                     (sampleOptions false))
                  (runningEngine 0 [sampleItem "/a" critical 10 scan 2]))
     = sortItems ([] ++ [item']) /\
     url item' = "/a"%string /\ retryCount item' = 3%nat) /\
  queue (after (runGenerationPhase (sampleEnvironment analyzes40 generatorDown publishes)
                  (sampleOptions false))
               (runningEngine 0 [sampleItem "/a" critical 10 scan 3])) = [] /\
  errorRecordedSince [] (sampleItem "/a" critical 10 scan 3)
    (after (runGenerationPhase (sampleEnvironment analyzes40 generatorDown publishes)
              (sampleOptions false))
           (runningEngine 0 [sampleItem "/a" critical 10 scan 3])).
Proof.
  pose proof (retries_bounded_and_exhaustion_recorded
                (sampleEnvironment analyzes40 generatorDown publishes) (sampleOptions false)
                (runningEngine 0 [sampleItem "/a" critical 10 scan 2])
                ltac:(vm_compute; discriminate)) as H2.
  pose proof (retries_bounded_and_exhaustion_recorded
                (sampleEnvironment analyzes40 generatorDown publishes) (sampleOptions false)
                (runningEngine 0 [sampleItem "/a" critical 10 scan 3])
                ltac:(vm_compute; discriminate)) as H3.
  cbv zeta in H2, H3.
  destruct H2 as [_ [_ H2]]. destruct H3 as [_ [_ H3]].
  assert (F : forall n,
            generationFails (sampleEnvironment analyzes40 generatorDown publishes)
              (sampleOptions false) (runningEngine 0 [sampleItem "/a" critical 10 scan n])
              (sampleItem "/a" critical 10 scan n)).
  { intros n. right. exists 0%nat.
    split; [vm_compute; lia | split; [intros j Hj; lia | reflexivity]]. }
  specialize (H2 (sampleItem "/a" critical 10 scan 2) [] eq_refl eq_refl (F 2%nat)).
  specialize (H3 (sampleItem "/a" critical 10 scan 3) [] eq_refl eq_refl (F 3%nat)).
  change (Z.of_nat (retryCount (sampleItem "/a" critical 10 scan 2))
          <? retryAttempts (config (sampleOptions false))) with true in H2.
  change (Z.of_nat (retryCount (sampleItem "/a" critical 10 scan 3))
          <? retryAttempts (config (sampleOptions false))) with false in H3.
  cbv iota in H2, H3.
  destruct H2 as [H2 _]. destruct H3 as [H3 H4].
  split; [exact H2 | split; [exact H3 | exact H4]].
Defined.

(** The first retry, with the largest double below 1 as random number: the
    delay is 11000 ms, eleven tenths of 10000; with 0 it is 9000 ms. *)
Lemma backoff_jitter_is_one_tenth_witness :
  let rnd := (1 - 2 ^ (-52))%Q in
  (0 <= rnd)%Q /\ (rnd < 1)%Q /\
  9 * unjitteredDelay 1 <= 10 * backoffDelay 1 rnd /\
  10 * backoffDelay 1 rnd <= 11 * unjitteredDelay 1 /\
  10 * backoffDelay 1 0 = 9 * unjitteredDelay 1.
Proof.
  cbv zeta.
  assert (H0 : (0 <= 1 - 2 ^ (-52))%Q) by (vm_compute; discriminate).
  assert (H1 : (1 - 2 ^ (-52) < 1)%Q) by (vm_compute; reflexivity).
  pose proof (backoff_jitter_is_one_tenth 1 (1 - 2 ^ (-52)) H0 H1) as [_ H].
  exact (conj H0 (conj H1 H)).
Defined.

(** The delays at the two ends of [Math.random()], for no retry, the first
    retry and the tenth: nine tenths of the delay at 0, eleven tenths at the
    largest double below 1, where the sum rounds up to a whole number. *)
Example backoffDelay_at_the_ends :
  backoffDelay 0 0 = 4500 /\ backoffDelay 0 (1 - 2 ^ (-52)) = 5500 /\
  backoffDelay 1 0 = 9000 /\ backoffDelay 1 (1 - 2 ^ (-52)) = 11000 /\
  backoffDelay 1 (999 # 1000) = 10998 /\
  backoffDelay 10 0 = 270000 /\ backoffDelay 10 (1 - 2 ^ (-52)) = 330000.
Proof. repeat split; vm_compute; reflexivity. Qed.

(** Two items and a generator that is down: the fifth failing phase in a row
    trips the breaker, ten minutes from the moment of the failure, and the
    phase after it leaves the generator alone. *)
Example five_failures_in_a_row_trip_the_breaker :
  let phase := after (runGenerationPhase (sampleEnvironment analyzes40 generatorDown publishes)
                        (sampleOptions false)) in
  let e0 := runningEngine 0 [sampleItem "/a" critical 10 scan 0;
                             sampleItem "/b" high 20 scan 0] in
  let e4 := Nat.iter 4 phase e0 in
  let e5 := phase e4 in
  let e6 := phase e5 in
  (consecutiveFailures e4, circuitBrokenUntil e4, generatorCalls e4) = (4%nat, None, 4%nat) /\
  (consecutiveFailures e5, circuitBrokenUntil e5, generatorCalls e5)
  = (5%nat, Some 675000, 5%nat) /\
  (generatorCalls e6, queue e6) = (5%nat, queue e5) /\
  clock e6 = clock e5 + 60000.
Proof. cbv zeta. split; [|split; [|split]]; vm_compute; reflexivity. Qed.

(** The publisher answers 503. *)
Lemma publish_failure_recorded_without_snapshot_witness :
  publishFailureRecorded [] (sampleItem "/a" critical 10 scan 0) 95
    (after (runPublishPhase (sampleEnvironment analyzes40 (generatesAt 95) publisherRefuses)
              (sampleOptions false) (sampleItem "/a" critical 10 scan 0)
              (Some (sampleContent 95)) 1000 95)
           (runningEngine 0 [])).
Proof.
  refine (proj2 (publish_failure_recorded_without_snapshot
                   (sampleEnvironment analyzes40 (generatesAt 95) publisherRefuses)
                   (sampleOptions false) (sampleItem "/a" critical 10 scan 0)
                   (sampleContent 95) 1000 95 (runningEngine 0 []) _)).
  right. reflexivity.
Defined.

(** The whole generation phase around it: the content is generated at 95,
    publishing fails, and the one entry of the history has no snapshot; when
    the content is kept for review instead, the entry has one. *)
Example publish_failure_in_generation_phase :
  map (fun h => (action h, generatedContent h))
    (historyOf (emitted
       (after (runGenerationPhase
                 (sampleEnvironment analyzes40 (generatesAt 95) publisherRefuses)
                 (sampleOptions false))
              (runningEngine 0 [sampleItem "/a" critical 10 scan 0]))))
  = [(action_error, None)] /\
  map (fun h => (action h, generatedContent h))
    (historyOf (emitted
       (after (runGenerationPhase
                 (sampleEnvironment analyzes40 (generatesAt 95) publisherRefuses)
                 reviewOptions)
              (runningEngine 0 [sampleItem "/a" critical 10 scan 0]))))
  = [(generated,
      Some (mkSnapshot "Title" "<p>Body</p>" "SEO title" "Description" "/a"))].
Proof. split; vm_compute; reflexivity. Qed.

(** Priority-only mode, two URLs to process: the loop ends by itself and has
    never scanned. *)
Lemma priority_only_mode_never_scans_witness :
  ~ In (entered m_runScanPhase)
       (emitted (after (start (sampleEnvironment analyzes40 (generatesAt 95) publishes)
                          (sampleOptions true) 6)
                       (newEngine 0))) /\
  completion (start (sampleEnvironment analyzes40 (generatesAt 95) publishes)
                (sampleOptions true) 6)
             (newEngine 0) = Returned finished.
Proof.
  pose proof (priority_only_mode_never_scans
                (sampleEnvironment analyzes40 (generatesAt 95) publishes)
                (sampleOptions true) (newEngine 0) 6 eq_refl) as [H _].
  destruct (H (fun x => x)) as [_ [_ [H3 _]]].
  split; [exact H3 | vm_compute; reflexivity].
Defined.

(** Outside priority-only mode the first turn of the loop does scan. *)
Example full_mode_scans :
  In (entered m_runScanPhase)
     (emitted (after (start (sampleEnvironment analyzes40 (generatesAt 95) publishes)
                        (sampleOptions false) 1)
                     (newEngine 0))).
Proof.
  assert (H : existsb (fun ev => match ev with entered m_runScanPhase => true | _ => false end)
                (emitted (after (start (sampleEnvironment analyzes40 (generatesAt 95) publishes)
                                   (sampleOptions false) 1)
                                (newEngine 0))) = true) by (vm_compute; reflexivity).
  destruct (proj1 (existsb_exists _ _) H) as [ev [Hin Hev]].
  destruct ev as [ty m | u | ms | v | k | r | m]; try discriminate Hev.
  destruct m; try discriminate Hev. exact Hin.
Qed.

Lemma start_requires_priority_urls_witness :
  start (sampleEnvironment analyzes40 (generatesAt 95) publishes) emptyPriorityOptions 3
    (newEngine 0)
  = (Thrown "Priority Only Mode requires at least one URL in the Priority Queue. Add URLs to your priority queue first.",
     newEngine 0) /\
  exists p, completion (start (sampleEnvironment analyzes40 (generatesAt 95) publishes)
                          (sampleOptions true) 3)
                       (newEngine 0) = Returned p.
Proof.
  pose proof (start_requires_priority_urls
                (sampleEnvironment analyzes40 (generatesAt 95) publishes)
                emptyPriorityOptions (newEngine 0) 3 eq_refl) as [H1 _].
  pose proof (start_requires_priority_urls
                (sampleEnvironment analyzes40 (generatesAt 95) publishes)
                (sampleOptions true) (newEngine 0) 3 eq_refl) as [_ H2].
  split.
  - exact (H1 eq_refl eq_refl).
  - apply H2. right. discriminate.
Defined.

(** A sitemap of 25 pages: 20 analyser calls. *)
Lemma scoring_analyzes_first_twenty_witness :
  (analyzerCalls
     (after (runScoringPhase (sampleEnvironment analyzes40 (generatesAt 95) publishes)
               largeSitemapOptions)
            (runningEngine 0 [])) <= 0 + 20)%nat.
Proof.
  pose proof (scoring_analyzes_first_twenty
                (sampleEnvironment analyzes40 (generatesAt 95) publishes)
                largeSitemapOptions (runningEngine 0 [])) as H.
  cbv zeta in H. destruct H as [_ [L [analyzed [rest [Hd [Hc _]]]]]].
  rewrite Hc. rewrite Hd, length_app in L.
  change (analyzerCalls (runningEngine 0 [])) with 0%nat. lia.
Defined.

Example scoring_stops_at_twenty :
  analyzerCalls
    (after (runScoringPhase (sampleEnvironment analyzes40 (generatesAt 95) publishes)
              largeSitemapOptions)
           (runningEngine 0 [])) = 20%nat /\
  List.length
    (queue (after (runScoringPhase (sampleEnvironment analyzes40 (generatesAt 95) publishes)
                     largeSitemapOptions)
                  (runningEngine 0 []))) = 20%nat.
Proof. split; vm_compute; reflexivity. Qed.

(* ================================================================== *)
(** ** The post-processor *)


Lemma runsOf_not_nil pieces : PostProcessor.runsOf pieces <> [].
Proof.
  destruct pieces as [| [b | t c] rest]; simpl; try discriminate.
  destruct (PostProcessor.isVisualBreak b); [discriminate |].
  destruct (PostProcessor.runsOf rest); discriminate.
Qed.

Lemma runsOf_ends pieces : exists runs run, PostProcessor.runsOf pieces = runs ++ [run].
Proof.
  destruct (exists_last (runsOf_not_nil pieces)) as [runs [run E]].
  exists runs, run. exact E.
Qed.

(** A piece pushed to the result: a visual break begins a new run, a text
    block goes to the last run. *)
Lemma runsOf_push pieces runs run (p : PostProcessor.Piece) :
  PostProcessor.runsOf pieces = runs ++ [run] ->
  PostProcessor.runsOf (pieces ++ [p]) =
    match p with
    | PostProcessor.kept block =>
        if PostProcessor.isVisualBreak block then runs ++ [run; []] else runs ++ [run ++ [block]]
    | PostProcessor.injected _ _ => runs ++ [run; []]
    end.
Proof.
  revert runs run. induction pieces as [| q rest IH]; intros runs run E.
  - simpl in E. destruct runs as [| r runs].
    + injection E as <-. destruct p as [b | t c]; simpl; [| reflexivity].
      destruct (PostProcessor.isVisualBreak b); reflexivity.
    + destruct runs; discriminate E.
  - destruct (runsOf_ends rest) as [runs' [run' E']].
    specialize (IH runs' run' E').
    cbn [app PostProcessor.runsOf] in *.
    destruct q as [b | t c].
    + destruct (PostProcessor.isVisualBreak b) eqn:Vb.
      * assert (E2 : runs = [] :: runs' /\ run = run').
        { rewrite E' in E. change ([] :: runs' ++ [run']) with (([] :: runs') ++ [run']) in E.
          apply app_inj_tail in E. destruct E as [<- <-]. split; reflexivity. }
        destruct E2 as [-> ->]. rewrite IH.
        destruct p as [b' | t' c']; [destruct (PostProcessor.isVisualBreak b') |]; reflexivity.
      * rewrite E' in E. rewrite IH.
        destruct runs' as [| r0 runs'].
        -- simpl in E. destruct runs as [| r runs]; [| destruct runs; discriminate E].
           injection E as <-.
           destruct p as [b' | t' c']; [destruct (PostProcessor.isVisualBreak b') |]; reflexivity.
        -- simpl in E.
           change ((b :: r0) :: runs' ++ [run']) with (((b :: r0) :: runs') ++ [run']) in E.
           apply app_inj_tail in E. destruct E as [<- <-].
           destruct p as [b' | t' c']; [destruct (PostProcessor.isVisualBreak b') |]; reflexivity.
    + assert (E2 : runs = [] :: runs' /\ run = run').
      { rewrite E' in E. change ([] :: runs' ++ [run']) with (([] :: runs') ++ [run']) in E.
        apply app_inj_tail in E. destruct E as [<- <-]. split; reflexivity. }
      destruct E2 as [-> ->]. rewrite IH.
      destruct p as [b' | t' c']; [destruct (PostProcessor.isVisualBreak b') |]; reflexivity.
Qed.

Lemma wordsOf_app run block :
  PostProcessor.wordsOf (run ++ [block]) = (PostProcessor.wordsOf run + PostProcessor.wordCount block)%nat.
Proof.
  induction run as [| b run IH]; simpl; [lia |]. unfold PostProcessor.wordsOf in *. simpl. rewrite IH. lia.
Qed.

Lemma blocksOf_app l1 l2 : PostProcessor.blocksOf (l1 ++ l2) = PostProcessor.blocksOf l1 ++ PostProcessor.blocksOf l2.
Proof. unfold PostProcessor.blocksOf. apply flat_map_app. Qed.

(** With a cycle that is not empty there is an element type for every
    index. *)
Lemma cycle_gives_an_element (cycle : list PostProcessor.BreakElementType) n :
  cycle <> [] -> exists t, nth_error cycle (n mod List.length cycle) = Some t.
Proof.
  intros H. destruct (nth_error cycle (n mod List.length cycle)) eqn:E; [eexists; reflexivity |].
  apply nth_error_None in E.
  assert (List.length cycle <> 0)%nat by (destruct cycle; [congruence | discriminate]).
  pose proof (Nat.mod_upper_bound n (List.length cycle) H0). lia.
Qed.

(** What the loop of [enforceVisualBreaks] keeps: the runs that are closed
    are within the limit or of one block, and the count is that of the last
    run. *)
Lemma enforceBlocks_runs w opts blocks : forall s,
  PostProcessor.breakElementCycle opts <> [] ->
  (exists runs run,
     PostProcessor.runsOf (PostProcessor.result s) = runs ++ [run] /\
     Forall (fun r => (List.length r <= 1)%nat \/
                      Z.of_nat (PostProcessor.wordsOf r) <= PostProcessor.maxConsecutiveWords opts) (runs ++ [run]) /\
     PostProcessor.wordsOf run = PostProcessor.e_consecutiveWords s) ->
  let s' := fold_left (PostProcessor.enforceBlock w opts) blocks s in
  PostProcessor.blocksOf (PostProcessor.result s') = PostProcessor.blocksOf (PostProcessor.result s) ++ blocks /\
  Forall (fun r => (List.length r <= 1)%nat \/
                   Z.of_nat (PostProcessor.wordsOf r) <= PostProcessor.maxConsecutiveWords opts)
         (PostProcessor.runsOf (PostProcessor.result s')).
Proof.
  induction blocks as [| block rest IH]; intros s Hc [runs [run [E [F W]]]]; cbn [fold_left].
  - cbv zeta. rewrite app_nil_r. split; [reflexivity |]. rewrite E. exact F.
  - cbv zeta.
    assert (G : exists runs' run',
              PostProcessor.runsOf (PostProcessor.result (PostProcessor.enforceBlock w opts s block)) = runs' ++ [run'] /\
              Forall (fun r => (List.length r <= 1)%nat \/
                               Z.of_nat (PostProcessor.wordsOf r) <= PostProcessor.maxConsecutiveWords opts)
                     (runs' ++ [run']) /\
              PostProcessor.wordsOf run' = PostProcessor.e_consecutiveWords (PostProcessor.enforceBlock w opts s block) /\
              PostProcessor.blocksOf (PostProcessor.result (PostProcessor.enforceBlock w opts s block))
              = PostProcessor.blocksOf (PostProcessor.result s) ++ [block]).
    { unfold PostProcessor.enforceBlock. destruct (PostProcessor.isVisualBreak block) eqn:Vb.
      - cbn [PostProcessor.result PostProcessor.e_consecutiveWords].
        exists (runs ++ [run]), []. split; [| split; [| split]].
        + rewrite (runsOf_push _ _ _ (PostProcessor.kept block) E). rewrite Vb.
          rewrite <- app_assoc. reflexivity.
        + apply Forall_app. split; [exact F |]. constructor; [| constructor].
          left. simpl. lia.
        + reflexivity.
        + rewrite blocksOf_app. reflexivity.
      - cbv zeta.
        destruct (PostProcessor.maxConsecutiveWords opts
                  <? Z.of_nat (PostProcessor.e_consecutiveWords s + PostProcessor.wordCount block)) eqn:X.
        + destruct (cycle_gives_an_element (PostProcessor.breakElementCycle opts) (PostProcessor.cycleIndex s) Hc)
            as [t Et].
          rewrite Et. cbn [PostProcessor.result PostProcessor.e_consecutiveWords].
          match goal with
          | |- context [PostProcessor.injected t ?c] => set (ctx := c)
          end.
          exists (runs ++ [run]), [block]. split; [| split; [| split]].
          * rewrite (runsOf_push _ (runs ++ [run]) [] (PostProcessor.kept block)).
            -- rewrite Vb. reflexivity.
            -- rewrite (runsOf_push _ _ _ (PostProcessor.injected t ctx) E).
               rewrite <- app_assoc. reflexivity.
          * apply Forall_app. split; [exact F |]. constructor; [| constructor].
            left. simpl. lia.
          * unfold PostProcessor.wordsOf. simpl. lia.
          * rewrite !blocksOf_app. simpl. rewrite app_nil_r. reflexivity.
        + cbn [PostProcessor.result PostProcessor.e_consecutiveWords].
          exists runs, (run ++ [block]). split; [| split; [| split]].
          * rewrite (runsOf_push _ _ _ (PostProcessor.kept block) E). rewrite Vb. reflexivity.
          * apply Forall_app in F. destruct F as [F1 _].
            apply Forall_app. split; [exact F1 |]. constructor; [| constructor].
            right. rewrite wordsOf_app, W. apply Z.ltb_ge in X. exact X.
          * rewrite wordsOf_app, W. reflexivity.
          * rewrite blocksOf_app. reflexivity. }
    destruct G as [runs' [run' [E' [F' [W' B']]]]].
    destruct (IH (PostProcessor.enforceBlock w opts s block) Hc) as [I1 I2].
    { exists runs', run'. split; [exact E' | split; [exact F' | exact W']]. }
    cbv zeta in I1, I2. split; [| exact I2].
    rewrite I1, B', <- app_assoc. reflexivity.
Qed.

(** X19. No wall of text is left. With a cycle of visual elements that is
    not empty, the loop of [enforceVisualBreaks] pushes every block of the
    page to the result, in order and unchanged, and leaves no run of two or
    more text blocks between visual breaks, kept or injected, that holds more
    words than the limit. (A single block above the limit stays as it is.) *)
Theorem no_wall_of_text_is_left
    (w : PostProcessor.Platform) (opts : PostProcessor.VisualBreakOptions) (blocks : list PostProcessor.HtmlBlock) :
  PostProcessor.breakElementCycle opts <> [] ->
  let pieces := PostProcessor.result (PostProcessor.enforceBlocks w opts blocks) in
  PostProcessor.blocksOf pieces = blocks /\
  Forall (fun run => (List.length run <= 1)%nat \/
                     Z.of_nat (PostProcessor.wordsOf run) <= PostProcessor.maxConsecutiveWords opts)
         (PostProcessor.runsOf pieces).
Proof.
  intros Hc. unfold PostProcessor.enforceBlocks.
  apply (enforceBlocks_runs w opts blocks (PostProcessor.mkEnforcement [] 0 0 EmptyString) Hc).
  exists [], []. split; [reflexivity | split; [| reflexivity]].
  constructor; [| constructor]. left. simpl. lia.
Qed.

(** The loop of [enforceVisualBreaks] on its own: the index of the cycle
    counts the times the limit was passed; as long as it stands, the blocks
    are pushed as they are; and with a cycle that is not empty an element was
    injected each time. *)
Lemma enforceBlocks_count w opts blocks : forall s,
  let s' := fold_left (PostProcessor.enforceBlock w opts) blocks s in
  (PostProcessor.cycleIndex s <= PostProcessor.cycleIndex s')%nat /\
  (PostProcessor.cycleIndex s' = PostProcessor.cycleIndex s ->
   PostProcessor.result s' = PostProcessor.result s ++ map PostProcessor.kept blocks) /\
  (existsb PostProcessor.isInjected (PostProcessor.result s) = true ->
   existsb PostProcessor.isInjected (PostProcessor.result s') = true) /\
  (PostProcessor.breakElementCycle opts <> [] -> (PostProcessor.cycleIndex s < PostProcessor.cycleIndex s')%nat ->
   existsb PostProcessor.isInjected (PostProcessor.result s') = true).
Proof.
  induction blocks as [| block rest IH]; intros s; cbn [fold_left]; cbv zeta.
  - split; [apply le_n | split; [| split]].
    + intros _. simpl. rewrite app_nil_r. reflexivity.
    + intros H. exact H.
    + intros _ H. lia.
  - destruct (IH (PostProcessor.enforceBlock w opts s block)) as [I1 [I2 [I3 I4]]].
    cbv zeta in I1, I2, I3, I4.
    assert (G : (PostProcessor.cycleIndex (PostProcessor.enforceBlock w opts s block) = PostProcessor.cycleIndex s /\
                 PostProcessor.result (PostProcessor.enforceBlock w opts s block) = PostProcessor.result s ++ [PostProcessor.kept block]) \/
                (PostProcessor.cycleIndex (PostProcessor.enforceBlock w opts s block) = S (PostProcessor.cycleIndex s) /\
                 (PostProcessor.breakElementCycle opts <> [] ->
                  existsb PostProcessor.isInjected (PostProcessor.result (PostProcessor.enforceBlock w opts s block)) = true) /\
                 (existsb PostProcessor.isInjected (PostProcessor.result s) = true ->
                  existsb PostProcessor.isInjected (PostProcessor.result (PostProcessor.enforceBlock w opts s block)) = true))).
    { unfold PostProcessor.enforceBlock. destruct (PostProcessor.isVisualBreak block).
      - left. split; reflexivity.
      - cbv zeta.
        destruct (PostProcessor.maxConsecutiveWords opts
                  <? Z.of_nat (PostProcessor.e_consecutiveWords s + PostProcessor.wordCount block)).
        + right. cbn [PostProcessor.cycleIndex PostProcessor.result]. split; [reflexivity | split].
          * intros Hc.
            destruct (cycle_gives_an_element (PostProcessor.breakElementCycle opts) (PostProcessor.cycleIndex s) Hc)
              as [t Et].
            rewrite Et. rewrite !existsb_app. simpl. rewrite orb_true_r. reflexivity.
          * intros H.
            destruct (nth_error (PostProcessor.breakElementCycle opts)
                                (PostProcessor.cycleIndex s mod List.length (PostProcessor.breakElementCycle opts)));
              rewrite !existsb_app, H; reflexivity.
        + left. split; reflexivity. }
    split; [| split; [| split]].
    + destruct G as [[G1 _] | [G1 _]]; lia.
    + intros H. destruct G as [[G1 G2] | [G1 _]]; [| lia].
      rewrite I2 by lia. rewrite G2, <- app_assoc. reflexivity.
    + intros H. apply I3. destruct G as [[_ G2] | [_ [_ G3]]].
      * rewrite G2, existsb_app, H. reflexivity.
      * apply G3. exact H.
    + intros Hc H. destruct G as [[G1 G2] | [G1 [G2 _]]].
      * apply (I4 Hc). lia.
      * apply I3. apply G2. exact Hc.
Qed.

(** The two loops side by side, with the same limit: the validator has
    nothing to report as long as the enforcer has injected nothing, and a
    run to report, found or still open, once it has. *)
Lemma loops_agree w opts blocks : forall sv se i,
  0 <= i ->
  (PostProcessor.e_consecutiveWords se <= PostProcessor.consecutiveWords sv)%nat ->
  (PostProcessor.runStartIndex sv = -1 \/ 0 <= PostProcessor.runStartIndex sv) ->
  (PostProcessor.cycleIndex se = 0%nat ->
   PostProcessor.consecutiveWords sv = PostProcessor.e_consecutiveWords se /\ PostProcessor.found sv = [] /\
   (0 <= PostProcessor.runStartIndex sv ->
    Z.of_nat (PostProcessor.consecutiveWords sv) <= PostProcessor.maxConsecutiveWords opts)) ->
  (PostProcessor.cycleIndex se <> 0%nat ->
   PostProcessor.found sv <> [] \/
   (PostProcessor.maxConsecutiveWords opts < Z.of_nat (PostProcessor.consecutiveWords sv) /\
    0 <= PostProcessor.runStartIndex sv)) ->
  let sv' := PostProcessor.validateBlocks (PostProcessor.maxConsecutiveWords opts) sv i blocks in
  let se' := fold_left (PostProcessor.enforceBlock w opts) blocks se in
  (PostProcessor.cycleIndex se' = 0%nat -> PostProcessor.checkRun (PostProcessor.maxConsecutiveWords opts) sv' = []) /\
  (PostProcessor.cycleIndex se' <> 0%nat -> PostProcessor.checkRun (PostProcessor.maxConsecutiveWords opts) sv' <> []).
Proof.
  induction blocks as [| block rest IH]; intros sv se i Hi A B C D;
    cbn [fold_left PostProcessor.validateBlocks]; cbv zeta.
  - unfold PostProcessor.checkRun. split.
    + intros Z0. destruct (C Z0) as [_ [C2 C3]].
      destruct (Z.ltb_spec (PostProcessor.maxConsecutiveWords opts) (Z.of_nat (PostProcessor.consecutiveWords sv)));
        destruct (Z.leb_spec 0 (PostProcessor.runStartIndex sv)); simpl; try exact C2.
      specialize (C3 H0). lia.
    + intros Z0. destruct (D Z0) as [D1 | [D1 D2]].
      * destruct ((PostProcessor.maxConsecutiveWords opts <? Z.of_nat (PostProcessor.consecutiveWords sv))
                  && (0 <=? PostProcessor.runStartIndex sv)); [| exact D1].
        intros K. apply app_eq_nil in K. destruct K as [_ K]. discriminate K.
      * apply Z.ltb_lt in D1. apply Z.leb_le in D2. rewrite D1, D2. simpl.
        intros K. apply app_eq_nil in K. destruct K as [_ K]. discriminate K.
  - apply IH; clear IH.
    + lia.
    + unfold PostProcessor.validateBlock, PostProcessor.enforceBlock. destruct (PostProcessor.isVisualBreak block).
      * simpl. lia.
      * cbv zeta.
        destruct (PostProcessor.maxConsecutiveWords opts
                  <? Z.of_nat (PostProcessor.e_consecutiveWords se + PostProcessor.wordCount block)); simpl; lia.
    + unfold PostProcessor.validateBlock. destruct (PostProcessor.isVisualBreak block); simpl; [left; reflexivity |].
      destruct (Z.eqb_spec (PostProcessor.runStartIndex sv) (-1)); [right; exact Hi |].
      destruct B as [B | B]; [congruence | right; exact B].
    + unfold PostProcessor.validateBlock, PostProcessor.enforceBlock. destruct (PostProcessor.isVisualBreak block).
      * cbn [PostProcessor.cycleIndex PostProcessor.consecutiveWords PostProcessor.e_consecutiveWords PostProcessor.found PostProcessor.runStartIndex].
        intros Z0. destruct (C Z0) as [C1 [C2 C3]].
        split; [reflexivity | split; [| intros K; lia]].
        unfold PostProcessor.checkRun.
        destruct (Z.ltb_spec (PostProcessor.maxConsecutiveWords opts) (Z.of_nat (PostProcessor.consecutiveWords sv)));
          destruct (Z.leb_spec 0 (PostProcessor.runStartIndex sv)); simpl; try exact C2.
        specialize (C3 H0). lia.
      * cbv zeta.
        destruct (Z.ltb_spec (PostProcessor.maxConsecutiveWords opts)
                    (Z.of_nat (PostProcessor.e_consecutiveWords se + PostProcessor.wordCount block))).
        -- cbn [PostProcessor.cycleIndex]. intros K. discriminate K.
        -- cbn [PostProcessor.cycleIndex PostProcessor.consecutiveWords PostProcessor.e_consecutiveWords PostProcessor.found
                PostProcessor.runStartIndex].
           intros Z0. destruct (C Z0) as [C1 [C2 C3]].
           split; [lia | split; [exact C2 |]]. intros _. lia.
    + unfold PostProcessor.validateBlock, PostProcessor.enforceBlock. destruct (PostProcessor.isVisualBreak block).
      * cbn [PostProcessor.cycleIndex PostProcessor.consecutiveWords PostProcessor.e_consecutiveWords PostProcessor.found PostProcessor.runStartIndex].
        intros Z0. left. destruct (D Z0) as [D1 | [D1 D2]]; unfold PostProcessor.checkRun.
        -- destruct ((PostProcessor.maxConsecutiveWords opts <? Z.of_nat (PostProcessor.consecutiveWords sv))
                     && (0 <=? PostProcessor.runStartIndex sv)); [| exact D1].
           intros K. apply app_eq_nil in K. destruct K as [_ K]. discriminate K.
        -- apply Z.ltb_lt in D1. apply Z.leb_le in D2. rewrite D1, D2. simpl.
           intros K. apply app_eq_nil in K. destruct K as [_ K]. discriminate K.
      * cbv zeta.
        assert (R : 0 <= (if PostProcessor.runStartIndex sv =? -1 then i else PostProcessor.runStartIndex sv)).
        { destruct (Z.eqb_spec (PostProcessor.runStartIndex sv) (-1)); [exact Hi |].
          destruct B as [B | B]; [congruence | exact B]. }
        destruct (Z.ltb_spec (PostProcessor.maxConsecutiveWords opts)
                    (Z.of_nat (PostProcessor.e_consecutiveWords se + PostProcessor.wordCount block))).
        -- cbn [PostProcessor.cycleIndex PostProcessor.consecutiveWords PostProcessor.e_consecutiveWords PostProcessor.found
                PostProcessor.runStartIndex].
           intros _. right. split; [lia | exact R].
        -- cbn [PostProcessor.cycleIndex PostProcessor.consecutiveWords PostProcessor.e_consecutiveWords PostProcessor.found
                PostProcessor.runStartIndex].
           intros Z0. destruct (D Z0) as [D1 | [D1 D2]]; [left; exact D1 | right].
           split; [lia | exact R].
Qed.

(** *** The loop on the object that the spread makes *)

(** Where the limit holds [undefined] no comparison succeeds: the loop
    pushes the blocks as they are. *)
Lemma enforceBlocksSpread_without_limit w cycle flag blocks : forall s,
  exists s',
    PostProcessor.enforceBlocksSpread w (PostProcessor.mkSpread None cycle flag) blocks s
    = Returned s' /\
    PostProcessor.result s' = PostProcessor.result s ++ map PostProcessor.kept blocks.
Proof.
  induction blocks as [| block rest IH]; intros s; cbn [PostProcessor.enforceBlocksSpread].
  - exists s. split; [reflexivity |]. simpl. rewrite app_nil_r. reflexivity.
  - unfold PostProcessor.enforceBlockSpread.
    cbn [PostProcessor.spread_maxConsecutiveWords]. cbv zeta.
    destruct (PostProcessor.isVisualBreak block);
      match goal with
      | |- exists s', PostProcessor.enforceBlocksSpread _ _ _ ?s1 = _ /\ _ =>
          destruct (IH s1) as [s' [E R]]
      end;
      exists s'; (split; [exact E |]); rewrite R; cbn [PostProcessor.result map];
      rewrite <- app_assoc; reflexivity.
Qed.

(** Where the limit and the cycle hold values the loop is the one of
    [enforceBlock], with these values. *)
Lemma enforceBlocksSpread_typed w limit cycle flag blocks : forall s,
  PostProcessor.enforceBlocksSpread w
    (PostProcessor.mkSpread (Some limit) (Some cycle) flag) blocks s
  = Returned
      (fold_left
         (PostProcessor.enforceBlock w
            (PostProcessor.mkOptions limit cycle
               (match flag with Some value => value | None => false end)))
         blocks s).
Proof.
  induction blocks as [| block rest IH]; intros s;
    cbn [PostProcessor.enforceBlocksSpread fold_left]; [reflexivity |].
  unfold PostProcessor.enforceBlockSpread at 1.
  unfold PostProcessor.enforceBlock at 2.
  cbn [PostProcessor.spread_maxConsecutiveWords PostProcessor.spread_breakElementCycle
       PostProcessor.spread_usePullQuotes PostProcessor.maxConsecutiveWords
       PostProcessor.breakElementCycle PostProcessor.usePullQuotes].
  cbv zeta.
  destruct (PostProcessor.isVisualBreak block); [apply IH |].
  destruct (limit <? Z.of_nat (PostProcessor.e_consecutiveWords s + PostProcessor.wordCount block));
    apply IH.
Qed.

(** Where the cycle holds [undefined] and the limit a value, the loop
    returns as long as no run exceeds the limit, and throws at the first
    that does. *)
Lemma enforceBlocksSpread_without_cycle w limit flag blocks : forall s,
  let typed :=
    fold_left (PostProcessor.enforceBlock w (PostProcessor.mkOptions limit [] false)) blocks s in
  let loop :=
    PostProcessor.enforceBlocksSpread w (PostProcessor.mkSpread (Some limit) None flag) blocks s in
  (PostProcessor.cycleIndex typed = PostProcessor.cycleIndex s ->
   exists s', loop = Returned s' /\
              PostProcessor.result s' = PostProcessor.result s ++ map PostProcessor.kept blocks) /\
  (PostProcessor.cycleIndex typed <> PostProcessor.cycleIndex s ->
   exists message, loop = Thrown message).
Proof.
  induction blocks as [| block rest IH]; intros s;
    cbn [PostProcessor.enforceBlocksSpread fold_left]; cbv zeta.
  - split.
    + intros _. exists s. split; [reflexivity |]. simpl. rewrite app_nil_r. reflexivity.
    + intros H. exfalso. apply H. reflexivity.
  - pose proof (enforceBlocks_count w (PostProcessor.mkOptions limit [] false) rest
                  (PostProcessor.enforceBlock w (PostProcessor.mkOptions limit [] false) s block))
      as [M _].
    cbv zeta in M. revert M.
    unfold PostProcessor.enforceBlockSpread at 1 2.
    unfold PostProcessor.enforceBlock.
    cbn [PostProcessor.spread_maxConsecutiveWords PostProcessor.spread_breakElementCycle
         PostProcessor.maxConsecutiveWords].
    cbv zeta.
    destruct (PostProcessor.isVisualBreak block).
    + intros _.
      match goal with
      | |- context [fold_left _ rest ?s1] => destruct (IH s1) as [I1 I2]
      end.
      cbv zeta in I1, I2. cbn [PostProcessor.cycleIndex PostProcessor.result] in I1, I2.
      split.
      * intros H. destruct (I1 H) as [s' [E R]]. exists s'. split; [exact E |].
        rewrite R, <- app_assoc. reflexivity.
      * exact I2.
    + destruct (limit <? Z.of_nat (PostProcessor.e_consecutiveWords s + PostProcessor.wordCount block)).
      * cbn [PostProcessor.cycleIndex]. intros M. split.
        -- intros H. lia.
        -- intros _. eexists. reflexivity.
      * intros _.
        match goal with
        | |- context [fold_left _ rest ?s1] => destruct (IH s1) as [I1 I2]
        end.
        cbv zeta in I1, I2. cbn [PostProcessor.cycleIndex PostProcessor.result] in I1, I2.
        split.
        -- intros H. destruct (I1 H) as [s' [E R]]. exists s'. split; [exact E |].
           rewrite R, <- app_assoc. reflexivity.
        -- exact I2.
Qed.

(** The validator against the loop of [enforceBlock], from the start of both:
    no violation exactly when nothing is injected. *)
Lemma violations_and_injections w opts blocks :
  let s := PostProcessor.enforceBlocks w opts blocks in
  (PostProcessor.violationsOf (PostProcessor.maxConsecutiveWords opts) blocks = [] ->
   PostProcessor.cycleIndex s = 0%nat /\ PostProcessor.result s = map PostProcessor.kept blocks) /\
  (PostProcessor.violationsOf (PostProcessor.maxConsecutiveWords opts) blocks <> [] ->
   PostProcessor.cycleIndex s <> 0%nat /\
   (PostProcessor.breakElementCycle opts <> [] ->
    existsb PostProcessor.isInjected (PostProcessor.result s) = true)).
Proof.
  cbv zeta.
  destruct (loops_agree w opts blocks
              (PostProcessor.mkValidationState 0 (-1) []) (PostProcessor.mkEnforcement [] 0 0 EmptyString) 0)
    as [A1 A2]; try (simpl; lia).
  { intros _. simpl. split; [reflexivity | split; [reflexivity | lia]]. }
  cbv zeta in A1, A2.
  destruct (enforceBlocks_count w opts blocks (PostProcessor.mkEnforcement [] 0 0 EmptyString))
    as [_ [B2 [_ B4]]].
  cbv zeta in B2, B4. cbn [PostProcessor.cycleIndex PostProcessor.result app] in B2, B4.
  fold (PostProcessor.enforceBlocks w opts blocks) in A1, A2, B2, B4.
  fold (PostProcessor.violationsOf (PostProcessor.maxConsecutiveWords opts) blocks) in A1, A2.
  destruct (PostProcessor.cycleIndex (PostProcessor.enforceBlocks w opts blocks)) as [| n] eqn:Z0.
  - split.
    + intros _. split; [reflexivity |]. apply B2. reflexivity.
    + intros V. exfalso. apply V. apply A1. reflexivity.
  - split.
    + intros V. exfalso. apply A2; [discriminate | exact V].
    + intros _. split; [discriminate |]. intros Hc. apply (B4 Hc). lia.
Qed.

(** What [process] does with the outcome of the loop, once the validator has
    found a violation. *)
Lemma process_after_violation w text given :
  PostProcessor.violationsOf
    (match PostProcessor.givenLimit given with Some v => v | None => 200 end)
    (PostProcessor.parseBlocks w text) <> [] ->
  (forall s,
     PostProcessor.enforceBlocksSpread w (PostProcessor.withDefaults given)
       (PostProcessor.parseBlocks w text) (PostProcessor.mkEnforcement [] 0 0 EmptyString)
     = Returned s ->
     exists r, PostProcessor.process w text given = Returned r /\
               PostProcessor.wasModified r = true /\
               PostProcessor.p_html r
               = PostProcessor.join (map (PostProcessor.render w) (PostProcessor.result s))) /\
  (forall message,
     PostProcessor.enforceBlocksSpread w (PostProcessor.withDefaults given)
       (PostProcessor.parseBlocks w text) (PostProcessor.mkEnforcement [] 0 0 EmptyString)
     = Thrown message ->
     PostProcessor.process w text given = Thrown message).
Proof.
  intros V.
  assert (B : (List.length (PostProcessor.parseBlocks w text) =? 0)%nat = false).
  { destruct (PostProcessor.parseBlocks w text); [| reflexivity].
    exfalso. apply V. unfold PostProcessor.violationsOf, PostProcessor.checkRun.
    cbn [PostProcessor.validateBlocks PostProcessor.runStartIndex PostProcessor.found].
    rewrite andb_false_r. reflexivity. }
  assert (N : PostProcessor.valid
                (PostProcessor.validateVisualBreaks w text (PostProcessor.givenLimit given))
              = false).
  { unfold PostProcessor.validateVisualBreaks. cbv zeta. cbn [PostProcessor.valid].
    destruct (PostProcessor.violationsOf _ (PostProcessor.parseBlocks w text)) as [| v vs];
      [exfalso; apply V; reflexivity | reflexivity]. }
  unfold PostProcessor.process. cbv zeta. rewrite N.
  unfold PostProcessor.enforceVisualBreaks. cbv zeta. rewrite B.
  split.
  - intros s E. rewrite E. eexists. split; [reflexivity |]. split; reflexivity.
  - intros message E. rewrite E. reflexivity.
Qed.

(** X20. The validator and the enforcer of [process], which reads the limit
    as [options?.maxConsecutiveWords], 200 where that is [undefined]. A
    page that [process] returns is reported as not modified exactly when the
    validator finds no violation; it is then returned as it was given, and
    the loop of [enforceVisualBreaks] would have pushed the blocks as they
    are, without injecting anything. When the validator finds a violation:
    with a limit and a cycle that hold values, the cycle not empty, the page
    is reported as modified and at least one element was injected; with a
    limit that holds a value and a cycle that holds [undefined], [process]
    throws. With a limit key that holds [undefined] the two disagree: the
    validator counts against 200, the loop compares with [undefined] and
    injects nothing, and [process] reports as modified a page whose blocks
    are all as they were. *)
Theorem process_modifies_exactly_the_walls_of_text
    (w : PostProcessor.Platform) (text : string) (given : option PostProcessor.PartialOptions) :
  let opts := PostProcessor.withDefaults given in
  let blocks := PostProcessor.parseBlocks w text in
  let limit := match PostProcessor.givenLimit given with Some v => v | None => 200 end in
  let loop :=
    PostProcessor.enforceBlocksSpread w opts blocks (PostProcessor.mkEnforcement [] 0 0 EmptyString) in
  (forall r, PostProcessor.process w text given = Returned r ->
     (PostProcessor.wasModified r = false <-> PostProcessor.violationsOf limit blocks = [])) /\
  (PostProcessor.violationsOf limit blocks = [] ->
     PostProcessor.process w text given = Returned (PostProcessor.mkProcessed text [] false) /\
     exists s, loop = Returned s /\ PostProcessor.result s = map PostProcessor.kept blocks) /\
  (forall cycle,
     PostProcessor.violationsOf limit blocks <> [] ->
     PostProcessor.spread_maxConsecutiveWords opts <> None ->
     PostProcessor.spread_breakElementCycle opts = Some cycle -> cycle <> [] ->
     exists s r,
       loop = Returned s /\ existsb PostProcessor.isInjected (PostProcessor.result s) = true /\
       PostProcessor.process w text given = Returned r /\
       PostProcessor.wasModified r = true /\
       PostProcessor.p_html r
       = PostProcessor.join (map (PostProcessor.render w) (PostProcessor.result s))) /\
  (PostProcessor.violationsOf limit blocks <> [] ->
   PostProcessor.spread_maxConsecutiveWords opts <> None ->
   PostProcessor.spread_breakElementCycle opts = None ->
   exists message, PostProcessor.process w text given = Thrown message) /\
  (PostProcessor.spread_maxConsecutiveWords opts = None ->
   limit = 200 /\
   (exists s, loop = Returned s /\ PostProcessor.result s = map PostProcessor.kept blocks) /\
   (PostProcessor.violationsOf 200 blocks <> [] ->
    exists r,
      PostProcessor.process w text given = Returned r /\
      PostProcessor.wasModified r = true /\
      PostProcessor.p_html r
      = PostProcessor.join (map (PostProcessor.render w) (map PostProcessor.kept blocks)))).
Proof.
  cbv zeta.
  set (blocks := PostProcessor.parseBlocks w text).
  set (limit := match PostProcessor.givenLimit given with Some v => v | None => 200 end).
  assert (L : PostProcessor.spread_maxConsecutiveWords (PostProcessor.withDefaults given) = None \/
              PostProcessor.spread_maxConsecutiveWords (PostProcessor.withDefaults given) = Some limit).
  { subst limit. destruct given as [[[| [m |]] c u] |]; simpl; auto. }
  assert (P0 : PostProcessor.violationsOf limit blocks = [] ->
               PostProcessor.process w text given
               = Returned (PostProcessor.mkProcessed text [] false)).
  { intros V. unfold PostProcessor.process, PostProcessor.validateVisualBreaks. cbv zeta.
    fold blocks. fold limit. rewrite V. reflexivity. }
  assert (K : PostProcessor.violationsOf limit blocks = [] ->
              exists s,
                PostProcessor.enforceBlocksSpread w (PostProcessor.withDefaults given) blocks
                  (PostProcessor.mkEnforcement [] 0 0 EmptyString) = Returned s /\
                PostProcessor.result s = map PostProcessor.kept blocks).
  { intros V.
    destruct (PostProcessor.withDefaults given) as [[m |] c u] eqn:W; cbn in L.
    - destruct L as [L | L]; [discriminate L |]. injection L as ->.
      destruct c as [c |].
      + rewrite enforceBlocksSpread_typed. eexists. split; [reflexivity |].
        apply (violations_and_injections w
                 (PostProcessor.mkOptions limit c (match u with Some value => value | None => false end))
                 blocks).
        exact V.
      + destruct (enforceBlocksSpread_without_cycle w limit u blocks
                    (PostProcessor.mkEnforcement [] 0 0 EmptyString)) as [S1 _].
        cbv zeta in S1. apply S1.
        destruct (violations_and_injections w (PostProcessor.mkOptions limit [] false) blocks)
          as [Q _].
        destruct (Q V) as [Q1 _]. exact Q1.
    - apply (enforceBlocksSpread_without_limit w c u blocks
               (PostProcessor.mkEnforcement [] 0 0 EmptyString)). }
  split; [| split; [| split; [| split]]].
  - intros r E. split.
    + intros F.
      destruct (PostProcessor.violationsOf limit blocks) as [| v vs] eqn:V; [reflexivity |].
      exfalso.
      assert (V' : PostProcessor.violationsOf limit blocks <> []) by (rewrite V; discriminate).
      destruct (process_after_violation w text given V') as [R1 R2].
      fold blocks in R1, R2.
      destruct (PostProcessor.enforceBlocksSpread w (PostProcessor.withDefaults given) blocks
                  (PostProcessor.mkEnforcement [] 0 0 EmptyString)) as [s | message] eqn:Lp.
      * destruct (R1 s eq_refl) as [r' [E' [M' _]]]. rewrite E in E'. injection E' as <-.
        rewrite F in M'. discriminate M'.
      * rewrite (R2 message eq_refl) in E. discriminate E.
    + intros V. rewrite (P0 V) in E. injection E as <-. reflexivity.
  - intros V. split; [exact (P0 V) | exact (K V)].
  - intros cycle V Hm Hc Hne.
    destruct (process_after_violation w text given V) as [R1 _]. fold blocks in R1.
    destruct L as [L | L]; [contradiction |].
    destruct (PostProcessor.withDefaults given) as [m c u] eqn:W. cbn in L, Hc. subst m c.
    rewrite enforceBlocksSpread_typed in *.
    destruct (R1 _ eq_refl) as [r [E [M Hh]]].
    eexists. exists r. split; [reflexivity |]. split; [| split; [exact E | split; [exact M | exact Hh]]].
    destruct (violations_and_injections w
                (PostProcessor.mkOptions limit cycle (match u with Some value => value | None => false end))
                blocks) as [_ Q].
    destruct (Q V) as [_ Q2]. apply Q2. exact Hne.
  - intros V Hm Hc.
    destruct (process_after_violation w text given V) as [_ R2]. fold blocks in R2.
    destruct L as [L | L]; [contradiction |].
    destruct (PostProcessor.withDefaults given) as [m c u] eqn:W. cbn in L, Hc. subst m c.
    destruct (enforceBlocksSpread_without_cycle w limit u blocks
                (PostProcessor.mkEnforcement [] 0 0 EmptyString)) as [_ S2].
    cbv zeta in S2.
    destruct S2 as [message E].
    + destruct (violations_and_injections w (PostProcessor.mkOptions limit [] false) blocks)
        as [_ Q].
      destruct (Q V) as [Q1 _]. exact Q1.
    + exists message. apply R2. exact E.
  - intros Hm.
    assert (L200 : limit = 200).
    { subst limit. destruct given as [[[| [m |]] c u] |]; simpl in Hm |- *;
        try reflexivity; discriminate Hm. }
    split; [exact L200 |].
    assert (S0 : exists s,
               PostProcessor.enforceBlocksSpread w (PostProcessor.withDefaults given) blocks
                 (PostProcessor.mkEnforcement [] 0 0 EmptyString) = Returned s /\
               PostProcessor.result s = map PostProcessor.kept blocks).
    { destruct (PostProcessor.withDefaults given) as [m c u]. cbn in Hm. subst m.
      apply (enforceBlocksSpread_without_limit w c u blocks
               (PostProcessor.mkEnforcement [] 0 0 EmptyString)). }
    split; [exact S0 |].
    intros V. rewrite <- L200 in V.
    destruct (process_after_violation w text given V) as [R1 _]. fold blocks in R1.
    destruct S0 as [s [E R]].
    destruct (R1 s E) as [r [E' [M Hh]]].
    exists r. split; [exact E' | split; [exact M |]]. rewrite Hh, R. reflexivity.
Qed.

(* ================================================================== *)
(** ** The further properties at work in the small world *)

(** A host that calls [stop] at every opportunity, for two turns of the loop. *)
Lemma abort_signal_is_never_observed_witness :
  let e := runningEngine 0 [] in
  aborted e = false /\
  aborted (after (perform call_stop) e) = false /\
  aborted (after (mainLoop stoppingHost (sampleOptions false) 2) e) = false.
Proof.
  cbv zeta.
  pose proof (abort_signal_is_never_observed stoppingHost (sampleOptions false)
                (runningEngine 0 []) 2 []) as [_ H].
  destruct (H eq_refl) as [H1 [_ [H3 _]]].
  split; [reflexivity | split; [exact (H1 call_stop) | exact H3]].
Defined.

(** One item in the queue, and collaborators that work. *)
Lemma every_item_is_accounted_for_witness :
  let env := sampleWorld in
  let options := sampleOptions false in
  let item := sampleItem "/a" critical 10 scan 0 in
  let rest := @nil GodModeQueueItem in
  let e := runningEngine 0 [item] in
  circuitBlocked e = false /\ queue e = item :: rest /\
  let e' := after (runGenerationPhase env options) e in
  exists new, emitted e' = new ++ emitted e /\
    ((queue e' = rest /\ exists h, historyOf new = [h] /\ h_url h = url item) \/
     (Z.of_nat (retryCount item) < retryAttempts (config options) /\
      (exists message, queue e' = sortItems (rest ++ [retried item message])) /\
      historyOf new = [])).
Proof.
  cbv zeta. split; [reflexivity | split; [reflexivity |]].
  exact (every_item_is_accounted_for sampleWorld (sampleOptions false)
           (runningEngine 0 [sampleItem "/a" critical 10 scan 0])
           (sampleItem "/a" critical 10 scan 0) [] eq_refl eq_refl).
Defined.

(** The generator writes content of quality 60, below the threshold of 70. *)
Lemma processed_count_follows_the_threshold_witness :
  let env := sampleEnvironment analyzes40 (generatesAt 60) publishes in
  let options := sampleOptions false in
  let item := sampleItem "/a" critical 10 scan 0 in
  let rest := @nil GodModeQueueItem in
  let e := runningEngine 0 [item] in
  circuitBlocked e = false /\ queue e = item :: rest /\
  let e' := after (runGenerationPhase env options) e in
  exists new, emitted e' = new ++ emitted e /\
    ((exists h q w,
        historyOf new = [h] /\ h_qualityScore h = Some q /\
        qualityThreshold (config options) <= q /\
        (action h = generated \/ action h = published \/ action h = action_error) /\
        processedToday e' = S (processedToday e) /\
        statsOf new = [StatsDelta 1 1 0 q w]) \/
     (exists h q,
        historyOf new = [h] /\ h_qualityScore h = Some q /\
        q < qualityThreshold (config options) /\
        action h = skipped /\ generatedContent h <> None /\
        processedToday e' = processedToday e /\
        statsOf new = []) \/
     (processedToday e' = processedToday e /\
      statsOf new = [StatsDelta 1 0 1 0 0] /\
      (historyOf new = [] \/
       exists h, historyOf new = [h] /\ action h = action_error /\ h_qualityScore h = None))).
Proof.
  cbv zeta. split; [reflexivity | split; [reflexivity |]].
  exact (processed_count_follows_the_threshold
           (sampleEnvironment analyzes40 (generatesAt 60) publishes) (sampleOptions false)
           (runningEngine 0 [sampleItem "/a" critical 10 scan 0])
           (sampleItem "/a" critical 10 scan 0) [] eq_refl eq_refl).
Defined.


(** Fifty items processed, a maximum of 50 a day, and work in the queue. *)
Lemma loop_only_waits_past_the_limit_witness :
  let env := sampleWorld in
  let options := sampleOptions false in
  let e := set_processedToday 50 (runningEngine 0 [sampleItem "/a" critical 10 scan 0]) in
  let turns := 3%nat in
  (maxPerDay (config options) <= Z.of_nat (processedToday e) \/
   activeHoursEnd (config options) <= activeHoursStart (config options)) /\
  let e' := after (mainLoop env options turns) e in
  generatorCalls e' = generatorCalls e /\ analyzerCalls e' = analyzerCalls e /\
  publisherCalls e' = publisherCalls e /\ queue e' = queue e /\
  processedToday e' = processedToday e /\ cycleCount e' = cycleCount e.
Proof.
  cbv zeta.
  assert (H : maxPerDay (config (sampleOptions false))
              <= Z.of_nat (processedToday
                             (set_processedToday 50
                                (runningEngine 0 [sampleItem "/a" critical 10 scan 0]))) \/
              activeHoursEnd (config (sampleOptions false))
              <= activeHoursStart (config (sampleOptions false))).
  { left. vm_compute. discriminate. }
  exact (conj H (loop_only_waits_past_the_limit sampleWorld (sampleOptions false)
                   (set_processedToday 50
                      (runningEngine 0 [sampleItem "/a" critical 10 scan 0])) 3 H)).
Defined.

(** A running engine is paused and resumed. *)
Lemma pause_then_resume_restores_the_engine_witness :
  let e := runningEngine 0 [] in
  isRunning e = true /\ isPaused e = false /\
  get_status (after pause e) = paused /\
  after (pause ;; resume)%method e =
    set_emitted
      (onStateUpdate (mkUpdates (Some running) None None None None None None)
       :: onActivity info "God Mode resumed"
       :: onStateUpdate (mkUpdates (Some paused) None None None None None None)
       :: onActivity info "God Mode paused"
       :: emitted e) e.
Proof.
  cbv zeta.
  pose proof (pause_then_resume_restores_the_engine (runningEngine 0 [])) as [_ [_ H]].
  destruct (H eq_refl eq_refl) as [_ [H2 H3]].
  split; [reflexivity | split; [reflexivity | split; [exact H2 |]]].
  unfold after. rewrite H3. reflexivity.
Defined.

(** The host calls [stop] at every opportunity. *)
Lemma status_is_idle_exactly_when_stopped_witness :
  let e := runningEngine 0 [] in
  pausedWhileRunning e /\
  pausedWhileRunning (after (start stoppingHost (sampleOptions true) 3) e) /\
  get_status (after stop e) = idle.
Proof.
  cbv zeta.
  assert (P : pausedWhileRunning (runningEngine 0 [])) by (intros _; reflexivity).
  pose proof (status_is_idle_exactly_when_stopped stoppingHost (sampleOptions true)
                (runningEngine 0 []) 3) as [H0 H].
  destruct (H P) as [_ [_ [H3 _]]].
  split; [exact P | split; [exact H3 | exact H0]].
Defined.

(** An engine with empty histories. *)
Lemma trend_histories_keep_the_last_fifty_witness :
  let env := sampleWorld in
  let options := sampleOptions false in
  let e := runningEngine 0 [sampleItem "/a" critical 10 scan 0] in
  historiesCapped e /\
  qualityScoreHistory (after (recordSuccess 95 1000) e) = [95] /\
  historiesCapped (after (mainLoop env options 3) e).
Proof.
  cbv zeta.
  assert (H : historiesCapped (runningEngine 0 [sampleItem "/a" critical 10 scan 0])).
  { split; [apply Nat.le_0_l | reflexivity]. }
  pose proof (trend_histories_keep_the_last_fifty sampleWorld (sampleOptions false)
                (runningEngine 0 [sampleItem "/a" critical 10 scan 0]) 3 H) as [H1 [H2 _]].
  destruct (H1 95 1000) as [H3 _].
  split; [exact H | split; [exact H3 | exact H2]].
Defined.

(** [/a] is second on the priority list, as [critical]; [/x] is not on it. *)
Lemma calculatePriority_prefers_the_priority_list_witness :
  let options := sampleOptions false in
  calculatePriority options 95 "/a" = critical /\
  ~ In "/x"%string (map p_url (priorityUrls options)) /\
  (calculatePriority options 40 "/x" = high <-> 30 <= 40 < 50).
Proof.
  cbv zeta.
  pose proof (calculatePriority_prefers_the_priority_list (sampleOptions false) 95 95 "/a")
    as [H1 _].
  pose proof (calculatePriority_prefers_the_priority_list (sampleOptions false) 40 40 "/x")
    as [_ H2].
  assert (N : ~ In "/x"%string (map p_url (priorityUrls (sampleOptions false)))).
  { intros [K | [K | [K | []]]]; discriminate K. }
  assert (M : ~ In "/a"%string (map p_url [mkPriorityUrl "/b" high])).
  { intros [K | []]; discriminate K. }
  destruct (H2 N) as [_ [H3 _]].
  split; [| split; [exact N | exact H3]].
  exact (H1 [mkPriorityUrl "/b" high] (mkPriorityUrl "/a" critical) [mkPriorityUrl "/b" low]
            eq_refl eq_refl M).
Defined.

(** The host calls [stop] at every opportunity, and never [pause]. *)
Lemma only_pause_interrupts_scoring_witness :
  let env := stoppingHost in
  let options := sampleOptions false in
  let e := runningEngine 0 [] in
  (forall n, ~ In call_pause (commands env n)) /\
  isPaused e = false /\ aborted e = false /\
  let e' := after (runScoringPhase env options) e in
  analyzerCalls e' = (analyzerCalls e + List.length (urlsToAnalyze env options))%nat /\
  exists new, emitted e' = new ++ emitted e /\
              rev (analyzedUrls new) = urlsToAnalyze env options.
Proof.
  cbv zeta.
  assert (H : forall n, ~ In call_pause (commands stoppingHost n)).
  { intros n [K | []]. discriminate K. }
  split; [exact H | split; [reflexivity | split; [reflexivity |]]].
  exact (only_pause_interrupts_scoring stoppingHost (sampleOptions false) (runningEngine 0 [])
           H eq_refl eq_refl).
Defined.

(** The first page of the sitemap, found at 40 and queued. *)
Lemma scoring_queues_pages_below_the_minimum_witness :
  let env := sampleWorld in
  let options := sampleOptions false in
  let e := runningEngine 0 [] in
  let it := mkQueueItem 0 "/x" high 40 100 scan 0 None in
  In it (queue (after (runScoringPhase env options) e)) /\
  (In it (queue e) \/
   (In (url it) (urlsToAnalyze env options) /\
    healthScore it < minHealthScore (config options) /\
    priority it = calculatePriority options (healthScore it) (url it) /\
    source it = (if isPriorityUrl options (url it) then manual else scan) /\
    retryCount it = 0%nat)).
Proof.
  cbv zeta.
  assert (H : In (mkQueueItem 0 "/x" high 40 100 scan 0 None)
                 (queue (after (runScoringPhase sampleWorld (sampleOptions false))
                               (runningEngine 0 [])))).
  { vm_compute. left. reflexivity. }
  exact (conj H (scoring_queues_pages_below_the_minimum sampleWorld (sampleOptions false)
                   (runningEngine 0 []) (mkQueueItem 0 "/x" high 40 100 scan 0 None) H)).
Defined.

(** The page [/y] is on the list of excluded URLs. *)
Lemma excluded_urls_are_left_alone_witness :
  let env := sampleWorld in
  let options := excludingOptions in
  let e := runningEngine 0 [] in
  isExcluded env options "/y" = true /\
  ~ In "/y"%string (urlsToAnalyze env options) /\
  ~ In "/y"%string (map url (queue (after (runScoringPhase env options) e))).
Proof.
  cbv zeta.
  pose proof (excluded_urls_are_left_alone sampleWorld excludingOptions (runningEngine 0 []) "/y")
    as [H1 H2].
  assert (X : isExcluded sampleWorld excludingOptions "/y" = true).
  { apply H1; [intros s; apply String.eqb_refl | left; reflexivity]. }
  destruct (H2 X) as [H3 [_ [H5 _]]].
  split; [exact X | split; [exact H3 | apply H5]].
  intros [].
Defined.

(** The three entries of the priority list, two of them for the same URL:
    four turns of the main loop. *)
Lemma priority_queue_is_worked_off_witness :
  let env := sampleWorld in
  let options := sampleOptions true in
  let e := newEngine 0 in
  let extra := 0%nat in
  priorityOnlyMode options = true /\
  priorityUrls options <> [] /\
  isRunning e = false /\ circuitBrokenUntil e = None /\
  (forall n, commands env n = []) /\
  (forall x, isWithinActiveHours env options x = true) /\
  (forall kw n, reportedQuality env kw n <> None) /\
  Z.of_nat (List.length (priorityUrls options)) < maxPerDay (config options) /\
  let turns := (S (List.length (priorityUrls options)) + extra)%nat in
  let e' := after (start env options turns) e in
  completion (start env options turns) e = Returned finished /\
  isRunning e' = false /\ get_status e' = idle /\ queue e' = [] /\
  exists new, emitted e' = new ++ emitted e /\
    NoDup (map h_url (historyOf new)) /\
    forall u, In u (map h_url (historyOf new)) <->
              In u (map p_url (priorityUrls options)) /\ isExcluded env options u = false.
Proof.
  cbv zeta.
  assert (H2 : priorityUrls (sampleOptions true) <> []) by discriminate.
  assert (H5 : forall n, commands sampleWorld n = []) by (intros n; reflexivity).
  assert (H6 : forall x, isWithinActiveHours sampleWorld (sampleOptions true) x = true)
    by (intros x; reflexivity).
  assert (H7 : forall kw n, reportedQuality sampleWorld kw n <> None)
    by (intros kw n; discriminate).
  assert (H8 : Z.of_nat (List.length (priorityUrls (sampleOptions true)))
               < maxPerDay (config (sampleOptions true))) by reflexivity.
  exact (conj eq_refl (conj H2 (conj eq_refl (conj eq_refl (conj H5 (conj H6 (conj H7 (conj H8
           (priority_queue_is_worked_off sampleWorld (sampleOptions true) (newEngine 0) 0%nat
              eq_refl H2 eq_refl eq_refl H5 H6 H7 H8))))))))).
Defined.

(** Two scores with a mean above 3; six equal scores. *)
Lemma quality_trend_of_short_and_steady_histories_witness :
  trend (getQualityTrend (set_qualityScoreHistory [90; 95] (newEngine 0))) = improving /\
  trend (getQualityTrend (set_qualityScoreHistory (repeat 80 6) (newEngine 0))) = stable.
Proof.
  pose proof (quality_trend_of_short_and_steady_histories
                (set_qualityScoreHistory [90; 95] (newEngine 0))) as [_ [H _]].
  pose proof (quality_trend_of_short_and_steady_histories
                (set_qualityScoreHistory (repeat 80 6) (newEngine 0))) as [_ [_ K]].
  cbv zeta in H, K.
  assert (L : (2 <= List.length (qualityScoreHistory
                                   (set_qualityScoreHistory [90; 95]%Z (newEngine 0))) <= 5)%nat).
  { split; [apply le_n | repeat constructor]. }
  destruct (H L) as [[_ H1] _].
  destruct (K 80 6%nat (le_n 6) eq_refl) as [K1 _].
  split; [apply H1; reflexivity | exact K1].
Defined.

(** A page on which no date is found. *)
Lemma page_age_bounds_the_score_witness :
  let a := Scorer.analyzeHtml offlinePlatform "/a" "<p>Hello</p>" in
  Scorer.lastModified (Scorer.freshness a) = None /\
  Scorer.daysSinceUpdate (Scorer.freshness a) = 999 /\
  Scorer.score a <= 80 /\
  In "Content is 999 days old"%string (Scorer.issues a).
Proof.
  cbv zeta.
  pose proof (page_age_bounds_the_score offlinePlatform "/a" "<p>Hello</p>") as [H1 [H2 _]].
  cbv zeta in H1, H2.
  assert (N : Scorer.lastModified
                (Scorer.freshness (Scorer.analyzeHtml offlinePlatform "/a" "<p>Hello</p>")) = None)
    by reflexivity.
  assert (D : 365 < Scorer.daysSinceUpdate
                      (Scorer.freshness (Scorer.analyzeHtml offlinePlatform "/a" "<p>Hello</p>")))
    by reflexivity.
  destruct (H2 D) as [H3 H4].
  split; [exact N | split; [exact (H1 N) | split; [exact H3 | exact H4]]].
Defined.

(** The engine on a scorer without network: the page cannot be fetched. *)
Lemma page_that_cannot_be_analysed_is_queued_at_zero_witness :
  let w := offlinePlatform in
  let duration := 100 in
  let env := sampleEnvironment (scorerOn w duration) (generatesAt 95) publishes in
  let options := sampleOptions false in
  let e := runningEngine 0 [] in
  let u := "/x"%string in
  Scorer.cannotBeAnalysed w u /\
  analyzePage env (analyzerCalls e) u
    = mkCall duration (Resolved (Scorer.score (Scorer.analyzePage w u))) /\
  0 < minHealthScore (config options) /\
  queued u e = false /\
  let a := Scorer.analyzePage w u in
  let e' := after (scoreOne env options u) e in
  Scorer.score a = 0 /\
  Scorer.recommendations a = ["Manual review required"%string] /\
  (exists message, Scorer.issues a = ["Failed to analyze: " +++ message]) /\
  exists it, queue e' = queue e ++ [it] /\ url it = u /\ healthScore it = 0 /\
             priority it = calculatePriority options 0 u /\
             (isPriorityUrl options u = false -> priority it = critical).
Proof.
  cbv zeta.
  assert (C : Scorer.cannotBeAnalysed offlinePlatform "/x").
  { right. exists "Failed to fetch"%string. reflexivity. }
  exact (conj C (conj eq_refl (conj eq_refl (conj eq_refl
           (page_that_cannot_be_analysed_is_queued_at_zero
              (sampleEnvironment (scorerOn offlinePlatform 100) (generatesAt 95) publishes)
              (sampleOptions false) offlinePlatform (runningEngine 0 []) "/x" 100
              C eq_refl eq_refl eq_refl))))).
Defined.

(** The sample page with the default options: one element is injected
    between the two paragraphs. *)
Lemma no_wall_of_text_is_left_witness :
  let w := samplePage in
  let opts := PostProcessor.DEFAULT_OPTIONS in
  let blocks := sampleBlocks in
  PostProcessor.breakElementCycle opts <> [] /\
  let pieces := PostProcessor.result (PostProcessor.enforceBlocks w opts blocks) in
  PostProcessor.blocksOf pieces = blocks /\
  Forall (fun run => (List.length run <= 1)%nat \/
                     Z.of_nat (PostProcessor.wordsOf run)
                     <= PostProcessor.maxConsecutiveWords opts)
         (PostProcessor.runsOf pieces).
Proof.
  cbv zeta.
  assert (H : PostProcessor.breakElementCycle PostProcessor.DEFAULT_OPTIONS <> [])
    by discriminate.
  exact (conj H (no_wall_of_text_is_left samplePage PostProcessor.DEFAULT_OPTIONS
                   sampleBlocks H)).
Defined.

Lemma process_modifies_exactly_the_walls_of_text_witness :
  let limitUndefined :=
    Some (PostProcessor.mkPartial (PostProcessor.present None) PostProcessor.absent
            PostProcessor.absent) in
  (exists s r,
     PostProcessor.enforceBlocksSpread samplePage (PostProcessor.withDefaults None) sampleBlocks
       (PostProcessor.mkEnforcement [] 0 0 EmptyString) = Returned s /\
     existsb PostProcessor.isInjected (PostProcessor.result s) = true /\
     PostProcessor.process samplePage "page" None = Returned r /\
     PostProcessor.wasModified r = true /\
     PostProcessor.p_html r
     = PostProcessor.join (map (PostProcessor.render samplePage) (PostProcessor.result s))) /\
  PostProcessor.violationsOf 200 sampleBlocks <> [] /\
  (exists r,
     PostProcessor.process samplePage "page" limitUndefined = Returned r /\
     PostProcessor.wasModified r = true /\
     PostProcessor.p_html r
     = PostProcessor.join
         (map (PostProcessor.render samplePage) (map PostProcessor.kept sampleBlocks))).
Proof.
  cbv zeta.
  assert (V : PostProcessor.violationsOf 200 sampleBlocks <> []) by (vm_compute; discriminate).
  split; [| split; [exact V |]].
  - pose proof (process_modifies_exactly_the_walls_of_text samplePage "page" None)
      as [_ [_ [H _]]].
    apply (H (PostProcessor.breakElementCycle PostProcessor.DEFAULT_OPTIONS)).
    + exact V.
    + discriminate.
    + reflexivity.
    + discriminate.
  - pose proof (process_modifies_exactly_the_walls_of_text samplePage "page"
                  (Some (PostProcessor.mkPartial (PostProcessor.present None) PostProcessor.absent
                           PostProcessor.absent)))
      as [_ [_ [_ [_ H]]]].
    destruct (H eq_refl) as [_ [_ H']].
    exact (H' V).
Defined.

(** The sample page under three options: the defaults, a limit key that
    holds [undefined], a cycle key that holds [undefined]. *)
Example process_on_the_sample_page :
  PostProcessor.process samplePage "page" None
  = Returned
      (PostProcessor.mkProcessed
         (PostProcessor.join
            ["<p>one</p>"; "<hr />"; "<p>two</p>"; "<h2>three</h2>"; "<p>four</p>"]%string)
         [PostProcessor.mkViolation 0 250] true) /\
  PostProcessor.process samplePage "page"
    (Some (PostProcessor.mkPartial (PostProcessor.present None) PostProcessor.absent
             PostProcessor.absent))
  = Returned
      (PostProcessor.mkProcessed
         (PostProcessor.join ["<p>one</p>"; "<p>two</p>"; "<h2>three</h2>"; "<p>four</p>"]%string)
         [PostProcessor.mkViolation 0 250] true) /\
  PostProcessor.process samplePage "page"
    (Some (PostProcessor.mkPartial PostProcessor.absent (PostProcessor.present None)
             PostProcessor.absent))
  = Thrown "TypeError: Cannot read properties of undefined (reading 'length')".
Proof.
  repeat split; vm_compute; reflexivity.
Qed.
